(** * Compacting squares: the grid store, the move model and the topology
    analyser of [world.ts] and [cube.ts], embedded as Rocq functions.

    Coordinates are integers ([Z]). The source keeps them in JavaScript
    numbers, on which a step [x + 1] or [x - 1] is the integer step as
    long as the coordinates are safe integers, at most
    [Number.MAX_SAFE_INTEGER] in absolute value; from [2 ^ 53] on a step
    can round back to the cell it starts from. [safeCoordinates] names
    the worlds inside that range.

    Arrays are lists read with [!!] and
    written with [<[i:=v]>]; the sparse column index [world[x][y].cubeId]
    is a finite map from cells to cube identifiers, an absent key standing
    for [cubeId === null]. A [World] is passed in and returned where the
    source mutates [this]; a [Move] is the pair of its cell and direction,
    and the world it refers to is an argument of its methods.

    A [while] loop is a function recursive on a bound of rounds; a loop
    that has not ended within its bound returns [Diverge], and the
    properties below show that this never happens. A read of a property
    of [undefined] or [null] is a [TypeError]; with a consistent index no
    such read occurs. *)

From stdpp Require Import gmap list.
From Stdlib Require Import ZArith Lia.

Local Open Scope Z_scope.

(** ** cube.ts *)

Record Color := mkColor { r : Z; g : Z; b : Z }.

Definition BLUE : Color := mkColor 68 187 248.

Inductive ComponentStatus :=
  | LINK_CUT | LINK_STABLE | CHUNK_CUT | CHUNK_STABLE | CONNECTOR | NONE.

Abbreviation Position := (Z * Z)%type (only parsing).

Record Cube := mkCube {
  p : Position;
  resetPosition : Position;
  color : Color;
  componentStatus : ComponentStatus;
  chunkId : Z;
  onBoundary : bool
}.

(** [new Cube(world, p, color)] *)
Definition newCube (q : Position) (c : Color) : Cube :=
  mkCube q q c NONE (-1) false.

Definition setComponentStatus (s : ComponentStatus) (c : Cube) : Cube :=
  mkCube (p c) (resetPosition c) (color c) s (chunkId c) (onBoundary c).

Definition setChunkId (k : Z) (c : Cube) : Cube :=
  mkCube (p c) (resetPosition c) (color c) (componentStatus c) k (onBoundary c).

Definition setOnBoundary (f : bool) (c : Cube) : Cube :=
  mkCube (p c) (resetPosition c) (color c) (componentStatus c) (chunkId c) f.

Definition setP (q : Position) (c : Cube) : Cube :=
  mkCube q (resetPosition c) (color c) (componentStatus c) (chunkId c) (onBoundary c).

#[global] Instance Color_eq_dec : EqDecision Color.
Proof. solve_decision. Defined.
#[global] Instance ComponentStatus_eq_dec : EqDecision ComponentStatus.
Proof. solve_decision. Defined.
#[global] Instance Cube_eq_dec : EqDecision Cube.
Proof. solve_decision. Defined.

(** ** world.ts: the grid store *)

Record World := mkWorld {
  world : gmap (Z * Z) nat;
  cubes : list Cube
}.

Definition emptyWorld : World := mkWorld ∅ [].

(** The kinds of failure of the error taxonomy; the source throws [Error]
    objects told apart by their message. *)
Inductive Err :=
  | OccupiedCell | EmptyCell | NoMovePath | InvalidMove | Disconnected
  | BadVersion
  | TypeError (* a property read on [undefined] or [null] *).

(** Outcome of a call: a value, an exception together with the world as it
    is when the exception leaves the call, or a loop that has not ended
    within its bound. *)
Inductive Result (A : Type) :=
  | Ok (a : A)
  | Throw (e : Err) (w : World)
  | Diverge.
Arguments Ok {A} a.
Arguments Throw {A} e w.
Arguments Diverge {A}.

#[global] Instance Result_bind : MBind Result := λ A B f x,
  match x with
  | Ok a => f a
  | Throw e w => Throw e w
  | Diverge => Diverge
  end.

Definition getCubeId (w : World) (q : Position) : option nat := world w !! q.

Definition getCube (w : World) (q : Position) : option Cube :=
  match getCubeId w q with
  | None => None
  | Some id => cubes w !! id
  end.

Definition hasCube (w : World) (q : Position) : bool :=
  bool_decide (is_Some (getCube w q)).

Definition addCubeUnmarked (w : World) (q : Position) (c : Color)
  : Result World :=
  if hasCube w q then Throw OccupiedCell w
  else Ok (mkWorld (<[q := length (cubes w)]> (world w))
                   (cubes w ++ [newCube q c])).

Definition moveCubeUnmarked (w : World) (from to : Position) : Result World :=
  if negb (hasCube w from) then Throw EmptyCell w
  else if hasCube w to then Throw OccupiedCell w
  else match getCubeId w from with
       | None => Throw EmptyCell w
       | Some id =>
           Ok (mkWorld (<[to := id]> (delete from (world w)))
                       (alter (setP to) id (cubes w)))
       end.

(** [for (i = 0; i < cubes.length; i++) getCell(cubes[i].p).cubeId = i] *)
Fixpoint reindex (m : gmap (Z * Z) nat) (i : nat) (cs : list Cube)
  : gmap (Z * Z) nat :=
  match cs with
  | [] => m
  | c :: cs' => reindex (<[p c := i]> m) (S i) cs'
  end.

(** [cubes.filter((b) => b !== cube)] compares object identities: it drops
    the one cube stored at index [id]. *)
Definition removeCubeUnmarked (w : World) (q : Position) : Result World :=
  if negb (hasCube w q) then Throw EmptyCell w
  else match getCubeId w q with
       | None => Throw EmptyCell w
       | Some id =>
           let cs := delete id (cubes w) in
           Ok (mkWorld (reindex (delete q (world w)) 0 cs) cs)
       end.

(** ** world.ts: the move model *)

Inductive MoveDirection :=
  | N | E | S | W | NW | NE | EN | ES | SE | SW | WS | WN.

#[global] Instance MoveDirection_eq_dec : EqDecision MoveDirection.
Proof. solve_decision. Defined.

(** [Object.keys(MoveDirection)], in declaration order. *)
Definition allDirections : list MoveDirection :=
  [N; E; S; W; NW; NE; EN; ES; SE; SW; WS; WN].

(** The compass keys of [hasNeighbors]. *)
Inductive Compass :=
  | cN | cNE | cE | cSE | cS | cSW | cW | cNW.

#[global] Instance Compass_eq_dec : EqDecision Compass.
Proof. solve_decision. Defined.

(** The characters of a direction's string value. *)
Definition letters (d : MoveDirection) : list Compass :=
  match d with
  | N => [cN] | E => [cE] | S => [cS] | W => [cW]
  | NW => [cN; cW] | NE => [cN; cE] | EN => [cE; cN] | ES => [cE; cS]
  | SE => [cS; cE] | SW => [cS; cW] | WS => [cW; cS] | WN => [cW; cN]
  end.

(** One [position[0]++], [position[1]--], ... of [targetPosition] and of
    the outside walk; the integer step, which is what the source computes
    on safe integers. *)
Definition stepLetter (q : Position) (c : Compass) : Position :=
  let '(x, y) := q in
  match c with
  | cN => (x, y + 1)
  | cS => (x, y - 1)
  | cE => (x + 1, y)
  | cW => (x - 1, y)
  | _ => (x, y)
  end.

Definition targetPositionFromFields (q : Position) (d : list Compass)
  : Position :=
  fold_left stepLetter d q.

Record Move := mkMove { position : Position; direction : MoveDirection }.

#[global] Instance Move_eq_dec : EqDecision Move.
Proof. solve_decision. Defined.

Definition sourcePosition (m : Move) : Position := position m.

Definition targetPosition (m : Move) : Position :=
  targetPositionFromFields (position m) (letters (direction m)).

Definition offset (c : Compass) : Z * Z :=
  match c with
  | cN => (0, 1) | cNE => (1, 1) | cE => (1, 0) | cSE => (1, -1)
  | cS => (0, -1) | cSW => (-1, -1) | cW => (-1, 0) | cNW => (-1, 1)
  end.

(** The cell [[x + dx, y + dy]] of a compass key, with integer sums: the
    sums of the source on safe integers. *)
Definition shift (q : Position) (c : Compass) : Position :=
  (q.1 + (offset c).1, q.2 + (offset c).2).

(** [hasNeighbors(p)]: the object with the eight compass keys, read at one
    key. *)
Definition hasNeighbors (w : World) (q : Position) (c : Compass) : bool :=
  hasCube w (shift q c).

Definition isValidIgnoreConnectivity (w : World) (m : Move) : bool :=
  if hasCube w (targetPosition m) then false
  else
    let has := hasNeighbors w (position m) in
    match direction m with
    | N => (has cW && has cNW) || (has cE && has cNE)
    | E => (has cN && has cNE) || (has cS && has cSE)
    | S => (has cW && has cSW) || (has cE && has cSE)
    | W => (has cN && has cNW) || (has cS && has cSW)
    | d =>
        match letters d with
        | [d1; d2] => negb (has d1) && has d2
        | _ => false
        end
    end.

(** ** world.ts: connectivity *)

(** The four cells read by the searches, in the source's order:
    [x - 1], [x + 1], [y - 1], [y + 1]. *)
Definition neighborCells (q : Position) : list Position :=
  [(q.1 - 1, q.2); (q.1 + 1, q.2); (q.1, q.2 - 1); (q.1, q.2 + 1)].

(** [if (c.cubeId) queue.push(c.cubeId)]: identifier 0 is falsy, like
    [null]. *)
Definition truthyId (o : option nat) : option nat :=
  match o with
  | Some O => None
  | _ => o
  end.

Definition isSeen (seen : list bool) (i : nat) : bool :=
  match seen !! i with
  | Some true => true
  | _ => false
  end.

Fixpoint isConnectedLoop (fuel : nat) (w : World) (seen : list bool)
    (seenCount : nat) (queue : list nat) : Result nat :=
  match queue with
  | [] => Ok seenCount
  | cubeId :: queue' =>
      match fuel with
      | O => Diverge
      | Datatypes.S fuel' =>
          if isSeen seen cubeId then
            isConnectedLoop fuel' w seen seenCount queue'
          else
            match cubes w !! cubeId with
            | None => Throw TypeError w
            | Some cube =>
                isConnectedLoop fuel' w (<[cubeId := true]> seen)
                  (Datatypes.S seenCount)
                  (queue' ++ omap (λ c, truthyId (getCubeId w c))
                                  (neighborCells (p cube)))
            end
      end
  end.

(** The loop visits each cube at most once and a visit pushes at most four
    identifiers, so it ends within [4 * cubes.length + 1] rounds. *)
Definition isConnectedFuel (w : World) : nat :=
  (4 * length (cubes w) + 2)%nat.

Definition isConnected (w : World) (skip : option Position) : Result bool :=
  let n := length (cubes w) in
  if bool_decide (n = 0%nat) then Ok true
  else
    let '(seen, seenCount, queue) :=
      match skip with
      | None => (replicate n false, 0%nat, [0%nat])
      | Some s =>
          match getCubeId w s with
          | None => (replicate n false, 0%nat, [0%nat])
          | Some skipIndex =>
              (<[skipIndex := true]> (replicate n false), 1%nat,
               if bool_decide (skipIndex = 0%nat) && bool_decide (1 < n)%nat
               then [1%nat] else [0%nat])
          end
      end in
    seenCount' ← isConnectedLoop (isConnectedFuel w) w seen seenCount queue ;
    Ok (bool_decide (n = seenCount')).

Definition isValid (w : World) (m : Move) : Result bool :=
  if negb (isValidIgnoreConnectivity w m) then Ok false
  else
    c ← isConnected w (Some (position m)) ;
    if negb c then Ok false else Ok true.

Definition validMovesFrom (w : World) (q : Position) : Result (list Move) :=
  c ← isConnected w (Some q) ;
  if negb c then Ok []
  else Ok (filter (λ m, isValidIgnoreConnectivity w m = true)
                  (map (mkMove q) allDirections)).

(** ** world.ts: the move graph planner *)

Fixpoint movePathLoop (fuel : nat) (w : World) (to : Position)
    (seen : gmap (Z * Z) (option Move))
    (queue : list (Position * option Move))
  : Result (gmap (Z * Z) (option Move)) :=
  match queue with
  | [] => Ok seen
  | (location, mv) :: queue' =>
      match fuel with
      | O => Diverge
      | Datatypes.S fuel' =>
          if bool_decide (is_Some (seen !! location)) then
            movePathLoop fuel' w to seen queue'
          else
            let seen' := <[location := mv]> seen in
            if bool_decide (location = to) then Ok seen'
            else
              moves ← validMovesFrom w location ;
              movePathLoop fuel' w to seen'
                (queue' ++ map (λ m, (targetPosition m, Some m)) moves)
      end
  end.

(** Walks the recorded parent moves from [c] back to [from]; [path.unshift]
    puts each move in front. *)
Fixpoint reconstructPath (fuel : nat) (w : World)
    (seen : gmap (Z * Z) (option Move)) (from c : Position)
    (path : list Move) : Result (list Move) :=
  if bool_decide (c = from) then Ok path
  else
    match fuel with
    | O => Diverge
    | Datatypes.S fuel' =>
        match seen !! c with
        | Some (Some move) =>
            reconstructPath fuel' w seen from (sourcePosition move)
              (move :: path)
        | _ => Throw TypeError w
        end
    end.

(** Every cell the search visits, the source cell apart, lies next to a
    cube, and a visit pushes at most twelve moves. *)
Definition movePathFuel (w : World) : nat :=
  (12 * (4 * length (cubes w) + 1) + 2)%nat.

(** [addCubeUnmarked(cube.p, cube.color)] followed by
    [newCube.componentStatus = cube.componentStatus]. *)
Definition restoreCube (w : World) (cube : Cube) : Result World :=
  w' ← addCubeUnmarked w (p cube) (color cube) ;
  Ok (mkWorld (world w')
        (alter (setComponentStatus (componentStatus cube))
               (length (cubes w)) (cubes w'))).

(** The generator's body up to its [yield*]: the world it leaves and the
    moves it will yield, in order. A missing source cube is reported as
    [EmptyCell]. *)
Definition shortestMovePath (w : World) (from to : Position)
  : Result (World * list Move) :=
  match getCube w from with
  | None => Throw EmptyCell w
  | Some cube =>
      w1 ← removeCubeUnmarked w from ;
      seen ← movePathLoop (movePathFuel w1) w1 to ∅ [(from, None)] ;
      if negb (bool_decide (is_Some (seen !! to))) then
        w2 ← restoreCube w1 cube ;
        Throw NoMovePath w2
      else
        path ← reconstructPath (Datatypes.S (size seen)) w1 seen from to [] ;
        w2 ← restoreCube w1 cube ;
        Ok (w2, path)
  end.

(** ** world.ts: the outside walk *)

(** [Array.prototype.min]: [Infinity] on an empty array, which the callers
    exclude by their guard on [cubes.length]. *)
Definition arrayMin (l : list Z) : option Z :=
  match l with
  | [] => None
  | x :: l' => Some (fold_left Z.min l' x)
  end.

Definition downmostLeftmost (w : World) : option Cube :=
  match arrayMin (map (λ c, (p c).2) (cubes w)) with
  | None => None
  | Some lowestY =>
      match arrayMin (map (λ c, (p c).1)
               (filter (λ c, (p c).2 = lowestY) (cubes w))) with
      | None => None
      | Some lowestX => getCube w (lowestX, lowestY)
      end
  end.

(** The table [bends]; the walk only ever holds one of the four cardinal
    letters. *)
Definition bends (d : Compass) : list Compass :=
  match d with
  | cN => [cE; cN; cW; cS]
  | cE => [cS; cE; cN; cW]
  | cS => [cW; cS; cE; cN]
  | cW => [cN; cW; cS; cE]
  | _ => []
  end.

Definition nextOnOutside (w : World) (q : Position) (d : Compass)
  : option Compass :=
  head (filter (λ dir, hasNeighbors w q dir = true) (bends d)).

(** One edge of the walk: the cell left and the direction taken, the key
    ["x y direction"] of [edgesSeen]. *)
Abbreviation Edge := (Position * Compass)%type (only parsing).

(** The loop of [outsideCubes]. Besides the list [outside] it returns
    [edgesSeen], in insertion order. A [position] without a cube is read as
    a [TypeError]: the walk only steps onto cells [hasNeighbors] reported
    as occupied. *)
Fixpoint outsideLoop (fuel : nat) (w : World) (outside : list Cube)
    (edgesSeen : list Edge) (position : Position) (direction : Compass)
  : Result (list Cube * list Edge) :=
  match fuel with
  | O => Diverge
  | Datatypes.S fuel' =>
      match getCube w position with
      | None => Throw TypeError w
      | Some cube =>
          let outside := outside ++ [cube] in
          match nextOnOutside w position direction with
          | None => Ok (outside, edgesSeen)
          | Some direction =>
              let newEdge := (p cube, direction) in
              if bool_decide (newEdge ∈ edgesSeen) then Ok (outside, edgesSeen)
              else outsideLoop fuel' w outside (edgesSeen ++ [newEdge])
                     (stepLetter position direction) direction
          end
      end
  end.

(** Every round but the last adds a new edge, and there are at most four
    edges per cube. *)
Definition outsideFuel (w : World) : nat := (4 * length (cubes w) + 2)%nat.

Definition outsideWalk (w : World) : Result (list Cube * list Edge) :=
  if bool_decide (length (cubes w) = 0%nat) then Ok ([], [])
  else
    match downmostLeftmost w with
    | None => Throw TypeError w
    | Some start => outsideLoop (outsideFuel w) w [] [] (p start) cS
    end.

Definition outsideCubes (w : World) : Result (list Cube) :=
  r ← outsideWalk w; Ok r.1.

(** ** world.ts: cut cubes *)

Record Dfs := mkDfs {
  dseen : list bool;
  dparent : list (option nat);
  ddepth : list Z;
  dlow : list Z;
  dstable : list bool
}.

Definition getZ (l : list Z) (i : nat) : Z := default (-1) (l !! i).

(** The body of the [forEach] callback of [findCubeStabilityRecursive], for
    one neighbouring cell; [rec] is the recursive call. The accumulator is
    the arrays, [cutCube] and [childCount]. *)
Definition stabilityVisit (w : World) (rec : nat → Dfs → Result Dfs)
    (i : nat) (acc : Dfs * bool * nat) (c : Position)
  : Result (Dfs * bool * nat) :=
  let '(st, cutCube, childCount) := acc in
  match getCubeId w c with
  | None => Ok acc
  | Some cid =>
      if negb (isSeen (dseen st) cid) then
        st1 ← rec cid (mkDfs (dseen st) (<[cid := Some i]> (dparent st))
                         (ddepth st) (dlow st) (dstable st));
        let cutCube' :=
          if bool_decide (getZ (ddepth st1) i ≤ getZ (dlow st1) cid)
          then true else cutCube in
        Ok (mkDfs (dseen st1) (dparent st1) (ddepth st1)
              (<[i := Z.min (getZ (dlow st1) i) (getZ (dlow st1) cid)]>
                 (dlow st1))
              (dstable st1),
            cutCube', Datatypes.S childCount)
      else if negb (bool_decide (Some cid = default None (dparent st !! i)))
      then
        Ok (mkDfs (dseen st) (dparent st) (ddepth st)
              (<[i := Z.min (getZ (dlow st) i) (getZ (ddepth st) cid)]>
                 (dlow st))
              (dstable st),
            cutCube, childCount)
      else Ok acc
  end.

Fixpoint foldResult {A B} (f : A → B → Result A) (l : list B) (a : A)
  : Result A :=
  match l with
  | [] => Ok a
  | x :: l' => a' ← f a x; foldResult f l' a'
  end.

Fixpoint findCubeStabilityRecursive (fuel : nat) (w : World) (i : nat)
    (d : Z) (st : Dfs) : Result Dfs :=
  match fuel with
  | O => Diverge
  | Datatypes.S fuel' =>
      let st0 := mkDfs (<[i := true]> (dseen st)) (dparent st)
                   (<[i := d]> (ddepth st)) (<[i := d]> (dlow st))
                   (dstable st) in
      match cubes w !! i with
      | None => Throw TypeError w
      | Some cube =>
          '(st1, cutCube, childCount) ←
            foldResult
              (stabilityVisit w
                 (λ j, findCubeStabilityRecursive fuel' w j (d + 1)) i)
              (neighborCells (p cube)) (st0, false, 0%nat);
          let s :=
            match default None (dparent st1 !! i) with
            | None => bool_decide (childCount ≤ 1)%nat
            | Some _ => negb cutCube
            end in
          Ok (mkDfs (dseen st1) (dparent st1) (ddepth st1) (dlow st1)
                (<[i := s]> (dstable st1)))
      end
  end.

(** A nested call marks a cube not seen before, so the recursion is at
    most [cubes.length] deep. *)
Definition findCubeStability (w : World) : Result (list bool) :=
  let n := length (cubes w) in
  if bool_decide (n = 0%nat) then Ok []
  else
    st ← findCubeStabilityRecursive (Datatypes.S n) w 0 0
           (mkDfs (replicate n false) (replicate n None) (replicate n (-1))
                  (replicate n (-1)) (replicate n true));
    Ok (dstable st).

(** ** world.ts: chunks, links and connectors *)

Definition degree (w : World) (c : Cube) : nat :=
  let has := hasNeighbors w (p c) in
  ((if has cN then 1 else 0) + (if has cE then 1 else 0) +
   (if has cS then 1 else 0) + (if has cW then 1 else 0))%nat.

Definition getOneNeighbor (w : World) (c : Cube) : option Cube :=
  let '(x, y) := p c in
  match getCube w (x + 1, y) with
  | Some n => Some n
  | None =>
      match getCube w (x - 1, y) with
      | Some n => Some n
      | None =>
          match getCube w (x, y + 1) with
          | Some n => Some n
          | None => getCube w (x, y - 1)
          end
      end
  end.

(** The inner [while] of [findComponents]; the stack is kept with its top
    at the head. *)
Fixpoint popChunk (stack : list nat) (cubeId : nat)
    (components chunkIds : list Z) (chunksSeen : Z)
  : list nat * list Z * list Z :=
  match stack with
  | cId :: ((_ :: _) as rest) =>
      if bool_decide (cId ≠ cubeId) then
        popChunk rest cubeId
          (<[cId := if bool_decide (getZ components cId ≠ -1) then 3 else 2]>
             components)
          (<[cId := chunksSeen]> chunkIds) chunksSeen
      else (stack, components, chunkIds)
  | _ => (stack, components, chunkIds)
  end.

Record Walk := mkWalk {
  wcomponents : list Z;
  wchunkIds : list Z;
  wseen : list bool;
  wstack : list nat;
  wchunksSeen : Z
}.

Definition setIfUnset (i : nat) (v : Z) (l : list Z) : list Z :=
  if bool_decide (getZ l i = -1) then <[i := v]> l else l.

(** One round of the walk over [outside]. *)
Definition componentStep (w : World) (s : Walk) (cube : Cube)
  : Result Walk :=
  match getCubeId w (p cube) with
  | None => Throw TypeError w
  | Some cubeId =>
      if negb (isSeen (wseen s) cubeId) then
        Ok (mkWalk (wcomponents s) (wchunkIds s)
              (<[cubeId := true]> (wseen s)) (cubeId :: wstack s)
              (wchunksSeen s))
      else
        let chunk :=
          let '(stack, components, chunkIds) :=
            popChunk (wstack s) cubeId (wcomponents s) (wchunkIds s)
              (wchunksSeen s) in
          match stack with
          | cId :: _ =>
              mkWalk
                (<[cId := if bool_decide (1 < length stack)%nat
                          then 3 else 2]> components)
                (<[cId := wchunksSeen s]> chunkIds)
                (wseen s) stack (wchunksSeen s + 1)
          | [] =>
              mkWalk components chunkIds (wseen s) stack (wchunksSeen s + 1)
          end in
        match wstack s with
        | cId :: second :: rest =>
            if bool_decide (second = cubeId) then
              Ok (mkWalk
                    (setIfUnset cubeId 1 (setIfUnset cId 1 (wcomponents s)))
                    (wchunkIds s) (wseen s) (second :: rest) (wchunksSeen s))
            else Ok chunk
        | _ => Ok chunk
        end
  end.

(** One round of the final loop of [findComponents] ("mark loose squares
    as part of a chunk"). *)
Definition looseStep (w : World) (acc : list Z * list Z) (i : nat)
  : Result (list Z * list Z) :=
  let '(components, chunkIds) := acc in
  match cubes w !! i with
  | None => Throw TypeError w
  | Some ci =>
      if bool_decide (getZ components i = 1)
         && bool_decide (degree w ci = 1%nat) then
        match getOneNeighbor w ci with
        | None => Throw TypeError w
        | Some neighbor =>
            match getCubeId w (p neighbor) with
            | None => Throw TypeError w
            | Some neighborIndex =>
                if bool_decide (getZ components neighborIndex = 3) then
                  let components := <[i := 2]> components in
                  let chunkIds :=
                    <[i := getZ chunkIds neighborIndex]> chunkIds in
                  let shouldRemoveConnector :=
                    forallb
                      (λ q, match getCube w q with
                            | None => true
                            | Some c =>
                                match getCubeId w (p c) with
                                | None => true
                                | Some k =>
                                    negb (bool_decide (getZ components k = 1))
                                end
                            end)
                      (neighborCells (p neighbor)) in
                  Ok (if shouldRemoveConnector
                      then <[neighborIndex := 2]> components
                      else components,
                      chunkIds)
                else Ok acc
            end
        end
      else Ok acc
  end.

Definition findComponents (w : World) : Result (list Z * list Z) :=
  let n := length (cubes w) in
  let components := replicate n (-1) in
  let chunkIds := replicate n (-1) in
  if bool_decide (n = 0%nat) then Ok (components, chunkIds)
  else
    c ← isConnected w None;
    if negb c then Ok (components, chunkIds)
    else
      outside ← outsideCubes w;
      s ← foldResult (componentStep w) outside
            (mkWalk components chunkIds (replicate n false) [] 0);
      match outside with
      | [] => Throw TypeError w
      | first :: _ =>
          match getCubeId w (p first) with
          | None => Throw TypeError w
          | Some originId =>
              let components := setIfUnset originId 1 (wcomponents s) in
              let components :=
                map (λ v, if bool_decide (v = -1) then 2 else v) components in
              foldResult (looseStep w) (seq 0 n) (components, wchunkIds s)
          end
      end.

Definition statusOf (component : Z) (stable : bool) : ComponentStatus :=
  if bool_decide (component = 2) then
    if stable then CHUNK_STABLE else CHUNK_CUT
  else if bool_decide (component = 1) then
    if stable then LINK_STABLE else LINK_CUT
  else if bool_decide (component = 3) then CONNECTOR
  else NONE.

(** The cubes of [outside] are references into [cubes]; the flag is set on
    the cube the index holds at the reference's cell. *)
Definition markBoundary (w : World) (cs : list Cube) (c : Cube) : list Cube :=
  match getCubeId w (p c) with
  | None => cs
  | Some id => alter (setOnBoundary true) id cs
  end.

Definition markComponents (w : World) : Result World :=
  '(components, chunkIds) ← findComponents w;
  stable ← findCubeStability w;
  let cs :=
    imap (λ i c,
            setOnBoundary false
              (setChunkId (getZ chunkIds i)
                 (setComponentStatus
                    (statusOf (getZ components i) (isSeen stable i)) c)))
         (cubes w) in
  outside ← outsideCubes (mkWorld (world w) cs);
  Ok (mkWorld (world w) (foldl (markBoundary w) cs outside)).

Definition addCube (w : World) (q : Position) (c : Color) : Result World :=
  w' ← addCubeUnmarked w q c; markComponents w'.

Definition moveCube (w : World) (from to : Position) : Result World :=
  w' ← moveCubeUnmarked w from to; markComponents w'.

Definition removeCube (w : World) (q : Position) : Result World :=
  w' ← removeCubeUnmarked w q; markComponents w'.

(** ** world.ts: bridge capacity *)

Fixpoint bridgeLoop (fuel : nat) (w : World) (bId : option nat)
    (seen : list bool) (cubeCount : nat) (queue : list nat) : Result nat :=
  match queue with
  | [] => Ok cubeCount
  | cubeId :: queue' =>
      match fuel with
      | O => Diverge
      | Datatypes.S fuel' =>
          if isSeen seen cubeId then
            bridgeLoop fuel' w bId seen cubeCount queue'
          else
            match cubes w !! cubeId with
            | None => Throw TypeError w
            | Some cube =>
                bridgeLoop fuel' w bId (<[cubeId := true]> seen)
                  (if bool_decide (bId ≠ Some cubeId)
                   then Datatypes.S cubeCount else cubeCount)
                  (queue' ++ omap (getCubeId w) (neighborCells (p cube)))
            end
      end
  end.

(** [getCubeId(b.p)!] only silences the type checker: when the cell of [b]
    holds no cube, [bId] is [null], [seen[bId] = true] sets the property
    ["null"] of the array and marks no cube, and [bId !== cubeId] holds
    for every cube. The root is read from [downmostLeftmost()!.p], a
    [TypeError] in a world without cubes. An [originId] of [null] (the
    root's cell missing from the index) is skipped as seen when [bId] is
    [null] too, and otherwise leads to the read [cube.p] of
    [cubes[null]]. *)
Definition bridgeCapacity (w : World) (b : Cube) : Result Z :=
  let n := length (cubes w) in
  let bId := getCubeId w (p b) in
  let seen :=
    match bId with
    | Some i => <[i := true]> (replicate n false)
    | None => replicate n false
    end in
  match downmostLeftmost w with
  | None => Throw TypeError w
  | Some root =>
      match getCubeId w (p root) with
      | Some originId =>
          cubeCount ← bridgeLoop (isConnectedFuel w) w bId seen 1 [originId];
          Ok (Z.of_nat n - Z.of_nat cubeCount)
      | None =>
          match bId with
          | None => Ok (Z.of_nat n - 1)
          | Some _ => Throw TypeError w
          end
      end
  end.

(** ** world.ts: save files *)

(** The document [JSON.stringify] writes and [JSON.parse] reads back: an
    object with [_version] and [cubes], each cube with [x], [y] and an
    optional [color] array. The text in between is not modelled. *)
Record CubeJson := mkCubeJson {
  jx : Z;
  jy : Z;
  jcolor : option (Z * Z * Z)
}.

Record SaveFile := mkSaveFile {
  version : Z;
  jcubes : list CubeJson
}.

Definition serialize (w : World) : SaveFile :=
  mkSaveFile 1
    (map (λ cube,
            mkCubeJson (resetPosition cube).1 (resetPosition cube).2
              (Some (r (color cube), g (color cube), b (color cube))))
         (cubes w)).

Definition deserializeCube (w : World) (cube : CubeJson) : Result World :=
  let color :=
    match jcolor cube with
    | None => BLUE
    | Some (cr, cg, cb) => mkColor cr cg cb
    end in
  addCube w (jx cube, jy cube) color.

Definition deserialize (w : World) (data : SaveFile) : Result World :=
  if bool_decide (1 < version data) then Throw BadVersion w
  else foldResult deserializeCube (jcubes data) w.

(** ** world.ts: the stepper *)

Definition executeUnmarked (w : World) (m : Move) : Result World :=
  moveCubeUnmarked w (position m) (targetPosition m).

(** The moves of a generator pulled and committed one after the other as
    [nextStepUnmarked] does: each move is checked with [isValid] when it is
    pulled, in the world the moves before it have produced, and then
    executed. *)
Fixpoint runMoves (w : World) (ms : list Move) : Result World :=
  match ms with
  | [] => Ok w
  | m :: ms' =>
      v ← isValid w m;
      if negb v then Throw InvalidMove w
      else w' ← executeUnmarked w m; runMoves w' ms'
  end.

(** The same with [nextStep], which commits a move with [execute], that
    is [moveCube], and so marks the components after every move. *)
Fixpoint runMovesMarked (w : World) (ms : list Move) : Result World :=
  match ms with
  | [] => Ok w
  | m :: ms' =>
      v ← isValid w m;
      if negb v then Throw InvalidMove w
      else w' ← moveCube w (position m) (targetPosition m);
           runMovesMarked w' ms'
  end.

(** ** Worlds used in the examples *)

Definition cubeAt (q : Position) : CubeJson := mkCubeJson q.1 q.2 None.

Definition instance (cells : list Position) : SaveFile :=
  mkSaveFile 1 (map cubeAt cells).

Definition statusAt (w : World) (q : Position) : option ComponentStatus :=
  componentStatus <$> getCube w q.

Definition cellsOf (w : World) : list Position := map p (cubes w).

(** ** The invariant of the grid store

    [index[cube[i].pos] == i] for every [i], and every entry of the index
    points to a cube at that cell. *)
Definition consistent (w : World) : Prop :=
  (∀ i c, cubes w !! i = Some c → world w !! p c = Some i) ∧
  (∀ q i, world w !! q = Some i → ∃ c, cubes w !! i = Some c ∧ p c = q).

Definition consistentb (w : World) : bool :=
  forallb (λ ic, bool_decide (world w !! p ic.2 = Some ic.1))
          (imap pair (cubes w))
  && forallb (λ qi, bool_decide (p <$> cubes w !! qi.2 = Some qi.1))
             (map_to_list (world w)).

(** ** The range of the coordinates *)

(** [Number.MAX_SAFE_INTEGER] *)
Definition MAX_SAFE_INTEGER : Z := 2 ^ 53 - 1.

(** The coordinates of [q] are safe integers, and stay so when each is
    moved by up to [margin]. *)
Definition safeCell (margin : Z) (q : Position) : Prop :=
  Z.abs q.1 + margin ≤ MAX_SAFE_INTEGER ∧
  Z.abs q.2 + margin ≤ MAX_SAFE_INTEGER.

(** Every cube stands on such a cell. With margin 0 the cells next to a
    cube are computed by the source as they are here. *)
Definition safeCoordinates (margin : Z) (w : World) : Prop :=
  Forall (λ c, safeCell margin (p c)) (cubes w).

Definition safeCoordinatesb (margin : Z) (w : World) : bool :=
  forallb (λ c, (Z.abs (p c).1 + margin <=? MAX_SAFE_INTEGER) &&
                (Z.abs (p c).2 + margin <=? MAX_SAFE_INTEGER))
          (cubes w).

(** ** Notions the properties are stated with *)

(** Orthogonal adjacency of cells. *)
Definition adjacent (a b : Position) : Prop := b ∈ neighborCells a.

(** The occupied cells, the cell [skip] left out when one is given. *)
Definition occupiedExcept (w : World) (skip : option Position)
    (q : Position) : Prop :=
  hasCube w q = true ∧ skip ≠ Some q.

(** A set of cells is 4-connected when any two of its cells are joined by a
    path of orthogonal steps that stays inside the set. *)
Definition connected4 (S : Position → Prop) : Prop :=
  ∀ a b, S a → S b → rtc (λ x y, adjacent x y ∧ S y) a b.

(** ** The breadth-first search shared by [isConnected] and
    [bridgeCapacity]

    Both loops are the same search over cube identifiers; they differ in
    the test that guards [queue.push] and in what they count. [search] is
    that loop with the guard as a parameter, returning the array [seen]. *)
Fixpoint countTrue (l : list bool) : nat :=
  match l with
  | [] => 0
  | true :: l' => Datatypes.S (countTrue l')
  | false :: l' => countTrue l'
  end.

Definition succs (w : World) (push : option nat → option nat) (i : nat)
  : list nat :=
  match cubes w !! i with
  | None => []
  | Some c => omap (λ q, push (getCubeId w q)) (neighborCells (p c))
  end.

Fixpoint search (w : World) (push : option nat → option nat) (fuel : nat)
    (seen : list bool) (queue : list nat) : Result (list bool) :=
  match queue with
  | [] => Ok seen
  | i :: queue' =>
      match fuel with
      | O => Diverge
      | Datatypes.S fuel' =>
          if isSeen seen i then search w push fuel' seen queue'
          else
            match cubes w !! i with
            | None => Throw TypeError w
            | Some _ =>
                search w push fuel' (<[i := true]> seen)
                  (queue' ++ succs w push i)
            end
      end
  end.

(** An edge the search can follow from the array [seen]: out of a cube not
    yet marked, to a cube it would push. *)
Definition searchEdge (w : World) (push : option nat → option nat)
    (seen : list bool) (x y : nat) : Prop :=
  isSeen seen x = false ∧ y ∈ succs w push x.

(** A quarter turn clockwise, of a compass key and of a slide. *)
Definition turn (c : Compass) : Compass :=
  match c with
  | cN => cE | cNE => cSE | cE => cS | cSE => cSW
  | cS => cW | cSW => cNW | cW => cN | cNW => cNE
  end.

Definition turnSlide (d : MoveDirection) : MoveDirection :=
  match d with
  | N => E | E => S | S => W | W => N
  | d => d
  end.

(** The target cell of a move is free. *)
Definition targetEmpty (w : World) (m : Move) : bool :=
  negb (hasCube w (targetPosition m)).

(** The two-letter directions. *)
Definition cornerDirections : list MoveDirection :=
  [NW; NE; EN; ES; SE; SW; WS; WN].

(** The world holding one unmarked default cube on each of the given
    cells, as [addCubeUnmarked] builds it. *)
Definition worldOfCells (cells : list Position) : World :=
  mkWorld (list_to_map (imap (λ i q, (q, i)) cells))
          (map (λ q, newCube q BLUE) cells).

(** The world [deserialize] loads from an instance. *)
Definition loaded (cells : list Position) : World :=
  match deserialize emptyWorld (instance cells) with
  | Ok w => w
  | _ => emptyWorld
  end.

(** The reading of [isValid] under test: a move is valid exactly when its
    target cell is empty and executing it leaves a 4-connected
    configuration. *)
Definition isValidClaim (w : World) (m : Move) : Prop :=
  isValid w m = Ok true ↔
  (hasCube w (targetPosition m) = false ∧
   ∃ w', executeUnmarked w m = Ok w' ∧ connected4 (occupiedExcept w' None)).

(** ** The outside walk as a map on edges *)

Definition cardinal (d : Compass) : bool :=
  match d with
  | cN | cE | cS | cW => true
  | _ => false
  end.

Definition opposite (d : Compass) : Compass := turn (turn d).

(** An edge joins two occupied cells along a cardinal direction. *)
Definition validEdge (w : World) (e : Edge) : Prop :=
  cardinal e.2 = true ∧ hasCube w e.1 = true ∧
  hasCube w (stepLetter e.1 e.2) = true.

(** The edge the walk takes after the edge [e]. *)
Definition nextEdge (w : World) (e : Edge) : option Edge :=
  let q := stepLetter e.1 e.2 in
  (λ d, (q, d)) <$> nextOnOutside w q e.2.

(** Consecutive edges of a list follow one another in the walk. *)
Definition walkChain (w : World) (edges : list Edge) : Prop :=
  ∀ i e e', edges !! i = Some e → edges !! Datatypes.S i = Some e' →
            nextEdge w e = Some e'.

(** The indices marked in an array [seen], counted from [k]. *)
Fixpoint idsFrom (k : nat) (l : list bool) : list nat :=
  match l with
  | [] => []
  | true :: l' => k :: idsFrom (Datatypes.S k) l'
  | false :: l' => idsFrom (Datatypes.S k) l'
  end.

(** ** Bridge capacity *)

(** The cell [q] can be reached from the root cube by orthogonal steps over
    occupied cells once the cube [b] is deleted. *)
Definition bridgeReach (w : World) (b root : Cube) (q : Position) : Prop :=
  occupiedExcept w (Some (p b)) (p root) ∧
  rtc (λ x y, adjacent x y ∧ occupiedExcept w (Some (p b)) y) (p root) q.

(** The reading of [bridgeCapacity] under test: the number of cells
    reachable from the root when [b] is deleted, minus one. *)
Definition bridgeCapacityClaim (w : World) (b : Cube) : Prop :=
  ∀ root reach,
    downmostLeftmost w = Some root → NoDup reach →
    (∀ q, q ∈ reach ↔ bridgeReach w b root q) →
    bridgeCapacity w b = Ok (Z.of_nat (length reach) - 1).

(** ** Save files *)

(** What a save file keeps of a cube, and what a load gives it back:
    the cell, the reset cell and the colour. *)
Definition core (c : Cube) : Position * Position * Color :=
  (p c, resetPosition c, color c).

Definition jcell (c : CubeJson) : Position := (jx c, jy c).

Definition jcolorOf (c : CubeJson) : Color :=
  match jcolor c with
  | None => BLUE
  | Some (cr, cg, cb) => mkColor cr cg cb
  end.

(** The reading of [deserialize] under test: an instance whose cells are
    not 4-connected is rejected with [Disconnected]. *)
Definition deserializeRejectsClaim (data : SaveFile) : Prop :=
  ¬ connected4 (λ q, q ∈ map jcell (jcubes data)) →
  ∃ w, deserialize emptyWorld data = Throw Disconnected w.

(** The reading of the round trip under test: loading what [serialize]
    wrote gives back the cubes of [w], up to their order. *)
Definition roundTripClaim (w : World) : Prop :=
  ∃ w', deserialize emptyWorld (serialize w) = Ok w' ∧
        map core (cubes w') ≡ₚ map core (cubes w).

(** The L-shaped world loaded from {(0,0), (1,0), (0,1)} after the move of
    the cube at (1,0) to (1,1). *)
Definition movedWorld : World :=
  match moveCube (loaded [(0, 0); (1, 0); (0, 1)]) (1, 0) (1, 1) with
  | Ok w => w
  | _ => emptyWorld
  end.

(** [movedWorld] after the cube at (0,0) has travelled to (1,0) along
    [shortestMovePath] and a second, empty path was planned from (1,0):
    the planner puts the mover back as a new cube, whose reset cell is the
    cell it stands on. *)
Definition sharedResetWorld : World :=
  match (r ← shortestMovePath movedWorld (0, 0) (1, 0);
         w ← runMoves r.1 r.2;
         r' ← shortestMovePath w (1, 0) (1, 0);
         Ok r'.1) with
  | Ok w => w
  | _ => emptyWorld
  end.

(** ** The U-shape *)

Definition uShape : list Position := [(0, 0); (1, 0); (2, 0); (0, 1); (2, 1)].

(** The classification under test. *)
Definition uShapeClaim (w : World) : Prop :=
  statusAt w (1, 0) = Some CONNECTOR ∧
  statusAt w (0, 1) = Some LINK_STABLE ∧
  statusAt w (2, 1) = Some LINK_STABLE ∧
  statusAt w (0, 0) = Some CHUNK_STABLE ∧
  statusAt w (2, 0) = Some CHUNK_STABLE.

(** The classification [markComponents] gives. *)
Definition uShapeTags (w : World) : bool :=
  bool_decide (statusAt w (1, 0) = Some LINK_CUT) &&
  bool_decide (statusAt w (0, 1) = Some LINK_STABLE) &&
  bool_decide (statusAt w (2, 1) = Some LINK_STABLE) &&
  bool_decide (statusAt w (0, 0) = Some LINK_CUT) &&
  bool_decide (statusAt w (2, 0) = Some LINK_CUT).

(** ** The move graph *)

(** The configuration without the cube at [from]: the static scaffold the
    mover travels along. *)
Definition scaffold (w : World) (from : Position) : World :=
  match removeCubeUnmarked w from with
  | Ok w1 => w1
  | _ => w
  end.

(** A path of the move graph of [w] from [x] to [y]: each move starts where
    the one before it ends and is accepted by [isValid] in [w]. *)
Fixpoint movePath (w : World) (ms : list Move) (x y : Position) : Prop :=
  match ms with
  | [] => x = y
  | m :: ms' =>
      position m = x ∧ isValid w m = Ok true ∧
      movePath w ms' (targetPosition m) y
  end.

(** The move graph in the words of the specification: the edges are the
    moves legal by the local rule, with the mover removed. *)
Fixpoint legalPath (w : World) (ms : list Move) (x y : Position) : Prop :=
  match ms with
  | [] => x = y
  | m :: ms' =>
      position m = x ∧ isValidIgnoreConnectivity w m = true ∧
      legalPath w ms' (targetPosition m) y
  end.

(** The reading of [shortestMovePath] under test: in a connected
    configuration, for a cube on [from] and an empty cell [to] that a path
    of that graph reaches, the call yields such a path of least length,
    and its moves can be executed one after the other. *)
Definition shortestMovePathClaim (w : World) (from to : Position) : Prop :=
  connected4 (occupiedExcept w None) →
  hasCube w from = true → hasCube w to = false →
  (∃ reach, legalPath (scaffold w from) reach from to) →
  ∃ w2 path w3,
    shortestMovePath w from to = Ok (w2, path) ∧
    legalPath (scaffold w from) path from to ∧
    (∀ ms, legalPath (scaffold w from) ms from to →
           (length path ≤ length ms)%nat) ∧
    runMoves w2 path = Ok w3.

(** The cells the search can visit: the source cell and the cells next to
    a cube. *)
Definition candidates (w : World) (from : Position) : gset (Z * Z) :=
  list_to_set (from :: flat_map neighborCells (map p (cubes w))).

(** The level of a queue entry: one more than the depth recorded for the
    cell its move starts from; the entry of the source cell has level 0. *)
Definition levelOf (dep : gmap (Z * Z) nat)
    (e : Position * option Move) : nat :=
  match e.2 with
  | None => 0
  | Some m => Datatypes.S (default 0%nat (dep !! position m))
  end.

(** [w'] is the scaffold [w1] with the mover standing on [x]. *)
Definition overlay (w1 : World) (x : Position) (w' : World) : Prop :=
  consistent w' ∧ hasCube w1 x = false ∧
  ∀ y, hasCube w' y = true ↔ hasCube w1 y = true ∨ y = x.

(** ** The invariant of the search of [shortestMovePath] *)

(** A queue entry pushed by the expansion of a visited cell. *)
Definition entryOk (w1 : World) (seen : gmap (Z * Z) (option Move))
    (e : Position * option Move) : Prop :=
  match e.2 with
  | None => False
  | Some m =>
      targetPosition m = e.1 ∧ isValid w1 m = Ok true ∧
      is_Some (seen !! position m)
  end.

(** The visited cells with their depths [dep]: the parent move of a cell
    ends on it and starts on a cell one level up, and the depth of a cell
    is the length of a shortest path to it. *)
Definition searchInv (w1 : World) (from : Position)
    (seen : gmap (Z * Z) (option Move)) (dep : gmap (Z * Z) nat) : Prop :=
  (∀ c, is_Some (seen !! c) ↔ is_Some (dep !! c)) ∧
  (∀ c mv d, seen !! c = Some mv → dep !! c = Some d →
     match mv with
     | None => c = from ∧ d = 0%nat
     | Some m =>
         c ≠ from ∧ targetPosition m = c ∧ isValid w1 m = Ok true ∧
         ∃ d', dep !! position m = Some d' ∧ d = Datatypes.S d'
     end) ∧
  (∀ c d ms, dep !! c = Some d → movePath w1 ms from c →
             (d ≤ length ms)%nat) ∧
  (∀ c d, dep !! c = Some d → (d < size seen)%nat).

(** The queue holds the entries of one level followed by those of the
    next. *)
Definition levelsOk (dep : gmap (Z * Z) nat)
    (queue : list (Position * option Move)) : Prop :=
  ∃ l q1 q2, queue = q1 ++ q2 ∧
    Forall (λ e, levelOf dep e = l) q1 ∧
    Forall (λ e, levelOf dep e = Datatypes.S l) q2.

Definition queueInv (w1 : World) (from : Position)
    (seen : gmap (Z * Z) (option Move)) (dep : gmap (Z * Z) nat)
    (queue : list (Position * option Move)) : Prop :=
  (seen = ∅ ∧ dep = ∅ ∧ queue = [(from, None)]) ∨
  (is_Some (seen !! from) ∧ Forall (entryOk w1 seen) queue ∧
   levelsOk dep queue ∧
   ∀ m, is_Some (seen !! position m) → isValid w1 m = Ok true →
        is_Some (seen !! targetPosition m) ∨
        (targetPosition m, Some m) ∈ queue).

(** What bounds the number of rounds left. *)
Definition searchBudget (w1 : World) (from : Position) (fuel : nat)
    (seen : gmap (Z * Z) (option Move))
    (queue : list (Position * option Move)) : Prop :=
  Forall (λ e, e.1 ∈ candidates w1 from) queue ∧
  dom seen ⊆ candidates w1 from ∧
  (12 * size (candidates w1 from ∖ dom seen) + length queue < fuel)%nat.

(** ** Worlds that differ only in what the analyser does not read *)

(** The same index and the same cube cells, identifier by identifier. *)
Definition sameCells (w w' : World) : Prop :=
  world w = world w' ∧ map p (cubes w) = map p (cubes w').

(** The fields [markComponents] writes. *)
Definition marks (c : Cube) : ComponentStatus * Z * bool :=
  (componentStatus c, chunkId c, onBoundary c).

(** Two outcomes of the same kind: values related by [R], or the same
    exception, or both loops unfinished. *)
Definition agree {A B} (R : A → B → Prop) (x : Result A) (y : Result B)
  : Prop :=
  match x, y with
  | Ok a, Ok b => R a b
  | Throw e _, Throw e' _ => e = e'
  | Diverge, Diverge => True
  | _, _ => False
  end.

(** ** world.ts: reset *)

(** [reset()]: the first loop empties the cell of every cube, the second
    puts each cube on its reset cell and writes its identifier there, and
    the components are marked again. *)
Definition reset (w : World) : Result World :=
  let cleared := foldl (λ m cube, delete (p cube) m) (world w) (cubes w) in
  let cs := map (λ cube, setP (resetPosition cube) cube) (cubes w) in
  markComponents (mkWorld (reindex cleared 0 cs) cs).

(** ** world.ts: neighbour queries *)

(** [getNeighbors]: the cubes east, west, north and south of a cell, in
    this order, absent ones left out. The four cells are computed with
    integer sums, as the source does on safe integers. *)
Definition getNeighbors (w : World) (q : Position) : list Cube :=
  let '(x, y) := q in
  omap (getCube w) [(x + 1, y); (x - 1, y); (x, y + 1); (x, y - 1)].

(** [getNeighborMap]: the object with the eight compass keys, read at one
    key. *)
Definition getNeighborMap (w : World) (q : Position) (c : Compass)
  : option Cube :=
  getCube w (shift q c).

(** [getMoveTo]: the first valid move of the cube that ends on [target]. *)
Definition getMoveTo (w : World) (source : Cube) (target : Position)
  : Result (option Move) :=
  moves ← validMovesFrom w (p source);
  Ok (head (filter (λ move, targetPosition move = target) moves)).

(** ** world.ts: the bounding box *)

(** [Array.prototype.max]: [-Infinity] on an empty array. *)
Definition arrayMax (l : list Z) : option Z :=
  match l with
  | [] => None
  | x :: l' => Some (fold_left Z.max l' x)
  end.

(** [bounds()]: [minX, minY, maxX, maxY]; [None] is the infinity an empty
    array gives, [Infinity] for a minimum and [-Infinity] for a maximum. *)
Definition bounds (w : World) : option Z * option Z * option Z * option Z :=
  (arrayMin (map (λ cube, (p cube).1) (cubes w)),
   arrayMin (map (λ cube, (p cube).2) (cubes w)),
   arrayMax (map (λ cube, (p cube).1) (cubes w)),
   arrayMax (map (λ cube, (p cube).2) (cubes w))).

(** [bridgeLimit()]. The four bounds are infinite together, in the empty
    world, where the width [-Infinity - Infinity + 1] and the result are
    [-Infinity], written [None]. *)
Definition bridgeLimit (w : World) : option Z :=
  match bounds w with
  | (Some minX, Some minY, Some maxX, Some maxY) =>
      let width := maxX - minX + 1 in
      let height := maxY - minY + 1 in
      Some (2 * (width + height))
  | _ => None
  end.

Definition isXYMonotone (w : World) : bool :=
  let '(minX, minY, _, _) := bounds w in
  forallb (λ cube,
             bool_decide (Some (p cube).1 = minX)
             || bool_decide (Some (p cube).2 = minY)
             || (hasCube w ((p cube).1, (p cube).2 - 1)
                 && hasCube w ((p cube).1 - 1, (p cube).2)))
          (cubes w).

(** ** cube.ts: colours *)

Definition GRAY : Color := mkColor 230 230 230.
Definition RED : Color := mkColor 248 78 94.
Definition YELLOW : Color := mkColor 248 230 110.
Definition PURPLE : Color := mkColor 200 90 220.
Definition ORANGE : Color := mkColor 248 160 80.
Definition GREEN : Color := mkColor 140 218 90.

(** [ToInt32]: the value modulo 2^32, read as a signed 32-bit integer. The
    colour components are taken to be integers. *)
Definition toInt32 (z : Z) : Z := (z + 2 ^ 31) mod 2 ^ 32 - 2 ^ 31.

(** The operators [<<] and [|] on numbers. *)
Definition shl32 (a n : Z) : Z :=
  toInt32 (Z.shiftl (toInt32 a) (Z.land n 31)).

Definition or32 (a c : Z) : Z := toInt32 (Z.lor (toInt32 a) (toInt32 c)).

Definition toHexColor (c : Color) : Z :=
  or32 (or32 (shl32 (r c) 16) (shl32 (g c) 8)) (b c).

Definition equals (c other : Color) : bool :=
  bool_decide (r c = r other) && bool_decide (g c = g other)
  && bool_decide (b c = b other).

Definition setColor (c : Color) (cube : Cube) : Cube :=
  mkCube (p cube) (resetPosition cube) c (componentStatus cube)
    (chunkId cube) (onBoundary cube).

Definition nextColor (cube : Cube) : Cube :=
  if equals (color cube) GRAY then setColor BLUE cube
  else if equals (color cube) BLUE then setColor RED cube
  else if equals (color cube) RED then setColor YELLOW cube
  else if equals (color cube) YELLOW then setColor PURPLE cube
  else if equals (color cube) PURPLE then setColor ORANGE cube
  else if equals (color cube) ORANGE then setColor GREEN cube
  else setColor GRAY cube.

(** The seven colours of the palette, in the order [nextColor] steps
    through them. *)
Definition palette : list Color :=
  [GRAY; BLUE; RED; YELLOW; PURPLE; ORANGE; GREEN].

(** ** world.ts: stepping an algorithm *)

(** The field [currentMove] of [World], kept beside the grid. *)
Record Stepper := mkStepper {
  sworld : World;
  currentMove : option Move
}.

(** A generator of moves ([Algorithm]) with states of type [A]: [next]
    resumes it in the world as it is and gives the world it leaves, the
    move it yields, [None] when it is done, and its state afterwards. *)
Definition Generator (A : Type) : Type :=
  A → World → Result (World * option Move * A).

Definition execute (w : World) (m : Move) : Result World :=
  moveCube w (position m) (targetPosition m).

Definition nextStep {A} (next : Generator A) (s : Stepper) (a : A)
  : Result (Stepper * A) :=
  w1 ← match currentMove s with
       | Some m => execute (sworld s) m
       | None => markComponents (sworld s)
       end;
  '(w2, output, a') ← next a w1;
  match output with
  | None => Ok (mkStepper w2 None, a')
  | Some m =>
      v ← isValid w2 m;
      if negb v then Throw InvalidMove w2
      else Ok (mkStepper w2 (Some m), a')
  end.

Definition nextStepUnmarked {A} (next : Generator A) (s : Stepper) (a : A)
  : Result (Stepper * A) :=
  w1 ← match currentMove s with
       | Some m => executeUnmarked (sworld s) m
       | None => Ok (sworld s)
       end;
  '(w2, output, a') ← next a w1;
  match output with
  | None => Ok (mkStepper w2 None, a')
  | Some m =>
      v ← isValid w2 m;
      if negb v then Throw InvalidMove w2
      else Ok (mkStepper w2 (Some m), a')
  end.

(** ** cli-batch.ts, cli-dp-batch.ts: the run of an algorithm *)

(** The loop of [doAlgorithmRun]: [step] is counted up before each call of
    the stepper, the loop ends when no move is current, and [step--]
    follows; an exception ends the run. The result is the stepper and the
    number of moves. *)
Fixpoint stepLoop {A} (fuel : nat) (next : Generator A) (s : Stepper)
    (a : A) (step : Z) : Result (Stepper * Z) :=
  match fuel with
  | O => Diverge
  | Datatypes.S fuel' =>
      let step := step + 1 in
      '(s', a') ← nextStep next s a;
      match currentMove s' with
      | None => Ok (s', step - 1)
      | Some _ => stepLoop fuel' next s' a' step
      end
  end.

Fixpoint stepLoopUnmarked {A} (fuel : nat) (next : Generator A)
    (s : Stepper) (a : A) (step : Z) : Result (Stepper * Z) :=
  match fuel with
  | O => Diverge
  | Datatypes.S fuel' =>
      let step := step + 1 in
      '(s', a') ← nextStepUnmarked next s a;
      match currentMove s' with
      | None => Ok (s', step - 1)
      | Some _ => stepLoopUnmarked fuel' next s' a' step
      end
  end.

(** [yield* path] for an array [path]: the state is what is left of it. *)
Definition yieldAll : Generator (list Move) :=
  λ ms w,
    match ms with
    | [] => Ok (w, None, [])
    | m :: ms' => Ok (w, Some m, ms')
    end.

(** The generator [shortestMovePath(from, to)]: [None] is the generator
    not yet started, whose first [next()] runs the body up to
    [yield* path]. *)
Definition shortestMovePathGen (from to : Position)
  : Generator (option (list Move)) :=
  λ a w,
    match a with
    | None =>
        '(w2, path) ← shortestMovePath w from to;
        '(w3, output, rest) ← yieldAll path w2;
        Ok (w3, output, Some rest)
    | Some ms =>
        '(w', output, rest) ← yieldAll ms w;
        Ok (w', output, Some rest)
    end.

(** ** The values of the component arrays *)

(** A component value written by the walk: unset, link, chunk or
    connector. *)
Definition componentValue (v : Z) : Prop := v = -1 ∨ v = 1 ∨ v = 2 ∨ v = 3.

(** The arrays of the walk have one entry per cube, hold component values
    and chunk identifiers from [-1] on, and the chunk counter is not
    negative. *)
Definition walkOk (n : nat) (s : Walk) : Prop :=
  length (wcomponents s) = n ∧ length (wchunkIds s) = n ∧
  Forall componentValue (wcomponents s) ∧
  Forall (λ v, -1 ≤ v) (wchunkIds s) ∧ 0 ≤ wchunksSeen s.

(** ** The invariant of a run *)

(** The grid store is consistent, holds [n] cubes and its configuration is
    4-connected. *)
Definition sound (n : nat) (w : World) : Prop :=
  consistent w ∧ connected4 (occupiedExcept w None) ∧ length (cubes w) = n.

(** A run of moves ends with the world it has built, or at the first move
    that is refused as invalid or that starts on an empty cell. *)
Definition endsIn (r : Result World) (w' : World) : Prop :=
  r = Ok w' ∨ r = Throw InvalidMove w' ∨ r = Throw EmptyCell w'.

(** ** The depth-first search of [findCubeStability]

    The notions its correctness is stated with: the graph of the cubes, the
    arrays read at a cube, and the tree the array [parent] describes. *)

(** The cube [j] lies orthogonally next to the cube [i]. *)
Definition edge (w : World) (i j : nat) : Prop := j ∈ succs w (λ o, o) i.

Definition seenIn (st : Dfs) (v : nat) : Prop := isSeen (dseen st) v = true.

Definition parentOf (st : Dfs) (v : nat) : option nat :=
  default None (dparent st !! v).

Definition depthOf (st : Dfs) (v : nat) : Z := getZ (ddepth st) v.

Definition lowOf (st : Dfs) (v : nat) : Z := getZ (dlow st) v.

(** [a] is [x] or an ancestor of [x] in the search tree. *)
Definition anc (st : Dfs) (a x : nat) : Prop :=
  rtc (λ y z, parentOf st y = Some z) x a.

(** The arrays after the three assignments a call starts with. *)
Definition enter (i : nat) (d : Z) (st : Dfs) : Dfs :=
  mkDfs (<[i := true]> (dseen st)) (dparent st)
        (<[i := d]> (ddepth st)) (<[i := d]> (dlow st)) (dstable st).

(** The arrays after [parent[c.cubeId] = i]. *)
Definition setParent (c i : nat) (st : Dfs) : Dfs :=
  mkDfs (dseen st) (<[c := Some i]> (dparent st)) (ddepth st) (dlow st)
        (dstable st).

Definition setLow (i : nat) (z : Z) (st : Dfs) : Dfs :=
  mkDfs (dseen st) (dparent st) (ddepth st) (<[i := z]> (dlow st))
        (dstable st).

Definition setStable (i : nat) (s : bool) (st : Dfs) : Dfs :=
  mkDfs (dseen st) (dparent st) (ddepth st) (dlow st)
        (<[i := s]> (dstable st)).

(** The callback of [findCubeStabilityRecursive] for a neighbouring cell
    that holds the cube [cid]. *)
Definition visitId (rec : nat → Dfs → Result Dfs) (i : nat)
    (acc : Dfs * bool * nat) (cid : nat) : Result (Dfs * bool * nat) :=
  let '(st, cutCube, childCount) := acc in
  if negb (isSeen (dseen st) cid) then
    st1 ← rec cid (setParent cid i st);
    Ok (setLow i (Z.min (lowOf st1 i) (lowOf st1 cid)) st1,
        (if bool_decide (depthOf st1 i ≤ lowOf st1 cid) then true
         else cutCube),
        Datatypes.S childCount)
  else if negb (bool_decide (Some cid = parentOf st i)) then
    Ok (setLow i (Z.min (lowOf st i) (depthOf st cid)) st, cutCube, childCount)
  else Ok acc.

(** Every cube of [stack] has the next one as its parent, and the last one
    has none. *)
Fixpoint isChain (st : Dfs) (stack : list nat) : Prop :=
  match stack with
  | [] => True
  | x :: rest => parentOf st x = head rest ∧ isChain st rest
  end.

(** What a cube is marked with when its call ends. *)
Definition stableTest (st : Dfs) (v : nat) : Prop :=
  match parentOf st v with
  | None => ∀ c1 c2, parentOf st c1 = Some v → parentOf st c2 = Some v →
                     c1 = c2
  | Some _ => ∀ c, parentOf st c = Some v → lowOf st c < depthOf st v
  end.

(** The invariant of the search. [stack] holds the cubes whose calls are
    running, the innermost first; a seen cube that is not on it is
    finished. *)
Record dfsInv (w : World) (st : Dfs) (stack : list nat) : Prop := mkDfsInv {
  inv_len :
    length (dseen st) = length (cubes w) ∧
    length (dparent st) = length (cubes w) ∧
    length (ddepth st) = length (cubes w) ∧
    length (dlow st) = length (cubes w) ∧
    length (dstable st) = length (cubes w);
  inv_unseen : ∀ v, ¬ seenIn st v → parentOf st v = None;
  inv_tree : ∀ v u, parentOf st v = Some u →
    seenIn st u ∧ edge w u v ∧ depthOf st v = depthOf st u + 1 ∧ v ≠ 0%nat;
  inv_root : parentOf st 0 = None ∧ (seenIn st 0%nat → depthOf st 0 = 0);
  inv_reach : ∀ v, seenIn st v → anc st 0 v;
  inv_stack :
    NoDup stack ∧ (∀ s, s ∈ stack → seenIn st s) ∧ isChain st stack;
  inv_closed : ∀ v u, seenIn st v → v ∉ stack → edge w v u → seenIn st u;
  inv_cross : ∀ x u, seenIn st x → seenIn st u → edge w x u →
    anc st x u ∨ anc st u x;
  inv_lowA : ∀ v, seenIn st v → v ∉ stack →
    lowOf st v ≤ depthOf st v ∧
    ∀ x u, anc st v x → edge w x u → parentOf st x ≠ Some u →
           lowOf st v ≤ depthOf st u;
  inv_lowB : ∀ v, seenIn st v → v ∉ stack →
    lowOf st v = depthOf st v ∨
    ∃ x u, anc st v x ∧ edge w x u ∧ parentOf st x ≠ Some u ∧
           lowOf st v = depthOf st u;
  inv_stable : ∀ v, seenIn st v → v ∉ stack →
    (isSeen (dstable st) v = true ↔ stableTest st v)
}.

(** What a call for [i] at depth [d], started with the arrays [st0], leaves
    alone: the entries of the cubes seen before, and the parent of [i]; and
    every cube it has marked descends from [i]. *)
Record framed (st0 st : Dfs) (i : nat) (d : Z) : Prop := mkFramed {
  fr_old : ∀ v, seenIn st0 v →
    seenIn st v ∧ depthOf st v = depthOf st0 v ∧ lowOf st v = lowOf st0 v ∧
    isSeen (dstable st) v = isSeen (dstable st0) v;
  fr_parent : ∀ v, seenIn st0 v ∨ v = i → parentOf st v = parentOf st0 v;
  fr_self : seenIn st i ∧ depthOf st i = d;
  fr_new : ∀ x, seenIn st x → ¬ seenIn st0 x → anc st i x
}.

(** The loop of the call for [i] after the neighbours [done]: what
    [low[i]], [cutCube] and [childCount] stand for. *)
Record loopInv (w : World) (i : nat) (d : Z) (done : list nat)
    (acc : Dfs * bool * nat) : Prop := mkLoopInv {
  li_done : ∀ u, u ∈ done → seenIn acc.1.1 u;
  li_lowA :
    lowOf acc.1.1 i ≤ d ∧
    ∀ x u, anc acc.1.1 i x → (x = i → u ∈ done) → edge w x u →
           parentOf acc.1.1 x ≠ Some u → lowOf acc.1.1 i ≤ depthOf acc.1.1 u;
  li_lowB :
    lowOf acc.1.1 i = d ∨
    ∃ x u, anc acc.1.1 i x ∧ edge w x u ∧ parentOf acc.1.1 x ≠ Some u ∧
           seenIn acc.1.1 u ∧ lowOf acc.1.1 i = depthOf acc.1.1 u;
  li_cut :
    acc.1.2 = true ↔
    ∃ c, parentOf acc.1.1 c = Some i ∧ d ≤ lowOf acc.1.1 c;
  li_children :
    ∃ ch, NoDup ch ∧ length ch = acc.2 ∧
          ∀ c, parentOf acc.1.1 c = Some i ↔ c ∈ ch
}.

(** What a call that returns has done, given the invariant at its start. *)
Definition callSpec (w : World) (fuel : nat) : Prop :=
  ∀ i d st stack st',
    ¬ seenIn st i → (∀ c, parentOf st c ≠ Some i) →
    dfsInv w (enter i d st) (i :: stack) →
    findCubeStabilityRecursive fuel w i d st = Ok st' →
    dfsInv w st' stack ∧ framed st st' i d.

(** A walk from cube to neighbouring cube that, after its start, avoids the
    cube [i]. *)
Definition idpath (w : World) (i : nat) : nat → nat → Prop :=
  rtc (λ x y, edge w x y ∧ y ≠ i).

(** * Properties *)

Lemma consistentb_sound w : consistentb w = true → consistent w.
Proof.
  unfold consistentb, consistent.
  rewrite andb_true_iff, !forallb_forall. intros [H1 H2]. split.
  - intros i c Hi.
    specialize (H1 (i, c)). rewrite bool_decide_eq_true in H1.
    apply H1. apply list_elem_of_In, list_elem_of_lookup. exists i.
    rewrite list_lookup_imap, Hi. done.
  - intros q i Hq.
    specialize (H2 (q, i)). rewrite bool_decide_eq_true in H2.
    simpl in H2.
    assert (Hc : p <$> cubes w !! i = Some q).
    { apply H2, list_elem_of_In, elem_of_map_to_list. done. }
    destruct (cubes w !! i) as [c|]; simplify_eq/=. eauto.
Qed.

Lemma safeCoordinatesb_sound margin w :
  safeCoordinatesb margin w = true → safeCoordinates margin w.
Proof.
  unfold safeCoordinatesb, safeCoordinates. rewrite forallb_forall.
  intros H. apply Forall_forall. intros c Hc.
  specialize (H c (proj1 (list_elem_of_In _ _) Hc)).
  apply andb_true_iff in H as [H1 H2]. split; lia.
Qed.

Lemma safeCell_mono margin margin' q :
  margin' ≤ margin → safeCell margin q → safeCell margin' q.
Proof. unfold safeCell. lia. Qed.

Lemma safeCoordinates_mono margin margin' w :
  margin' ≤ margin → safeCoordinates margin w → safeCoordinates margin' w.
Proof.
  intros Hle H. eapply Forall_impl; [exact H|].
  intros c. by apply safeCell_mono.
Qed.

Section grid.
Context (w : World) (Hw : consistent w).

Lemma getCubeId_Some q i :
    getCubeId w q = Some i → ∃ c, cubes w !! i = Some c ∧ p c = q.
Proof. apply Hw. Qed.

Lemma getCubeId_lt q i : getCubeId w q = Some i → (i < length (cubes w))%nat.
Proof.
    intros (c & Hc & _)%getCubeId_Some. by eapply lookup_lt_Some.
Qed.

Lemma getCubeId_cube i c : cubes w !! i = Some c → getCubeId w (p c) = Some i.
Proof. apply Hw. Qed.

Lemma getCube_Some q c : getCube w q = Some c → p c = q.
Proof.
    unfold getCube. destruct (getCubeId w q) as [i|] eqn:Hi; [|done].
    intros Hc. apply getCubeId_Some in Hi as (c' & Hc' & <-). congruence.
Qed.

Lemma getCube_cube i c : cubes w !! i = Some c → getCube w (p c) = Some c.
Proof.
    intros Hc. unfold getCube. by rewrite (getCubeId_cube _ _ Hc).
Qed.

Lemma hasCube_true q : hasCube w q = true ↔ is_Some (getCubeId w q).
Proof.
    unfold hasCube, getCube. rewrite bool_decide_eq_true. split.
    - intros [c Hc]. destruct (getCubeId w q); [eauto | done].
    - intros [i Hi]. rewrite Hi.
      apply getCubeId_Some in Hi as (c & -> & _). eauto.
Qed.

Lemma hasCube_false q : hasCube w q = false ↔ getCubeId w q = None.
Proof.
    rewrite <- not_true_iff_false, hasCube_true, <- eq_None_not_Some. done.
Qed.

Lemma hasCube_cube i c : cubes w !! i = Some c → hasCube w (p c) = true.
Proof. intros Hc. apply hasCube_true. rewrite (getCubeId_cube _ _ Hc). eauto. Qed.

Lemma cube_inj i j c c' :
    cubes w !! i = Some c → cubes w !! j = Some c' → p c = p c' → i = j.
Proof.
    intros Hi%getCubeId_cube Hj%getCubeId_cube Hp. congruence.
Qed.
End grid.

(** ** Counting the marked entries of [seen] *)

Lemma countTrue_le l : (countTrue l ≤ length l)%nat.
Proof. induction l as [|[] l IH]; simpl; lia. Qed.

Lemma isSeen_lt seen i : isSeen seen i = true → (i < length seen)%nat.
Proof.
  unfold isSeen. destruct (seen !! i) as [[]|] eqn:H; [|done..].
  intros _. by eapply lookup_lt_Some.
Qed.

Lemma isSeen_insert seen i j :
  isSeen (<[i := true]> seen) j = true ↔
  (j = i ∧ (i < length seen)%nat) ∨ isSeen seen j = true.
Proof.
  unfold isSeen. destruct (decide (j = i)) as [->|Hne].
  - destruct (decide (i < length seen)%nat) as [Hlt|Hge].
    + rewrite list_lookup_insert_eq by done. naive_solver.
    + rewrite list_insert_ge by lia. split; [auto|].
      intros [[_ ?]|?]; [lia|done].
  - rewrite list_lookup_insert_ne by done. naive_solver.
Qed.

Lemma countTrue_insert seen i :
  (i < length seen)%nat → isSeen seen i = false →
  countTrue (<[i := true]> seen) = Datatypes.S (countTrue seen).
Proof.
  revert i. induction seen as [|b seen IH]; intros i Hlt Hi; simpl in *.
  - lia.
  - destruct i as [|i]; simpl.
    + destruct b; [done|]. done.
    + rewrite IH; [by destruct b| lia | done].
Qed.

Lemma countTrue_all seen :
  countTrue seen = length seen ↔
  ∀ i, (i < length seen)%nat → isSeen seen i = true.
Proof.
  induction seen as [|b seen IH]; simpl.
  - split; [intros _ i; lia | done].
  - pose proof (countTrue_le seen). destruct b.
    + split.
      * intros Heq [|i] Hi; [done|]. apply IH; lia.
      * intros Hall. f_equal. apply IH. intros i Hi.
        apply (Hall (Datatypes.S i)). lia.
    + split; [lia|]. intros Hall.
      specialize (Hall 0%nat ltac:(lia)). done.
Qed.

Lemma isSeen_replicate n i : isSeen (replicate n false) i = false.
Proof.
  unfold isSeen. destruct (replicate n false !! i) as [[]|] eqn:H; try done.
  apply lookup_replicate in H as [? _]. done.
Qed.

Lemma countTrue_replicate n : countTrue (replicate n false) = 0%nat.
Proof. induction n; simpl; done. Qed.

(** ** The search: termination, closure and soundness *)

Arguments neighborCells : simpl never.
Arguments succs : simpl never.

Section search.
Context (w : World) (Hw : consistent w) (push : option nat → option nat).
Context (Hpush : ∀ o j, push o = Some j → o = Some j).

Lemma succs_elem i j :
  j ∈ succs w push i →
  ∃ c q, cubes w !! i = Some c ∧ q ∈ neighborCells (p c) ∧
         getCubeId w q = Some j ∧ push (Some j) = Some j.
Proof.
  unfold succs. destruct (cubes w !! i) as [c|] eqn:Hc; [|by intros ?%elem_of_nil].
  intros (q & Hq & Hj)%list_elem_of_omap.
  pose proof (Hpush _ _ Hj) as Hid. exists c, q. rewrite Hid in Hj. done.
Qed.

Lemma succs_lt i j : j ∈ succs w push i → (j < length (cubes w))%nat.
Proof.
  intros (c & q & _ & _ & Hj & _)%succs_elem. by eapply getCubeId_lt.
Qed.

Lemma succs_length i : (length (succs w push i) ≤ 4)%nat.
Proof.
  unfold succs. destruct (cubes w !! i) as [c|]; simpl; [|lia].
  unfold neighborCells. simpl.
  repeat (match goal with |- context [push ?o] => destruct (push o) end);
    simpl; lia.
Qed.

Lemma searchEdge_mono seen i x y :
  searchEdge w push (<[i := true]> seen) x y → searchEdge w push seen x y.
Proof.
  intros [Hx Hy]. split; [|done].
  destruct (isSeen seen x) eqn:Hs; [|done].
  rewrite <- Hx. symmetry. apply isSeen_insert. by right.
Qed.

Lemma search_spec fuel : ∀ seen queue,
  length seen = length (cubes w) →
  Forall (λ i, i < length (cubes w))%nat queue →
  (4 * (length (cubes w) - countTrue seen) + length queue < fuel)%nat →
  ∃ seen',
    search w push fuel seen queue = Ok seen' ∧
    length seen' = length (cubes w) ∧
    (∀ i, isSeen seen i = true → isSeen seen' i = true) ∧
    (∀ i, i ∈ queue → isSeen seen' i = true) ∧
    (∀ i j, isSeen seen' i = true → isSeen seen i = false →
            j ∈ succs w push i → isSeen seen' j = true) ∧
    (∀ i, isSeen seen' i = true → isSeen seen i = false →
          ∃ q, q ∈ queue ∧ rtc (searchEdge w push seen) q i).
Proof.
  induction fuel as [|fuel IH]; intros seen queue Hlen Hq Hfuel; [lia|].
  destruct queue as [|i queue]; simpl.
  { exists seen. split_and!; try done.
    - by intros i ?%elem_of_nil.
    - intros i j H1 H2. congruence.
    - intros i H1 H2. congruence. }
  apply Forall_cons in Hq as [Hi Hq]. simpl in Hfuel.
  destruct (isSeen seen i) eqn:Hsi.
  - destruct (IH seen queue) as (seen' & Hs & Hl & Hm & Hqs & Hc & Hr);
      [done | done | lia |].
    exists seen'. split_and!; try done.
    + intros j [->|Hj]%elem_of_cons; auto.
    + intros j H1 H2. destruct (Hr j H1 H2) as (q & Hq' & Hrt).
      exists q. split; [by right | done].
  - destruct (lookup_lt_is_Some_2 (cubes w) i Hi) as [c Hc]. rewrite Hc.
    pose proof (countTrue_insert seen i ltac:(lia) Hsi) as Hct.
    pose proof (countTrue_le (<[i := true]> seen)) as Hle.
    rewrite length_insert in Hle.
    pose proof (succs_length i) as Hsl.
    destruct (IH (<[i := true]> seen) (queue ++ succs w push i))
      as (seen' & Hs & Hl & Hm & Hqs & Hcl & Hr).
    { by rewrite length_insert. }
    { apply Forall_app. split; [done|].
      apply Forall_forall. intros j Hj. by eapply succs_lt. }
    { rewrite length_app. lia. }
    assert (Hi' : isSeen seen' i = true).
    { apply Hm, isSeen_insert. left. split; [done | lia]. }
    exists seen'. split_and!; try done.
    + intros j Hj. apply Hm, isSeen_insert. by right.
    + intros j [->|Hj]%elem_of_cons; [done|].
      apply Hqs, elem_of_app. by left.
    + intros x j Hx Hnx Hj. destruct (decide (x = i)) as [->|Hne].
      * apply Hqs, elem_of_app. by right.
      * apply (Hcl x j); [done| |done].
        destruct (isSeen (<[i:=true]> seen) x) eqn:Hx'; [|done].
        apply isSeen_insert in Hx' as [[? _]|?]; congruence.
    + intros x Hx Hnx. destruct (decide (x = i)) as [->|Hne].
      { exists i. split; [by left | done]. }
      destruct (Hr x Hx) as (q & Hq' & Hrt).
      { destruct (isSeen (<[i:=true]> seen) x) eqn:Hx'; [|done].
        apply isSeen_insert in Hx' as [[? _]|?]; congruence. }
      assert (Hrt' : rtc (searchEdge w push seen) q x).
      { eapply rtc_subrel; [|exact Hrt]. intros ??. apply searchEdge_mono. }
      apply elem_of_app in Hq' as [Hq'|Hq'].
      * exists q. split; [by right | done].
      * exists i. split; [by left|].
        eapply rtc_l; [|exact Hrt']. split; done.
Qed.

End search.

Lemma isConnectedLoop_search w fuel : ∀ seen cnt queue seen',
  search w truthyId fuel seen queue = Ok seen' →
  length seen = length (cubes w) →
  Forall (λ i, i < length (cubes w))%nat queue →
  consistent w →
  ∃ r, isConnectedLoop fuel w seen cnt queue = Ok r ∧
       (r + countTrue seen = cnt + countTrue seen')%nat.
Proof.
  induction fuel as [|fuel IH]; intros seen cnt queue seen' Hs Hlen Hq Hw.
  - destruct queue; cbn [search isConnectedLoop bridgeLoop] in *; [|done].
    simplify_eq. eauto.
  - destruct queue as [|i queue]; cbn [search isConnectedLoop bridgeLoop] in *.
    { simplify_eq. eauto. }
    apply Forall_cons in Hq as [Hi Hq].
    destruct (isSeen seen i) eqn:Hsi; [by eapply IH|].
    destruct (cubes w !! i) as [c|] eqn:Hc; [|done].
    assert (Hsuc : succs w truthyId i =
                   omap (λ q, truthyId (getCubeId w q)) (neighborCells (p c))).
    { unfold succs. by rewrite Hc. }
    rewrite <- Hsuc.
    destruct (IH (<[i:=true]> seen) (Datatypes.S cnt) _ _ Hs) as (r & Hr & Hcnt).
    { by rewrite length_insert. }
    { apply Forall_app. split; [done|]. apply Forall_forall. intros j Hj.
      eapply succs_lt; [done| |done]. by intros [[]|] ? ?. }
    { done. }
    exists r. split; [done|].
    rewrite countTrue_insert in Hcnt by (done || lia). lia.
Qed.

Lemma bridgeLoop_search w bId fuel : ∀ seen cnt queue seen',
  search w id fuel seen queue = Ok seen' →
  length seen = length (cubes w) →
  Forall (λ i, i < length (cubes w))%nat queue →
  consistent w →
  isSeen seen bId = true →
  ∃ r, bridgeLoop fuel w (Some bId) seen cnt queue = Ok r ∧
       (r + countTrue seen = cnt + countTrue seen')%nat.
Proof.
  induction fuel as [|fuel IH]; intros seen cnt queue seen' Hs Hlen Hq Hw Hb.
  - destruct queue; cbn [search isConnectedLoop bridgeLoop] in *; [|done].
    simplify_eq. eauto.
  - destruct queue as [|i queue]; cbn [search isConnectedLoop bridgeLoop] in *.
    { simplify_eq. eauto. }
    apply Forall_cons in Hq as [Hi Hq].
    destruct (isSeen seen i) eqn:Hsi; [by eapply IH|].
    destruct (cubes w !! i) as [c|] eqn:Hc; [|done].
    assert (Hsuc : succs w id i =
                   omap (getCubeId w) (neighborCells (p c))).
    { unfold succs. by rewrite Hc. }
    rewrite <- Hsuc.
    assert (Hne : Some bId ≠ Some i) by congruence.
    rewrite bool_decide_eq_true_2 by done.
    destruct (IH (<[i:=true]> seen) (Datatypes.S cnt) _ _ Hs) as (r & Hr & Hcnt).
    { by rewrite length_insert. }
    { apply Forall_app. split; [done|]. apply Forall_forall. intros j Hj.
      eapply succs_lt; [done| |done]. by intros ? ? ?. }
    { done. }
    { apply isSeen_insert. by right. }
    exists r. split; [done|].
    rewrite countTrue_insert in Hcnt by (done || lia). lia.
Qed.

(** ** [isConnected] decides 4-connectivity *)

Lemma adjacent_sym a b : adjacent a b → adjacent b a.
Proof.
  unfold adjacent, neighborCells. destruct a as [x y], b as [x' y']. simpl.
  rewrite !elem_of_cons, !elem_of_nil.
  intros [?|[?|[?|[?|[]]]]]; simplify_eq;
    [right; left | left | do 3 right; left | do 2 right; left];
    f_equal; lia.
Qed.

Lemma connected4_ext (S1 S2 : Position → Prop) :
  (∀ q, S1 q ↔ S2 q) → connected4 S1 → connected4 S2.
Proof.
  intros Heq Hc a b Ha Hb.
  eapply rtc_subrel; [|apply Hc; by apply Heq].
  intros x y [? ?]. split; [done | by apply Heq].
Qed.

Lemma truthyId_sub o j : truthyId o = Some j → o = Some j.
Proof. by destruct o as [[]|]. Qed.

Section search_paths.
Context (w : World) (Hw : consistent w) (push : option nat → option nat).
Context (Hpush : ∀ o j, push o = Some j → o = Some j).
Context (S : Position → Prop) (seen0 : list bool).
Context (HS : ∀ i c, cubes w !! i = Some c →
                     (isSeen seen0 i = false ↔ S (p c))).

Lemma searchEdge_cells x y cx cy :
  searchEdge w push seen0 x y →
  cubes w !! x = Some cx → cubes w !! y = Some cy →
  adjacent (p cx) (p cy) ∧ S (p cx).
Proof.
  intros [Hx Hy] Hcx Hcy.
  apply (succs_elem w push Hpush) in Hy
    as (c & q & Hc & Hq & Hid & _).
  simplify_eq. split; [|by eapply HS].
  apply (getCubeId_Some w Hw) in Hid as (c' & Hc' & <-).
  by simplify_eq.
Qed.

Lemma search_path_cells i ci :
  cubes w !! i = Some ci → S (p ci) →
  ∀ x, rtc (searchEdge w push seen0) x i →
  ∀ cx, cubes w !! x = Some cx →
  let T := λ a b, adjacent a b ∧ S b in
  rtc T (p cx) (p ci) ∧ rtc T (p ci) (p cx).
Proof.
  intros Hci HSi x Hrt.
  induction Hrt as [x|x y z Hxy Hyz IH]; intros cx Hcx T.
  - simplify_eq. done.
  - assert (∃ cy, cubes w !! y = Some cy) as [cy Hcy].
    { apply lookup_lt_is_Some_2. destruct Hxy as [_ Hy].
      eapply succs_lt; [done|apply Hpush|done]. }
    destruct (searchEdge_cells _ _ _ _ Hxy Hcx Hcy) as [Hadj HSx].
    assert (HSy : S (p cy)).
    { apply rtc_inv in Hyz as [->|(y' & [Hy _] & _)]; [by simplify_eq|].
      by eapply HS. }
    destruct (IH Hci cy Hcy) as [IH1 IH2]. split.
    + eapply rtc_l; [|exact IH1]. done.
    + eapply rtc_r; [exact IH2|]. split; [by apply adjacent_sym | done].
Qed.

End search_paths.

Section connectivity.
Context (w : World) (Hw : consistent w).
Context (S : Position → Prop) (seen0 : list bool) (start : nat).
Context (Hlen : length seen0 = length (cubes w)).
Context (Hstart : (start < length (cubes w))%nat).
Context (Hzero : isSeen seen0 0 = true ∨ start = 0%nat).
Context (HS : ∀ i c, cubes w !! i = Some c →
                     (isSeen seen0 i = false ↔ S (p c))).
Context (HSocc : ∀ q, S q → hasCube w q = true).
Context (Hst : isSeen seen0 start = false ∨
               ∀ i, (i < length (cubes w))%nat → isSeen seen0 i = true).

Lemma search_connected :
  ∃ seen',
    search w truthyId (isConnectedFuel w) seen0 [start] = Ok seen' ∧
    length seen' = length (cubes w) ∧
    ((∀ i, (i < length (cubes w))%nat → isSeen seen' i = true) ↔
     connected4 S).
Proof.
  destruct (search_spec w Hw truthyId truthyId_sub (isConnectedFuel w)
              seen0 [start])
    as (seen' & Hs & Hl & Hm & Hq & Hcl & Hr).
  { done. }
  { by apply Forall_singleton. }
  { unfold isConnectedFuel. simpl. lia. }
  exists seen'. split_and!; [done..|].
  assert (Hstart' : isSeen seen' start = true).
  { apply Hq. by left. }
  split.
  - intros Hall a b' Ha Hb.
    assert (Hto : ∀ q, S q → ∃ cs, cubes w !! start = Some cs ∧
              rtc (λ x y, adjacent x y ∧ S y) (p cs) q ∧
              rtc (λ x y, adjacent x y ∧ S y) q (p cs)).
    { intros q Hq'. pose proof (HSocc q Hq') as Hocc.
      apply (hasCube_true w Hw) in Hocc as [i Hi].
      pose proof (getCubeId_lt w Hw _ _ Hi) as Hlt.
      apply (getCubeId_Some w Hw) in Hi as (ci & Hci & <-).
      destruct (Hr i) as (q0 & Hq0 & Hrt).
      { by apply Hall. }
      { by eapply HS. }
      apply list_elem_of_singleton in Hq0 as ->.
      destruct (lookup_lt_is_Some_2 (cubes w) start Hstart) as [cs Hcs].
      exists cs. split; [done|].
      by apply (search_path_cells w Hw truthyId truthyId_sub S seen0 HS
                  i ci Hci Hq' start Hrt cs Hcs). }
    destruct (Hto a Ha) as (cs & Hcs & _ & Ha').
    destruct (Hto b' Hb) as (cs' & Hcs' & Hb' & _).
    simplify_eq. by etrans.
  - intros Hconn i Hi.
    destruct (isSeen seen0 i) eqn:Hsi; [by apply Hm|].
    destruct Hst as [Hst0|Hall]; [|by rewrite Hall in Hsi].
    destruct (lookup_lt_is_Some_2 (cubes w) start Hstart) as [cs Hcs].
    destruct (lookup_lt_is_Some_2 (cubes w) i Hi) as [ci Hci].
    assert (HSs : S (p cs)) by by eapply HS.
    assert (HSi : S (p ci)) by by eapply HS.
    specialize (Hconn (p cs) (p ci) HSs HSi).
    assert (Hgoal : S (p ci) ∧ ∀ j cj, cubes w !! j = Some cj →
                      p cj = p ci → isSeen seen' j = true);
      [|by eapply Hgoal].
    clear HSi Hci.
    eapply (rtc_ind_r (λ z, S z ∧ ∀ j cj, cubes w !! j = Some cj →
                      p cj = z → isSeen seen' j = true)); [| |exact Hconn].
    + split; [done|]. intros j cj Hcj Hp.
      by rewrite (cube_inj w Hw _ _ _ _ Hcj Hcs Hp).
    + intros y z Hxy [Hyz HSz] IH.
      split; [done|]. intros j cj Hcj Hp.
      destruct IH as [HSy IH].
      pose proof (HSocc y HSy) as Hocc.
      apply (hasCube_true w Hw) in Hocc as [k Hk].
      pose proof Hk as Hk'.
      apply (getCubeId_Some w Hw) in Hk' as (ck & Hck & <-).
      pose proof (IH k ck Hck eq_refl) as Hseenk.
      destruct j as [|j].
      { destruct Hzero as [H0| ->]; [|done].
        rewrite <- Hp in HSz. apply (HS _ _ Hcj) in HSz. congruence. }
      apply (Hcl k (Datatypes.S j)); [done| by eapply HS |].
      unfold succs. rewrite Hck. apply list_elem_of_omap.
      exists z. split; [done|].
      rewrite <- Hp, (getCubeId_cube w Hw _ _ Hcj). done.
Qed.

End connectivity.

Lemma isConnectedLoop_connected w S seen0 start :
  consistent w →
  length seen0 = length (cubes w) →
  (start < length (cubes w))%nat →
  isSeen seen0 0 = true ∨ start = 0%nat →
  (∀ i c, cubes w !! i = Some c → (isSeen seen0 i = false ↔ S (p c))) →
  (∀ q, S q → hasCube w q = true) →
  (isSeen seen0 start = false ∨
   ∀ i, (i < length (cubes w))%nat → isSeen seen0 i = true) →
  ∃ r, isConnectedLoop (isConnectedFuel w) w seen0 (countTrue seen0) [start]
         = Ok r ∧
       (length (cubes w) = r ↔ connected4 S).
Proof.
  intros Hw Hlen Hstart Hzero HS HSocc Hst.
  destruct (search_connected w Hw S seen0 start Hlen Hstart Hzero HS HSocc Hst)
    as (seen' & Hs & Hl & Hiff).
  destruct (isConnectedLoop_search w _ seen0 (countTrue seen0) [start] seen' Hs)
    as (r & Hr & Hcnt); [done | by apply Forall_singleton | done |].
  exists r. split; [done|].
  rewrite <- Hiff, <- Hl, <- countTrue_all.
  split; lia.
Qed.

Lemma isConnected_spec w skip :
  consistent w →
  ∃ c, isConnected w skip = Ok c ∧
       (c = true ↔ connected4 (occupiedExcept w skip)).
Proof.
  intros Hw. unfold isConnected.
  case_bool_decide as Hn.
  { exists true. split; [done|]. split; [|done]. intros _ a b' [Ha _].
    apply (hasCube_true w Hw) in Ha as [i Hi].
    apply (getCubeId_lt w Hw) in Hi. lia. }
  set (n := length (cubes w)) in *.
  assert (Hcase :
    (match skip with
     | None => None
     | Some s => getCubeId w s
     end = None ∧
     ∀ i c, cubes w !! i = Some c → occupiedExcept w skip (p c)) ∨
    (∃ s k, skip = Some s ∧ getCubeId w s = Some k)).
  { destruct skip as [s|]; [destruct (getCubeId w s) as [k|] eqn:Hk|].
    - right. eauto.
    - left. split; [done|]. intros i c Hc. split; [by eapply hasCube_cube|].
      intros [= ->]. rewrite (getCubeId_cube w Hw _ _ Hc) in Hk. done.
    - left. split; [done|]. intros i c Hc. split; [by eapply hasCube_cube|done]. }
  destruct Hcase as [[Hnone Hall]|(s & k & -> & Hk)].
  - destruct (isConnectedLoop_connected w (occupiedExcept w skip)
                (replicate n false) 0%nat) as (r & Hr & Hiff);
      try done.
    + by rewrite length_replicate.
    + lia.
    + by right.
    + intros i c Hc. rewrite isSeen_replicate. split; [|done].
      intros _. by eapply Hall.
    + by intros q [? _].
    + left. apply isSeen_replicate.
    + rewrite countTrue_replicate in Hr.
      assert (Heq : (let '(seen, seenCount, queue) :=
                 match skip with
                 | Some s => match getCubeId w s with
                     | Some skipIndex =>
                         (<[skipIndex:=true]> (replicate n false), 1%nat,
                          if bool_decide (skipIndex = 0%nat) &&
                             bool_decide (1 < n)%nat
                          then [1%nat] else [0%nat])
                     | None => (replicate n false, 0%nat, [0%nat])
                     end
                 | None => (replicate n false, 0%nat, [0%nat])
                 end in
               seenCount' ← isConnectedLoop (isConnectedFuel w) w seen
                               seenCount queue;
               Ok (bool_decide (n = seenCount'))) = Ok (bool_decide (n = r))).
      { destruct skip as [s|]; [rewrite Hnone|]; by rewrite Hr. }
      rewrite Heq. eexists. split; [done|].
      rewrite bool_decide_eq_true. done.
  - rewrite Hk.
    pose proof (getCubeId_lt w Hw _ _ Hk) as Hlt.
    pose proof (getCubeId_Some w Hw _ _ Hk) as (ck & Hck & Hpk).
    set (seen0 := <[k:=true]> (replicate n false)).
    set (start := if bool_decide (k = 0%nat) && bool_decide (1 < n)%nat
                  then 1%nat else 0%nat).
    assert (Hseen : ∀ i, isSeen seen0 i = true ↔ i = k).
    { intros i. unfold seen0. rewrite isSeen_insert, length_replicate,
        isSeen_replicate. split; [by intros [[? _]|?] | by left]. }
    assert (Hq : (if bool_decide (k = 0%nat) && bool_decide (1 < n)%nat
                  then [1%nat] else [0%nat]) = [start]).
    { unfold start. by destruct (_ && _). }
    rewrite Hq.
    destruct (isConnectedLoop_connected w (occupiedExcept w (Some s))
                seen0 start) as (r & Hr & Hiff); try done.
    + unfold seen0. by rewrite length_insert, length_replicate.
    + unfold start. destruct (bool_decide (k = 0%nat)); simpl; [|lia].
      case_bool_decide; lia.
    + unfold start. destruct (decide (k = 0%nat)) as [->|Hne].
      * left. by apply Hseen.
      * right. by rewrite bool_decide_eq_false_2.
    + intros i c Hc. rewrite <- not_true_iff_false, Hseen. split.
      * intros Hne. split; [by eapply hasCube_cube|].
        intros [= ->]. rewrite (getCubeId_cube w Hw _ _ Hc) in Hk. congruence.
      * intros [_ Hne] ->. by simplify_eq.
    + by intros q [? _].
    + unfold start. destruct (decide (k = 0%nat)) as [->|Hne].
      * simpl. destruct (decide (1 < n)%nat) as [Hn1|Hn1].
        -- left. rewrite bool_decide_eq_true_2 by done.
           rewrite <- not_true_iff_false, Hseen. lia.
        -- right. intros i Hi. apply Hseen. lia.
      * rewrite bool_decide_eq_false_2 by done. simpl. left.
        rewrite <- not_true_iff_false, Hseen. lia.
    + assert (Hct : countTrue seen0 = 1%nat).
      { unfold seen0. rewrite countTrue_insert, countTrue_replicate; try done.
        - by rewrite length_replicate.
        - apply isSeen_replicate. }
      rewrite Hct in Hr. simpl. rewrite Hr. simpl.
      eexists. split; [done|]. rewrite bool_decide_eq_true. done.
Qed.

(** ** The local rule of a move *)

Lemma turn_four c : turn (turn (turn (turn c))) = c.
Proof. by destruct c. Qed.

Lemma turnSlide_four d : turnSlide (turnSlide (turnSlide (turnSlide d))) = d.
Proof. by destruct d. Qed.

Lemma iter_add_four {A} (f : A → A) (Hf : ∀ x, f (f (f (f x))) = x) j i x :
  Nat.iter (4 * j + i) f x = Nat.iter i f x.
Proof.
  induction j as [|j IH]; [done|].
  replace (4 * Datatypes.S j + i)%nat
    with (Datatypes.S (Datatypes.S (Datatypes.S (Datatypes.S (4 * j + i)))))
    by lia.
  rewrite !Nat.iter_succ, IH. apply Hf.
Qed.

Lemma iter_four {A} (f : A → A) (Hf : ∀ x, f (f (f (f x))) = x) k x :
  Nat.iter k f x = Nat.iter (k `mod` 4) f x.
Proof.
  rewrite <- (iter_add_four f Hf (k `div` 4) (k `mod` 4)).
  f_equal. apply Nat.div_mod_eq.
Qed.

(** C4. [isValidIgnoreConnectivity] follows the table of legal moves: the
    slide N is legal exactly when its target is empty and the cube has
    neighbours at W and NW, or at E and NE; the slides E, S and W are the
    same rule turned by one, two and three quarter turns; a corner move
    [d1 d2] is legal exactly when its target is empty, there is no cube at
    [d1] and there is one at [d2]. *)
Theorem isValidIgnoreConnectivity_table (w : World) (q : Position) :
  let has := hasNeighbors w q in
  (∀ k : nat,
     isValidIgnoreConnectivity w (mkMove q (Nat.iter k turnSlide N)) =
     targetEmpty w (mkMove q (Nat.iter k turnSlide N)) &&
     ((has (Nat.iter k turn cW) && has (Nat.iter k turn cNW)) ||
      (has (Nat.iter k turn cE) && has (Nat.iter k turn cNE)))) ∧
  [Nat.iter 0 turnSlide N; Nat.iter 1 turnSlide N; Nat.iter 2 turnSlide N;
   Nat.iter 3 turnSlide N] = [N; E; S; W] ∧
  Forall (λ d, ∃ d1 d2,
            letters d = [d1; d2] ∧
            isValidIgnoreConnectivity w (mkMove q d) =
            targetEmpty w (mkMove q d) && (negb (has d1) && has d2))
         cornerDirections.
Proof.
  intros has. split_and!.
  - intros k.
    rewrite (iter_four turnSlide turnSlide_four k),
      !(iter_four turn turn_four k).
    assert (Hk : (k `mod` 4 < 4)%nat) by (apply Nat.mod_upper_bound; lia).
    unfold isValidIgnoreConnectivity, targetEmpty.
    destruct (k `mod` 4)%nat as [|[|[|[|?]]]]; [| | | |lia]; simpl;
      destruct (hasCube w _); simpl; try done.
    + by rewrite orb_comm.
    + by rewrite orb_comm.
  - done.
  - unfold cornerDirections, isValidIgnoreConnectivity, targetEmpty.
    repeat constructor; simpl; do 2 eexists; (split; [done|]);
      by destruct (hasCube w _).
Qed.

(** ** The grid store keeps its invariant *)

Lemma consistent_NoDup w : consistent w → NoDup (map p (cubes w)).
Proof.
  intros Hw. apply NoDup_alt. intros i j q Hi Hj.
  rewrite list_lookup_fmap in Hi, Hj.
  destruct (cubes w !! i) as [ci|] eqn:Hci; [|done].
  destruct (cubes w !! j) as [cj|] eqn:Hcj; [|done].
  simplify_eq/=. eapply (cube_inj w Hw); eauto.
Qed.

Lemma hasCube_iff w q :
  consistent w → (hasCube w q = true ↔ q ∈ map p (cubes w)).
Proof.
  intros Hw. rewrite (hasCube_true w Hw). split.
  - intros [i Hi]. apply (getCubeId_Some w Hw) in Hi as (c & Hc & <-).
    apply list_elem_of_fmap. exists c. split; [done|].
    by eapply list_elem_of_lookup_2.
  - intros (c & -> & Hc)%list_elem_of_fmap.
    apply list_elem_of_lookup in Hc as [i Hi].
    rewrite (getCubeId_cube w Hw _ _ Hi). eauto.
Qed.

Lemma addCubeUnmarked_spec w q c :
  consistent w → hasCube w q = false →
  ∃ w', addCubeUnmarked w q c = Ok w' ∧ consistent w' ∧
        cubes w' = cubes w ++ [newCube q c] ∧
        world w' = <[q := length (cubes w)]> (world w).
Proof.
  intros Hw Hq. unfold addCubeUnmarked. rewrite Hq.
  eexists. split; [done|]. split; [|done].
  apply (hasCube_false w Hw) in Hq. unfold getCubeId in Hq.
  split; simpl.
  - intros i ci Hi. apply lookup_app_Some in Hi as [Hi|[Hlen Hi]].
    + pose proof (getCubeId_cube w Hw _ _ Hi) as Hid. unfold getCubeId in Hid.
      rewrite lookup_insert_ne; [done|]. congruence.
    + apply list_lookup_singleton_Some in Hi as [Hi <-]. simpl.
      rewrite lookup_insert_eq. f_equal. lia.
  - intros x i Hx. apply lookup_insert_Some in Hx as [[<- <-]|[Hne Hx]].
    + exists (newCube q c). split; [|done].
      rewrite lookup_app_r by lia. by rewrite Nat.sub_diag.
    + apply (getCubeId_Some w Hw) in Hx as (cx & Hcx & Hp).
      exists cx. split; [|done]. by apply lookup_app_l_Some.
Qed.

Lemma moveCubeUnmarked_spec w from to :
  consistent w → hasCube w from = true → hasCube w to = false →
  ∃ w' id, moveCubeUnmarked w from to = Ok w' ∧ consistent w' ∧
        getCubeId w from = Some id ∧
        cubes w' = alter (setP to) id (cubes w) ∧
        world w' = <[to := id]> (delete from (world w)).
Proof.
  intros Hw Hf Ht. unfold moveCubeUnmarked. rewrite Hf, Ht. simpl.
  apply (hasCube_true w Hw) in Hf as [id Hid]. rewrite Hid.
  exists (mkWorld (<[to := id]> (delete from (world w)))
                  (alter (setP to) id (cubes w))), id.
  split; [done|]. split; [|done].
  apply (hasCube_false w Hw) in Ht. unfold getCubeId in *.
  pose proof (getCubeId_Some w Hw _ _ Hid) as (cf & Hcf & Hpf).
  split; simpl.
  - intros i ci Hi. destruct (decide (i = id)) as [->|Hne].
    + rewrite list_lookup_alter_eq, Hcf in Hi. simplify_eq/=.
      by rewrite lookup_insert_eq.
    + rewrite list_lookup_alter_ne in Hi by done.
      pose proof (getCubeId_cube w Hw _ _ Hi) as Hi'. unfold getCubeId in Hi'.
      rewrite lookup_insert_ne by congruence.
      rewrite lookup_delete_ne; [done|]. congruence.
  - intros x i Hx. apply lookup_insert_Some in Hx as [[<- <-]|[Hne Hx]].
    + exists (setP to cf). split; [|done].
      by rewrite list_lookup_alter_eq, Hcf.
    + apply lookup_delete_Some in Hx as [Hne' Hx].
      apply (getCubeId_Some w Hw) in Hx as (cx & Hcx & Hp).
      exists cx. split; [|done]. rewrite list_lookup_alter_ne; [done|].
      congruence.
Qed.

Lemma moveCubeUnmarked_hasCube w from to w' :
  consistent w → hasCube w from = true → hasCube w to = false →
  moveCubeUnmarked w from to = Ok w' →
  consistent w' ∧
  ∀ x, hasCube w' x = true ↔ (hasCube w x = true ∧ x ≠ from) ∨ x = to.
Proof.
  intros Hw Hf Ht Hm.
  destruct (moveCubeUnmarked_spec w from to Hw Hf Ht)
    as (w'' & id & Hm' & Hw' & Hid & Hcs & Hwd).
  rewrite Hm in Hm'. simplify_eq. split; [done|]. intros x.
  rewrite (hasCube_true w'' Hw'), (hasCube_true w Hw). unfold getCubeId.
  rewrite Hwd. destruct (decide (x = to)) as [->|Hne].
  - rewrite lookup_insert_eq. split; [by right | eauto].
  - rewrite lookup_insert_ne by done.
    destruct (decide (x = from)) as [->|Hne'].
    + rewrite lookup_delete_eq. split; [by intros [] | by intros [[]|]].
    + rewrite lookup_delete_ne by done. split; [by left | by intros [[]|]].
Qed.

Lemma reindex_notin cs : ∀ m i q,
  q ∉ map p cs → reindex m i cs !! q = m !! q.
Proof.
  induction cs as [|c cs IH]; intros m i q Hq; simpl; [done|].
  simpl in Hq. apply not_elem_of_cons in Hq as [Hne Hq].
  rewrite IH by done. by rewrite lookup_insert_ne.
Qed.

Lemma reindex_lookup cs : ∀ m i j c,
  NoDup (map p cs) → cs !! j = Some c →
  reindex m i cs !! p c = Some (i + j)%nat.
Proof.
  induction cs as [|c0 cs IH]; intros m i j c Hnd Hj; simpl; [done|].
  simpl in Hnd. apply NoDup_cons in Hnd as [Hnot Hnd].
  destruct j as [|j]; simpl in Hj.
  - simplify_eq. rewrite reindex_notin by done.
    rewrite lookup_insert_eq. f_equal. lia.
  - rewrite (IH _ _ j) by done. f_equal. lia.
Qed.

Lemma removeCubeUnmarked_spec w q :
  consistent w → hasCube w q = true →
  ∃ w' id cq, removeCubeUnmarked w q = Ok w' ∧ consistent w' ∧
        getCubeId w q = Some id ∧ cubes w !! id = Some cq ∧
        cubes w' = delete id (cubes w) ∧
        ∀ x, hasCube w' x = true ↔ hasCube w x = true ∧ x ≠ q.
Proof.
  intros Hw Hq. unfold removeCubeUnmarked. rewrite Hq. simpl.
  pose proof Hq as Hq'.
  apply (hasCube_true w Hw) in Hq' as [id Hid]. rewrite Hid.
  pose proof (getCubeId_Some w Hw _ _ Hid) as (cq & Hcq & Hpq).
  set (cs := delete id (cubes w)).
  pose proof (consistent_NoDup w Hw) as Hnd.
  assert (Hperm : map p (cubes w) ≡ₚ q :: map p cs).
  { rewrite <- Hpq. change (p cq :: map p cs) with (map p (cq :: cs)).
    apply fmap_Permutation. by apply delete_Permutation. }
  rewrite Hperm in Hnd. apply NoDup_cons in Hnd as [Hqcs Hnd].
  assert (Hsub : ∀ x, x ∈ map p cs ↔ x ∈ map p (cubes w) ∧ x ≠ q).
  { intros x. rewrite Hperm, elem_of_cons. split.
    - intros Hx. split; [by right|]. by intros ->.
    - by intros [[->|?] ?]. }
  assert (Hw' : consistent (mkWorld (reindex (delete q (world w)) 0 cs) cs)).
  { split; simpl.
    - intros j c Hj. by rewrite (reindex_lookup cs _ 0%nat j c).
    - intros x j Hx. destruct (decide (x ∈ map p cs)) as [Hin|Hnin].
      + apply list_elem_of_fmap in Hin as (c & -> & Hc).
        apply list_elem_of_lookup in Hc as [j' Hj'].
        rewrite (reindex_lookup cs _ 0%nat j' c) in Hx by done.
        simplify_eq/=. eauto.
      + rewrite reindex_notin in Hx by done.
        apply lookup_delete_Some in Hx as [Hne Hx].
        exfalso. apply Hnin, Hsub. split; [|done].
        apply (hasCube_iff w _ Hw), (hasCube_true w Hw). by exists j. }
  eexists _, id, cq. split_and!; try done.
  intros x. rewrite (hasCube_iff _ _ Hw'), (hasCube_iff _ _ Hw). simpl.
  apply Hsub.
Qed.

(** ** Valid moves *)

Lemma isConnected_true w skip :
  consistentb w = true → isConnected w skip = Ok true →
  connected4 (occupiedExcept w skip).
Proof.
  intros Hw%consistentb_sound Hc.
  destruct (isConnected_spec w skip Hw) as (c & Hc' & Hiff).
  rewrite Hc in Hc'. simplify_eq. by apply Hiff.
Qed.

Lemma isConnected_false w skip :
  consistentb w = true → isConnected w skip = Ok false →
  ¬ connected4 (occupiedExcept w skip).
Proof.
  intros Hw%consistentb_sound Hc.
  destruct (isConnected_spec w skip Hw) as (c & Hc' & Hiff).
  rewrite Hc in Hc'. simplify_eq. intros ?%Hiff. done.
Qed.

Lemma connected4_add (A : Position → Prop) s t :
  connected4 A → A s → adjacent s t →
  connected4 (λ x, A x ∨ x = t).
Proof.
  intros Hc Hs Hadj.
  assert (Hlift : ∀ a b, A a → A b →
            rtc (λ x y, adjacent x y ∧ (A y ∨ y = t)) a b).
  { intros a b' Ha Hb. eapply rtc_subrel; [|by apply Hc].
    intros x y [? ?]. split; [done | by left]. }
  assert (Hin : ∀ a, A a →
            rtc (λ x y, adjacent x y ∧ (A y ∨ y = t)) a t).
  { intros a Ha. apply rtc_r with s; [by apply Hlift|].
    split; [done | by right]. }
  assert (Hout : ∀ b, A b →
            rtc (λ x y, adjacent x y ∧ (A y ∨ y = t)) t b).
  { intros b' Hb. apply rtc_l with s; [|by apply Hlift].
    split; [by apply adjacent_sym | by left]. }
  intros a b' [Ha| ->] [Hb| ->]; [by apply Hlift | by apply Hin | by apply Hout | done].
Qed.

Lemma valid_support w m :
  isValidIgnoreConnectivity w m = true →
  hasCube w (targetPosition m) = false ∧
  targetPosition m ≠ position m ∧
  ∃ x, hasCube w x = true ∧ x ≠ position m ∧ adjacent x (targetPosition m).
Proof.
  unfold isValidIgnoreConnectivity.
  destruct (hasCube w (targetPosition m)) eqn:Ht; [done|].
  intros Hv. split; [done|].
  destruct m as [[x y] d]. unfold hasNeighbors, shift, targetPosition in *.
  simpl in *. split.
  { destruct d; simpl; intros [=]; lia. }
  destruct d; simpl in *;
    repeat match goal with
    | H : _ || _ = true |- _ => apply orb_true_iff in H as [H|H]
    | H : _ && _ = true |- _ => apply andb_true_iff in H as [? ?]
    end;
    match goal with
    | H : hasCube w ?c = true |- _ =>
        exists c; split; [exact H|]; split; [intros [=]; lia|];
        unfold adjacent, neighborCells; simpl;
        rewrite !elem_of_cons;
        first [ left; f_equal; lia
              | right; left; f_equal; lia
              | right; right; left; f_equal; lia
              | right; right; right; left; f_equal; lia ]
    end.
Qed.

Lemma isValid_eq w m c :
  isConnected w (Some (position m)) = Ok c →
  isValid w m = Ok (isValidIgnoreConnectivity w m && c).
Proof.
  intros Hc. unfold isValid.
  destruct (isValidIgnoreConnectivity w m); simpl; [|done].
  rewrite Hc. simpl. by destruct c.
Qed.

Lemma bind_Ok {A B} (a : A) (f : A → Result B) : (Ok a ≫= f) = f a.
Proof. done. Qed.

Lemma allMoves_NoDup q : NoDup (map (mkMove q) allDirections).
Proof.
  apply NoDup_fmap_2; [by intros ?? [=]|].
  unfold allDirections. by apply (bool_decide_unpack _).
Qed.

Lemma allMoves_elem q m : m ∈ map (mkMove q) allDirections ↔ position m = q.
Proof.
  rewrite list_elem_of_fmap. split; [by intros (d & -> & _)|].
  intros <-. exists (direction m). split; [by destruct m|].
  unfold allDirections. destruct (direction m); set_solver.
Qed.



(** C2, as stated, fails: in the connected configuration
    {(0,0), (0,1), (1,0)} the corner move NE of the cube at (0,0) has an
    empty target (1,1) and leaves the configuration 4-connected, yet
    [isValid] rejects it, because there is a cube at N. *)
Lemma isValid_not_iff_connected :
  connected4 (occupiedExcept (worldOfCells [(0, 0); (0, 1); (1, 0)]) None) ∧
  ¬ isValidClaim (worldOfCells [(0, 0); (0, 1); (1, 0)]) (mkMove (0, 0) NE).
Proof.
  split.
  - apply isConnected_true; vm_compute; reflexivity.
  - intros [_ Hclaim].
    assert (Hv : isValid (worldOfCells [(0, 0); (0, 1); (1, 0)])
                   (mkMove (0, 0) NE) = Ok false) by (vm_compute; reflexivity).
    rewrite Hv in Hclaim. enough (Ok false = Ok true) by done.
    apply Hclaim. split; [vm_compute; reflexivity|].
    eexists. split; [vm_compute; reflexivity|].
    apply isConnected_true; vm_compute; reflexivity.
Qed.

(** C2, amended. In a world whose cubes stand on safe-integer cells, for a
    move [m] from a cell holding a cube, [isValid] returns, and it accepts
    [m] exactly when the local rule [isValidIgnoreConnectivity] holds and
    the configuration without the source cube is 4-connected. Every move
    it accepts has an empty target and leaves the configuration
    4-connected once executed. *)
Theorem isValid_spec (w : World) (m : Move) :
  consistent w → safeCoordinates 0 w → hasCube w (position m) = true →
  (∃ v, isValid w m = Ok v) ∧
  (isValid w m = Ok true ↔
   isValidIgnoreConnectivity w m = true ∧
   connected4 (occupiedExcept w (Some (position m)))) ∧
  (isValid w m = Ok true →
   hasCube w (targetPosition m) = false ∧
   ∃ w', executeUnmarked w m = Ok w' ∧ consistent w' ∧
         connected4 (occupiedExcept w' None)).
Proof.
  intros Hw _ Hsrc.
  destruct (isConnected_spec w (Some (position m)) Hw) as (c & Hc & Hiff).
  rewrite (isValid_eq w m c Hc).
  assert (Heq : Ok (isValidIgnoreConnectivity w m && c) = Ok true ↔
                isValidIgnoreConnectivity w m = true ∧
                connected4 (occupiedExcept w (Some (position m)))).
  { rewrite <- Hiff, <- andb_true_iff. split; [by intros [=]|by intros ->]. }
  split_and!; [eauto | done |].
  intros [Hv Hconn]%Heq.
  destruct (valid_support w m Hv) as (Ht & Hne & x & Hx & Hxne & Hadj).
  split; [done|]. unfold executeUnmarked.
  destruct (moveCubeUnmarked_spec w _ _ Hw Hsrc Ht)
    as (w' & id & Hm & Hw' & _).
  exists w'. split; [done|]. split; [done|].
  destruct (moveCubeUnmarked_hasCube w _ _ w' Hw Hsrc Ht Hm) as [_ Hocc].
  eapply connected4_ext;
    [|apply (connected4_add _ x (targetPosition m) Hconn); [|done]].
  - intros y. unfold occupiedExcept. rewrite Hocc. split.
    + intros [[? ?]| ->]; (split; [|done]); [left | by right].
      split; [done|congruence].
    + intros [[[? ?]|?] _]; [left|by right]. split; [done|congruence].
  - split; [done|congruence].
Qed.

Lemma isValid_spec_witness :
  (∃ v, isValid (worldOfCells [(0, 0); (1, 0); (0, 1)]) (mkMove (1, 0) N)
        = Ok v) ∧
  (isValid (worldOfCells [(0, 0); (1, 0); (0, 1)]) (mkMove (1, 0) N) = Ok true
   ↔ isValidIgnoreConnectivity (worldOfCells [(0, 0); (1, 0); (0, 1)])
       (mkMove (1, 0) N) = true ∧
     connected4 (occupiedExcept (worldOfCells [(0, 0); (1, 0); (0, 1)])
                   (Some (1, 0)))) ∧
  (isValid (worldOfCells [(0, 0); (1, 0); (0, 1)]) (mkMove (1, 0) N) = Ok true
   → hasCube (worldOfCells [(0, 0); (1, 0); (0, 1)])
       (targetPosition (mkMove (1, 0) N)) = false ∧
     ∃ w', executeUnmarked (worldOfCells [(0, 0); (1, 0); (0, 1)])
             (mkMove (1, 0) N) = Ok w' ∧ consistent w' ∧
           connected4 (occupiedExcept w' None)).
Proof.
  apply (isValid_spec (worldOfCells [(0, 0); (1, 0); (0, 1)])
           (mkMove (1, 0) N)).
  - apply consistentb_sound. vm_compute. reflexivity.
  - apply safeCoordinatesb_sound. vm_compute. reflexivity.
  - vm_compute. reflexivity.
Defined.

(** ** The downmost-leftmost cube *)

Lemma fold_min_le l : ∀ x, fold_left Z.min l x ≤ x ∧
  ∀ y, y ∈ l → fold_left Z.min l x ≤ y.
Proof.
  induction l as [|a l IH]; intros x; simpl.
  - split; [lia|]. by intros y ?%elem_of_nil.
  - destruct (IH (Z.min x a)) as [H1 H2]. split; [lia|].
    intros y [->|Hy]%elem_of_cons; [lia | by apply H2].
Qed.

Lemma fold_min_elem l : ∀ x, fold_left Z.min l x = x ∨ fold_left Z.min l x ∈ l.
Proof.
  induction l as [|a l IH]; intros x; simpl; [by left|].
  destruct (IH (Z.min x a)) as [H|H].
  - rewrite H. destruct (Z.min_spec x a) as [[_ ->]|[_ ->]];
      [by left | right; by left].
  - right. by right.
Qed.

Lemma arrayMin_spec l m :
  arrayMin l = Some m → m ∈ l ∧ ∀ y, y ∈ l → m ≤ y.
Proof.
  destruct l as [|x l]; [done|]. simpl. intros [= <-].
  destruct (fold_min_le l x) as [H1 H2]. split.
  - destruct (fold_min_elem l x) as [->|H]; [by left | by right].
  - intros y [->|Hy]%elem_of_cons; auto.
Qed.

Lemma arrayMin_Some l : l ≠ [] → is_Some (arrayMin l).
Proof. destruct l; [done|]. simpl. eauto. Qed.

Lemma downmostLeftmost_spec w :
  consistent w → cubes w ≠ [] →
  ∃ start, downmostLeftmost w = Some start ∧ start ∈ cubes w ∧
    ∀ c, c ∈ cubes w →
         (p start).2 ≤ (p c).2 ∧
         ((p c).2 = (p start).2 → (p start).1 ≤ (p c).1).
Proof.
  intros Hw Hne. unfold downmostLeftmost.
  destruct (arrayMin_Some (map (λ c, (p c).2) (cubes w))) as [ly Hly].
  { by destruct (cubes w). }
  rewrite Hly. apply arrayMin_spec in Hly as [Hyin Hymin].
  apply list_elem_of_fmap in Hyin as (cy & Hcy & Hcyin).
  destruct (arrayMin_Some (map (λ c, (p c).1)
              (filter (λ c, (p c).2 = ly) (cubes w)))) as [lx Hlx].
  { intros Hnil. apply fmap_nil_inv in Hnil.
    assert (Hin : cy ∈ filter (λ c, (p c).2 = ly) (cubes w)).
    { by apply list_elem_of_filter. }
    rewrite Hnil in Hin. by apply elem_of_nil in Hin. }
  rewrite Hlx. apply arrayMin_spec in Hlx as [Hxin Hxmin].
  apply list_elem_of_fmap in Hxin as (cx & Hcx & Hcxin).
  apply list_elem_of_filter in Hcxin as [Hcxy Hcxin].
  apply list_elem_of_lookup in Hcxin as [i Hi].
  assert (Hpos : p cx = (lx, ly)).
  { destruct (p cx) as [a b']. simpl in *. by subst. }
  exists cx. split.
  { rewrite <- Hpos. by apply (getCube_cube w Hw i). }
  split; [by eapply list_elem_of_lookup_2|].
  intros c Hc. rewrite Hpos. simpl. split.
  - apply Hymin, list_elem_of_fmap. eauto.
  - intros Hy. apply Hxmin, list_elem_of_fmap. exists c. split; [done|].
    by apply list_elem_of_filter.
Qed.

Lemma hasCube_elem w q :
  consistent w → hasCube w q = true → ∃ c, c ∈ cubes w ∧ p c = q.
Proof.
  intros Hw (c & -> & Hc)%(hasCube_iff w q Hw)%list_elem_of_fmap. eauto.
Qed.

Lemma downmostLeftmost_corner w start :
  consistent w → cubes w ≠ [] → downmostLeftmost w = Some start →
  getCube w (p start) = Some start ∧
  hasNeighbors w (p start) cW = false ∧
  hasNeighbors w (p start) cS = false.
Proof.
  intros Hw Hne Hs.
  destruct (downmostLeftmost_spec w Hw Hne) as (s & Hs' & Hin & Hmin).
  rewrite Hs in Hs'. simplify_eq.
  apply list_elem_of_lookup in Hin as [i Hi].
  split; [by apply (getCube_cube w Hw i)|].
  unfold hasNeighbors, shift. simpl.
  split; apply not_true_is_false; intros (c & Hc & Hp)%(hasCube_elem w _ Hw);
    destruct (Hmin c Hc) as [H1 H2]; rewrite Hp in H1, H2; simpl in *; lia.
Qed.

(** ** The outside walk is a cycle *)

Lemma stepLetter_shift q d : cardinal d = true → stepLetter q d = shift q d.
Proof.
  destruct q as [x y]. unfold shift.
  destruct d; simpl; try done; intros _; f_equal; lia.
Qed.

Lemma shift_back q d : cardinal d = true → shift (shift q d) (opposite d) = q.
Proof.
  destruct q as [x y]. unfold shift.
  destruct d; simpl; try done; intros _; f_equal; lia.
Qed.

Lemma head_filter_cons (h : Compass → bool) x l :
  head (filter (λ x, h x = true) (x :: l)) =
  if h x then Some x else head (filter (λ x, h x = true) l).
Proof.
  rewrite filter_cons. destruct (h x) eqn:Hx; case_decide; done.
Qed.

Ltac pick_bends h :=
  unfold bends; rewrite ?head_filter_cons, ?filter_nil;
  destruct (h cN) eqn:?, (h cE) eqn:?, (h cS) eqn:?, (h cW) eqn:?.

Lemma bends_pick (h : Compass → bool) d :
  cardinal d = true → h (opposite d) = true →
  ∃ d', head (filter (λ x, h x = true) (bends d)) = Some d' ∧
        cardinal d' = true ∧ h d' = true.
Proof.
  intros Hd Hh.
  destruct d; try done; cbv [opposite turn] in Hh; pick_bends h;
    try done; eauto.
Qed.

Lemma bends_pick_inj (h : Compass → bool) d1 d2 :
  cardinal d1 = true → cardinal d2 = true →
  h (opposite d1) = true → h (opposite d2) = true →
  head (filter (λ x, h x = true) (bends d1)) =
  head (filter (λ x, h x = true) (bends d2)) →
  d1 = d2.
Proof.
  intros Hd1 Hd2 H1 H2.
  destruct d1; try done; destruct d2; try done;
    cbv [opposite turn] in H1, H2; pick_bends h; simpl; congruence.
Qed.

Section walk.
Context (w : World) (Hw : consistent w).

Lemma nextEdge_valid e :
  validEdge w e → ∃ e', nextEdge w e = Some e' ∧ validEdge w e' ∧
                        e'.1 = stepLetter e.1 e.2.
Proof.
  destruct e as [c d]. intros (Hd & Hc & Hq). simpl in *.
  unfold nextEdge, nextOnOutside. simpl.
  destruct (bends_pick (hasNeighbors w (stepLetter c d)) d Hd)
    as (d' & Hd' & Hcard & Hh).
  { unfold hasNeighbors. rewrite stepLetter_shift, shift_back; done. }
  rewrite Hd'. simpl. eexists. split; [done|]. split; [|done].
  split_and!; simpl; [done..|].
  rewrite (stepLetter_shift _ d') by done. done.
Qed.

Lemma nextEdge_inj e1 e2 e' :
  validEdge w e1 → validEdge w e2 →
  nextEdge w e1 = Some e' → nextEdge w e2 = Some e' → e1 = e2.
Proof.
  destruct e1 as [c1 d1], e2 as [c2 d2].
  intros (Hd1 & Hc1 & Hq1) (Hd2 & Hc2 & Hq2). simpl in *.
  unfold nextEdge, nextOnOutside. simpl.
  destruct (head (filter _ (bends d1))) as [d1'|] eqn:H1; [|done].
  destruct (head (filter _ (bends d2))) as [d2'|] eqn:H2; [|done].
  simpl. intros [= <-] [= Hq Hd]. subst d2'.
  rewrite Hq in H2.
  assert (d1 = d2) as ->.
  { apply (bends_pick_inj (hasNeighbors w (stepLetter c1 d1))); try done.
    - unfold hasNeighbors. rewrite stepLetter_shift, shift_back; done.
    - unfold hasNeighbors. rewrite <- Hq, stepLetter_shift, shift_back; done.
    - congruence. }
  f_equal. rewrite !stepLetter_shift in Hq by done.
  rewrite <- (shift_back c1 d2), <- (shift_back c2 d2) by done. congruence.
Qed.

Lemma validEdges_bound edges :
  NoDup edges → Forall (validEdge w) edges →
  (length edges ≤ 4 * length (cubes w))%nat.
Proof.
  intros Hnd Hv.
  transitivity (length (list_prod (map p (cubes w)) [cN; cE; cS; cW])).
  - apply submseteq_length, NoDup_submseteq; [done|].
    intros [c d] He. rewrite Forall_forall in Hv.
    destruct (Hv _ He) as (Hd & Hc & _). simpl in *.
    apply list_elem_of_In, in_prod.
    + by apply list_elem_of_In, (hasCube_iff w).
    + destruct d; try done; simpl; auto.
  - rewrite length_prod, length_map. simpl. lia.
Qed.

End walk.

Section walk_loop.
Context (w : World) (Hw : consistent w).

Lemma walkChain_snoc edges e_last ne :
  walkChain w edges → last edges = Some e_last →
  nextEdge w e_last = Some ne → walkChain w (edges ++ [ne]).
Proof.
  intros Hch Hlast Hne i e e' Hi Hi'.
  rewrite last_lookup in Hlast.
  assert (Hlt : (Datatypes.S i < length (edges ++ [ne]))%nat)
    by by eapply lookup_lt_Some.
  rewrite length_app in Hlt. simpl in Hlt.
  rewrite lookup_app_l in Hi by lia.
  destruct (decide (Datatypes.S i < length edges)%nat) as [Hlt'|Hge].
  - rewrite lookup_app_l in Hi' by lia. by eapply Hch.
  - rewrite lookup_app_r in Hi' by lia.
    replace (Datatypes.S i - length edges)%nat with 0%nat in Hi' by lia.
    simpl in Hi'. simplify_eq.
    replace (Nat.pred (length edges)) with i in Hlast by lia. congruence.
Qed.

Lemma walk_closes edges e1 e_last ne :
  NoDup edges → Forall (validEdge w) edges → walkChain w edges →
  head edges = Some e1 → last edges = Some e_last →
  nextEdge w e_last = Some ne → ne ∈ edges → ne = e1.
Proof.
  intros Hnd Hv Hch Hhd Hlast Hne Hin.
  apply list_elem_of_lookup in Hin as [j Hj].
  destruct j as [|j].
  { rewrite <- head_lookup in Hj. congruence. }
  exfalso.
  assert (is_Some (edges !! j)) as [ej Hej].
  { apply lookup_lt_is_Some. apply lookup_lt_Some in Hj. lia. }
  pose proof (Hch j ej ne Hej Hj) as Hnext.
  rewrite Forall_forall in Hv.
  assert (ej = e_last).
  { eapply (nextEdge_inj w); eauto.
    - apply Hv. by eapply list_elem_of_lookup_2.
    - apply Hv. rewrite last_lookup in Hlast.
      by eapply list_elem_of_lookup_2. }
  subst ej. rewrite last_lookup in Hlast.
  pose proof (NoDup_lookup _ _ _ _ Hnd Hej Hlast) as Heq.
  apply lookup_lt_Some in Hj. lia.
Qed.

Lemma outsideLoop_spec fuel : ∀ outside edges e1 e_last,
  NoDup edges → Forall (validEdge w) edges → walkChain w edges →
  head edges = Some e1 → last edges = Some e_last →
  map p outside = map fst edges →
  Forall (λ c, getCube w (p c) = Some c) outside →
  (4 * length (cubes w) < fuel + length edges)%nat →
  ∃ outside' edges' e_last',
    outsideLoop fuel w outside edges (stepLetter e_last.1 e_last.2) e_last.2
      = Ok (outside', edges') ∧
    NoDup edges' ∧ Forall (validEdge w) edges' ∧ walkChain w edges' ∧
    head edges' = Some e1 ∧ last edges' = Some e_last' ∧
    nextEdge w e_last' = Some e1 ∧
    map p outside' = map fst edges' ++ [e1.1] ∧
    Forall (λ c, getCube w (p c) = Some c) outside'.
Proof.
  induction fuel as [|fuel IH];
    intros outside edges e1 e_last Hnd Hv Hch Hhd Hlast Hout Hcubes Hfuel.
  { pose proof (validEdges_bound w Hw edges Hnd Hv). lia. }
  assert (Hvl : validEdge w e_last).
  { rewrite Forall_forall in Hv. apply Hv. rewrite last_lookup in Hlast.
    by eapply list_elem_of_lookup_2. }
  destruct (nextEdge_valid w e_last Hvl) as (ne & Hne & Hvne & Hne1).
  pose proof Hvl as (_ & _ & Hpos).
  apply bool_decide_eq_true in Hpos as [cube Hcube].
  pose proof (getCube_Some w Hw _ _ Hcube) as Hpc.
  cbn [outsideLoop]. rewrite Hcube.
  unfold nextEdge in Hne.
  destruct (nextOnOutside w (stepLetter e_last.1 e_last.2) e_last.2)
    as [d'|] eqn:Hd'; [|done].
  simpl in Hne. simplify_eq. rewrite Hpc.
  set (ne := (stepLetter e_last.1 e_last.2, d')) in *.
  assert (Hne : nextEdge w e_last = Some ne).
  { unfold nextEdge. by rewrite Hd'. }
  assert (Hcubes' : Forall (λ c, getCube w (p c) = Some c) (outside ++ [cube])).
  { apply Forall_app. split; [done|]. apply Forall_singleton. by rewrite Hpc. }
  case_bool_decide as Hin.
  - pose proof (walk_closes edges e1 e_last ne Hnd Hv Hch Hhd Hlast Hne Hin)
      as Heq.
    exists (outside ++ [cube]), edges, e_last.
    split_and!; try done; [by rewrite <- Heq|].
    rewrite map_app, Hout. simpl. rewrite Hpc, <- Heq. done.
  - destruct (IH (outside ++ [cube]) (edges ++ [ne]) e1 ne)
      as (outside' & edges' & e_last' & Hloop & H');
      try done.
    + apply NoDup_app. split_and!; [done| |apply NoDup_singleton].
      intros x Hx ->%list_elem_of_singleton. done.
    + apply Forall_app. split; [done|]. by apply Forall_singleton.
    + by eapply walkChain_snoc.
    + destruct edges; [done|]. done.
    + by rewrite last_snoc.
    + rewrite !map_app, Hout. simpl. by rewrite Hpc.
    + rewrite length_app. simpl. lia.
    + exists outside', edges', e_last'. split; [|done]. exact Hloop.
Qed.

End walk_loop.

Lemma nextEdge_fst w e e' : nextEdge w e = Some e' → e'.1 = stepLetter e.1 e.2.
Proof.
  unfold nextEdge. destruct (nextOnOutside w _ _); [|done].
  simpl. by intros [= <-].
Qed.

Lemma nextOnOutside_sound w q d d' :
  nextOnOutside w q d = Some d' →
  cardinal d' = true ∧ hasNeighbors w q d' = true.
Proof.
  unfold nextOnOutside. intros Hd. apply head_Some_elem_of in Hd.
  apply list_elem_of_filter in Hd as [Hh Hd]. split; [|done].
  destruct d; simpl in Hd;
    repeat (apply elem_of_cons in Hd as [->|Hd]; [done|]);
    by apply elem_of_nil in Hd.
Qed.

Lemma outsideWalk_spec w :
  consistent w → cubes w ≠ [] →
  ∃ outside edges start,
    outsideWalk w = Ok (outside, edges) ∧
    downmostLeftmost w = Some start ∧
    NoDup edges ∧ Forall (validEdge w) edges ∧ walkChain w edges ∧
    map p outside = map fst edges ++ [p start] ∧
    Forall (λ c, getCube w (p c) = Some c) outside ∧
    getCube w (p start) = Some start ∧
    (edges = [] ∨
     ∃ e1 el, head edges = Some e1 ∧ e1.1 = p start ∧
              last edges = Some el ∧ nextEdge w el = Some e1).
Proof.
  intros Hw Hne.
  destruct (downmostLeftmost_spec w Hw Hne) as (start & Hstart & _).
  destruct (downmostLeftmost_corner w start Hw Hne Hstart) as (Hget & _ & _).
  unfold outsideWalk. rewrite bool_decide_eq_false_2, Hstart;
    [|by destruct (cubes w)].
  unfold outsideFuel.
  replace (4 * length (cubes w) + 2)%nat
    with (Datatypes.S (4 * length (cubes w) + 1)) by lia.
  cbn [outsideLoop]. rewrite Hget. cbn [app].
  destruct (nextOnOutside w (p start) cS) as [d1|] eqn:Hd1.
  - rewrite bool_decide_eq_false_2 by by intros ?%elem_of_nil.
    cbn [app].
    destruct (nextOnOutside_sound w _ _ _ Hd1) as [Hcard Hhas].
    set (e1 := (p start, d1)).
    destruct (outsideLoop_spec w Hw (4 * length (cubes w) + 1)
                [start] [e1] e1 e1)
      as (outside' & edges' & el & Hloop & Hnd & Hv & Hch & Hhd & Hlast
          & Hnext & Hmap & Hcubes); try done.
    + apply NoDup_singleton.
    + apply Forall_singleton. split_and!; simpl; [done| |].
      * apply bool_decide_eq_true. by rewrite Hget.
      * by rewrite stepLetter_shift.
    + by apply Forall_singleton.
    + simpl. lia.
    + exists outside', edges', start. split; [exact Hloop|].
      split_and!; try done. right. exists e1, el. done.
  - exists [start], [], start. split_and!; try done.
    + constructor.
    + by apply Forall_singleton.
    + by left.
Qed.

Lemma same_cell_same_cube w c c' :
  getCube w (p c) = Some c → getCube w (p c') = Some c' → p c = p c' → c = c'.
Proof. intros H1 H2 Hp. rewrite Hp in H1. congruence. Qed.



(** ** [bridgeCapacity] counts the cubes cut off from the root *)

Lemma idsFrom_length l : ∀ k, length (idsFrom k l) = countTrue l.
Proof.
  induction l as [|[] l IH]; intros k; simpl; [done| |]; by rewrite IH.
Qed.

Lemma idsFrom_elem l : ∀ k i,
  i ∈ idsFrom k l ↔ (k ≤ i)%nat ∧ isSeen l (i - k) = true.
Proof.
  induction l as [|b' l IH]; intros k i; simpl.
  - split; [by intros ?%elem_of_nil | by intros [_ ?]].
  - assert (Hrec : i ∈ idsFrom (Datatypes.S k) l ↔
                   (k < i)%nat ∧ isSeen (b' :: l) (i - k) = true).
    { rewrite IH. split.
      - intros [Hle Hs]. split; [lia|].
        replace (i - k)%nat with (Datatypes.S (i - Datatypes.S k)) by lia.
        done.
      - intros [Hlt Hs]. split; [lia|].
        replace (i - k)%nat with (Datatypes.S (i - Datatypes.S k)) in Hs by lia.
        done. }
    destruct b'.
    + rewrite elem_of_cons, Hrec. split.
      * intros [->|[? ?]]; [|split; [lia|done]].
        split; [lia|]. by rewrite Nat.sub_diag.
      * intros [Hle Hs]. destruct (decide (i = k)) as [->|]; [by left|].
        right. split; [lia|done].
    + rewrite Hrec. split; [intros [? ?]; split; [lia|done]|].
      intros [Hle Hs]. split; [|done].
      destruct (decide (i = k)) as [->|]; [|lia].
      by rewrite Nat.sub_diag in Hs.
Qed.

Lemma idsFrom_NoDup l : ∀ k, NoDup (idsFrom k l).
Proof.
  induction l as [|[] l IH]; intros k; simpl; [constructor| |done].
  constructor; [|done]. rewrite idsFrom_elem. lia.
Qed.

Lemma countTrue_clear seen i :
  isSeen seen i = true →
  Datatypes.S (countTrue (<[i := false]> seen)) = countTrue seen.
Proof.
  revert i. induction seen as [|b' seen IH]; intros i Hi.
  - done.
  - destruct i as [|i]; simpl.
    + unfold isSeen in Hi. simpl in Hi. by destruct b'.
    + specialize (IH i Hi). destruct b'; simpl; lia.
Qed.

Lemma isSeen_clear seen i j :
  isSeen (<[i := false]> seen) j = true ↔ isSeen seen j = true ∧ j ≠ i.
Proof.
  unfold isSeen. destruct (decide (j = i)) as [->|Hne].
  - destruct (decide (i < length seen)%nat).
    + rewrite list_lookup_insert_eq by done. split; [done | by intros []].
    + rewrite list_insert_ge by lia.
      rewrite (lookup_ge_None_2 seen i) by lia. split; [done | by intros []].
  - rewrite list_lookup_insert_ne by done.
    split; [by intros ? | by intros [? _]].
Qed.

Lemma id_sub (o : option nat) j : id o = Some j → o = Some j.
Proof. done. Qed.




(** ** [markComponents] always returns *)

Lemma foldResult_inv {A B} (f : A → B → Result A) (P : B → Prop)
    (Inv : A → Prop) l : ∀ a,
  Forall P l → Inv a →
  (∀ a x, P x → Inv a → ∃ a', f a x = Ok a' ∧ Inv a') →
  ∃ a', foldResult f l a = Ok a' ∧ Inv a'.
Proof.
  induction l as [|x l IH]; intros a Hl Ha Hf; simpl; [eauto|].
  apply Forall_cons in Hl as [Hx Hl].
  destruct (Hf a x Hx Ha) as (a' & -> & Ha'). simpl. by apply IH.
Qed.

Section stability.
Context (w : World) (Hw : consistent w).

Lemma stabilityVisit_total rec i ct0 acc c :
  (∀ j st, (j < length (cubes w))%nat →
           length (dseen st) = length (cubes w) →
           (ct0 ≤ countTrue (dseen st))%nat →
           isSeen (dseen st) j = false →
           ∃ st', rec j st = Ok st' ∧
                  length (dseen st') = length (cubes w) ∧
                  (countTrue (dseen st) < countTrue (dseen st'))%nat) →
  length (dseen acc.1.1) = length (cubes w) →
  (ct0 ≤ countTrue (dseen acc.1.1))%nat →
  ∃ acc', stabilityVisit w rec i acc c = Ok acc' ∧
          length (dseen acc'.1.1) = length (cubes w) ∧
          (ct0 ≤ countTrue (dseen acc'.1.1))%nat.
Proof.
  intros Hrec Hlen Hct. destruct acc as [[st cut] cnt]. simpl in *.
  unfold stabilityVisit.
  destruct (getCubeId w c) as [cid|] eqn:Hcid; [|by eexists].
  pose proof (getCubeId_lt w Hw _ _ Hcid) as Hlt.
  destruct (isSeen (dseen st) cid) eqn:Hseen; simpl.
  - case_bool_decide; simpl; by eexists.
  - destruct (Hrec cid (mkDfs (dseen st) (<[cid := Some i]> (dparent st))
                          (ddepth st) (dlow st) (dstable st)))
      as (st1 & -> & Hl1 & Hc1); simpl; try done.
    simpl in *. eexists. split; [done|]. simpl. split; [done | lia].
Qed.

Lemma findCubeStabilityRecursive_total fuel : ∀ i d st,
  (i < length (cubes w))%nat →
  length (dseen st) = length (cubes w) →
  (length (cubes w) - countTrue (dseen st) < fuel)%nat →
  isSeen (dseen st) i = false →
  ∃ st', findCubeStabilityRecursive fuel w i d st = Ok st' ∧
         length (dseen st') = length (cubes w) ∧
         (countTrue (dseen st) < countTrue (dseen st'))%nat.
Proof.
  induction fuel as [|fuel IH]; intros i d st Hi Hlen Hfuel Hseen; [lia|].
  cbn [findCubeStabilityRecursive].
  destruct (lookup_lt_is_Some_2 (cubes w) i Hi) as [cube Hcube].
  rewrite Hcube.
  pose proof (countTrue_insert (dseen st) i ltac:(lia) Hseen) as Hct.
  pose proof (countTrue_le (<[i := true]> (dseen st))) as Hle.
  rewrite length_insert in Hle.
  set (st0 := mkDfs (<[i := true]> (dseen st)) (dparent st)
                (<[i := d]> (ddepth st)) (<[i := d]> (dlow st)) (dstable st)).
  destruct (foldResult_inv
              (stabilityVisit w
                 (λ j, findCubeStabilityRecursive fuel w j (d + 1)) i)
              (λ _, True)
              (λ acc, length (dseen acc.1.1) = length (cubes w) ∧
                      (Datatypes.S (countTrue (dseen st))
                       ≤ countTrue (dseen acc.1.1))%nat)
              (neighborCells (p cube)) (st0, false, 0%nat))
    as ([[st1 cut] cnt] & -> & Hl1 & Hc1).
  { by apply Forall_true. }
  { simpl. rewrite length_insert. split; [done | lia]. }
  { intros acc c _ [Hl Hc].
    apply stabilityVisit_total; [|done..].
    intros j st' Hj Hl' Hc' Hs'. apply IH; [done..|lia|done]. }
  simpl in *. eexists. split; [done|]. simpl. split; [done | lia].
Qed.

Lemma findCubeStability_total : ∃ stable, findCubeStability w = Ok stable.
Proof.
  unfold findCubeStability. case_bool_decide as Hn; [by eexists|].
  destruct (findCubeStabilityRecursive_total
              (Datatypes.S (length (cubes w))) 0 0
              (mkDfs (replicate (length (cubes w)) false)
                     (replicate (length (cubes w)) None)
                     (replicate (length (cubes w)) (-1))
                     (replicate (length (cubes w)) (-1))
                     (replicate (length (cubes w)) true)))
    as (st' & -> & _); simpl.
  - lia.
  - by rewrite length_replicate.
  - lia.
  - apply isSeen_replicate.
  - by eexists.
Qed.

End stability.

Lemma consistent_same_cells w w' :
  world w' = world w → map p (cubes w') = map p (cubes w) →
  consistent w → consistent w'.
Proof.
  intros Hwd Hp [H1 H2].
  assert (Hlk : ∀ i, p <$> cubes w' !! i = p <$> cubes w !! i).
  { intros i. rewrite <- !list_lookup_fmap.
    change (p <$> cubes w') with (map p (cubes w')).
    change (p <$> cubes w) with (map p (cubes w)). by rewrite Hp. }
  split; rewrite Hwd.
  - intros i c Hc. specialize (Hlk i). rewrite Hc in Hlk. simpl in Hlk.
    destruct (cubes w !! i) as [c0|] eqn:Hc0; [|done].
    injection Hlk as Hlk. rewrite Hlk. by apply H1.
  - intros q i Hq. destruct (H2 q i Hq) as (c & Hc & Hpc).
    specialize (Hlk i). rewrite Hc in Hlk. simpl in Hlk.
    destruct (cubes w' !! i) as [c'|]; [|done].
    injection Hlk as Hlk. exists c'. split; [done | congruence].
Qed.

Section components.
Context (w : World) (Hw : consistent w).

Lemma getCube_id q c : getCube w q = Some c → is_Some (getCubeId w (p c)).
Proof.
  intros Hc. pose proof (getCube_Some w Hw _ _ Hc) as ->.
  unfold getCube in Hc. destruct (getCubeId w q); [eauto | done].
Qed.

Lemma getOneNeighbor_total c :
  degree w c = 1%nat →
  ∃ nb, getOneNeighbor w c = Some nb ∧ is_Some (getCubeId w (p nb)).
Proof.
  unfold degree, getOneNeighbor, hasNeighbors, shift, hasCube.
  destruct (p c) as [x y]. simpl.
  rewrite !Z.add_0_r.
  replace (x + -1) with (x - 1) by lia. replace (y + -1) with (y - 1) by lia.
  destruct (getCube w (x + 1, y)) as [n1|] eqn:H1.
  { intros _. exists n1. split; [done | by eapply getCube_id]. }
  destruct (getCube w (x - 1, y)) as [n2|] eqn:H2.
  { intros _. exists n2. split; [done | by eapply getCube_id]. }
  destruct (getCube w (x, y + 1)) as [n3|] eqn:H3.
  { intros _. exists n3. split; [done | by eapply getCube_id]. }
  destruct (getCube w (x, y - 1)) as [n4|] eqn:H4.
  { intros _. exists n4. split; [done | by eapply getCube_id]. }
  rewrite !bool_decide_eq_false_2 by by intros []. done.
Qed.

Lemma componentStep_total s cube :
  getCube w (p cube) = Some cube → ∃ s', componentStep w s cube = Ok s'.
Proof.
  intros [id Hid]%getCube_id. unfold componentStep. rewrite Hid.
  destruct (negb (isSeen (wseen s) id)); [by eexists|].
  destruct (wstack s) as [|c1 [|c2 rest]]; try by eexists.
  case_bool_decide; by eexists.
Qed.

Lemma looseStep_total acc i :
  (i < length (cubes w))%nat → ∃ acc', looseStep w acc i = Ok acc'.
Proof.
  intros Hi. destruct acc as [components chunkIds]. unfold looseStep.
  destruct (lookup_lt_is_Some_2 (cubes w) i Hi) as [ci ->].
  destruct (bool_decide (getZ components i = 1)); simpl; [|by eexists].
  case_bool_decide as Hdeg; simpl; [|by eexists].
  destruct (getOneNeighbor_total ci Hdeg) as (nb & -> & [k ->]).
  case_bool_decide; by eexists.
Qed.

Lemma findComponents_total :
  ∃ r, findComponents w = Ok r ∧
       (¬ connected4 (occupiedExcept w None) →
        r.1 = replicate (length (cubes w)) (-1)).
Proof.
  unfold findComponents. case_bool_decide as Hn.
  { eexists. split; [done|]. done. }
  destruct (isConnected_spec w None Hw) as (c & -> & Hiff).
  rewrite bind_Ok. destruct c; cbn [negb].
  2: { eexists. split; [done|]. done. }
  assert (Hne : cubes w ≠ []) by (by destruct (cubes w)).
  destruct (outsideWalk_spec w Hw Hne)
    as (outside & edges & start & Hwalk & _ & _ & _ & _ & Hmap & Hcubes & _).
  unfold outsideCubes. rewrite Hwalk, !bind_Ok. cbn [fst].
  destruct (foldResult_inv (componentStep w)
              (λ c, getCube w (p c) = Some c) (λ _, True) outside
              (mkWalk (replicate (length (cubes w)) (-1))
                      (replicate (length (cubes w)) (-1))
                      (replicate (length (cubes w)) false) [] 0))
    as (s & -> & _); [done | done | |].
  { intros a x Hx _. destruct (componentStep_total a x Hx) as [s' ->]. eauto. }
  rewrite bind_Ok.
  destruct outside as [|first outside].
  { destruct edges; done. }
  apply Forall_cons in Hcubes as [[id ->]%getCube_id _].
  destruct (foldResult_inv (looseStep w)
              (λ i, i < length (cubes w))%nat (λ _, True)
              (seq 0 (length (cubes w)))
              (map (λ v, if bool_decide (v = -1) then 2 else v)
                   (setIfUnset id 1 (wcomponents s)), wchunkIds s))
    as (r & -> & _); [| done | |].
  { apply Forall_forall. intros i Hi%elem_of_seq. lia. }
  { intros a x Hx _. destruct (looseStep_total a x Hx) as [s' ->]. eauto. }
  eexists. split; [done|]. intros Hnc. destruct Hnc. by apply Hiff.
Qed.

End components.

Lemma core_marked s k f c :
  core (setOnBoundary f (setChunkId k (setComponentStatus s c))) = core c.
Proof. done. Qed.

Lemma markBoundary_core w cs c :
  map core (markBoundary w cs c) = map core cs ∧
  map componentStatus (markBoundary w cs c) = map componentStatus cs.
Proof.
  unfold markBoundary. destruct (getCubeId w (p c)) as [id|]; [|done].
  split; apply list_eq; intros i; rewrite !list_lookup_fmap;
    (destruct (decide (i = id)) as [->|Hne];
     [rewrite list_lookup_alter_eq; by destruct (cs !! id)
     |by rewrite list_lookup_alter_ne]).
Qed.

Lemma foldl_markBoundary_core w outside : ∀ cs,
  map core (foldl (markBoundary w) cs outside) = map core cs ∧
  map componentStatus (foldl (markBoundary w) cs outside)
    = map componentStatus cs.
Proof.
  induction outside as [|c outside IH]; intros cs; simpl; [done|].
  destruct (IH (markBoundary w cs c)) as [-> ->]. apply markBoundary_core.
Qed.

Lemma map_core_p cs cs' : map core cs' = map core cs → map p cs' = map p cs.
Proof.
  intros H. apply (f_equal (map (λ x, x.1.1))) in H.
  by rewrite !map_map in H.
Qed.

Lemma map_p_core cs :
  map p cs = map (λ x : Z * Z * (Z * Z) * Color, x.1.1) (map core cs).
Proof. by rewrite map_map. Qed.

Lemma markComponents_spec w :
  consistent w →
  ∃ w', markComponents w = Ok w' ∧ consistent w' ∧
        world w' = world w ∧ map core (cubes w') = map core (cubes w) ∧
        (¬ connected4 (occupiedExcept w None) →
         Forall (λ c, componentStatus c = NONE) (cubes w')).
Proof.
  intros Hw. unfold markComponents.
  destruct (findComponents_total w Hw) as ([components chunkIds] & -> & Hdis).
  rewrite bind_Ok.
  destruct (findCubeStability_total w Hw) as (stable & ->).
  rewrite bind_Ok.
  set (cs := imap _ (cubes w)).
  assert (Hcore : map core cs = map core (cubes w)).
  { unfold cs. apply list_eq. intros i.
    rewrite !list_lookup_fmap, list_lookup_imap.
    by destruct (cubes w !! i). }
  assert (Hw1 : consistent (mkWorld (world w) cs)).
  { eapply consistent_same_cells; [| |exact Hw]; [done|].
    by apply map_core_p. }
  destruct (decide (cubes w = [])) as [Hnil|Hne].
  { exists (mkWorld (world w) cs).
    unfold outsideCubes, outsideWalk. simpl.
    assert (cs = []) as Hcs by (unfold cs; by rewrite Hnil).
    rewrite Hcs. simpl. split_and!; try done.
    - by rewrite <- Hcs.
    - by rewrite Hnil. }
  destruct (outsideWalk_spec (mkWorld (world w) cs) Hw1)
    as (outside & edges & start & Hwalk & _).
  { simpl. intros Hcs. apply Hne.
    apply (f_equal length) in Hcs. unfold cs in Hcs.
    rewrite length_imap in Hcs. by destruct (cubes w). }
  unfold outsideCubes. rewrite Hwalk, !bind_Ok. cbn [fst].
  destruct (foldl_markBoundary_core w outside cs) as [Hc1 Hc2].
  eexists. split; [done|]. simpl. split_and!.
  - eapply consistent_same_cells; [| |exact Hw]; [done|]. simpl.
    apply map_core_p. by rewrite Hc1.
  - done.
  - by rewrite Hc1.
  - intros Hnc. specialize (Hdis Hnc). simpl in Hdis. subst components.
    apply (Forall_fmap componentStatus (λ s, s = NONE)).
    change (componentStatus <$> foldl (markBoundary w) cs outside)
      with (map componentStatus (foldl (markBoundary w) cs outside)).
    rewrite Hc2. unfold cs.
    apply Forall_forall. intros s Hs.
    apply list_elem_of_fmap in Hs as (c & -> & Hc).
    apply list_elem_of_lookup in Hc as [i Hi].
    rewrite list_lookup_imap in Hi.
    destruct (cubes w !! i) as [c0|] eqn:Hc0; [|done].
    simpl in Hi. injection Hi as <-. simpl.
    unfold getZ. rewrite lookup_replicate_2 by by eapply lookup_lt_Some.
    done.
Qed.

Lemma addCube_spec w q c :
  consistent w → hasCube w q = false →
  ∃ w', addCube w q c = Ok w' ∧ consistent w' ∧
        map core (cubes w') = map core (cubes w) ++ [(q, q, c)] ∧
        (¬ connected4 (occupiedExcept w' None) →
         Forall (λ c, componentStatus c = NONE) (cubes w')).
Proof.
  intros Hw Hq. unfold addCube.
  destruct (addCubeUnmarked_spec w q c Hw Hq) as (w1 & -> & Hw1 & Hcs & Hwd).
  rewrite bind_Ok.
  destruct (markComponents_spec w1 Hw1) as (w2 & -> & Hw2 & Hwd2 & Hcore & Hn).
  exists w2. split_and!; [done..| |].
  - by rewrite Hcore, Hcs, map_app.
  - intros Hnc. apply Hn. intros Hc. apply Hnc.
    eapply connected4_ext; [|exact Hc].
    intros x. unfold occupiedExcept.
    rewrite (hasCube_iff w1 x Hw1), (hasCube_iff w2 x Hw2).
    by rewrite (map_core_p _ _ Hcore).
Qed.

Lemma addCube_occupied w q c :
  consistent w → hasCube w q = true → addCube w q c = Throw OccupiedCell w.
Proof.
  intros Hw Hq. unfold addCube, addCubeUnmarked. by rewrite Hq.
Qed.

(** ** Loading and saving *)

Lemma deserializeCube_addCube w x :
  deserializeCube w x = addCube w (jcell x) (jcolorOf x).
Proof.
  unfold deserializeCube, jcolorOf, jcell.
  by destruct (jcolor x) as [[[? ?] ?]|].
Qed.

Lemma deserialize_fold l : ∀ w,
  consistent w → NoDup (map jcell l) →
  (∀ x, x ∈ l → hasCube w (jcell x) = false) →
  ∃ w', foldResult deserializeCube l w = Ok w' ∧ consistent w' ∧
        map core (cubes w') =
          map core (cubes w) ++ map (λ x, (jcell x, jcell x, jcolorOf x)) l ∧
        (l ≠ [] → ¬ connected4 (occupiedExcept w' None) →
         Forall (λ c, componentStatus c = NONE) (cubes w')).
Proof.
  induction l as [|x l IH]; intros w Hw Hnd Hfree; simpl.
  { exists w. split_and!; [done..| |done]. by rewrite app_nil_r. }
  simpl in Hnd. apply NoDup_cons in Hnd as [Hx Hnd].
  rewrite deserializeCube_addCube.
  destruct (addCube_spec w (jcell x) (jcolorOf x) Hw)
    as (w1 & -> & Hw1 & Hcore1 & Hn1).
  { apply Hfree. by left. }
  rewrite bind_Ok.
  destruct (IH w1 Hw1 Hnd) as (w' & Hfold & Hw' & Hcore & Hn).
  { intros y Hy. apply not_true_is_false.
    rewrite (hasCube_iff w1 _ Hw1), map_p_core, Hcore1, map_app,
      <- map_p_core.
    simpl. intros [Hin|Hin%list_elem_of_singleton]%elem_of_app.
    - apply (hasCube_iff w _ Hw) in Hin.
      rewrite Hfree in Hin; [done | by right].
    - apply Hx. rewrite <- Hin. apply list_elem_of_fmap. eauto. }
  rewrite Hfold. exists w'. split_and!; [done..| |].
  - by rewrite Hcore, Hcore1, <- app_assoc.
  - intros _ Hnc. destruct l as [|y l]; [|by apply Hn].
    simpl in Hfold. injection Hfold as <-. by apply Hn1.
Qed.

Lemma deserialize_fold_outcomes l : ∀ w,
  consistent w →
  (∃ w', foldResult deserializeCube l w = Ok w') ∨
  (∃ w', foldResult deserializeCube l w = Throw OccupiedCell w').
Proof.
  induction l as [|x l IH]; intros w Hw; simpl; [eauto|].
  rewrite deserializeCube_addCube.
  destruct (hasCube w (jcell x)) eqn:Hx.
  - rewrite addCube_occupied by done. right. eauto.
  - destruct (addCube_spec w (jcell x) (jcolorOf x) Hw Hx)
      as (w1 & -> & Hw1 & _).
    rewrite bind_Ok. by apply IH.
Qed.

Lemma consistent_empty : consistent emptyWorld.
Proof. split; [by intros i c ? | by intros q i ?]. Qed.

Lemma deserialize_accepts data :
  version data ≤ 1 → NoDup (map jcell (jcubes data)) →
  ∃ w, deserialize emptyWorld data = Ok w ∧ consistent w ∧
       map core (cubes w) =
         map (λ x, (jcell x, jcell x, jcolorOf x)) (jcubes data) ∧
       (¬ connected4 (λ q, q ∈ map jcell (jcubes data)) →
        Forall (λ c, componentStatus c = NONE) (cubes w)).
Proof.
  intros Hv Hnd. unfold deserialize.
  rewrite bool_decide_eq_false_2 by lia.
  destruct (deserialize_fold (jcubes data) emptyWorld consistent_empty Hnd)
    as (w & Hd & Hw & Hcore & Hn).
  { intros x _. done. }
  exists w. split_and!; [done..|].
  intros Hnc. destruct (decide (jcubes data = [])) as [Hnil|Hne].
  { rewrite Hnil in Hcore. simpl in Hcore.
    apply map_eq_nil in Hcore. rewrite Hcore. constructor. }
  apply Hn; [done|]. intros Hc. apply Hnc.
  eapply connected4_ext; [|exact Hc].
  intros q. unfold occupiedExcept. rewrite (hasCube_iff w q Hw).
  rewrite map_p_core, Hcore. simpl. rewrite map_map. simpl.
  split; [by intros [? _] | done].
Qed.




(** C9, as stated, fails: after the move of the cube at (1,0) to (1,1) in
    the loaded L-shape, [serialize] still writes the cell (1,0), and the
    world loaded from that output has a cube at (1,0) and none at (1,1).
    In a world where the planner has put a mover back on the reset cell of
    another cube, the output of [serialize] lists that cell twice and
    [deserialize] throws. *)
Lemma roundTrip_not_up_to_order :
  consistent movedWorld ∧ cellsOf movedWorld = [(0, 0); (1, 1); (0, 1)] ∧
  (∃ w', deserialize emptyWorld (serialize movedWorld) = Ok w' ∧
         cellsOf w' = [(0, 0); (1, 0); (0, 1)]) ∧
  consistent sharedResetWorld ∧
  map resetPosition (cubes sharedResetWorld) = [(1, 0); (0, 1); (1, 0)] ∧
  (∃ w', deserialize emptyWorld (serialize sharedResetWorld)
         = Throw OccupiedCell w') ∧
  ¬ roundTripClaim movedWorld.
Proof.
  split_and!.
  - apply consistentb_sound. by vm_compute.
  - by vm_compute.
  - eexists. split; by vm_compute.
  - apply consistentb_sound. by vm_compute.
  - by vm_compute.
  - eexists. by vm_compute.
  - intros (w' & Hd & Hperm).
    assert (Hin : ((1, 1), (1, 0), BLUE) ∈ map core (cubes movedWorld)).
    { apply list_elem_of_lookup. by exists 1%nat. }
    rewrite <- Hperm in Hin.
    vm_compute in Hd. injection Hd as <-.
    revert Hin. apply (bool_decide_unpack _). by vm_compute.
Qed.

(** C9, amended. For a world whose cubes have pairwise distinct reset
    cells, loading the output of [serialize] into an empty world gives a
    world with the same cubes in the same order, each placed on its reset
    cell, with the reset cell and the colour it had. When every cube of the
    world stands on its reset cell the loaded world has the same cells,
    reset cells and colours. *)
Theorem deserialize_serialize (w : World) :
  NoDup (map resetPosition (cubes w)) →
  ∃ w', deserialize emptyWorld (serialize w) = Ok w' ∧ consistent w' ∧
        map core (cubes w') =
          map (λ c, (resetPosition c, resetPosition c, color c)) (cubes w) ∧
        ((∀ c, c ∈ cubes w → p c = resetPosition c) →
         map core (cubes w') = map core (cubes w)).
Proof.
  intros Hnd.
  destruct (deserialize_accepts (serialize w)) as (w' & Hd & Hw' & Hcore & _).
  { simpl. lia. }
  { simpl. rewrite map_map. simpl. unfold jcell. simpl.
    erewrite map_ext; [exact Hnd|]. intros c. by destruct (resetPosition c). }
  assert (Hcore' : map core (cubes w') =
            map (λ c, (resetPosition c, resetPosition c, color c)) (cubes w)).
  { rewrite Hcore. simpl. rewrite map_map. apply map_ext. intros c.
    unfold jcell, jcolorOf. simpl.
    destruct (resetPosition c), (color c). done. }
  exists w'. split_and!; [done..|].
  intros Hp. rewrite Hcore'. apply map_ext_in. intros c Hc%list_elem_of_In.
  unfold core. by rewrite (Hp c Hc).
Qed.

Lemma deserialize_serialize_witness :
  ∃ w', deserialize emptyWorld (serialize movedWorld) = Ok w' ∧
        consistent w' ∧
        map core (cubes w') =
          map (λ c, (resetPosition c, resetPosition c, color c))
              (cubes movedWorld) ∧
        ((∀ c, c ∈ cubes movedWorld → p c = resetPosition c) →
         map core (cubes w') = map core (cubes movedWorld)).
Proof.
  apply (deserialize_serialize movedWorld).
  apply (bool_decide_unpack _). vm_compute. reflexivity.
Defined.

(** C5, as stated, fails: the U-shape has no cycle, so the outside walk
    pops one cube at a time and every cube is a link; the cube (1,0) is a
    cut link, not a connector, and (0,0) and (2,0) are cut links, not
    stable chunk cubes. *)
Lemma uShape_has_no_connector :
  statusAt (loaded uShape) (1, 0) = Some LINK_CUT ∧
  ¬ uShapeClaim (loaded uShape).
Proof.
  split; [by vm_compute|].
  intros [H _]. vm_compute in H. discriminate H.
Qed.

(** C5, amended. In the U-shape {(0,0), (1,0), (2,0), (0,1), (2,1)},
    whatever the order in which the five cubes are listed, marking the
    components tags (0,0), (1,0) and (2,0) as [LINK_CUT] and the two tips
    (0,1) and (2,1) as [LINK_STABLE]. *)
Theorem uShape_classification :
  statusAt (loaded uShape) (1, 0) = Some LINK_CUT ∧
  statusAt (loaded uShape) (0, 1) = Some LINK_STABLE ∧
  statusAt (loaded uShape) (2, 1) = Some LINK_STABLE ∧
  statusAt (loaded uShape) (0, 0) = Some LINK_CUT ∧
  statusAt (loaded uShape) (2, 0) = Some LINK_CUT ∧
  Forall (λ cells, uShapeTags (loaded cells) = true) (permutations uShape).
Proof.
  do 5 (split; [vm_compute; reflexivity|]).
  apply Forall_forall. intros cells Hc.
  apply list_elem_of_In in Hc. revert cells Hc. apply forallb_forall.
  vm_compute. reflexivity.
Qed.

(** ** The move graph planner *)

Lemma validMovesFrom_moves w q :
  consistent w →
  ∃ ms, validMovesFrom w q = Ok ms ∧ (length ms ≤ 12)%nat ∧
        ∀ m, m ∈ ms ↔ position m = q ∧ isValid w m = Ok true.
Proof.
  intros Hw. destruct (isConnected_spec w (Some q) Hw) as (c & Hc & _).
  unfold validMovesFrom. rewrite Hc, bind_Ok.
  destruct c; cbn [negb].
  - eexists. split; [done|]. split.
    + etrans; [apply length_filter|]. by rewrite length_map.
    + intros m. rewrite list_elem_of_filter, allMoves_elem. split.
      * intros [Hv <-]. split; [done|].
        rewrite (isValid_eq w _ true) by done. by rewrite Hv.
      * intros [<- Hv]. rewrite (isValid_eq w _ true) in Hv by done.
        split; [|done]. injection Hv as Hv. by rewrite andb_true_r in Hv.
  - exists []. split; [done|]. split; [simpl; lia|].
    intros m. split; [by intros ?%elem_of_nil|].
    intros [<- Hv]. rewrite (isValid_eq w _ false) in Hv by done.
    by rewrite andb_false_r in Hv.
Qed.

Lemma isValid_local w m :
  isValid w m = Ok true → isValidIgnoreConnectivity w m = true.
Proof.
  unfold isValid. by destruct (isValidIgnoreConnectivity w m).
Qed.

Lemma valid_target_candidate w from m :
  consistent w → isValid w m = Ok true →
  targetPosition m ∈ candidates w from.
Proof.
  intros Hw Hv%isValid_local.
  destruct (valid_support w m Hv) as (_ & _ & x & Hx & _ & Hadj).
  unfold candidates. apply elem_of_list_to_set. right.
  apply list_elem_of_In, in_flat_map. exists x. split.
  - by apply list_elem_of_In, (hasCube_iff w).
  - by apply list_elem_of_In.
Qed.

Lemma size_list_to_set_le (l : list Position) :
  (size (list_to_set l : gset (Z * Z)) ≤ length l)%nat.
Proof.
  induction l as [|x l IH].
  - rewrite list_to_set_nil, size_empty. done.
  - rewrite list_to_set_cons, size_union_alt, size_singleton.
    pose proof (subseteq_size (list_to_set l ∖ {[x]})
                  (list_to_set l : gset (Z * Z))) as Hs.
    specialize (Hs ltac:(set_solver)). simpl. lia.
Qed.

Lemma candidates_size w from :
  (size (candidates w from) ≤ 4 * length (cubes w) + 1)%nat.
Proof.
  unfold candidates. etrans; [apply size_list_to_set_le|]. simpl.
  assert (Hlen : ∀ l : list Position,
            length (flat_map neighborCells l) = (4 * length l)%nat).
  { induction l as [|x l IH]; simpl; [done|]. rewrite IH. lia. }
  rewrite Hlen, length_map. lia.
Qed.

Lemma movePath_snoc w ms m x :
  movePath w ms x (position m) → isValid w m = Ok true →
  movePath w (ms ++ [m]) x (targetPosition m).
Proof.
  revert x. induction ms as [|m0 ms IH]; intros x; simpl.
  - intros -> Hv. done.
  - intros (Hp & Hv0 & Hrest) Hv. split_and!; [done..|]. by apply IH.
Qed.

Lemma movePath_app w ms1 ms2 x y z :
  movePath w ms1 x y → movePath w ms2 y z → movePath w (ms1 ++ ms2) x z.
Proof.
  revert x. induction ms1 as [|m ms1 IH]; intros x; simpl.
  - by intros ->.
  - intros (Hp & Hv & Hrest) H2. split_and!; [done..|]. by apply IH.
Qed.

(** A path that leaves the set [D] has a first move out of it. *)
Lemma movePath_exit (w : World) (D : gset (Z * Z)) (ms : list Move) :
  ∀ x y,
  movePath w ms x y → x ∈ D → y ∉ D →
  ∃ ms1 m ms2, ms = ms1 ++ m :: ms2 ∧ movePath w ms1 x (position m) ∧
               position m ∈ D ∧ (targetPosition m ∉ D) ∧
               isValid w m = Ok true.
Proof.
  induction ms as [|m ms IH]; intros x y; simpl.
  - intros -> Hx Hy. done.
  - intros (Hp & Hv & Hrest) Hx Hy.
    destruct (decide (targetPosition m ∈ D)) as [Hin|Hout].
    + destruct (IH _ _ Hrest Hin Hy)
        as (ms1 & m' & ms2 & -> & Hp1 & Hd & Ht & Hv').
      exists (m :: ms1), m', ms2. split_and!; try done.
    + exists [], m, ms. split_and!; try done. by subst.
Qed.

(** ** The search of [shortestMovePath] *)

Lemma levelsOk_head dep e q :
  levelsOk dep (e :: q) →
  Forall (λ e', levelOf dep e ≤ levelOf dep e')%nat (e :: q).
Proof.
  intros (l & q1 & q2 & Heq & H1 & H2).
  destruct q1 as [|e1 q1]; simpl in Heq.
  - subst q2. pose proof H2 as H2'. apply Forall_cons in H2' as [He _].
    eapply Forall_impl; [exact H2|]. simpl. intros e' He'. lia.
  - injection Heq as <- ->. pose proof H1 as H1'.
    apply Forall_cons in H1' as [He _].
    apply Forall_cons. split; [lia|]. apply Forall_app. split.
    + apply Forall_cons in H1 as [_ H1].
      eapply Forall_impl; [exact H1|]. simpl. intros e' He'. lia.
    + eapply Forall_impl; [exact H2|]. simpl. intros e' He'. lia.
Qed.

Lemma levelsOk_step dep dep' e q children :
  levelsOk dep (e :: q) →
  Forall (λ e', levelOf dep' e' = levelOf dep e') q →
  Forall (λ e', levelOf dep' e' = Datatypes.S (levelOf dep e)) children →
  levelsOk dep' (q ++ children).
Proof.
  intros (l & q1 & q2 & Heq & H1 & H2) Hsame Hch.
  assert (Hmove : ∀ k (qs : list (Position * option Move)),
            Forall (λ e', levelOf dep' e' = levelOf dep e') qs →
            Forall (λ e', levelOf dep e' = k) qs →
            Forall (λ e', levelOf dep' e' = k) qs).
  { intros k qs Ha Hb. rewrite Forall_forall in Ha, Hb.
    apply Forall_forall. intros e' He'. rewrite Ha by done. by apply Hb. }
  destruct q1 as [|e1 q1]; simpl in Heq.
  - subst q2. apply Forall_cons in H2 as [He H2].
    exists (Datatypes.S l), q, children. split_and!; [done| |].
    + by apply Hmove.
    + by rewrite <- He.
  - injection Heq as <- ->. apply Forall_cons in H1 as [He H1].
    apply Forall_app in Hsame as [Hs1 Hs2].
    exists l, q1, (q2 ++ children). split_and!.
    + by rewrite app_assoc.
    + by apply Hmove.
    + apply Forall_app. split; [by apply Hmove|]. by rewrite <- He.
Qed.

Lemma levelOf_insert dep loc d e :
  (∀ m, e.2 = Some m → position m ≠ loc) →
  levelOf (<[loc := d]> dep) e = levelOf dep e.
Proof.
  unfold levelOf. destruct e.2 as [m|]; [|done].
  intros Hne. by rewrite lookup_insert_ne by (symmetry; by apply Hne).
Qed.

Lemma movePath_closed w seen ms : ∀ x y,
  (∀ m, is_Some (seen !! position m) → isValid w m = Ok true →
        is_Some ((seen : gmap (Z * Z) (option Move)) !! targetPosition m)) →
  movePath w ms x y → is_Some (seen !! x) → is_Some (seen !! y).
Proof.
  induction ms as [|m ms IH]; intros x y Hcl; simpl.
  - by intros ->.
  - intros (<- & Hv & Hrest) Hx. eapply IH; [done..|]. by apply Hcl.
Qed.

Lemma searchBudget_skip w1 from fuel seen e queue :
  searchBudget w1 from (Datatypes.S fuel) seen (e :: queue) →
  searchBudget w1 from fuel seen queue.
Proof.
  intros (Hq & Hd & Hf). apply Forall_cons in Hq as [_ Hq].
  split_and!; [done..|]. simpl in Hf. lia.
Qed.

Lemma searchBudget_visit w1 from fuel seen loc mv queue children :
  searchBudget w1 from (Datatypes.S fuel) seen ((loc, mv) :: queue) →
  seen !! loc = None →
  Forall (λ e, e.1 ∈ candidates w1 from) children →
  (length children ≤ 12)%nat →
  searchBudget w1 from fuel (<[loc := mv]> seen) (queue ++ children).
Proof.
  intros (Hq & Hd & Hf) Hloc Hch Hlen.
  apply Forall_cons in Hq as [Hin Hq]. simpl in Hin, Hf.
  assert (Hnot : loc ∉ dom seen) by by apply not_elem_of_dom.
  split_and!.
  - by apply Forall_app.
  - rewrite dom_insert. set_solver.
  - assert (Hsz : size (candidates w1 from ∖ dom seen) =
                  Datatypes.S
                    (size (candidates w1 from ∖ dom (<[loc := mv]> seen)))).
    { rewrite dom_insert_L.
      replace (candidates w1 from ∖ dom seen)
        with ({[loc]} ∪ candidates w1 from ∖ ({[loc]} ∪ dom seen)).
      - rewrite size_union by set_solver. by rewrite size_singleton.
      - apply set_eq. intros x. rewrite !elem_of_union, !elem_of_difference,
          !elem_of_union, !elem_of_singleton.
        destruct (decide (x = loc)) as [->|]; naive_solver. }
    rewrite length_app. lia.
Qed.

Section planner.
Context (w1 : World) (Hw1 : consistent w1) (from : Position).

Lemma searchInv_root :
  searchInv w1 from (<[from := None]> ∅) (<[from := 0%nat]> ∅).
Proof.
  split_and!.
  - intros c. rewrite !lookup_insert_is_Some, !lookup_empty.
    split; (intros [->|[_ []]]; [by left|done]).
  - intros c mv d [[<- <-]|[_ ?]]%lookup_insert_Some
                  [[_ <-]|[_ ?]]%lookup_insert_Some; done.
  - intros c d ms [[<- <-]|[_ ?]]%lookup_insert_Some _; [lia|done].
  - intros c d [[<- <-]|[_ ?]]%lookup_insert_Some; [|done].
    rewrite map_size_insert_None by done. lia.
Qed.

Lemma visit_exact seen dep loc m queue :
  searchInv w1 from seen dep → is_Some (seen !! from) → seen !! loc = None →
  levelsOk dep ((loc, Some m) :: queue) →
  (∀ m', is_Some (seen !! position m') → isValid w1 m' = Ok true →
         is_Some (seen !! targetPosition m') ∨
         (targetPosition m', Some m') ∈ (loc, Some m) :: queue) →
  ∀ ms, movePath w1 ms from loc →
        (levelOf dep (loc, Some m) ≤ length ms)%nat.
Proof.
  intros (V1 & V2 & V3 & V9) Hfrom Hloc Hlev Hcl ms Hms.
  destruct (movePath_exit w1 (dom seen) ms from loc Hms)
    as (ms1 & m' & ms2 & -> & Hp1 & Hd & Ht & Hv').
  { by apply elem_of_dom. }
  { by apply not_elem_of_dom. }
  apply elem_of_dom in Hd.
  pose proof (proj1 (V1 _) Hd) as [d1 Hd1].
  pose proof (V3 _ _ _ Hd1 Hp1) as Hle.
  destruct (Hcl m' Hd Hv') as [Hs|Hin].
  { by apply elem_of_dom in Hs. }
  pose proof (levelsOk_head _ _ _ Hlev) as Hhead.
  rewrite Forall_forall in Hhead. specialize (Hhead _ Hin).
  assert (Hm' : levelOf dep (targetPosition m', Some m') = Datatypes.S d1).
  { unfold levelOf. simpl. by rewrite Hd1. }
  rewrite length_app. simpl. lia.
Qed.

Lemma searchInv_insert seen dep loc m d0 :
  searchInv w1 from seen dep → is_Some (seen !! from) → seen !! loc = None →
  entryOk w1 seen (loc, Some m) → dep !! position m = Some d0 →
  (∀ ms, movePath w1 ms from loc → (Datatypes.S d0 ≤ length ms)%nat) →
  searchInv w1 from (<[loc := Some m]> seen) (<[loc := Datatypes.S d0]> dep).
Proof.
  intros (V1 & V2 & V3 & V9) Hfrom Hloc (Ht & Hv & Hpm) Hd0 Hex.
  simpl in Ht.
  assert (Hne : position m ≠ loc).
  { intros Heq. rewrite Heq, Hloc in Hpm. by destruct Hpm. }
  split_and!.
  - intros c. rewrite !lookup_insert_is_Some. by rewrite V1.
  - intros c mv d [[<- <-]|[Hc Hs]]%lookup_insert_Some Hd.
    + rewrite lookup_insert_eq in Hd. injection Hd as <-.
      split_and!; [|done..|].
      * intros ->. rewrite Hloc in Hfrom. by destruct Hfrom.
      * exists d0. by rewrite lookup_insert_ne.
    + rewrite lookup_insert_ne in Hd by done.
      specialize (V2 _ _ _ Hs Hd). destruct mv as [m0|]; [|done].
      destruct V2 as (? & ? & ? & d' & Hd' & ->). split_and!; [done..|].
      exists d'. split; [|done]. rewrite lookup_insert_ne; [done|].
      intros Heq. rewrite <- Heq in Hd'.
      assert (Hsome : is_Some (seen !! loc)) by (apply V1; eauto).
      rewrite Hloc in Hsome. by destruct Hsome.
  - intros c d ms [[<- <-]|[Hc Hd]]%lookup_insert_Some Hms.
    + by apply Hex.
    + by eapply V3.
  - intros c d Hd. rewrite map_size_insert_None by done.
    apply lookup_insert_Some in Hd as [[<- <-]|[Hc Hd]].
    + specialize (V9 _ _ Hd0). lia.
    + specialize (V9 _ _ Hd). lia.
Qed.

Lemma queueInv_expand seen dep loc mv queue ms :
  seen !! loc = None →
  Forall (entryOk w1 seen) queue →
  levelsOk dep ((loc, mv) :: queue) →
  (∀ m', is_Some (seen !! position m') → isValid w1 m' = Ok true →
         is_Some (seen !! targetPosition m') ∨
         (targetPosition m', Some m') ∈ (loc, mv) :: queue) →
  is_Some (<[loc := mv]> seen !! from) →
  (∀ m, m ∈ ms ↔ position m = loc ∧ isValid w1 m = Ok true) →
  queueInv w1 from (<[loc := mv]> seen)
    (<[loc := levelOf dep (loc, mv)]> dep)
    (queue ++ map (λ m, (targetPosition m, Some m)) ms).
Proof.
  intros Hloc Hent Hlev Hcl Hfrom Hms. right. split_and!.
  - done.
  - apply Forall_app. split.
    + eapply Forall_impl; [exact Hent|]. intros [c [m0|]]; [|done].
      intros (? & ? & Hs). split_and!; [done..|].
      simpl. apply lookup_insert_is_Some'. by right.
    + apply Forall_forall. intros e (m & -> & Hm)%list_elem_of_fmap.
      apply Hms in Hm as [Hp Hv]. split_and!; [done..|].
      rewrite Hp. apply lookup_insert_is_Some'. by left.
  - eapply levelsOk_step; [exact Hlev| |].
    + eapply Forall_impl; [exact Hent|]. intros [c [m0|]]; [|done].
      intros (_ & _ & Hs). apply levelOf_insert. simpl.
      intros ? [= <-] Heq. rewrite Heq, Hloc in Hs. by destruct Hs.
    + apply Forall_forall. intros e (m & -> & Hm)%list_elem_of_fmap.
      apply Hms in Hm as [Hp Hv]. unfold levelOf at 1. simpl.
      by rewrite Hp, lookup_insert_eq.
  - intros m' Hs Hv.
    apply lookup_insert_is_Some' in Hs as [Hs|Hs].
    + right. apply elem_of_app. right. apply list_elem_of_fmap.
      exists m'. split; [done|]. by apply Hms.
    + destruct (Hcl m' Hs Hv) as [Ht|Hin].
      * left. apply lookup_insert_is_Some'. by right.
      * apply elem_of_cons in Hin as [Heq|Hin].
        -- left. injection Heq as Heq _. rewrite Heq.
           apply lookup_insert_is_Some'. by left.
        -- right. apply elem_of_app. by left.
Qed.

End planner.

Lemma movePathLoop_spec w1 from to fuel :
  consistent w1 →
  ∀ seen dep queue,
    searchInv w1 from seen dep → queueInv w1 from seen dep queue →
    searchBudget w1 from fuel seen queue →
    ∃ seen' dep',
      movePathLoop fuel w1 to seen queue = Ok seen' ∧
      searchInv w1 from seen' dep' ∧
      (seen' !! to = None →
       ∀ ms y, movePath w1 ms from y → is_Some (seen' !! y)).
Proof.
  intros Hw1.
  induction fuel as [|fuel IH]; intros seen dep queue Hinv Hq Hb.
  { destruct Hb as (_ & _ & Hf). lia. }
  destruct queue as [|[loc mv] queue].
  { exists seen, dep. split; [done|]. split; [done|].
    intros _ ms y Hms.
    destruct Hq as [(_ & _ & ?)|(Hfrom & _ & _ & Hcl)]; [done|].
    eapply movePath_closed; [|exact Hms|exact Hfrom].
    intros m Hs Hv. destruct (Hcl m Hs Hv) as [?|Hin]; [done|].
    by apply elem_of_nil in Hin. }
  cbn [movePathLoop].
  destruct (seen !! loc) as [old|] eqn:Hloc.
  - rewrite bool_decide_eq_true_2 by eauto.
    apply (IH seen dep queue Hinv); [|by eapply searchBudget_skip].
    destruct Hq as [(-> & _ & _)|(Hfrom & Hent & Hlev & Hcl)]; [done|].
    right. apply Forall_cons in Hent as [_ Hent]. split_and!; [done..| |].
    + rewrite <- (app_nil_r queue).
      eapply levelsOk_step; [exact Hlev| |by constructor].
      by apply Forall_true.
    + intros m Hs Hv. destruct (Hcl m Hs Hv) as [?|Hin]; [by left|].
      apply elem_of_cons in Hin as [Heq|Hin]; [|by right].
      left. injection Heq as -> _. eauto.
  - rewrite bool_decide_eq_false_2 by by intros [? ?].
    destruct (validMovesFrom_moves w1 loc Hw1) as (ms & Hms & Hlen & Hmem).
    assert (Hnext : ∃ dep',
      searchInv w1 from (<[loc := mv]> seen) dep' ∧
      queueInv w1 from (<[loc := mv]> seen) dep'
        (queue ++ map (λ m, (targetPosition m, Some m)) ms)).
    { destruct Hq as [(-> & -> & Heq)|(Hfrom & Hent & Hlev & Hcl)].
      - injection Heq as -> -> ->.
        exists (<[from := 0%nat]> ∅). split; [apply searchInv_root|].
        apply (queueInv_expand w1 from ∅ ∅ from None [] ms);
          try done.
        + exists 0%nat, [(from, None)], []. split_and!; try done.
          by apply Forall_singleton.
        + intros m' Hs. rewrite lookup_empty in Hs. by destruct Hs.
        + rewrite lookup_insert_eq. eauto.
      - pose proof Hent as Hent'.
        apply Forall_cons in Hent' as [He Hent'].
        destruct mv as [m|]; [|done].
        pose proof He as (Ht & Hv & Hpm). simpl in Ht.
        pose proof Hinv as (V1 & _).
        destruct (proj1 (V1 _) Hpm) as [d0 Hd0].
        assert (Hlevel : levelOf dep (loc, Some m) = Datatypes.S d0).
        { unfold levelOf. simpl. by rewrite Hd0. }
        exists (<[loc := Datatypes.S d0]> dep). split.
        + apply searchInv_insert; try done.
          intros ms' Hms'. rewrite <- Hlevel.
          by eapply (visit_exact w1 from seen dep loc m queue).
        + rewrite <- Hlevel.
          apply (queueInv_expand w1 from seen dep loc (Some m) queue ms);
            try done.
          apply lookup_insert_is_Some'. by right. }
    destruct Hnext as (dep' & Hinv' & Hq').
    case_bool_decide as Hto.
    { exists (<[loc := mv]> seen), dep'. split; [done|]. split; [done|].
      subst loc. rewrite lookup_insert_eq. done. }
    rewrite Hms, bind_Ok.
    apply (IH _ dep'); [done..|].
    apply searchBudget_visit; try done.
    + apply Forall_forall. intros e (m & -> & Hm)%list_elem_of_fmap.
      simpl. apply valid_target_candidate; [done|]. by apply Hmem.
    + by rewrite length_map.
Qed.

Lemma reconstructPath_spec w w1 from seen dep :
  searchInv w1 from seen dep →
  ∀ d c, dep !! c = Some d →
    ∃ ms, length ms = d ∧ movePath w1 ms from c ∧
          ∀ fuel path, (d ≤ fuel)%nat →
            reconstructPath fuel w seen from c path = Ok (ms ++ path).
Proof.
  intros (V1 & V2 & V3 & V9).
  induction d as [|d IH]; intros c Hd.
  - destruct (proj2 (V1 c)) as [mv Hmv]; [eauto|].
    pose proof (V2 _ _ _ Hmv Hd) as H2. destruct mv as [m|].
    { by destruct H2 as (_ & _ & _ & d' & _ & ?). }
    destruct H2 as [-> _]. exists []. split_and!; [done..|].
    intros [|fuel] path _; simpl; by rewrite bool_decide_eq_true_2.
  - destruct (proj2 (V1 c)) as [mv Hmv]; [eauto|].
    pose proof (V2 _ _ _ Hmv Hd) as H2. destruct mv as [m|]; [|by destruct H2].
    destruct H2 as (Hne & Ht & Hv & d' & Hd' & [= <-]).
    destruct (IH _ Hd') as (ms & Hlen & Hpath & Hrec).
    exists (ms ++ [m]). split_and!.
    + rewrite length_app. simpl. lia.
    + rewrite <- Ht. by apply movePath_snoc.
    + intros [|fuel] path Hf; [lia|]. simpl.
      rewrite bool_decide_eq_false_2 by done. rewrite Hmv.
      unfold sourcePosition. rewrite Hrec by lia. by rewrite <- app_assoc.
Qed.

Lemma hasCube_bool_eq w w' x :
  (hasCube w' x = true ↔ hasCube w x = true) → hasCube w' x = hasCube w x.
Proof. destruct (hasCube w' x), (hasCube w x); naive_solver. Qed.

Lemma restoreCube_spec w1 cube :
  consistent w1 → hasCube w1 (p cube) = false →
  ∃ w2, restoreCube w1 cube = Ok w2 ∧ overlay w1 (p cube) w2 ∧
        cubes w2 = cubes w1 ++
                   [setComponentStatus (componentStatus cube)
                      (newCube (p cube) (color cube))].
Proof.
  intros Hw1 Hfree. unfold restoreCube.
  destruct (addCubeUnmarked_spec w1 (p cube) (color cube) Hw1 Hfree)
    as (w' & -> & Hw' & Hcs & Hwd).
  rewrite bind_Ok. eexists. split; [done|].
  assert (Hcubes : alter (setComponentStatus (componentStatus cube))
                     (length (cubes w1)) (cubes w') =
                   cubes w1 ++ [setComponentStatus (componentStatus cube)
                                  (newCube (p cube) (color cube))]).
  { rewrite Hcs. rewrite alter_app_r_alt by done.
    by rewrite Nat.sub_diag. }
  rewrite Hcubes.
  assert (Hcons : consistent
            (mkWorld (world w')
               (cubes w1 ++ [setComponentStatus (componentStatus cube)
                               (newCube (p cube) (color cube))]))).
  { eapply consistent_same_cells; [| |exact Hw']; [done|]. simpl.
    by rewrite Hcs, !map_app. }
  split; [|done]. split_and!; [done..|].
  intros y. rewrite (hasCube_iff _ y Hcons), (hasCube_iff w1 y Hw1). simpl.
  rewrite map_app, elem_of_app. simpl. by rewrite list_elem_of_singleton.
Qed.

Lemma targetPosition_ne m : targetPosition m ≠ position m.
Proof.
  destruct m as [[x y] d]. unfold targetPosition. simpl.
  destruct d; simpl; intros [=]; lia.
Qed.

Lemma shift_ne x c : shift x c ≠ x.
Proof.
  destruct x as [a b']. unfold shift. destruct c; simpl; intros [=]; lia.
Qed.

Section overlay.
Context (w1 w' : World) (x : Position).
Context (Hw1 : consistent w1) (Ho : overlay w1 x w').

Lemma overlay_hasCube y : y ≠ x → hasCube w' y = hasCube w1 y.
Proof.
  destruct Ho as (_ & _ & Hocc). intros Hne. apply hasCube_bool_eq.
  rewrite Hocc. naive_solver.
Qed.

Lemma overlay_local m :
  position m = x →
  isValidIgnoreConnectivity w' m = isValidIgnoreConnectivity w1 m.
Proof.
  intros Hp. unfold isValidIgnoreConnectivity, hasNeighbors.
  rewrite (overlay_hasCube (targetPosition m))
    by (rewrite <- Hp; apply targetPosition_ne).
  rewrite Hp.
  assert (Hn : ∀ c, hasCube w' (shift x c) = hasCube w1 (shift x c)).
  { intros c. apply overlay_hasCube, shift_ne. }
  destruct (hasCube w1 (targetPosition m)); [done|].
  destruct (direction m); simpl; by rewrite ?Hn.
Qed.

Lemma overlay_isValid m :
  position m = x → isValid w1 m = Ok true → isValid w' m = Ok true.
Proof.
  intros Hp Hv. pose proof Ho as (Hw' & Hfree & Hocc).
  destruct (isConnected_spec w1 (Some (position m)) Hw1) as (c1 & Hc1 & Hi1).
  destruct (isConnected_spec w' (Some (position m)) Hw') as (c' & Hc' & Hi').
  rewrite (isValid_eq _ _ _ Hc1) in Hv. injection Hv as Hv.
  apply andb_true_iff in Hv as [Hloc ->].
  rewrite (isValid_eq _ _ _ Hc'), (overlay_local m Hp), Hloc. simpl.
  f_equal. apply Hi'. eapply connected4_ext; [|by apply Hi1].
  intros y. unfold occupiedExcept. rewrite Hocc, Hp. split.
  - intros [? ?]. split; [by left | done].
  - intros [[? | ->] ?]; [done | congruence].
Qed.

Lemma overlay_execute m :
  position m = x → isValid w1 m = Ok true →
  ∃ w'', executeUnmarked w' m = Ok w'' ∧ overlay w1 (targetPosition m) w''.
Proof.
  intros Hp Hv. pose proof Ho as (Hw' & Hfree & Hocc).
  destruct (valid_support w1 m (isValid_local _ _ Hv)) as (Ht & Hne & _).
  assert (Hsrc : hasCube w' (position m) = true).
  { apply Hocc. right. done. }
  assert (Htgt : hasCube w' (targetPosition m) = false).
  { rewrite overlay_hasCube; [done|]. by rewrite <- Hp. }
  unfold executeUnmarked.
  destruct (moveCubeUnmarked_spec w' _ _ Hw' Hsrc Htgt)
    as (w'' & id & Hm & Hw'' & _).
  exists w''. split; [done|].
  destruct (moveCubeUnmarked_hasCube w' _ _ w'' Hw' Hsrc Htgt Hm) as [_ Hocc'].
  split_and!; [done..|].
  intros y. rewrite Hocc', Hocc, Hp. split.
  - intros [[[? | ->] ?] | ->]; [by left | done | by right].
  - intros [Hy | ->]; [left|by right]. split; [by left|].
    intros ->. congruence.
Qed.

End overlay.

Lemma runMoves_path w1 ms : ∀ w' x y,
  consistent w1 → overlay w1 x w' → movePath w1 ms x y →
  ∃ w'', runMoves w' ms = Ok w'' ∧ overlay w1 y w''.
Proof.
  induction ms as [|m ms IH]; intros w' x y Hw1 Ho; simpl.
  - intros <-. eauto.
  - intros (Hp & Hv & Hrest).
    rewrite (overlay_isValid w1 w' x Hw1 Ho m Hp Hv), bind_Ok. cbn [negb].
    destruct (overlay_execute w1 w' x Ho m Hp Hv) as (w'' & -> & Ho').
    rewrite bind_Ok. by eapply IH.
Qed.

Lemma searchInv_empty w1 from : searchInv w1 from ∅ ∅.
Proof.
  split_and!.
  - intros c. rewrite !lookup_empty. done.
  - intros c mv d Hc. by rewrite lookup_empty in Hc.
  - intros c d ms Hc. by rewrite lookup_empty in Hc.
  - intros c d Hc. by rewrite lookup_empty in Hc.
Qed.

(** The search of [shortestMovePath], run from its initial state in the
    scaffold [w1]. *)
Lemma movePathLoop_run w1 from to :
  consistent w1 →
  ∃ seen dep,
    movePathLoop (movePathFuel w1) w1 to ∅ [(from, None)] = Ok seen ∧
    searchInv w1 from seen dep ∧
    (seen !! to = None →
     ∀ ms y, movePath w1 ms from y → is_Some (seen !! y)).
Proof.
  intros Hw1.
  apply (movePathLoop_spec w1 from to (movePathFuel w1) Hw1 ∅ ∅).
  - apply searchInv_empty.
  - by left.
  - split_and!.
    + apply Forall_singleton. simpl. unfold candidates.
      apply elem_of_list_to_set. by left.
    + rewrite dom_empty. set_solver.
    + pose proof (candidates_size w1 from) as Hsz.
      pose proof (subseteq_size (candidates w1 from ∖ dom (∅ : gmap (Z * Z) (option Move)))
                    (candidates w1 from)) as Hsub.
      specialize (Hsub ltac:(set_solver)).
      unfold movePathFuel. simpl. lia.
Qed.

Lemma shortestMovePath_setup w from :
  consistent w → hasCube w from = true →
  ∃ cube w1 w2,
    getCube w from = Some cube ∧ p cube = from ∧
    removeCubeUnmarked w from = Ok w1 ∧ scaffold w from = w1 ∧
    consistent w1 ∧
    (∀ x, hasCube w1 x = true ↔ hasCube w x = true ∧ x ≠ from) ∧
    restoreCube w1 cube = Ok w2 ∧ overlay w1 from w2 ∧
    (∀ x, hasCube w2 x = hasCube w x) ∧
    getCube w2 from =
      Some (setComponentStatus (componentStatus cube)
              (newCube from (color cube))) ∧
    (∀ x, x ≠ from → getCube w2 x = getCube w x).
Proof.
  intros Hw Hfrom.
  destruct (removeCubeUnmarked_spec w from Hw Hfrom)
    as (w1 & id & cube & Hrm & Hw1 & Hid & Hcube & Hcs & Hocc).
  pose proof (getCubeId_Some w Hw _ _ Hid) as (c' & Hc' & Hp).
  assert (c' = cube) as -> by congruence.
  assert (Hfree : hasCube w1 (p cube) = false).
  { apply not_true_is_false. rewrite Hocc, Hp. by intros [_ ?]. }
  destruct (restoreCube_spec w1 cube Hw1 Hfree) as (w2 & Hrs & Ho & Hcs2).
  rewrite Hp in Ho, Hcs2.
  pose proof Ho as (Hw2 & _ & Hocc2).
  exists cube, w1, w2. split_and!; try done.
  - unfold getCube. by rewrite Hid.
  - unfold scaffold. by rewrite Hrm.
  - intros x. apply hasCube_bool_eq. rewrite Hocc2, Hocc.
    destruct (decide (x = from)) as [->|]; naive_solver.
  - rewrite <- (getCube_cube w2 Hw2 (length (cubes w1))
                  (setComponentStatus (componentStatus cube)
                     (newCube from (color cube)))); [done|].
    rewrite Hcs2, lookup_app_r by done. by rewrite Nat.sub_diag.
  - intros x Hne. destruct (getCube w x) as [c|] eqn:Hc.
    + pose proof (getCube_Some w Hw _ _ Hc) as Hpc.
      assert (Hin : c ∈ cubes w1).
      { rewrite Hcs. unfold getCube in Hc.
        destruct (getCubeId w x) as [j|] eqn:Hj; [|done].
        assert (j ≠ id) by congruence.
        apply list_elem_of_lookup.
        destruct (decide (j < id)%nat).
        - exists j. by rewrite list_lookup_delete_lt.
        - exists (j - 1)%nat. rewrite list_lookup_delete_ge by lia.
          by replace (Datatypes.S (j - 1)) with j by lia. }
      apply list_elem_of_lookup in Hin as [k Hk]. rewrite <- Hpc.
      apply (getCube_cube w2 Hw2 k). rewrite Hcs2.
      by apply lookup_app_l_Some.
    + destruct (getCube w2 x) as [c|] eqn:Hc2; [|done].
      assert (Hh2 : hasCube w2 x = true).
      { unfold hasCube. apply bool_decide_eq_true. eauto. }
      apply Hocc2 in Hh2 as [Hh1| ->]; [|done].
      apply Hocc in Hh1 as [Hh _].
      unfold hasCube in Hh. apply bool_decide_eq_true in Hh.
      rewrite Hc in Hh. by destruct Hh.
Qed.

Lemma movePath_needs_connected w1 ms x y :
  consistent w1 → hasCube w1 x = false →
  ¬ connected4 (occupiedExcept w1 None) →
  movePath w1 ms x y → ms = [] ∧ x = y.
Proof.
  intros Hw1 Hx Hnc. destruct ms as [|m ms]; simpl; [done|].
  intros (<- & Hv & _). destruct Hnc.
  destruct (isConnected_spec w1 (Some (position m)) Hw1) as (c & Hc & Hiff).
  rewrite (isValid_eq _ _ _ Hc) in Hv. injection Hv as Hv.
  apply andb_true_iff in Hv as [_ ->].
  eapply connected4_ext; [|by apply Hiff].
  intros q. unfold occupiedExcept. split; [by intros [? _]|].
  intros [Hq _]. split; [done|]. intros [= <-]. congruence.
Qed.



Lemma isValid_scaffold w1 m :
  consistent w1 → hasCube w1 (position m) = false →
  (isValid w1 m = Ok true ↔
   isValidIgnoreConnectivity w1 m = true ∧
   connected4 (occupiedExcept w1 None)).
Proof.
  intros Hw1 Hfree.
  destruct (isConnected_spec w1 (Some (position m)) Hw1) as (c & Hc & Hiff).
  rewrite (isValid_eq _ _ _ Hc).
  assert (Hsame : connected4 (occupiedExcept w1 (Some (position m))) ↔
                  connected4 (occupiedExcept w1 None)).
  { assert (Hq : ∀ q, occupiedExcept w1 (Some (position m)) q ↔
                      occupiedExcept w1 None q).
    { intros q. unfold occupiedExcept. split; intros [Hq _]; (split; [done|]).
      - done.
      - intros [= <-]. congruence. }
    split; apply connected4_ext; intros q; by rewrite Hq. }
  rewrite <- Hsame, <- Hiff, <- andb_true_iff.
  split; [by intros [=] | by intros ->].
Qed.

Lemma markComponents_overlay w1 x w' :
  overlay w1 x w' →
  ∃ w'', markComponents w' = Ok w'' ∧ overlay w1 x w''.
Proof.
  intros (Hw' & Hfree & Hocc).
  destruct (markComponents_spec w' Hw') as (w'' & Hm & Hw'' & _ & Hcore & _).
  exists w''. split; [done|]. split_and!; [done..|].
  intros y. rewrite <- Hocc.
  by rewrite (hasCube_iff _ _ Hw''), (hasCube_iff _ _ Hw'),
    (map_core_p _ _ Hcore).
Qed.

Lemma runMovesMarked_path w1 ms : ∀ w' x y,
  consistent w1 → overlay w1 x w' → movePath w1 ms x y →
  ∃ w'', runMovesMarked w' ms = Ok w'' ∧ overlay w1 y w''.
Proof.
  induction ms as [|m ms IH]; intros w' x y Hw1 Ho; simpl.
  - intros <-. eauto.
  - intros (Hp & Hv & Hrest).
    rewrite (overlay_isValid w1 w' x Hw1 Ho m Hp Hv), bind_Ok. cbn [negb].
    destruct (overlay_execute w1 w' x Ho m Hp Hv) as (wa & Hex & Ho').
    unfold executeUnmarked in Hex. unfold moveCube. rewrite Hex, bind_Ok.
    destruct (markComponents_overlay _ _ _ Ho') as (wb & -> & Ho'').
    rewrite bind_Ok. by eapply IH.
Qed.

Lemma legal_target_free w m :
  isValidIgnoreConnectivity w m = true → hasCube w (targetPosition m) = false.
Proof.
  unfold isValidIgnoreConnectivity.
  by destruct (hasCube w (targetPosition m)).
Qed.

(** Over a 4-connected scaffold the graph of the legal moves and the graph
    of the moves [isValid] accepts have the same paths from an empty
    cell. *)
Lemma legalPath_movePath w1 :
  consistent w1 → connected4 (occupiedExcept w1 None) →
  ∀ ms x y, hasCube w1 x = false →
    (legalPath w1 ms x y ↔ movePath w1 ms x y).
Proof.
  intros Hw1 Hc. induction ms as [|m ms IH]; intros x y Hx; [done|].
  cbn [legalPath movePath]. split.
  - intros (Hp & Hl & Hrest). split_and!; [done| |].
    + apply isValid_scaffold; [done | by rewrite Hp | done].
    + apply IH; [by apply legal_target_free | done].
  - intros (Hp & Hv & Hrest).
    apply isValid_scaffold in Hv as [Hl _]; [|done | by rewrite Hp].
    split_and!; [done..|]. apply IH; [by apply legal_target_free | done].
Qed.

(** C3, amended. The claim holds when the mover is not a cut cube, and
    fails with [NoMovePath] when it is. In a configuration whose cubes
    stand at least one cell inside the safe integers, with a cube on
    [from] and an empty cell [to]:

    - if the cubes without the mover are 4-connected and a path of legal
      moves (the local rule, with the mover removed) leads from [from] to
      [to], [shortestMovePath] puts the mover back and yields such a path
      that is no longer than any other; each of its moves is accepted by
      [isValid] in the configuration without the mover, and, pulled and
      executed one after the other by [nextStepUnmarked] or by
      [nextStep], each passes [isValid] in the world the moves before it
      have produced, the mover ending on [to];
    - if the cubes without the mover are not 4-connected, [isValid]
      accepts no move of the search, and [shortestMovePath] throws
      [NoMovePath] with the cubes on their cells as before. *)
Theorem shortestMovePath_shortest (w : World) (from to : Position) :
  consistent w → safeCoordinates 1 w →
  hasCube w from = true → hasCube w to = false →
  (connected4 (occupiedExcept w (Some from)) →
   ∀ reach, legalPath (scaffold w from) reach from to →
   ∃ w2 path w3 w4,
     shortestMovePath w from to = Ok (w2, path) ∧
     consistent w2 ∧ (∀ x, hasCube w2 x = hasCube w x) ∧
     legalPath (scaffold w from) path from to ∧
     (∀ ms, legalPath (scaffold w from) ms from to →
            (length path ≤ length ms)%nat) ∧
     movePath (scaffold w from) path from to ∧
     runMoves w2 path = Ok w3 ∧ overlay (scaffold w from) to w3 ∧
     runMovesMarked w2 path = Ok w4 ∧ overlay (scaffold w from) to w4) ∧
  (¬ connected4 (occupiedExcept w (Some from)) →
   ∃ w2, shortestMovePath w from to = Throw NoMovePath w2 ∧
         consistent w2 ∧ ∀ x, hasCube w2 x = hasCube w x).
Proof.
  intros Hw _ Hfrom Hto.
  destruct (shortestMovePath_setup w from Hw Hfrom)
    as (cube & w1 & w2 & Hcube & Hp & Hrm & Hsc & Hw1 & Hocc & Hrs & Ho
        & Hsame & Hget & Hothers).
  rewrite Hsc in *.
  assert (Hne : from ≠ to) by (intros ->; congruence).
  assert (Hfree : hasCube w1 from = false).
  { apply not_true_is_false. rewrite Hocc. by intros [_ ?]. }
  assert (Hconn : connected4 (occupiedExcept w (Some from)) ↔
                  connected4 (occupiedExcept w1 None)).
  { assert (Hq : ∀ q, occupiedExcept w (Some from) q ↔
                      occupiedExcept w1 None q).
    { intros q. unfold occupiedExcept. rewrite Hocc. split.
      - intros [Hq Hn]. split; [|done]. split; [done | congruence].
      - intros [[Hq Hn] _]. split; [done | congruence]. }
    split; apply connected4_ext; intros q; by rewrite Hq. }
  destruct (movePathLoop_run w1 from to Hw1)
    as (seen & dep & Hloop & Hinv & Hall).
  split.
  - intros Hc%Hconn reach Hreach.
    pose proof (legalPath_movePath w1 Hw1 Hc) as Hlegal.
    apply (Hlegal _ _ _ Hfree) in Hreach.
    assert (Hseen : is_Some (seen !! to)).
    { destruct (seen !! to) as [mv|] eqn:Hst; [eauto|].
      rewrite <- Hst. by eapply Hall. }
    pose proof Hinv as (V1 & _ & V3 & V9).
    destruct (proj1 (V1 to) Hseen) as [d Hd].
    destruct (reconstructPath_spec w1 w1 from seen dep Hinv d to Hd)
      as (path & Hlen & Hpath & Hrec).
    destruct (runMoves_path w1 path w2 from to Hw1 Ho Hpath)
      as (w3 & Hrun & Ho3).
    destruct (runMovesMarked_path w1 path w2 from to Hw1 Ho Hpath)
      as (w4 & Hrun4 & Ho4).
    exists w2, path, w3, w4. split_and!; try done.
    + unfold shortestMovePath.
      rewrite Hcube, Hrm, bind_Ok, Hloop, bind_Ok.
      rewrite bool_decide_eq_true_2 by done. cbn [negb].
      rewrite (Hrec (Datatypes.S (size seen)) [])
        by (specialize (V9 _ _ Hd); lia).
      rewrite bind_Ok, Hrs, bind_Ok. by rewrite app_nil_r.
    + by destruct Ho.
    + by apply (Hlegal _ _ _ Hfree).
    + intros ms Hms%(Hlegal _ _ _ Hfree). rewrite Hlen. by eapply V3.
  - intros Hnc.
    assert (Hnc1 : ¬ connected4 (occupiedExcept w1 None))
      by (by rewrite <- Hconn).
    assert (Hst : seen !! to = None).
    { destruct (seen !! to) as [mv|] eqn:Hst; [|done]. exfalso.
      pose proof Hinv as (V1 & _).
      destruct (proj1 (V1 to)) as [d Hd]; [eauto|].
      destruct (reconstructPath_spec w1 w1 from seen dep Hinv d to Hd)
        as (ms & _ & Hms & _).
      by destruct (movePath_needs_connected w1 ms from to Hw1 Hfree Hnc1 Hms). }
    exists w2. split_and!; [|by destruct Ho|done].
    unfold shortestMovePath.
    rewrite Hcube, Hrm, bind_Ok, Hloop, bind_Ok, Hst.
    rewrite bool_decide_eq_false_2 by by intros [? ?]. cbn [negb].
    by rewrite Hrs.
Qed.

Lemma shortestMovePath_shortest_witness :
  ∃ w2 path w3 w4,
    shortestMovePath (loaded [(0, 0); (1, 0); (0, 1); (1, 1)]) (1, 1) (2, 0)
      = Ok (w2, path) ∧
    consistent w2 ∧
    (∀ x, hasCube w2 x = hasCube (loaded [(0, 0); (1, 0); (0, 1); (1, 1)]) x) ∧
    legalPath (scaffold (loaded [(0, 0); (1, 0); (0, 1); (1, 1)]) (1, 1))
      path (1, 1) (2, 0) ∧
    (∀ ms,
       legalPath (scaffold (loaded [(0, 0); (1, 0); (0, 1); (1, 1)]) (1, 1))
         ms (1, 1) (2, 0) → (length path ≤ length ms)%nat) ∧
    movePath (scaffold (loaded [(0, 0); (1, 0); (0, 1); (1, 1)]) (1, 1))
      path (1, 1) (2, 0) ∧
    runMoves w2 path = Ok w3 ∧
    overlay (scaffold (loaded [(0, 0); (1, 0); (0, 1); (1, 1)]) (1, 1))
      (2, 0) w3 ∧
    runMovesMarked w2 path = Ok w4 ∧
    overlay (scaffold (loaded [(0, 0); (1, 0); (0, 1); (1, 1)]) (1, 1))
      (2, 0) w4.
Proof.
  refine (proj1 (shortestMovePath_shortest
                   (loaded [(0, 0); (1, 0); (0, 1); (1, 1)]) (1, 1) (2, 0)
                   _ _ _ _) _ [mkMove (1, 1) ES] _).
  - apply consistentb_sound. vm_compute. reflexivity.
  - apply safeCoordinatesb_sound. vm_compute. reflexivity.
  - vm_compute. reflexivity.
  - vm_compute. reflexivity.
  - apply isConnected_true; vm_compute; reflexivity.
  - cbn [legalPath]. split_and!; vm_compute; reflexivity.
Defined.

(** C3, as stated, fails for a mover that is a cut cube. On the line
    {(0,0), (1,0), (2,0)} the corner move NW of the middle cube is legal
    with the mover removed, so the cell (0,1) is one move away in the
    graph of the legal moves; but the two cubes left are not 4-connected,
    [isValid] accepts no move there, the search visits the source cell
    only and [shortestMovePath] fails with [NoMovePath]. *)
Lemma shortestMovePath_cut_mover :
  consistent (worldOfCells [(0, 0); (1, 0); (2, 0)]) ∧
  connected4 (occupiedExcept (worldOfCells [(0, 0); (1, 0); (2, 0)]) None) ∧
  legalPath (scaffold (worldOfCells [(0, 0); (1, 0); (2, 0)]) (1, 0))
    [mkMove (1, 0) NW] (1, 0) (0, 1) ∧
  (∃ w', shortestMovePath (worldOfCells [(0, 0); (1, 0); (2, 0)]) (1, 0) (0, 1)
         = Throw NoMovePath w') ∧
  ¬ shortestMovePathClaim (worldOfCells [(0, 0); (1, 0); (2, 0)])
      (1, 0) (0, 1).
Proof.
  assert (Hconn : connected4
            (occupiedExcept (worldOfCells [(0, 0); (1, 0); (2, 0)]) None))
    by (apply isConnected_true; vm_compute; reflexivity).
  assert (Hpath : legalPath
            (scaffold (worldOfCells [(0, 0); (1, 0); (2, 0)]) (1, 0))
            [mkMove (1, 0) NW] (1, 0) (0, 1))
    by (cbn [legalPath]; split_and!; vm_compute; reflexivity).
  assert (Hthrow : ∃ w',
            shortestMovePath (worldOfCells [(0, 0); (1, 0); (2, 0)])
              (1, 0) (0, 1) = Throw NoMovePath w')
    by (eexists; vm_compute; reflexivity).
  split_and!; [|done..|].
  - apply consistentb_sound. vm_compute. reflexivity.
  - intros Hclaim.
    destruct Hclaim as (w2 & path & w3 & Hok & _);
      [done | vm_compute; reflexivity | vm_compute; reflexivity | eauto |].
    destruct Hthrow as [w' Hw']. rewrite Hw' in Hok. done.
Qed.

(** ** The grid store: outcomes and round trips *)

Lemma getCube_hasCube w q c : getCube w q = Some c → hasCube w q = true.
Proof. intros Hc. unfold hasCube. rewrite Hc. apply bool_decide_eq_true. eauto. Qed.

Lemma hasCube_getCube_None w q : hasCube w q = false → getCube w q = None.
Proof.
  unfold hasCube. rewrite bool_decide_eq_false. intros Hn.
  destruct (getCube w q); [|done]. exfalso. eauto.
Qed.

Lemma reindex_id cs : ∀ m i,
  (∀ j c, cs !! j = Some c → m !! p c = Some (i + j)%nat) →
  reindex m i cs = m.
Proof.
  induction cs as [|c cs IH]; intros m i Hm; simpl; [done|].
  assert (Hc : m !! p c = Some i).
  { rewrite (Hm 0%nat c) by done. f_equal. lia. }
  rewrite insert_id by done. apply IH. intros j c' Hj.
  rewrite (Hm (Datatypes.S j) c') by done. f_equal. lia.
Qed.

Lemma delete_last_cube (cs : list Cube) x : delete (length cs) (cs ++ [x]) = cs.
Proof. induction cs as [|c cs IH]; simpl; [done|]. by rewrite IH. Qed.

Lemma setP_back c q : setP (p c) (setP q c) = c.
Proof. by destruct c. Qed.

(** X1. [addCubeUnmarked] on an occupied cell throws and leaves the world as
    it was; on a free cell it appends a fresh cube, whose identifier is the
    old number of cubes and whose cell and reset cell are the given cell,
    keeps the index consistent and changes no other cell. *)
Theorem addCubeUnmarked_outcomes (w : World) (q : Position) (c : Color) :
  consistent w →
  (hasCube w q = true → addCubeUnmarked w q c = Throw OccupiedCell w) ∧
  (hasCube w q = false →
   ∃ w', addCubeUnmarked w q c = Ok w' ∧ consistent w' ∧
         getCubeId w' q = Some (length (cubes w)) ∧
         getCube w' q = Some (mkCube q q c NONE (-1) false) ∧
         length (cubes w') = Datatypes.S (length (cubes w)) ∧
         ∀ x, x ≠ q →
              getCubeId w' x = getCubeId w x ∧ getCube w' x = getCube w x).
Proof.
  intros Hw. split.
  - intros Hq. unfold addCubeUnmarked. by rewrite Hq.
  - intros Hq.
    destruct (addCubeUnmarked_spec w q c Hw Hq) as (w' & Hadd & Hw' & Hcs & Hwd).
    exists w'. split; [done|]. split; [done|].
    assert (Hid : getCubeId w' q = Some (length (cubes w))).
    { unfold getCubeId. rewrite Hwd. apply lookup_insert_eq. }
    split; [done|]. split.
    { unfold getCube. rewrite Hid, Hcs.
      rewrite lookup_app_r by lia. by rewrite Nat.sub_diag. }
    split.
    { rewrite Hcs, length_app. simpl. lia. }
    intros x Hx.
    assert (Hidx : getCubeId w' x = getCubeId w x).
    { unfold getCubeId. rewrite Hwd. by apply lookup_insert_ne. }
    split; [done|]. unfold getCube. rewrite Hidx.
    destruct (getCubeId w x) as [i|] eqn:Hi; [|done].
    rewrite Hcs. apply lookup_app_l. by eapply getCubeId_lt.
Qed.

Lemma addCubeUnmarked_outcomes_witness :
  (hasCube (worldOfCells [(0, 0); (1, 0)]) (2, 0) = true →
   addCubeUnmarked (worldOfCells [(0, 0); (1, 0)]) (2, 0) BLUE
     = Throw OccupiedCell (worldOfCells [(0, 0); (1, 0)])) ∧
  (hasCube (worldOfCells [(0, 0); (1, 0)]) (2, 0) = false →
   ∃ w', addCubeUnmarked (worldOfCells [(0, 0); (1, 0)]) (2, 0) BLUE = Ok w' ∧
         consistent w' ∧
         getCubeId w' (2, 0)
           = Some (length (cubes (worldOfCells [(0, 0); (1, 0)]))) ∧
         getCube w' (2, 0) = Some (mkCube (2, 0) (2, 0) BLUE NONE (-1) false) ∧
         length (cubes w')
           = Datatypes.S (length (cubes (worldOfCells [(0, 0); (1, 0)]))) ∧
         ∀ x, x ≠ (2, 0) →
              getCubeId w' x = getCubeId (worldOfCells [(0, 0); (1, 0)]) x ∧
              getCube w' x = getCube (worldOfCells [(0, 0); (1, 0)]) x).
Proof.
  apply (addCubeUnmarked_outcomes (worldOfCells [(0, 0); (1, 0)]) (2, 0) BLUE).
  apply consistentb_sound. vm_compute. reflexivity.
Defined.

(** X2. [moveCubeUnmarked] checks the source first: an empty source throws
    [EmptyCell], then an occupied target throws [OccupiedCell] (so a move
    of a cube onto its own cell throws), the world being left as it was.
    Otherwise the cube keeps its identifier and every field but its cell,
    the source cell becomes empty and no other cell changes. *)
Theorem moveCubeUnmarked_outcomes (w : World) (from to : Position) :
  consistent w →
  (hasCube w from = false → moveCubeUnmarked w from to = Throw EmptyCell w) ∧
  (hasCube w from = true → hasCube w to = true →
   moveCubeUnmarked w from to = Throw OccupiedCell w) ∧
  (hasCube w from = true →
   moveCubeUnmarked w from from = Throw OccupiedCell w) ∧
  (hasCube w from = true → hasCube w to = false →
   ∃ w' id cube,
     moveCubeUnmarked w from to = Ok w' ∧ consistent w' ∧
     getCubeId w from = Some id ∧ getCube w from = Some cube ∧
     getCubeId w' to = Some id ∧
     getCube w' to =
       Some (mkCube to (resetPosition cube) (color cube)
               (componentStatus cube) (chunkId cube) (onBoundary cube)) ∧
     getCube w' from = None ∧
     length (cubes w') = length (cubes w) ∧
     ∀ x, x ≠ from → x ≠ to →
          getCubeId w' x = getCubeId w x ∧ getCube w' x = getCube w x).
Proof.
  intros Hw. split_and!.
  - intros Hf. unfold moveCubeUnmarked. by rewrite Hf.
  - intros Hf Ht. unfold moveCubeUnmarked. by rewrite Hf, Ht.
  - intros Hf. unfold moveCubeUnmarked. by rewrite Hf.
  - intros Hf Ht.
    destruct (moveCubeUnmarked_spec w from to Hw Hf Ht)
      as (w' & id & Hm & Hw' & Hid & Hcs & Hwd).
    destruct (getCubeId_Some w Hw _ _ Hid) as (cube & Hcube & Hp).
    assert (Hne : from ≠ to) by congruence.
    exists w', id, cube. split_and!; try done.
    + unfold getCube. by rewrite Hid.
    + unfold getCubeId. rewrite Hwd. apply lookup_insert_eq.
    + unfold getCube, getCubeId. rewrite Hwd, lookup_insert_eq, Hcs.
      by rewrite list_lookup_alter_eq, Hcube.
    + unfold getCube, getCubeId. rewrite Hwd.
      rewrite lookup_insert_ne by done. by rewrite lookup_delete_eq.
    + rewrite Hcs. apply length_alter.
    + intros x Hx1 Hx2. unfold getCube, getCubeId. rewrite Hwd.
      rewrite lookup_insert_ne by done. rewrite lookup_delete_ne by done.
      split; [done|].
      destruct (world w !! x) as [i|] eqn:Hi; [|done].
      rewrite Hcs. apply list_lookup_alter_ne.
      intros ->. destruct (getCubeId_Some w Hw _ _ Hi) as (c' & Hc' & Hp').
      congruence.
Qed.

Lemma moveCubeUnmarked_outcomes_witness :
  ∃ w' id cube,
    moveCubeUnmarked (worldOfCells [(0, 0); (1, 0)]) (1, 0) (1, 1) = Ok w' ∧
    consistent w' ∧
    getCubeId (worldOfCells [(0, 0); (1, 0)]) (1, 0) = Some id ∧
    getCube (worldOfCells [(0, 0); (1, 0)]) (1, 0) = Some cube ∧
    getCubeId w' (1, 1) = Some id ∧
    getCube w' (1, 1) =
      Some (mkCube (1, 1) (resetPosition cube) (color cube)
              (componentStatus cube) (chunkId cube) (onBoundary cube)) ∧
    getCube w' (1, 0) = None ∧
    length (cubes w') = length (cubes (worldOfCells [(0, 0); (1, 0)])) ∧
    ∀ x, x ≠ (1, 0) → x ≠ (1, 1) →
         getCubeId w' x = getCubeId (worldOfCells [(0, 0); (1, 0)]) x ∧
         getCube w' x = getCube (worldOfCells [(0, 0); (1, 0)]) x.
Proof.
  apply (moveCubeUnmarked_outcomes (worldOfCells [(0, 0); (1, 0)])
           (1, 0) (1, 1)).
  - apply consistentb_sound. vm_compute. reflexivity.
  - vm_compute. reflexivity.
  - vm_compute. reflexivity.
Defined.

(** X3. Moving a cube and moving it back gives the world the first move
    started from, identifiers and reset cells included. *)
Theorem moveCubeUnmarked_back (w w' : World) (from to : Position) :
  consistent w →
  moveCubeUnmarked w from to = Ok w' →
  moveCubeUnmarked w' to from = Ok w.
Proof.
  intros Hw Hm.
  assert (Hf : hasCube w from = true).
  { unfold moveCubeUnmarked in Hm. by destruct (hasCube w from). }
  assert (Ht : hasCube w to = false).
  { unfold moveCubeUnmarked in Hm. rewrite Hf in Hm. simpl in Hm.
    by destruct (hasCube w to). }
  destruct (moveCubeUnmarked_spec w from to Hw Hf Ht)
    as (w'' & id & Hm' & Hw' & Hid & Hcs & Hwd).
  rewrite Hm in Hm'. simplify_eq.
  destruct (getCubeId_Some w Hw _ _ Hid) as (cube & Hcube & Hp).
  assert (Hne : from ≠ to) by congruence.
  destruct (moveCubeUnmarked_hasCube w from to w'' Hw Hf Ht Hm) as [_ Hhas].
  assert (Ht' : hasCube w'' to = true) by (apply Hhas; by right).
  assert (Hf' : hasCube w'' from = false).
  { apply not_true_iff_false. rewrite Hhas. intros [[_ ?]|?]; congruence. }
  unfold moveCubeUnmarked. rewrite Ht', Hf'. simpl.
  unfold getCubeId. rewrite Hwd, lookup_insert_eq. f_equal.
  destruct w as [m cs]. simpl in *. f_equal.
  - apply map_eq. intros k. unfold getCubeId in Hid. simpl in Hid.
    destruct (decide (k = from)) as [->|Hkf].
    + by rewrite lookup_insert_eq.
    + rewrite lookup_insert_ne by done.
      destruct (decide (k = to)) as [->|Hkt].
      * rewrite lookup_delete_eq. symmetry.
        apply (hasCube_false _ Hw) in Ht. done.
      * rewrite lookup_delete_ne by done. rewrite lookup_insert_ne by done.
        by rewrite lookup_delete_ne.
  - rewrite Hcs. apply list_eq. intros i.
    destruct (decide (i = id)) as [->|Hi].
    + rewrite !list_lookup_alter_eq, Hcube. simpl. f_equal.
      rewrite <- Hp. apply setP_back.
    + by rewrite !list_lookup_alter_ne.
Qed.

Lemma moveCubeUnmarked_back_witness :
  moveCubeUnmarked
    (mkWorld (<[(1, 1) := 1%nat]> (delete (1, 0)
                (world (worldOfCells [(0, 0); (1, 0)]))))
             (alter (setP (1, 1)) 1%nat
                (cubes (worldOfCells [(0, 0); (1, 0)]))))
    (1, 1) (1, 0)
  = Ok (worldOfCells [(0, 0); (1, 0)]).
Proof.
  apply (moveCubeUnmarked_back (worldOfCells [(0, 0); (1, 0)]) _ (1, 0) (1, 1)).
  - apply consistentb_sound. vm_compute. reflexivity.
  - vm_compute. reflexivity.
Defined.

(** X4. [removeCubeUnmarked] throws [EmptyCell] on an empty cell. Otherwise
    it empties the cell, keeps every other cube at its cell and closes the
    gap in the identifiers: a cube whose identifier was above the removed
    one gets the identifier one below, the others keep theirs. *)
Theorem removeCubeUnmarked_outcomes (w : World) (q : Position) :
  consistent w →
  (hasCube w q = false → removeCubeUnmarked w q = Throw EmptyCell w) ∧
  (hasCube w q = true →
   ∃ w' id,
     removeCubeUnmarked w q = Ok w' ∧ consistent w' ∧
     getCubeId w q = Some id ∧
     Datatypes.S (length (cubes w')) = length (cubes w) ∧
     getCube w' q = None ∧
     (∀ x, getCubeId w x = None → getCubeId w' x = None) ∧
     ∀ x i, x ≠ q → getCubeId w x = Some i →
            getCube w' x = getCube w x ∧
            getCubeId w' x = Some (if decide (id < i)%nat then pred i else i)).
Proof.
  intros Hw. split.
  { intros Hq. unfold removeCubeUnmarked. by rewrite Hq. }
  intros Hq.
  destruct (removeCubeUnmarked_spec w q Hw Hq)
    as (w' & id & cq & Hr & Hw' & Hid & Hcq & Hcs & Hhas).
  exists w', id. split_and!; try done.
  - rewrite Hcs, length_delete by eauto.
    apply lookup_lt_Some in Hcq. lia.
  - apply hasCube_getCube_None, not_true_iff_false. rewrite Hhas.
    by intros [_ ?].
  - intros x Hx. apply (hasCube_false w' Hw'), not_true_iff_false.
    rewrite Hhas. intros [Hx' _].
    apply (hasCube_true w Hw) in Hx' as [i Hi]. congruence.
  - intros x i Hx Hi.
    destruct (getCubeId_Some w Hw _ _ Hi) as (c & Hc & Hp).
    destruct (getCubeId_Some w Hw _ _ Hid) as (c' & Hc' & Hp').
    assert (Hne : i ≠ id) by (intros ->; congruence).
    set (j := if decide (id < i)%nat then pred i else i).
    assert (Hj : cubes w' !! j = Some c).
    { rewrite Hcs. unfold j. destruct (decide (id < i)%nat) as [Hlt|Hge].
      - rewrite list_lookup_delete_ge by lia. rewrite <- Hc. f_equal. lia.
      - rewrite list_lookup_delete_lt by lia. done. }
    pose proof (getCubeId_cube w' Hw' _ _ Hj) as Hj'. rewrite Hp in Hj'.
    split; [|done]. unfold getCube. by rewrite Hj', Hi, Hj, Hc.
Qed.

Lemma removeCubeUnmarked_outcomes_witness :
  ∃ w' id,
    removeCubeUnmarked (worldOfCells [(0, 0); (1, 0); (2, 0)]) (1, 0) = Ok w' ∧
    consistent w' ∧
    getCubeId (worldOfCells [(0, 0); (1, 0); (2, 0)]) (1, 0) = Some id ∧
    Datatypes.S (length (cubes w'))
      = length (cubes (worldOfCells [(0, 0); (1, 0); (2, 0)])) ∧
    getCube w' (1, 0) = None ∧
    (∀ x, getCubeId (worldOfCells [(0, 0); (1, 0); (2, 0)]) x = None →
          getCubeId w' x = None) ∧
    ∀ x i, x ≠ (1, 0) →
           getCubeId (worldOfCells [(0, 0); (1, 0); (2, 0)]) x = Some i →
           getCube w' x = getCube (worldOfCells [(0, 0); (1, 0); (2, 0)]) x ∧
           getCubeId w' x = Some (if decide (id < i)%nat then pred i else i).
Proof.
  apply (removeCubeUnmarked_outcomes
           (worldOfCells [(0, 0); (1, 0); (2, 0)]) (1, 0)).
  - apply consistentb_sound. vm_compute. reflexivity.
  - vm_compute. reflexivity.
Defined.

(** X5. Removing the cube that [addCubeUnmarked] has just added gives back
    the world as it was before the addition. *)
Theorem removeCubeUnmarked_addCubeUnmarked (w w' : World) (q : Position)
    (c : Color) :
  consistent w →
  addCubeUnmarked w q c = Ok w' →
  removeCubeUnmarked w' q = Ok w.
Proof.
  intros Hw Hadd.
  assert (Hq : hasCube w q = false).
  { unfold addCubeUnmarked in Hadd. by destruct (hasCube w q). }
  destruct (addCubeUnmarked_spec w q c Hw Hq) as (w'' & Hadd' & Hw' & Hcs & Hwd).
  rewrite Hadd in Hadd'. simplify_eq.
  assert (Hid : getCubeId w'' q = Some (length (cubes w))).
  { unfold getCubeId. rewrite Hwd. apply lookup_insert_eq. }
  assert (Hq' : hasCube w'' q = true).
  { apply (hasCube_true w'' Hw'). rewrite Hid. eauto. }
  unfold removeCubeUnmarked. rewrite Hq', Hid. simpl. f_equal.
  rewrite Hcs, Hwd, delete_last_cube.
  apply (hasCube_false w Hw) in Hq. unfold getCubeId in Hq.
  rewrite delete_insert_eq, delete_id by done.
  rewrite reindex_id.
  - by destruct w.
  - intros j cj Hj. apply (getCubeId_cube w Hw) in Hj. done.
Qed.

Lemma removeCubeUnmarked_addCubeUnmarked_witness :
  removeCubeUnmarked (worldOfCells [(0, 0); (1, 0)]) (1, 0)
  = Ok (worldOfCells [(0, 0)]).
Proof.
  apply (removeCubeUnmarked_addCubeUnmarked (worldOfCells [(0, 0)]) _
           (1, 0) BLUE).
  - apply consistentb_sound. vm_compute. reflexivity.
  - vm_compute. reflexivity.
Defined.

(** ** The analyser reads the index and the cells only *)

Lemma agree_refl {A} (x : Result A) : agree eq x x.
Proof. by destruct x. Qed.

Lemma agree_bind {A A' B B'} (R : A → A' → Prop) (R' : B → B' → Prop)
    (x : Result A) (y : Result A') (f : A → Result B) (g : A' → Result B') :
  agree R x y → (∀ a b, R a b → agree R' (f a) (g b)) →
  agree R' (x ≫= f) (y ≫= g).
Proof.
  intros Hxy Hfg. destruct x, y; simpl in *; try done. by apply Hfg.
Qed.

Lemma agree_Ok {A B} (R : A → B → Prop) x y a :
  agree R x y → x = Ok a → ∃ b, y = Ok b ∧ R a b.
Proof. intros H ->. destruct y; simpl in H; try done. eauto. Qed.

Lemma foldResult_agree {A A' B B'} (R : A → A' → Prop) (Q : B → B' → Prop)
    (f : A → B → Result A) (f' : A' → B' → Result A') l l' :
  Forall2 Q l l' →
  (∀ a a' x x', R a a' → Q x x' → agree R (f a x) (f' a' x')) →
  ∀ a a', R a a' → agree R (foldResult f l a) (foldResult f' l' a').
Proof.
  intros Hl Hf. induction Hl as [|x x' l l' Hx Hl IH]; intros a a' Ha; simpl.
  - done.
  - eapply agree_bind; [by apply Hf|]. intros b b' Hb. by apply IH.
Qed.

Lemma map_filter_comm {A B} (f : A → B) (P : B → Prop)
    `{∀ x, Decision (P x)} (l : list A) :
  map f (filter (λ x, P (f x)) l) = filter P (map f l).
Proof.
  induction l as [|x l IH]; [done|]. rewrite filter_cons. simpl.
  rewrite filter_cons. destruct (decide (P (f x))); simpl; by rewrite IH.
Qed.

Lemma map_eq_Forall2 {A B} (f : A → B) l : ∀ l',
  map f l = map f l' → Forall2 (λ x y, f x = f y) l l'.
Proof.
  induction l as [|x l IH]; intros [|y l'] H; simplify_eq/=; constructor.
  - done.
  - by apply IH.
Qed.

Lemma map_eq_lookup {A B} (f : A → B) l l' i :
  map f l = map f l' → f <$> l !! i = f <$> l' !! i.
Proof.
  intros H. rewrite <- !list_lookup_fmap.
  change (f <$> l) with (map f l). change (f <$> l') with (map f l').
  by rewrite H.
Qed.

Lemma omap_pointwise {A B} (f g : A → option B) (l : list A) :
  (∀ x, f x = g x) → omap f l = omap g l.
Proof.
  intros Hfg. induction l as [|x l IH]; [done|].
  csimpl. rewrite Hfg. by rewrite IH.
Qed.

Section same_cells.
Context (w w' : World) (Hsame : sameCells w w').

Lemma same_lookup i : p <$> cubes w !! i = p <$> cubes w' !! i.
Proof.
  destruct Hsame as [_ Hp]. rewrite <- !list_lookup_fmap.
  change (p <$> cubes w) with (map p (cubes w)).
  change (p <$> cubes w') with (map p (cubes w')). by rewrite Hp.
Qed.

Lemma same_length : length (cubes w) = length (cubes w').
Proof.
  destruct Hsame as [_ Hp]. apply (f_equal length) in Hp.
  by rewrite !length_map in Hp.
Qed.

Lemma same_getCubeId q : getCubeId w q = getCubeId w' q.
Proof. unfold getCubeId. by destruct Hsame as [-> _]. Qed.

Lemma same_getCube q : p <$> getCube w q = p <$> getCube w' q.
Proof.
  unfold getCube. rewrite same_getCubeId.
  destruct (getCubeId w' q); [apply same_lookup | done].
Qed.

Lemma same_hasCube q : hasCube w q = hasCube w' q.
Proof.
  unfold hasCube. pose proof (same_getCube q) as H.
  destruct (getCube w q), (getCube w' q); simplify_eq/=; try done.
Qed.

Lemma same_hasNeighbors q c : hasNeighbors w q c = hasNeighbors w' q c.
Proof. apply same_hasCube. Qed.

Lemma same_isConnectedLoop fuel : ∀ seen n queue,
  agree eq (isConnectedLoop fuel w seen n queue)
           (isConnectedLoop fuel w' seen n queue).
Proof.
  induction fuel as [|fuel IH]; intros seen n [|i queue];
    cbn [isConnectedLoop]; try done.
  destruct (isSeen seen i); [apply IH|].
  pose proof (same_lookup i) as Hi.
  destruct (cubes w !! i) as [c|], (cubes w' !! i) as [c'|];
    cbn [fmap option_fmap option_map] in Hi; try done.
  injection Hi as Hi. rewrite Hi.
  rewrite (omap_pointwise (λ c0, truthyId (getCubeId w c0))
             (λ c0, truthyId (getCubeId w' c0))).
  - apply IH.
  - intros q. by rewrite same_getCubeId.
Qed.

Lemma same_isConnected skip :
  agree eq (isConnected w skip) (isConnected w' skip).
Proof.
  unfold isConnected, isConnectedFuel. rewrite <- same_length.
  case_bool_decide; [done|].
  assert (Hsk : ∀ s, getCubeId w s = getCubeId w' s) by apply same_getCubeId.
  destruct skip as [s|]; [rewrite <- Hsk; destruct (getCubeId w s)|];
    (eapply agree_bind; [apply same_isConnectedLoop|]);
    by intros ? ? ->.
Qed.

Lemma same_downmostLeftmost :
  p <$> downmostLeftmost w = p <$> downmostLeftmost w'.
Proof.
  unfold downmostLeftmost. destruct Hsame as [_ Hp].
  assert (H2 : map (λ c, (p c).2) (cubes w) = map (λ c, (p c).2) (cubes w')).
  { rewrite <- !(map_map p snd). by rewrite Hp. }
  rewrite H2. destruct (arrayMin _) as [lowestY|]; [|done].
  assert (H1 : map (λ c, (p c).1) (filter (λ c, (p c).2 = lowestY) (cubes w))
             = map (λ c, (p c).1)
                 (filter (λ c, (p c).2 = lowestY) (cubes w'))).
  { rewrite <- !(map_map p fst). f_equal.
    pose proof (map_filter_comm p (λ q : Z * Z, q.2 = lowestY)) as Hc.
    simpl in Hc. by rewrite !Hc, Hp. }
  rewrite H1. destruct (arrayMin _) as [lowestX|]; [|done].
  apply same_getCube.
Qed.

Lemma same_nextOnOutside q d : nextOnOutside w q d = nextOnOutside w' q d.
Proof.
  unfold nextOnOutside. f_equal. apply list_filter_iff. intros dir.
  by rewrite same_hasNeighbors.
Qed.

Lemma same_outsideLoop fuel : ∀ outside outside' edges position direction,
  map p outside = map p outside' →
  agree (λ r r', map p r.1 = map p r'.1 ∧ r.2 = r'.2)
    (outsideLoop fuel w outside edges position direction)
    (outsideLoop fuel w' outside' edges position direction).
Proof.
  induction fuel as [|fuel IH]; intros outside outside' edges position
    direction Ho; simpl; [done|].
  pose proof (same_getCube position) as Hc.
  destruct (getCube w position) as [c|], (getCube w' position) as [c'|];
    simplify_eq/=; try done.
  assert (Ho' : map p (outside ++ [c]) = map p (outside' ++ [c'])).
  { rewrite !map_app. simpl. congruence. }
  rewrite same_nextOnOutside.
  destruct (nextOnOutside w' position direction) as [d|]; [|done].
  rewrite Hc. case_bool_decide; [done|]. by apply IH.
Qed.

Lemma same_outsideCubes :
  agree (λ o o', map p o = map p o') (outsideCubes w) (outsideCubes w').
Proof.
  unfold outsideCubes, outsideWalk, outsideFuel. rewrite <- same_length.
  case_bool_decide; [done|].
  pose proof same_downmostLeftmost as Hd.
  destruct (downmostLeftmost w) as [s|], (downmostLeftmost w') as [s'|];
    simplify_eq/=; try done.
  rewrite Hd.
  eapply agree_bind; [by apply same_outsideLoop|].
  by intros r r' [? _].
Qed.

Lemma same_componentStep s cube cube' :
  p cube = p cube' →
  agree eq (componentStep w s cube) (componentStep w' s cube').
Proof.
  intros Hp. unfold componentStep. rewrite Hp, same_getCubeId.
  destruct (getCubeId w' (p cube')); [|done].
  apply agree_refl.
Qed.

Lemma same_degree c c' : p c = p c' → degree w c = degree w' c'.
Proof. intros Hp. unfold degree. by rewrite Hp, !same_hasNeighbors. Qed.

Lemma same_getOneNeighbor c c' :
  p c = p c' → p <$> getOneNeighbor w c = p <$> getOneNeighbor w' c'.
Proof.
  intros Hp. unfold getOneNeighbor. rewrite Hp. destruct (p c') as [x y].
  pose proof (same_getCube (x + 1, y)) as H1.
  pose proof (same_getCube (x - 1, y)) as H2.
  pose proof (same_getCube (x, y + 1)) as H3.
  pose proof (same_getCube (x, y - 1)) as H4.
  destruct (getCube w (x + 1, y)), (getCube w' (x + 1, y));
    simpl in H1; try done.
  destruct (getCube w (x - 1, y)), (getCube w' (x - 1, y));
    simpl in H2; try done.
  destruct (getCube w (x, y + 1)), (getCube w' (x, y + 1));
    simpl in H3; done.
Qed.

Lemma same_cellTest (f : nat → bool) q :
  match getCube w q with
  | None => true
  | Some c => match getCubeId w (p c) with None => true | Some k => f k end
  end =
  match getCube w' q with
  | None => true
  | Some c => match getCubeId w' (p c) with None => true | Some k => f k end
  end.
Proof.
  pose proof (same_getCube q) as Hq.
  destruct (getCube w q) as [c|], (getCube w' q) as [c'|];
    simpl in Hq; try done.
  injection Hq as ->. by rewrite same_getCubeId.
Qed.

Lemma same_looseStep acc i :
  agree eq (looseStep w acc i) (looseStep w' acc i).
Proof.
  destruct acc as [components chunkIds]. unfold looseStep.
  pose proof (same_lookup i) as Hi.
  destruct (cubes w !! i) as [c|], (cubes w' !! i) as [c'|];
    simplify_eq/=; try done.
  rewrite (same_degree c c' Hi).
  destruct (bool_decide (getZ components i = 1) &&
            bool_decide (degree w' c' = 1%nat)); [|done].
  pose proof (same_getOneNeighbor c c' Hi) as Hn.
  destruct (getOneNeighbor w c) as [nb|], (getOneNeighbor w' c') as [nb'|];
    simplify_eq/=; try done.
  rewrite Hn, same_getCubeId.
  destruct (getCubeId w' (p nb')) as [k|]; [|done].
  case_bool_decide; [|done]. simpl.
  pose proof (same_cellTest
    (λ k0, negb (bool_decide (getZ (<[i:=2]> components) k0 = 1)))) as Ht.
  simpl in Ht. by rewrite !Ht.
Qed.

Lemma same_findComponents : agree eq (findComponents w) (findComponents w').
Proof.
  unfold findComponents. rewrite <- same_length.
  case_bool_decide; [done|].
  eapply agree_bind; [apply (same_isConnected None)|]. intros c ? <-.
  destruct (negb c); [done|].
  eapply agree_bind; [apply same_outsideCubes|]. intros o o' Ho.
  simpl in Ho.
  eapply agree_bind.
  { apply (foldResult_agree eq (λ c c', p c = p c')); [| |done].
    - by apply map_eq_Forall2.
    - intros a ? x x' <- Hx. by apply same_componentStep. }
  intros s ? <-.
  destruct o as [|first o], o' as [|first' o']; simplify_eq/=; try done.
  rewrite H0, same_getCubeId.
  destruct (getCubeId w' (p first')) as [originId|]; [|done].
  apply (foldResult_agree eq eq); [| |done].
  - by apply Forall_Forall2_diag, Forall_true.
  - intros a ? x ? <- <-. apply same_looseStep.
Qed.

Lemma same_stabilityVisit rec rec' i acc c :
  (∀ j st, agree eq (rec j st) (rec' j st)) →
  agree eq (stabilityVisit w rec i acc c) (stabilityVisit w' rec' i acc c).
Proof.
  intros Hrec. destruct acc as [[st cut] cnt]. unfold stabilityVisit.
  rewrite same_getCubeId. destruct (getCubeId w' c) as [cid|]; [|done].
  destruct (negb (isSeen (dseen st) cid)); [|apply agree_refl].
  eapply agree_bind; [apply Hrec|]. by intros st1 ? <-.
Qed.

Lemma same_findCubeStabilityRecursive fuel : ∀ i d st,
  agree eq (findCubeStabilityRecursive fuel w i d st)
           (findCubeStabilityRecursive fuel w' i d st).
Proof.
  induction fuel as [|fuel IH]; intros i d st;
    cbn [findCubeStabilityRecursive]; [done|].
  pose proof (same_lookup i) as Hi.
  destruct (cubes w !! i) as [c|], (cubes w' !! i) as [c'|];
    simpl in Hi; try done.
  injection Hi as ->.
  eapply agree_bind.
  { apply (foldResult_agree eq eq); [| |done].
    - by apply Forall_Forall2_diag, Forall_true.
    - intros a ? x ? <- <-. apply same_stabilityVisit. intros j st'. apply IH. }
  by intros [[st1 cut] cnt] ? <-.
Qed.

Lemma same_findCubeStability :
  agree eq (findCubeStability w) (findCubeStability w').
Proof.
  unfold findCubeStability. rewrite <- same_length.
  case_bool_decide; [done|].
  eapply agree_bind; [apply same_findCubeStabilityRecursive|].
  by intros st ? <-.
Qed.

Lemma same_markBoundary outside outside' : ∀ cs cs',
  map p outside = map p outside' →
  map marks cs = map marks cs' →
  map marks (foldl (markBoundary w) cs outside)
  = map marks (foldl (markBoundary w') cs' outside').
Proof.
  revert outside'.
  induction outside as [|c outside IH]; intros [|c' outside'] cs cs' Ho Hm;
    simplify_eq/=; [done|].
  apply IH; [done|]. unfold markBoundary. rewrite H, same_getCubeId.
  destruct (getCubeId w' (p c')) as [id|]; [|done].
  apply list_eq. intros i. rewrite !list_lookup_fmap.
  apply (map_eq_lookup _ _ _ i) in Hm.
  destruct (decide (i = id)) as [->|Hne].
  - rewrite !list_lookup_alter_eq.
    destruct (cs !! id), (cs' !! id); simplify_eq/=; try done.
    unfold marks in *. simpl. congruence.
  - by rewrite !list_lookup_alter_ne.
Qed.

End same_cells.

Lemma same_markComponents w w' :
  sameCells w w' →
  agree (λ v v', world v = world w ∧ world v' = world w' ∧
                 map core (cubes v) = map core (cubes w) ∧
                 map core (cubes v') = map core (cubes w') ∧
                 map marks (cubes v) = map marks (cubes v'))
        (markComponents w) (markComponents w').
Proof.
  intros Hsame. unfold markComponents.
  eapply agree_bind; [by apply same_findComponents|].
  intros [components chunkIds] ? <-.
  eapply agree_bind; [by apply same_findCubeStability|].
  intros stable ? <-.
  set (f := λ (i : nat) (c : Cube),
         setOnBoundary false
           (setChunkId (getZ chunkIds i)
              (setComponentStatus
                 (statusOf (getZ components i) (isSeen stable i)) c))).
  assert (Hcore : ∀ l, map core (imap f l) = map core l).
  { intros l. apply list_eq. intros i.
    rewrite !list_lookup_fmap, list_lookup_imap. by destruct (l !! i). }
  assert (Hmarks : map marks (imap f (cubes w)) = map marks (imap f (cubes w'))).
  { apply list_eq. intros i. rewrite !list_lookup_fmap, !list_lookup_imap.
    pose proof (same_lookup w w' Hsame i) as Hi.
    destruct (cubes w !! i), (cubes w' !! i); simplify_eq/=; done. }
  eapply agree_bind.
  { apply same_outsideCubes. destruct Hsame as [Hwd Hp]. split; [done|].
    simpl. rewrite !map_p_core, !Hcore, <- !map_p_core. done. }
  intros o o' Ho. simpl in Ho. simpl.
  destruct (foldl_markBoundary_core w o (imap f (cubes w))) as [-> _].
  destruct (foldl_markBoundary_core w' o' (imap f (cubes w'))) as [-> _].
  rewrite !Hcore. split_and!; try done.
  by apply same_markBoundary.
Qed.

(** X6. The classification reads the index and the cells only: two worlds
    with the same index and the same cube cells, whatever the colours,
    reset cells and earlier marks of their cubes, get the same status,
    chunk identifier and boundary flag on every cube, and
    [markComponents] changes nothing else. *)
Theorem markComponents_cells_only (w w' : World) :
  consistent w → sameCells w w' →
  ∃ v v', markComponents w = Ok v ∧ markComponents w' = Ok v' ∧
          world v = world w ∧ world v' = world w' ∧
          map core (cubes v) = map core (cubes w) ∧
          map core (cubes v') = map core (cubes w') ∧
          map marks (cubes v) = map marks (cubes v').
Proof.
  intros Hw Hsame.
  destruct (markComponents_spec w Hw) as (v & Hv & _).
  destruct (agree_Ok _ _ _ _ (same_markComponents w w' Hsame) Hv)
    as (v' & Hv' & ? & ? & ? & ? & ?).
  exists v, v'. by split_and!.
Qed.

Lemma markComponents_fixed w v :
  consistent w → markComponents w = Ok v → markComponents v = Ok v.
Proof.
  intros Hw Hv.
  destruct (markComponents_spec w Hw) as (v0 & Hv0 & _ & Hwd & Hcore & _).
  rewrite Hv in Hv0. injection Hv0 as <-.
  assert (Hsame : sameCells w v).
  { split; [done|]. symmetry. by apply map_core_p. }
  destruct (agree_Ok _ _ _ _ (same_markComponents w v Hsame) Hv)
    as (v' & Hv' & _ & Hwd' & _ & Hcore' & Hmarks).
  rewrite Hv'. f_equal. destruct v as [m cs], v' as [m' cs']. simpl in *.
  f_equal; [done|]. apply list_eq. intros i.
  apply (map_eq_lookup _ _ _ i) in Hcore', Hmarks.
  destruct (cs !! i) as [c|], (cs' !! i) as [c'|]; simpl in *; try done.
  injection Hcore' as Hc. injection Hmarks as Hm.
  f_equal. destruct c, c'. simpl in *. congruence.
Qed.

(** X7. [markComponents] is idempotent: marking a world that has just been
    marked gives the same world. *)
Theorem markComponents_idempotent (w v : World) :
  consistent w → markComponents w = Ok v → markComponents v = Ok v.
Proof. apply markComponents_fixed. Qed.

Lemma markComponents_cells_only_witness :
  ∃ v v',
    markComponents (worldOfCells [(0, 0); (1, 0)]) = Ok v ∧
    markComponents (loaded [(0, 0); (1, 0)]) = Ok v' ∧
    world v = world (worldOfCells [(0, 0); (1, 0)]) ∧
    world v' = world (loaded [(0, 0); (1, 0)]) ∧
    map core (cubes v) = map core (cubes (worldOfCells [(0, 0); (1, 0)])) ∧
    map core (cubes v') = map core (cubes (loaded [(0, 0); (1, 0)])) ∧
    map marks (cubes v) = map marks (cubes v').
Proof.
  apply (markComponents_cells_only (worldOfCells [(0, 0); (1, 0)])
           (loaded [(0, 0); (1, 0)])).
  - apply consistentb_sound. vm_compute. reflexivity.
  - split; vm_compute; reflexivity.
Defined.

Lemma markComponents_idempotent_witness :
  markComponents (loaded [(0, 0); (1, 0)]) = Ok (loaded [(0, 0); (1, 0)]).
Proof.
  apply (markComponents_idempotent (worldOfCells [(0, 0); (1, 0)])).
  - apply consistentb_sound. vm_compute. reflexivity.
  - vm_compute. reflexivity.
Defined.

(** ** Reset and reload *)

Lemma cleared_lookup cs : ∀ (m : gmap (Z * Z) nat) q,
  foldl (λ m cube, delete (p cube) m) m cs !! q
  = if decide (q ∈ map p cs) then None else m !! q.
Proof.
  induction cs as [|c cs IH]; intros m q; simpl; [done|].
  rewrite IH. destruct (decide (q ∈ map p cs)) as [Hin|Hnin].
  - rewrite decide_True; [done|]. by right.
  - destruct (decide (q = p c)) as [->|Hne].
    + rewrite lookup_delete_eq. rewrite decide_True; [done|]. by left.
    + rewrite lookup_delete_ne by done. rewrite decide_False; [done|].
      intros [?|?]%elem_of_cons; done.
Qed.

Lemma consistent_index w w' :
  consistent w → consistent w' → map p (cubes w) = map p (cubes w') →
  world w = world w'.
Proof.
  intros Hw Hw' Hp. apply map_eq. intros q.
  assert (H : ∀ u u', consistent u → consistent u' →
                map p (cubes u) = map p (cubes u') →
                ∀ i, world u !! q = Some i → world u' !! q = Some i).
  { intros u u' [Hu1 Hu2] [Hu1' Hu2'] Hpu i Hi.
    destruct (Hu2 q i Hi) as (c & Hc & Hpc).
    pose proof (map_eq_lookup p _ _ i Hpu) as Hl. rewrite Hc in Hl.
    destruct (cubes u' !! i) as [c'|] eqn:Hc'; [|done].
    simpl in Hl. injection Hl as Hl. rewrite <- Hpc, Hl. by apply Hu1'. }
  destruct (world w !! q) as [i|] eqn:Hi.
  - symmetry. exact (H w w' Hw Hw' Hp i Hi).
  - destruct (world w' !! q) as [j|] eqn:Hj; [|done].
    rewrite (H w' w Hw' Hw (eq_sym Hp) j Hj) in Hi. done.
Qed.

Lemma reset_consistent w :
  consistent w → NoDup (map resetPosition (cubes w)) →
  consistent
    (mkWorld
       (reindex (foldl (λ m cube, delete (p cube) m) (world w) (cubes w)) 0
          (map (λ cube, setP (resetPosition cube) cube) (cubes w)))
       (map (λ cube, setP (resetPosition cube) cube) (cubes w))).
Proof.
  intros Hw Hnd.
  set (cs := map (λ cube, setP (resetPosition cube) cube) (cubes w)).
  assert (Hp : map p cs = map resetPosition (cubes w)).
  { unfold cs. by rewrite map_map. }
  split; simpl.
  - intros i c Hc. rewrite (reindex_lookup cs _ 0%nat i c); [done| |done].
    by rewrite Hp.
  - intros q i Hq. destruct (decide (q ∈ map p cs)) as [Hin|Hnin].
    + apply list_elem_of_fmap in Hin as (c & -> & Hc).
      apply list_elem_of_lookup in Hc as [j Hj].
      rewrite (reindex_lookup cs _ 0%nat j c) in Hq; [| by rewrite Hp | done].
      simplify_eq/=. eauto.
    + rewrite reindex_notin in Hq by done. rewrite cleared_lookup in Hq.
      destruct (decide (q ∈ map p (cubes w))) as [|Hn]; [done|].
      exfalso. apply Hn. apply (hasCube_iff w q Hw), (hasCube_true w Hw).
      by exists i.
Qed.

Lemma markComponents_empty : markComponents emptyWorld = Ok emptyWorld.
Proof. vm_compute. reflexivity. Qed.

Lemma deserialize_fold_fixed l : ∀ w w',
  consistent w → markComponents w = Ok w →
  foldResult deserializeCube l w = Ok w' →
  markComponents w' = Ok w'.
Proof.
  induction l as [|x l IH]; intros w w' Hw Hfix Hfold; simpl in Hfold.
  { by injection Hfold as <-. }
  rewrite deserializeCube_addCube in Hfold.
  destruct (hasCube w (jcell x)) eqn:Hx.
  { rewrite addCube_occupied in Hfold by done. done. }
  destruct (addCube_spec w (jcell x) (jcolorOf x) Hw Hx)
    as (w1 & Hadd & Hw1 & _).
  rewrite Hadd, bind_Ok in Hfold.
  apply (IH w1 w' Hw1); [|done].
  unfold addCube in Hadd.
  destruct (addCubeUnmarked_spec w (jcell x) (jcolorOf x) Hw Hx)
    as (w0 & Hadd0 & Hw0 & _).
  rewrite Hadd0, bind_Ok in Hadd. by eapply markComponents_fixed.
Qed.

Lemma fixed_worlds_eq wa wb :
  consistent wa → consistent wb →
  markComponents wa = Ok wa → markComponents wb = Ok wb →
  map core (cubes wa) = map core (cubes wb) →
  wa = wb.
Proof.
  intros Ha Hb Hfa Hfb Hcore.
  assert (Hidx : world wa = world wb).
  { apply consistent_index; [done..|]. by apply map_core_p. }
  assert (Hsame : sameCells wa wb).
  { split; [done|]. by apply map_core_p. }
  destruct (agree_Ok _ _ _ _ (same_markComponents wa wb Hsame) Hfa)
    as (v & Hv & _ & _ & _ & _ & Hmarks).
  rewrite Hfb in Hv. injection Hv as <-.
  destruct wa as [m cs], wb as [m' cs']. simpl in *. f_equal; [done|].
  apply list_eq. intros i.
  apply (map_eq_lookup _ _ _ i) in Hcore, Hmarks.
  destruct (cs !! i) as [c|], (cs' !! i) as [c'|]; simpl in *; try done.
  injection Hcore as Hc. injection Hmarks as Hmk.
  f_equal. destruct c, c'. simpl in *. congruence.
Qed.

Lemma deserialize_fixed data w :
  deserialize emptyWorld data = Ok w → markComponents w = Ok w.
Proof.
  unfold deserialize. case_bool_decide; [done|]. intros Hd.
  eapply (deserialize_fold_fixed _ emptyWorld);
    [apply consistent_empty | apply markComponents_empty | exact Hd].
Qed.

(** X8. [reset] puts every cube back on its reset cell, keeping
    identifiers, reset cells and colours, when no two cubes share a reset
    cell; the world it gives is exactly the one a reload of the save file
    of [serialize] gives. *)
Theorem reset_spec (w : World) :
  consistent w → NoDup (map resetPosition (cubes w)) →
  ∃ w', reset w = Ok w' ∧ consistent w' ∧
        map core (cubes w') =
          map (λ c, (resetPosition c, resetPosition c, color c)) (cubes w) ∧
        deserialize emptyWorld (serialize w) = Ok w'.
Proof.
  intros Hw Hnd. unfold reset.
  pose proof (reset_consistent w Hw Hnd) as Hw0.
  set (w0 := mkWorld _ _) in *.
  destruct (markComponents_spec w0 Hw0) as (w' & Hm & Hw' & Hwd & Hcore & _).
  assert (Hcore' : map core (cubes w') =
            map (λ c, (resetPosition c, resetPosition c, color c)) (cubes w)).
  { rewrite Hcore. unfold w0. simpl. rewrite map_map. reflexivity. }
  exists w'. split_and!; [done..|].
  destruct (deserialize_accepts (serialize w)) as (wd & Hd & Hwd' & Hcd & _).
  { simpl. lia. }
  { unfold serialize. simpl. rewrite map_map. simpl.
    erewrite map_ext; [exact Hnd|]. intros c. unfold jcell. simpl.
    by destruct (resetPosition c). }
  rewrite Hd. f_equal.
  apply fixed_worlds_eq; [done | done | | |].
  - by eapply deserialize_fixed.
  - exact (markComponents_fixed w0 w' Hw0 Hm).
  - rewrite Hcd, Hcore'. unfold serialize. simpl. rewrite map_map.
    apply map_ext. intros c. unfold jcell, jcolorOf. simpl.
    destruct (resetPosition c), (color c). done.
Qed.

Lemma reset_spec_witness :
  ∃ w', reset movedWorld = Ok w' ∧ consistent w' ∧
        map core (cubes w') =
          map (λ c, (resetPosition c, resetPosition c, color c))
              (cubes movedWorld) ∧
        deserialize emptyWorld (serialize movedWorld) = Ok w'.
Proof.
  apply (reset_spec movedWorld).
  - apply consistentb_sound. vm_compute. reflexivity.
  - apply (bool_decide_unpack _). vm_compute. reflexivity.
Defined.

(** ** Save files *)

Lemma foldResult_app {A B} (f : A → B → Result A) l1 l2 a :
  foldResult f (l1 ++ l2) a = foldResult f l1 a ≫= foldResult f l2.
Proof.
  revert a. induction l1 as [|x l1 IH]; intros a; simpl; [done|].
  destruct (f a x); simpl; [apply IH | done..].
Qed.

(** X9. Saving a world that has just been loaded writes the file it was
    loaded from, with version 1 and the default colour written out; and
    loading that file again gives the same world. *)
Theorem serialize_deserialize (data : SaveFile) :
  version data ≤ 1 → NoDup (map jcell (jcubes data)) →
  ∃ w, deserialize emptyWorld data = Ok w ∧
       serialize w =
         mkSaveFile 1
           (map (λ x, mkCubeJson (jx x) (jy x)
                        (Some (r (jcolorOf x), g (jcolorOf x),
                               b (jcolorOf x))))
                (jcubes data)) ∧
       deserialize emptyWorld (serialize w) = Ok w.
Proof.
  intros Hv Hnd.
  destruct (deserialize_accepts data Hv Hnd) as (w & Hd & Hw & Hcore & _).
  exists w. split; [done|].
  assert (Hser : serialize w =
            mkSaveFile 1
              (map (λ x, mkCubeJson (jx x) (jy x)
                           (Some (r (jcolorOf x), g (jcolorOf x),
                                  b (jcolorOf x))))
                   (jcubes data))).
  { unfold serialize. f_equal.
    transitivity
      (map (λ t : Z * Z * (Z * Z) * Color,
              mkCubeJson t.1.2.1 t.1.2.2 (Some (r t.2, g t.2, b t.2)))
           (map core (cubes w))).
    - by rewrite map_map.
    - rewrite Hcore, map_map. done. }
  split; [done|].
  destruct (deserialize_accepts (serialize w)) as (w2 & Hd2 & Hw2 & Hc2 & _).
  { simpl. lia. }
  { rewrite Hser. simpl. rewrite map_map. simpl. exact Hnd. }
  rewrite Hd2. f_equal.
  apply fixed_worlds_eq; [done | done | | |].
  - by eapply deserialize_fixed.
  - by eapply deserialize_fixed.
  - rewrite Hc2, Hcore, Hser. simpl. rewrite map_map. apply map_ext.
    intros x. unfold jcell, jcolorOf. simpl.
    by destruct (jcolor x) as [[[? ?] ?]|].
Qed.

Lemma serialize_deserialize_witness :
  ∃ w, deserialize emptyWorld (instance [(0, 0); (1, 0)]) = Ok w ∧
       serialize w =
         mkSaveFile 1
           (map (λ x, mkCubeJson (jx x) (jy x)
                        (Some (r (jcolorOf x), g (jcolorOf x),
                               b (jcolorOf x))))
                (jcubes (instance [(0, 0); (1, 0)]))) ∧
       deserialize emptyWorld (serialize w) = Ok w.
Proof.
  apply (serialize_deserialize (instance [(0, 0); (1, 0)])).
  - simpl. lia.
  - apply (bool_decide_unpack _). vm_compute. reflexivity.
Defined.

Lemma markComponents_core_any w w' :
  markComponents w = Ok w' → map core (cubes w') = map core (cubes w).
Proof.
  unfold markComponents. intros H.
  destruct (findComponents w) as [[components chunkIds]| |]; [|done..].
  rewrite bind_Ok in H.
  destruct (findCubeStability w) as [stable| |]; [|done..].
  rewrite bind_Ok in H.
  destruct (outsideCubes _) as [outside| |]; [|done..].
  rewrite bind_Ok in H. injection H as <-. simpl.
  destruct (foldl_markBoundary_core w outside
              (imap (λ i c,
                 setOnBoundary false
                   (setChunkId (getZ chunkIds i)
                      (setComponentStatus
                         (statusOf (getZ components i) (isSeen stable i)) c)))
                 (cubes w))) as [-> _].
  apply list_eq. intros i.
  rewrite !list_lookup_fmap, list_lookup_imap. by destruct (cubes w !! i).
Qed.

Lemma serialize_core w w' :
  map core (cubes w') = map core (cubes w) → serialize w' = serialize w.
Proof.
  intros H. unfold serialize. f_equal.
  transitivity
    (map (λ t : Z * Z * (Z * Z) * Color,
            mkCubeJson t.1.2.1 t.1.2.2 (Some (r t.2, g t.2, b t.2)))
         (map core (cubes w'))).
  - by rewrite map_map.
  - rewrite H. by rewrite map_map.
Qed.

Lemma moveCubeUnmarked_serialize w from to w' :
  moveCubeUnmarked w from to = Ok w' → serialize w' = serialize w.
Proof.
  unfold moveCubeUnmarked. intros H.
  destruct (negb (hasCube w from)); [done|].
  destruct (hasCube w to); [done|].
  destruct (getCubeId w from) as [id|]; [|done].
  injection H as <-. unfold serialize. simpl. f_equal.
  apply list_eq. intros i. rewrite !list_lookup_fmap.
  destruct (decide (i = id)) as [->|Hne].
  - rewrite list_lookup_alter_eq. by destruct (cubes w !! id).
  - by rewrite list_lookup_alter_ne.
Qed.

(** X10. No sequence of committed moves changes what [serialize] writes:
    the save file holds the reset cells and the colours, which neither a
    move nor the marking of components touches. *)
Theorem serialize_runMoves (w w' : World) (ms : list Move) :
  (runMoves w ms = Ok w' → serialize w' = serialize w) ∧
  (runMovesMarked w ms = Ok w' → serialize w' = serialize w).
Proof.
  split; revert w.
  - induction ms as [|m ms IH]; intros w H; simpl in H.
    { by injection H as <-. }
    destruct (isValid w m) as [[|]| |]; simpl in H; try done.
    destruct (executeUnmarked w m) as [w1| |] eqn:Hex; simpl in H; try done.
    rewrite (IH w1 H). by eapply moveCubeUnmarked_serialize.
  - induction ms as [|m ms IH]; intros w H; simpl in H.
    { by injection H as <-. }
    destruct (isValid w m) as [[|]| |]; simpl in H; try done.
    destruct (moveCube w (position m) (targetPosition m)) as [w1| |] eqn:Hex;
      simpl in H; try done.
    rewrite (IH w1 H). unfold moveCube in Hex.
    destruct (moveCubeUnmarked w (position m) (targetPosition m))
      as [w0| |] eqn:Hmv; simpl in Hex; try done.
    rewrite (serialize_core w0 w1) by by apply markComponents_core_any.
    by eapply moveCubeUnmarked_serialize.
Qed.

Lemma serialize_runMoves_witness :
  serialize movedWorld = serialize (loaded [(0, 0); (1, 0); (0, 1)]).
Proof.
  apply (proj2 (serialize_runMoves (loaded [(0, 0); (1, 0); (0, 1)])
                  movedWorld [mkMove (1, 0) N])).
  vm_compute. reflexivity.
Defined.

(** X11. Loading is not atomic: when a cube of the file names a cell an
    earlier cube of the file occupies, [deserialize] throws
    [OccupiedCell] and the world holds the cubes read before it. *)
Theorem deserialize_duplicate (v : Z) (l1 l2 : list CubeJson) (x : CubeJson) :
  v ≤ 1 → NoDup (map jcell l1) → jcell x ∈ map jcell l1 →
  ∃ w1, deserialize emptyWorld (mkSaveFile v l1) = Ok w1 ∧
        length (cubes w1) = length l1 ∧
        deserialize emptyWorld (mkSaveFile v (l1 ++ x :: l2))
          = Throw OccupiedCell w1.
Proof.
  intros Hv Hnd Hx.
  destruct (deserialize_accepts (mkSaveFile v l1) Hv Hnd)
    as (w1 & Hd & Hw1 & Hcore & _).
  exists w1. split; [done|]. split.
  { apply (f_equal length) in Hcore. by rewrite !length_map in Hcore. }
  unfold deserialize in *. simpl in *.
  rewrite bool_decide_eq_false_2 in * by lia.
  rewrite foldResult_app, Hd, bind_Ok. simpl.
  rewrite deserializeCube_addCube, addCube_occupied; [done..|].
  apply (hasCube_iff w1 _ Hw1). rewrite map_p_core, Hcore, map_map. done.
Qed.

Lemma deserialize_duplicate_witness :
  ∃ w1, deserialize emptyWorld (mkSaveFile 1 [cubeAt (0, 0); cubeAt (1, 0)])
          = Ok w1 ∧
        length (cubes w1) = length [cubeAt (0, 0); cubeAt (1, 0)] ∧
        deserialize emptyWorld
          (mkSaveFile 1 ([cubeAt (0, 0); cubeAt (1, 0)]
                         ++ cubeAt (0, 0) :: [cubeAt (2, 0)]))
          = Throw OccupiedCell w1.
Proof.
  apply (deserialize_duplicate 1 [cubeAt (0, 0); cubeAt (1, 0)]
           [cubeAt (2, 0)] (cubeAt (0, 0))).
  - lia.
  - apply (bool_decide_unpack _). vm_compute. reflexivity.
  - apply (bool_decide_unpack _). vm_compute. reflexivity.
Defined.

(** ** Neighbour queries *)

Lemma hasCube_is_Some w q : hasCube w q = true ↔ is_Some (getCube w q).
Proof. unfold hasCube. apply bool_decide_eq_true. Qed.

(** X12. In a world whose cubes stand on safe-integer cells the neighbour
    queries agree: [degree] is the number of cubes [getNeighbors] returns,
    [getOneNeighbor] is the first of them (so it is [null] exactly for a
    cube of degree 0), [hasNeighbors] is true at the keys where
    [getNeighborMap] holds a cube, and every cube returned is a cube of
    the world on an orthogonally adjacent cell. *)
Theorem getNeighbors_degree (w : World) (c : Cube) :
  consistent w → safeCoordinates 0 w → safeCell 0 (p c) →
  length (getNeighbors w (p c)) = degree w c ∧
  getOneNeighbor w c = head (getNeighbors w (p c)) ∧
  (getOneNeighbor w c = None ↔ degree w c = 0%nat) ∧
  (∀ d, hasNeighbors w (p c) d = true ↔ is_Some (getNeighborMap w (p c) d)) ∧
  (∀ n, n ∈ getNeighbors w (p c) → n ∈ cubes w ∧ adjacent (p c) (p n)).
Proof.
  intros Hw _ _.
  assert (Hdeg : ∀ q, (if hasCube w q then 1 else 0)%nat
                      = length (from_option (λ x, [x]) [] (getCube w q))).
  { intros q. unfold hasCube. by destruct (getCube w q). }
  assert (Hlast : ∀ n, n ∈ getNeighbors w (p c) →
                       n ∈ cubes w ∧ adjacent (p c) (p n)).
  { intros n. unfold getNeighbors. destruct (p c) as [x y].
    intros (q & Hq & Hn')%list_elem_of_omap.
    pose proof (getCube_Some w Hw _ _ Hn') as Hpn. split.
    - unfold getCube in Hn'. destruct (getCubeId w q); [|done].
      by eapply list_elem_of_lookup_2.
    - unfold adjacent, neighborCells. rewrite Hpn. simpl.
      repeat (apply elem_of_cons in Hq as [->|Hq]; [set_solver|]).
      by apply elem_of_nil in Hq. }
  assert (Hmap : ∀ d, hasNeighbors w (p c) d = true
                      ↔ is_Some (getNeighborMap w (p c) d)).
  { intros d. apply hasCube_is_Some. }
  split_and!; [| | |done|done];
    unfold getNeighbors, degree, getOneNeighbor, hasNeighbors, shift;
    destruct (p c) as [x y]; simpl;
    rewrite ?Z.add_0_r;
    replace (x + -1) with (x - 1) by lia;
    replace (y + -1) with (y - 1) by lia;
    rewrite ?Hdeg; csimpl;
    destruct (getCube w (x + 1, y)), (getCube w (x - 1, y)),
      (getCube w (x, y + 1)), (getCube w (x, y - 1)); simpl;
    try done; try lia; split; done || lia.
Qed.

Lemma getNeighbors_degree_witness :
  length (getNeighbors (worldOfCells [(0, 0); (1, 0); (0, 1)])
            (p (newCube (0, 0) BLUE)))
    = degree (worldOfCells [(0, 0); (1, 0); (0, 1)]) (newCube (0, 0) BLUE) ∧
  getOneNeighbor (worldOfCells [(0, 0); (1, 0); (0, 1)]) (newCube (0, 0) BLUE)
    = head (getNeighbors (worldOfCells [(0, 0); (1, 0); (0, 1)])
              (p (newCube (0, 0) BLUE))) ∧
  (getOneNeighbor (worldOfCells [(0, 0); (1, 0); (0, 1)])
     (newCube (0, 0) BLUE) = None
   ↔ degree (worldOfCells [(0, 0); (1, 0); (0, 1)]) (newCube (0, 0) BLUE)
     = 0%nat) ∧
  (∀ d, hasNeighbors (worldOfCells [(0, 0); (1, 0); (0, 1)])
          (p (newCube (0, 0) BLUE)) d = true
        ↔ is_Some (getNeighborMap (worldOfCells [(0, 0); (1, 0); (0, 1)])
                     (p (newCube (0, 0) BLUE)) d)) ∧
  (∀ n, n ∈ getNeighbors (worldOfCells [(0, 0); (1, 0); (0, 1)])
              (p (newCube (0, 0) BLUE)) →
        n ∈ cubes (worldOfCells [(0, 0); (1, 0); (0, 1)]) ∧
        adjacent (p (newCube (0, 0) BLUE)) (p n)).
Proof.
  apply (getNeighbors_degree (worldOfCells [(0, 0); (1, 0); (0, 1)])
           (newCube (0, 0) BLUE)).
  - apply consistentb_sound. vm_compute. reflexivity.
  - apply safeCoordinatesb_sound. vm_compute. reflexivity.
  - unfold safeCell, MAX_SAFE_INTEGER. simpl. lia.
Defined.

(** ** Moves and their targets *)

Lemma valid_target_unique w m1 m2 :
  isValidIgnoreConnectivity w m1 = true →
  isValidIgnoreConnectivity w m2 = true →
  position m1 = position m2 → targetPosition m1 = targetPosition m2 →
  m1 = m2.
Proof.
  destruct m1 as [[x y] d1], m2 as [[x' y'] d2]. simpl.
  intros H1 H2 [= <- <-] Ht.
  unfold isValidIgnoreConnectivity in H1, H2. simpl in H1, H2.
  destruct (hasCube w (targetPosition (mkMove (x, y) d1))); [done|].
  destruct (hasCube w (targetPosition (mkMove (x, y) d2))); [done|].
  unfold targetPosition, targetPositionFromFields in Ht.
  destruct d1, d2; simpl in Ht; try done;
    try (exfalso; injection Ht; lia);
    simpl in H1, H2;
    repeat match goal with
    | H : negb ?b && _ = true |- _ =>
        apply andb_true_iff in H as [?%negb_true_iff ?]
    end; congruence.
Qed.





(** ** Connectivity *)



(** ** The bounding box *)

Lemma fold_max_ge l : ∀ x, x ≤ fold_left Z.max l x ∧
  ∀ y, y ∈ l → y ≤ fold_left Z.max l x.
Proof.
  induction l as [|a l IH]; intros x; simpl.
  - split; [lia|]. by intros y ?%elem_of_nil.
  - destruct (IH (Z.max x a)) as [H1 H2]. split; [lia|].
    intros y [->|Hy]%elem_of_cons; [lia | by apply H2].
Qed.

Lemma fold_max_elem l : ∀ x, fold_left Z.max l x = x ∨ fold_left Z.max l x ∈ l.
Proof.
  induction l as [|a l IH]; intros x; simpl; [by left|].
  destruct (IH (Z.max x a)) as [H|H].
  - rewrite H. destruct (Z.max_spec x a) as [[_ ->]|[_ ->]];
      [right; by left | by left].
  - right. by right.
Qed.

Lemma arrayMax_spec l m :
  arrayMax l = Some m → m ∈ l ∧ ∀ y, y ∈ l → y ≤ m.
Proof.
  destruct l as [|x l]; [done|]. simpl. intros [= <-].
  destruct (fold_max_ge l x) as [H1 H2]. split.
  - destruct (fold_max_elem l x) as [->|H]; [by left | by right].
  - intros y [->|Hy]%elem_of_cons; auto.
Qed.

Lemma arrayMax_Some l : l ≠ [] → is_Some (arrayMax l).
Proof. destruct l; [done|]. simpl. eauto. Qed.

Lemma bounds_Some w :
  cubes w ≠ [] →
  ∃ minX minY maxX maxY,
    bounds w = (Some minX, Some minY, Some maxX, Some maxY) ∧
    (∀ c, c ∈ cubes w →
          minX ≤ (p c).1 ≤ maxX ∧ minY ≤ (p c).2 ≤ maxY) ∧
    (∃ c, c ∈ cubes w ∧ (p c).1 = minX) ∧
    (∃ c, c ∈ cubes w ∧ (p c).2 = minY) ∧
    (∃ c, c ∈ cubes w ∧ (p c).1 = maxX) ∧
    (∃ c, c ∈ cubes w ∧ (p c).2 = maxY).
Proof.
  intros Hne. unfold bounds.
  assert (Hn1 : map (λ cube, (p cube).1) (cubes w) ≠ []) by by destruct (cubes w).
  assert (Hn2 : map (λ cube, (p cube).2) (cubes w) ≠ []) by by destruct (cubes w).
  destruct (arrayMin_Some _ Hn1) as [minX HminX].
  destruct (arrayMin_Some _ Hn2) as [minY HminY].
  destruct (arrayMax_Some _ Hn1) as [maxX HmaxX].
  destruct (arrayMax_Some _ Hn2) as [maxY HmaxY].
  rewrite HminX, HminY, HmaxX, HmaxY.
  apply arrayMin_spec in HminX as [Hx1 Hx2], HminY as [Hy1 Hy2].
  apply arrayMax_spec in HmaxX as [HX1 HX2], HmaxY as [HY1 HY2].
  exists minX, minY, maxX, maxY. split; [done|]. split.
  { intros c Hc.
    assert ((p c).1 ∈ map (λ cube, (p cube).1) (cubes w))
      by (apply list_elem_of_fmap; eauto).
    assert ((p c).2 ∈ map (λ cube, (p cube).2) (cubes w))
      by (apply list_elem_of_fmap; eauto).
    split; split; auto. }
  apply list_elem_of_fmap in Hx1 as (c1 & ? & ?), Hy1 as (c2 & ? & ?),
    HX1 as (c3 & ? & ?), HY1 as (c4 & ? & ?).
  split_and!; eauto.
Qed.



(** ** Monotone configurations *)

Section monotone.
Context (w : World) (Hw : consistent w).
Context (minX minY : Z) (mx my : option Z).
Context (Hb : bounds w = (Some minX, Some minY, mx, my)).

Lemma bounds_lower c : c ∈ cubes w → minX ≤ (p c).1 ∧ minY ≤ (p c).2.
Proof.
  intros Hc. unfold bounds in Hb. injection Hb as Hx Hy _ _.
  apply arrayMin_spec in Hx as [_ Hx], Hy as [_ Hy].
  split; [apply Hx | apply Hy]; apply list_elem_of_fmap; eauto.
Qed.

Lemma isXYMonotone_step :
  isXYMonotone w = true ↔
  ∀ x y, hasCube w (x, y) = true → minX < x → minY < y →
         hasCube w (x, y - 1) = true ∧ hasCube w (x - 1, y) = true.
Proof.
  unfold isXYMonotone. rewrite Hb, forallb_forall. split.
  - intros H x y Hxy Hx Hy.
    destruct (hasCube_elem w _ Hw Hxy) as (c & Hc & Hp).
    specialize (H c (proj1 (list_elem_of_In _ _) Hc)). rewrite Hp in H.
    simpl in H.
    rewrite !bool_decide_eq_false_2 in H by (intros [=]; lia).
    simpl in H. by apply andb_true_iff in H.
  - intros H c Hc%list_elem_of_In.
    destruct (bounds_lower c Hc) as [Hx Hy].
    destruct (decide ((p c).1 = minX)) as [->|Hnx].
    { by rewrite bool_decide_eq_true_2. }
    destruct (decide ((p c).2 = minY)) as [->|Hny].
    { rewrite (bool_decide_eq_true_2 (Some minY = Some minY)) by done.
      by rewrite orb_true_r. }
    destruct (H (p c).1 (p c).2) as [-> ->]; [| lia | lia |].
    + rewrite <- surjective_pairing.
      apply list_elem_of_lookup in Hc as [i Hi].
      by eapply (hasCube_cube w Hw).
    + by rewrite orb_true_r.
Qed.

Lemma monotone_row x y :
  isXYMonotone w = true → hasCube w (x, y) = true → minY < y →
  ∀ n : nat, minX ≤ x - Z.of_nat n → hasCube w (x - Z.of_nat n, y) = true.
Proof.
  intros Hm Hxy Hy. induction n as [|n IH]; intros Hn.
  - by rewrite Z.sub_0_r.
  - replace (x - Z.of_nat (Datatypes.S n)) with (x - Z.of_nat n - 1) by lia.
    apply (proj1 isXYMonotone_step Hm (x - Z.of_nat n) y); [|lia|done].
    apply IH. lia.
Qed.

Lemma monotone_column x y :
  isXYMonotone w = true → hasCube w (x, y) = true → minX < x →
  ∀ n : nat, minY ≤ y - Z.of_nat n → hasCube w (x, y - Z.of_nat n) = true.
Proof.
  intros Hm Hxy Hx. induction n as [|n IH]; intros Hn.
  - by rewrite Z.sub_0_r.
  - replace (y - Z.of_nat (Datatypes.S n)) with (y - Z.of_nat n - 1) by lia.
    apply (proj1 isXYMonotone_step Hm x (y - Z.of_nat n)); [|done|lia].
    apply IH. lia.
Qed.

Lemma monotone_rectangle :
  isXYMonotone w = true ↔
  ∀ x y, hasCube w (x, y) = true → minX < x → minY < y →
  ∀ x' y', minX ≤ x' ≤ x → minY ≤ y' ≤ y → (x', y') ≠ (minX, minY) →
           hasCube w (x', y') = true.
Proof.
  split.
  - intros Hm x y Hxy Hx Hy x' y' Hx' Hy' Hne.
    destruct (decide (y' = minY)) as [->|Hny].
    + assert (minX < x') by (destruct (decide (x' = minX)); [congruence|lia]).
      pose proof (monotone_row x y Hm Hxy Hy (Z.to_nat (x - x'))) as Hr.
      rewrite Z2Nat.id in Hr by lia.
      replace (x - (x - x')) with x' in Hr by lia.
      pose proof (monotone_column x' y Hm (Hr ltac:(lia)) ltac:(lia)
                    (Z.to_nat (y - minY))) as Hc.
      rewrite Z2Nat.id in Hc by lia.
      replace (y - (y - minY)) with minY in Hc by lia. apply Hc. lia.
    + pose proof (monotone_column x y Hm Hxy Hx (Z.to_nat (y - y'))) as Hc.
      rewrite Z2Nat.id in Hc by lia.
      replace (y - (y - y')) with y' in Hc by lia.
      pose proof (monotone_row x y' Hm (Hc ltac:(lia)) ltac:(lia)
                    (Z.to_nat (x - x'))) as Hr.
      rewrite Z2Nat.id in Hr by lia.
      replace (x - (x - x')) with x' in Hr by lia. apply Hr. lia.
  - intros H. apply isXYMonotone_step. intros x y Hxy Hx Hy. split.
    + apply (H x y Hxy Hx Hy); [lia | lia |]. intros [=]. lia.
    + apply (H x y Hxy Hx Hy); [lia | lia |]. intros [=]. lia.
Qed.

End monotone.



(** ** Colours *)

Lemma toInt32_small z : - 2 ^ 31 ≤ z < 2 ^ 31 → toInt32 z = z.
Proof. intros Hz. unfold toInt32. rewrite Z.mod_small; lia. Qed.

Lemma land_shiftl_low a n x :
  0 ≤ n → 0 ≤ x < 2 ^ n → Z.land (Z.shiftl a n) x = 0.
Proof.
  intros Hn Hx. apply Z.bits_inj'. intros i Hi.
  rewrite Z.land_spec, Z.bits_0.
  destruct (decide (i < n)) as [Hlt|Hge].
  - by rewrite Z.shiftl_spec_low.
  - destruct (decide (x = 0)) as [->|Hx0].
    + by rewrite Z.bits_0, andb_false_r.
    + rewrite (Z.bits_above_log2 x i); [by rewrite andb_false_r | lia |].
      assert (Z.log2 x < n) by (apply Z.log2_lt_pow2; lia). lia.
Qed.

Lemma lor_shiftl_low a n x :
  0 ≤ n → 0 ≤ x < 2 ^ n → Z.lor (Z.shiftl a n) x = a * 2 ^ n + x.
Proof.
  intros Hn Hx. pose proof (land_shiftl_low a n x Hn Hx) as Hl.
  rewrite <- Z.lxor_lor by done. rewrite <- Z.add_nocarry_lxor by done.
  by rewrite Z.shiftl_mul_pow2.
Qed.

Lemma equals_eq c other : equals c other = true ↔ c = other.
Proof.
  unfold equals. rewrite !andb_true_iff, !bool_decide_eq_true.
  destruct c, other. simpl. split; [by intros [[-> ->] ->] | by intros [= -> -> ->]].
Qed.

(** X18. For a colour with components between 0 and 255, [toHexColor] is
    the number [r * 65536 + g * 256 + b], below 2^24, from which the three
    components are read back by shifting and masking; so two such colours
    with the same number are the same colour. *)
Theorem toHexColor_bytes (c : Color) :
  0 ≤ r c < 256 → 0 ≤ g c < 256 → 0 ≤ b c < 256 →
  toHexColor c = r c * 65536 + g c * 256 + b c ∧
  0 ≤ toHexColor c < 2 ^ 24 ∧
  Z.shiftr (toHexColor c) 16 = r c ∧
  Z.land (Z.shiftr (toHexColor c) 8) 255 = g c ∧
  Z.land (toHexColor c) 255 = b c ∧
  ∀ c', 0 ≤ r c' < 256 → 0 ≤ g c' < 256 → 0 ≤ b c' < 256 →
        toHexColor c = toHexColor c' → c = c'.
Proof.
  assert (Hhex : ∀ c0, 0 ≤ r c0 < 256 → 0 ≤ g c0 < 256 → 0 ≤ b c0 < 256 →
            toHexColor c0 = r c0 * 65536 + g c0 * 256 + b c0).
  { intros [cr cg cb] Hr Hg Hb. cbn [r g b] in *.
    unfold toHexColor, or32, shl32. cbn [r g b].
    change (Z.land 16 31) with 16. change (Z.land 8 31) with 8.
    rewrite (toInt32_small cr), (toInt32_small cg), (toInt32_small cb) by lia.
    rewrite !(toInt32_small (Z.shiftl cr 16))
      by (rewrite Z.shiftl_mul_pow2; lia).
    rewrite !(toInt32_small (Z.shiftl cg 8))
      by (rewrite Z.shiftl_mul_pow2; lia).
    rewrite (lor_shiftl_low cr 16 (Z.shiftl cg 8))
      by (rewrite ?Z.shiftl_mul_pow2; lia).
    rewrite (Z.shiftl_mul_pow2 cg 8) by lia.
    rewrite !(toInt32_small (cr * 2 ^ 16 + cg * 2 ^ 8)) by lia.
    replace (cr * 2 ^ 16 + cg * 2 ^ 8) with (Z.shiftl (cr * 2 ^ 8 + cg) 8)
      by (rewrite Z.shiftl_mul_pow2; lia).
    rewrite (lor_shiftl_low (cr * 2 ^ 8 + cg) 8 cb) by lia.
    rewrite toInt32_small by lia. lia. }
  intros Hr Hg Hb. rewrite (Hhex c Hr Hg Hb).
  split; [done|]. split; [lia|].
  assert (H16 : Z.shiftr (r c * 65536 + g c * 256 + b c) 16 = r c).
  { rewrite Z.shiftr_div_pow2 by lia. symmetry.
    apply (Z.div_unique _ _ _ (g c * 256 + b c)); lia. }
  assert (H8 : Z.land (Z.shiftr (r c * 65536 + g c * 256 + b c) 8) 255 = g c).
  { rewrite Z.shiftr_div_pow2 by lia.
    change 255 with (Z.ones 8). rewrite Z.land_ones by lia.
    replace ((r c * 65536 + g c * 256 + b c) / 2 ^ 8) with (r c * 256 + g c).
    - symmetry. apply (Z.mod_unique _ _ (r c)); lia.
    - apply (Z.div_unique _ _ _ (b c)); lia. }
  assert (H0 : Z.land (r c * 65536 + g c * 256 + b c) 255 = b c).
  { change 255 with (Z.ones 8). rewrite Z.land_ones by lia.
    symmetry. apply (Z.mod_unique _ _ (r c * 256 + g c)); lia. }
  split_and!; [done..|].
  intros c' Hr' Hg' Hb' Heq. rewrite (Hhex c' Hr' Hg' Hb') in Heq.
  destruct c as [cr cg cb], c' as [cr' cg' cb']. simpl in *.
  assert (cr = cr') by lia. assert (cg = cg') by lia. assert (cb = cb') by lia.
  by subst.
Qed.

Lemma toHexColor_bytes_witness :
  toHexColor BLUE = r BLUE * 65536 + g BLUE * 256 + b BLUE ∧
  0 ≤ toHexColor BLUE < 2 ^ 24 ∧
  Z.shiftr (toHexColor BLUE) 16 = r BLUE ∧
  Z.land (Z.shiftr (toHexColor BLUE) 8) 255 = g BLUE ∧
  Z.land (toHexColor BLUE) 255 = b BLUE ∧
  ∀ c', 0 ≤ r c' < 256 → 0 ≤ g c' < 256 → 0 ≤ b c' < 256 →
        toHexColor BLUE = toHexColor c' → BLUE = c'.
Proof.
  apply (toHexColor_bytes BLUE); simpl; lia.
Defined.

(** X19. [nextColor] changes the colour of a cube only, and always to a
    colour of the palette; on a cube with a palette colour, seven steps
    come back to the cube and no fewer do: the palette is one cycle. A
    cube with any other colour becomes gray. *)
Theorem nextColor_cycle (cube : Cube) :
  core (nextColor cube) = (p cube, resetPosition cube, color (nextColor cube)) ∧
  marks (nextColor cube) = marks cube ∧
  color (nextColor cube) ∈ palette ∧
  (color cube ∉ palette → color (nextColor cube) = GRAY) ∧
  (color cube ∈ palette →
   Nat.iter 7 nextColor cube = cube ∧
   ∀ k, (0 < k < 7)%nat → color (Nat.iter k nextColor cube) ≠ color cube).
Proof.
  assert (Hset : ∀ c, core (setColor c cube) = (p cube, resetPosition cube, c)
                      ∧ marks (setColor c cube) = marks cube) by done.
  split_and!.
  - unfold nextColor. repeat case_match; apply Hset.
  - unfold nextColor. repeat case_match; apply Hset.
  - unfold nextColor, palette. repeat case_match; simpl; set_solver.
  - intros Hn. unfold nextColor.
    repeat (case_match;
            [exfalso; apply Hn;
             match goal with H : equals _ _ = true |- _ =>
               apply equals_eq in H; rewrite H end;
             unfold palette; set_solver|]).
    done.
  - intros Hin. destruct cube as [q rq col st ch ob]. simpl in Hin.
    unfold palette in Hin.
    repeat (apply elem_of_cons in Hin as [->|Hin];
            [split; [vm_compute; reflexivity|];
             intros k Hk;
             do 7 (destruct k as [|k]; [try lia; vm_compute; discriminate|]);
             lia|]).
    by apply elem_of_nil in Hin.
Qed.

Lemma nextColor_cycle_witness :
  Nat.iter 7 nextColor (newCube (0, 0) RED) = newCube (0, 0) RED ∧
  ∀ k, (0 < k < 7)%nat →
       color (Nat.iter k nextColor (newCube (0%Z, 0%Z) RED))
       ≠ color (newCube (0%Z, 0%Z) RED).
Proof.
  apply (proj2 (proj2 (proj2 (proj2 (nextColor_cycle (newCube (0, 0) RED)))))).
  apply (bool_decide_unpack _). vm_compute. reflexivity.
Defined.

(** ** Stepping an algorithm *)

Lemma stepLoopUnmarked_S {A} fuel (next : Generator A) s a step :
  stepLoopUnmarked (Datatypes.S fuel) next s a step
  = ('(s', a') ← nextStepUnmarked next s a;
     match currentMove s' with
     | None => Ok (s', step + 1 - 1)
     | Some _ => stepLoopUnmarked fuel next s' a' (step + 1)
     end).
Proof. done. Qed.

Lemma stepLoop_S {A} fuel (next : Generator A) s a step :
  stepLoop (Datatypes.S fuel) next s a step
  = ('(s', a') ← nextStep next s a;
     match currentMove s' with
     | None => Ok (s', step + 1 - 1)
     | Some _ => stepLoop fuel next s' a' (step + 1)
     end).
Proof. done. Qed.

Section list_generator.
Context {A : Type} (next : Generator A) (f : list Move → A).
Context (Hnext : ∀ ms w,
  next (f ms) w = '(w', output, rest) ← yieldAll ms w; Ok (w', output, f rest)).

Lemma stepLoopUnmarked_list ms : ∀ w cm step,
  stepLoopUnmarked (Datatypes.S (length ms)) next (mkStepper w cm) (f ms) step
  = (w1 ← match cm with
          | Some m => executeUnmarked w m
          | None => Ok w
          end;
     w' ← runMoves w1 ms;
     Ok (mkStepper w' None, step + Z.of_nat (length ms))).
Proof.
  induction ms as [|m ms IH]; intros w cm step.
  - rewrite stepLoopUnmarked_S. unfold nextStepUnmarked.
    cbn [currentMove sworld].
    destruct (match cm with Some m => _ | None => _ end) as [w1| |];
      [|done..].
    rewrite !bind_Ok, Hnext. simpl. do 2 f_equal. lia.
  - change (length (m :: ms)) with (Datatypes.S (length ms)).
    rewrite stepLoopUnmarked_S. unfold nextStepUnmarked.
    cbn [currentMove sworld].
    destruct (match cm with Some m => _ | None => _ end) as [w1| |];
      [|done..].
    rewrite !bind_Ok, Hnext. cbn [yieldAll runMoves]. rewrite !bind_Ok.
    destruct (isValid w1 m) as [[|]| |]; [|done..].
    rewrite !bind_Ok. cbn [negb]. rewrite bind_Ok. cbn [currentMove].
    rewrite IH. destruct (executeUnmarked w1 m) as [w2| |]; [|done..].
    rewrite !bind_Ok. destruct (runMoves w2 ms); [|done..].
    rewrite !bind_Ok. do 2 f_equal. lia.
Qed.

Lemma stepLoop_list ms : ∀ w cm step,
  stepLoop (Datatypes.S (length ms)) next (mkStepper w cm) (f ms) step
  = (w1 ← match cm with
          | Some m => execute w m
          | None => markComponents w
          end;
     w' ← runMovesMarked w1 ms;
     Ok (mkStepper w' None, step + Z.of_nat (length ms))).
Proof.
  induction ms as [|m ms IH]; intros w cm step.
  - rewrite stepLoop_S. unfold nextStep.
    cbn [currentMove sworld].
    destruct (match cm with Some m => _ | None => _ end) as [w1| |];
      [|done..].
    rewrite !bind_Ok, Hnext. simpl. do 2 f_equal. lia.
  - change (length (m :: ms)) with (Datatypes.S (length ms)).
    rewrite stepLoop_S. unfold nextStep.
    cbn [currentMove sworld].
    destruct (match cm with Some m => _ | None => _ end) as [w1| |];
      [|done..].
    rewrite !bind_Ok, Hnext. cbn [yieldAll runMovesMarked]. rewrite !bind_Ok.
    destruct (isValid w1 m) as [[|]| |]; [|done..].
    rewrite !bind_Ok. cbn [negb]. rewrite bind_Ok. cbn [currentMove].
    rewrite IH. unfold execute.
    destruct (moveCube w1 (position m) (targetPosition m)) as [w2| |];
      [|done..].
    rewrite !bind_Ok. destruct (runMovesMarked w2 ms); [|done..].
    rewrite !bind_Ok. do 2 f_equal. lia.
Qed.

End list_generator.

Lemma yieldAll_self ms w :
  yieldAll ms w = '(w', output, rest) ← yieldAll ms w; Ok (w', output, rest).
Proof. by destruct ms. Qed.

(** X20. The run of [nextStepUnmarked] over a generator that yields the
    moves of a list commits them one after the other: each move is checked
    with [isValid] in the world the moves before it have produced, then
    executed, and the run ends after one call more than there are moves,
    with no current move and the number of moves as its count; an invalid
    move ends it with [InvalidMove] in the world reached so far. *)
Theorem stepLoopUnmarked_runMoves (w : World) (ms : list Move) :
  stepLoopUnmarked (Datatypes.S (length ms)) yieldAll (mkStepper w None) ms 0
  = (w' ← runMoves w ms; Ok (mkStepper w' None, Z.of_nat (length ms))).
Proof.
  pose proof (stepLoopUnmarked_list yieldAll (λ l, l) yieldAll_self
                ms w None 0) as H.
  cbv beta in H. rewrite H. by rewrite bind_Ok.
Qed.

(** X21. The run of [nextStep] over such a generator marks the components
    first and then commits the moves in the same way, each with [execute],
    which marks the components again. *)
Theorem stepLoop_runMovesMarked (w : World) (ms : list Move) :
  stepLoop (Datatypes.S (length ms)) yieldAll (mkStepper w None) ms 0
  = (w0 ← markComponents w;
     w' ← runMovesMarked w0 ms;
     Ok (mkStepper w' None, Z.of_nat (length ms))).
Proof.
  pose proof (stepLoop_list yieldAll (λ l, l) yieldAll_self ms w None 0) as H.
  cbv beta in H. by rewrite H.
Qed.

(** ** The planner and the cube list *)

Lemma shortestMovePath_outcomes w from to :
  consistent w → hasCube w from = true →
  ∃ cube id w2,
    getCube w from = Some cube ∧ getCubeId w from = Some id ∧
    p cube = from ∧
    overlay (scaffold w from) from w2 ∧ consistent (scaffold w from) ∧
    cubes w2 = delete id (cubes w)
               ++ [setComponentStatus (componentStatus cube)
                     (newCube from (color cube))] ∧
    ((shortestMovePath w from to = Throw NoMovePath w2 ∧
      ∀ ms, ¬ movePath (scaffold w from) ms from to) ∨
     (∃ path, shortestMovePath w from to = Ok (w2, path) ∧
              movePath (scaffold w from) path from to ∧
              ∀ ms, movePath (scaffold w from) ms from to →
                    (length path ≤ length ms)%nat)).
Proof.
  intros Hw Hfrom.
  destruct (removeCubeUnmarked_spec w from Hw Hfrom)
    as (w1 & id & cube & Hrm & Hw1 & Hid & Hcube & Hcs & Hocc).
  pose proof (getCubeId_Some w Hw _ _ Hid) as (c' & Hc' & Hp).
  assert (c' = cube) as -> by congruence.
  assert (Hfree : hasCube w1 (p cube) = false).
  { apply not_true_is_false. rewrite Hocc, Hp. by intros [_ ?]. }
  destruct (restoreCube_spec w1 cube Hw1 Hfree) as (w2 & Hrs & Ho & Hcs2).
  rewrite Hp in Ho, Hcs2.
  assert (Hsc : scaffold w from = w1) by (unfold scaffold; by rewrite Hrm).
  assert (Hget : getCube w from = Some cube).
  { unfold getCube. by rewrite Hid. }
  exists cube, id, w2. rewrite Hsc. split_and!; try done.
  { by rewrite Hcs2, Hcs. }
  destruct (movePathLoop_run w1 from to Hw1)
    as (seen & dep & Hloop & Hinv & Hall).
  pose proof Hinv as (V1 & _ & V3 & V9).
  destruct (seen !! to) as [mv|] eqn:Hto.
  - right. destruct (proj1 (V1 to)) as [d Hd]; [eauto|].
    destruct (reconstructPath_spec w1 w1 from seen dep Hinv d to Hd)
      as (path & Hlen & Hpath & Hrec).
    exists path. split_and!; try done.
    + unfold shortestMovePath.
      rewrite Hget, Hrm, bind_Ok, Hloop, bind_Ok, Hto.
      rewrite bool_decide_eq_true_2 by eauto. cbn [negb].
      rewrite (Hrec (Datatypes.S (size seen)) [])
        by (specialize (V9 _ _ Hd); lia).
      rewrite bind_Ok, Hrs, bind_Ok. by rewrite app_nil_r.
    + intros ms Hms. rewrite Hlen. by eapply V3.
  - left. split.
    + unfold shortestMovePath.
      rewrite Hget, Hrm, bind_Ok, Hloop, bind_Ok, Hto.
      rewrite bool_decide_eq_false_2 by by intros [? ?]. cbn [negb].
      by rewrite Hrs.
    + intros ms Hms. destruct (Hall eq_refl ms to Hms) as [? ?]. congruence.
Qed.

(** X22. [shortestMovePath] always ends, with a path or with [NoMovePath],
    and in both cases it has taken the mover out of the list of cubes and
    put it back at the end as a new cube: the mover's identifier becomes
    the last one, the cubes behind it move up by one, its reset cell
    becomes the cell it stands on, and its chunk identifier and boundary
    flag are those of a new cube; its colour and component status are
    kept. With no cube on the source cell it throws and leaves the world
    as it was. *)
Theorem shortestMovePath_renumbers (w : World) (from to : Position) :
  consistent w →
  (hasCube w from = false → shortestMovePath w from to = Throw EmptyCell w) ∧
  (hasCube w from = true →
   ∃ cube id w2,
     getCube w from = Some cube ∧ getCubeId w from = Some id ∧
     (shortestMovePath w from to = Throw NoMovePath w2 ∨
      ∃ path, shortestMovePath w from to = Ok (w2, path)) ∧
     consistent w2 ∧
     cubes w2 = delete id (cubes w)
                ++ [mkCube from from (color cube) (componentStatus cube)
                      (-1) false] ∧
     getCubeId w2 from = Some (length (cubes w) - 1)%nat).
Proof.
  intros Hw. split.
  - intros Hfrom. unfold shortestMovePath.
    by rewrite (hasCube_getCube_None w from Hfrom).
  - intros Hfrom.
    destruct (shortestMovePath_outcomes w from to Hw Hfrom)
      as (cube & id & w2 & Hget & Hid & Hp & Ho & Hw1 & Hcs & Hout).
    pose proof Ho as (Hw2 & _ & _).
    exists cube, id, w2. split_and!; try done.
    + destruct Hout as [[? _]|(path & ? & _)]; eauto.
    + rewrite <- (getCubeId_cube w2 Hw2 (length (cubes w) - 1)
                    (setComponentStatus (componentStatus cube)
                       (newCube from (color cube)))); [done|].
      pose proof (getCubeId_lt w Hw _ _ Hid) as Hlt.
      assert (Hlen : length (delete id (cubes w))
                     = (length (cubes w) - 1)%nat).
      { apply length_delete. by apply lookup_lt_is_Some. }
      rewrite Hcs, lookup_app_r by lia. rewrite Hlen.
      by replace (length (cubes w) - 1 - (length (cubes w) - 1))%nat
        with 0%nat by lia.
Qed.

Lemma shortestMovePath_renumbers_witness :
  ∃ cube id w2,
    getCube (loaded [(0, 0); (1, 0); (0, 1); (1, 1)]) (1, 0) = Some cube ∧
    getCubeId (loaded [(0, 0); (1, 0); (0, 1); (1, 1)]) (1, 0) = Some id ∧
    (shortestMovePath (loaded [(0, 0); (1, 0); (0, 1); (1, 1)]) (1, 0) (2, 1)
       = Throw NoMovePath w2 ∨
     ∃ path,
       shortestMovePath (loaded [(0, 0); (1, 0); (0, 1); (1, 1)]) (1, 0) (2, 1)
       = Ok (w2, path)) ∧
    consistent w2 ∧
    cubes w2 = delete id (cubes (loaded [(0, 0); (1, 0); (0, 1); (1, 1)]))
               ++ [mkCube (1, 0) (1, 0) (color cube) (componentStatus cube)
                     (-1) false] ∧
    getCubeId w2 (1, 0)
      = Some (length (cubes (loaded [(0, 0); (1, 0); (0, 1); (1, 1)]%Z)) - 1)%nat.
Proof.
  apply (proj2 (shortestMovePath_renumbers
                  (loaded [(0, 0); (1, 0); (0, 1); (1, 1)]) (1, 0) (2, 1)
                  ltac:(apply consistentb_sound; vm_compute; reflexivity))).
  vm_compute. reflexivity.
Defined.

(** ** The planner under the stepper *)

Lemma shortestMovePathGen_rest from to ms w :
  shortestMovePathGen from to (Some ms) w
  = '(w', output, rest) ← yieldAll ms w; Ok (w', output, Some rest).
Proof. done. Qed.



(** ** The downmost-leftmost cube and the outside walk *)

(** X24. [downmostLeftmost] is [null] for a world without cubes; otherwise
    it is the cube of the lowest row that lies leftmost in that row, the
    only such cube, and the cells below it and left of it are empty. *)
Theorem downmostLeftmost_least (w : World) :
  consistent w →
  (cubes w = [] → downmostLeftmost w = None) ∧
  (cubes w ≠ [] →
   ∃ start,
     downmostLeftmost w = Some start ∧ getCube w (p start) = Some start ∧
     (∀ c, c ∈ cubes w →
           (p start).2 < (p c).2 ∨
           ((p start).2 = (p c).2 ∧ (p start).1 < (p c).1) ∨ c = start) ∧
     hasCube w ((p start).1, (p start).2 - 1) = false ∧
     hasCube w ((p start).1 - 1, (p start).2) = false).
Proof.
  intros Hw. split.
  { intros Hnil. unfold downmostLeftmost. by rewrite Hnil. }
  intros Hne.
  destruct (downmostLeftmost_spec w Hw Hne) as (start & Hs & Hin & Hmin).
  destruct (downmostLeftmost_corner w start Hw Hne Hs) as (Hget & HW & HS).
  exists start. split_and!; [done..| | |].
  - intros c Hc. destruct (Hmin c Hc) as [H1 H2].
    destruct (decide ((p start).2 = (p c).2)) as [Hy|Hy]; [|left; lia].
    destruct (decide ((p start).1 = (p c).1)) as [Hx|Hx].
    + right. right.
      apply list_elem_of_lookup in Hc as [i Hi], Hin as [j Hj].
      assert (i = j).
      { eapply (cube_inj w Hw); [done..|].
        destruct (p c), (p start). simpl in *. congruence. }
      congruence.
    + right. left. split; [done|]. specialize (H2 (eq_sym Hy)). lia.
  - unfold hasNeighbors, shift in HS. simpl in HS.
    by rewrite Z.add_0_r in HS.
  - unfold hasNeighbors, shift in HW. simpl in HW.
    by rewrite Z.add_0_r in HW.
Qed.

Lemma downmostLeftmost_least_witness :
  ∃ start,
    downmostLeftmost (worldOfCells [(1, 1); (1, 0); (0, 1)]) = Some start ∧
    getCube (worldOfCells [(1, 1); (1, 0); (0, 1)]) (p start) = Some start ∧
    (∀ c, c ∈ cubes (worldOfCells [(1, 1); (1, 0); (0, 1)]) →
          (p start).2 < (p c).2 ∨
          ((p start).2 = (p c).2 ∧ (p start).1 < (p c).1) ∨ c = start) ∧
    hasCube (worldOfCells [(1, 1); (1, 0); (0, 1)])
      ((p start).1, (p start).2 - 1) = false ∧
    hasCube (worldOfCells [(1, 1); (1, 0); (0, 1)])
      ((p start).1 - 1, (p start).2) = false.
Proof.
  apply (proj2 (downmostLeftmost_least (worldOfCells [(1, 1); (1, 0); (0, 1)])
                  ltac:(apply consistentb_sound; vm_compute; reflexivity))).
  vm_compute. discriminate.
Defined.

(** X25. In a world whose cubes stand on safe-integer cells, the list of
    [outsideCubes] is empty for a world without cubes and holds the one
    cube of a world with one cube once. It has at most [4 * n + 1] entries
    for [n] cubes, each entry is the cube of the world on its cell, and
    each entry lies orthogonally next to the entry before it. *)
Theorem outsideCubes_steps (w : World) :
  consistent w → safeCoordinates 0 w →
  ∃ outside,
    outsideCubes w = Ok outside ∧
    (cubes w = [] → outside = []) ∧
    (∀ c, cubes w = [c] → outside = [c]) ∧
    (length outside ≤ 4 * length (cubes w) + 1)%nat ∧
    (∀ c, c ∈ outside → getCube w (p c) = Some c ∧ c ∈ cubes w) ∧
    (∀ i c c', outside !! i = Some c → outside !! Datatypes.S i = Some c' →
               adjacent (p c) (p c')).
Proof.
  intros Hw _. destruct (decide (cubes w = [])) as [Hnil|Hne].
  { exists []. unfold outsideCubes, outsideWalk. rewrite Hnil. simpl.
    split_and!; try done.
    - lia.
    - by intros c ?%elem_of_nil. }
  destruct (outsideWalk_spec w Hw Hne)
    as (outside & edges & start & Hwalk & Hstart & Hnd & Hvalid & Hchain
        & Hmap & Hcubes & Hgs & Hends).
  assert (Hlen : length outside = Datatypes.S (length edges)).
  { apply (f_equal length) in Hmap.
    rewrite length_map, length_app, length_map in Hmap. simpl in Hmap. lia. }
  exists outside. split_and!.
  - unfold outsideCubes. by rewrite Hwalk.
  - done.
  - intros c Hc.
    assert (Hstartc : start = c).
    { destruct (downmostLeftmost_spec w Hw Hne) as (s & Hs & Hin & _).
      rewrite Hstart in Hs. injection Hs as <-. rewrite Hc in Hin.
      by apply list_elem_of_singleton in Hin. }
    subst start.
    assert (Hedges : edges = []).
    { destruct edges as [|e edges]; [done|]. exfalso.
      apply Forall_cons in Hvalid as [(Hcard & Hsrc & Htgt) _].
      apply (hasCube_elem w _ Hw) in Hsrc as (c1 & Hc1 & Hp1).
      apply (hasCube_elem w _ Hw) in Htgt as (c2 & Hc2 & Hp2).
      rewrite Hc in Hc1, Hc2.
      apply list_elem_of_singleton in Hc1, Hc2. subst c1 c2.
      rewrite Hp1 in Hp2. destruct e as [[x y] d]. simpl in *.
      destruct d; simpl in *; try done; injection Hp2; lia. }
    subst edges. simpl in Hmap.
    destruct outside as [|c0 [|c1 outside]]; simpl in *; try done.
    apply Forall_cons in Hcubes as [Hc0 _]. injection Hmap as Hp0.
    rewrite Hp0, Hgs in Hc0. by injection Hc0 as <-.
  - rewrite Hlen. pose proof (validEdges_bound w Hw edges Hnd Hvalid). lia.
  - intros c Hc. rewrite Forall_forall in Hcubes. split; [by apply Hcubes|].
    specialize (Hcubes c Hc). unfold getCube in Hcubes.
    destruct (getCubeId w (p c)); [|done]. by eapply list_elem_of_lookup_2.
  - intros i c c' Hi Hi'.
    assert (Hei : is_Some (edges !! i)).
    { apply lookup_lt_is_Some. apply lookup_lt_Some in Hi'. lia. }
    destruct Hei as [e He].
    assert (Hpi : p c = e.1).
    { pose proof (map_eq_lookup p _ _ i (eq_refl (map p outside))) as _.
      assert (Hl : map p outside !! i = Some e.1).
      { rewrite Hmap, lookup_app_l by (rewrite length_map; by eapply lookup_lt_Some).
        change (map fst edges) with (fst <$> edges).
        by rewrite list_lookup_fmap, He. }
      change (map p outside) with (p <$> outside) in Hl.
      rewrite list_lookup_fmap, Hi in Hl. by injection Hl. }
    assert (Hpi' : p c' = stepLetter e.1 e.2).
    { assert (Hl : map p outside !! Datatypes.S i = Some (p c')).
      { change (map p outside) with (p <$> outside).
        by rewrite list_lookup_fmap, Hi'. }
      rewrite Hmap in Hl.
      destruct (edges !! Datatypes.S i) as [e'|] eqn:He'.
      - rewrite lookup_app_l in Hl
          by (rewrite length_map; by eapply lookup_lt_Some).
        change (map fst edges) with (fst <$> edges) in Hl.
        rewrite list_lookup_fmap, He' in Hl. injection Hl as Hl.
        pose proof (Hchain i e e' He He') as Hnext.
        apply nextEdge_fst in Hnext. congruence.
      - apply lookup_ge_None in He'.
        assert (Datatypes.S i = length edges).
        { apply lookup_lt_Some in He. lia. }
        rewrite lookup_app_r in Hl by (rewrite length_map; lia).
        rewrite length_map in Hl.
        replace (Datatypes.S i - length edges)%nat with 0%nat in Hl by lia.
        simpl in Hl. injection Hl as Hl.
        destruct Hends as [->|(e1 & el & Hh & He1 & Hl' & Hnext)]; [done|].
        assert (el = e).
        { rewrite last_lookup in Hl'.
          replace (pred (length edges)) with i in Hl' by lia. congruence. }
        subst el. apply nextEdge_fst in Hnext. congruence. }
    rewrite Forall_forall in Hvalid.
    destruct (Hvalid e) as (Hcard & _); [by eapply list_elem_of_lookup_2|].
    unfold adjacent, neighborCells. rewrite Hpi, Hpi'.
    destruct e as [[x y] d]. simpl in *.
    destruct d; simpl in *; try done; set_solver.
Qed.

Lemma outsideCubes_steps_witness :
  ∃ outside,
    outsideCubes (worldOfCells [(0, 0); (1, 0)]) = Ok outside ∧
    (cubes (worldOfCells [(0, 0); (1, 0)]) = [] → outside = []) ∧
    (∀ c, cubes (worldOfCells [(0, 0); (1, 0)]) = [c] → outside = [c]) ∧
    (length outside ≤ 4 * length (cubes (worldOfCells [(0, 0); (1, 0)]%Z)) + 1)%nat ∧
    (∀ c, c ∈ outside →
          getCube (worldOfCells [(0, 0); (1, 0)]) (p c) = Some c ∧
          c ∈ cubes (worldOfCells [(0, 0); (1, 0)])) ∧
    (∀ i c c', outside !! i = Some c → outside !! Datatypes.S i = Some c' →
               adjacent (p c) (p c')).
Proof.
  apply (outsideCubes_steps (worldOfCells [(0, 0); (1, 0)])).
  - apply consistentb_sound. vm_compute. reflexivity.
  - apply safeCoordinatesb_sound. vm_compute. reflexivity.
Defined.

(** ** What the marking writes *)

Lemma getZ_ge (l : list Z) i : Forall (λ v, -1 ≤ v) l → -1 ≤ getZ l i.
Proof.
  intros Hl. unfold getZ. destruct (l !! i) as [v|] eqn:Hv; simpl; [|lia].
  rewrite Forall_forall in Hl. apply Hl. by eapply list_elem_of_lookup_2.
Qed.

Lemma componentValue_insert l i v :
  Forall componentValue l → componentValue v →
  Forall componentValue (<[i := v]> l).
Proof. intros. by apply Forall_insert. Qed.

Lemma setIfUnset_ok i l :
  Forall componentValue l →
  Forall componentValue (setIfUnset i 1 l) ∧
  length (setIfUnset i 1 l) = length l.
Proof.
  intros Hl. unfold setIfUnset. case_bool_decide; [|done]. split.
  - apply componentValue_insert; [done|]. right. by left.
  - by rewrite length_insert.
Qed.

Lemma popChunk_ok stack : ∀ cubeId components chunkIds chunksSeen,
  Forall componentValue components → Forall (λ v, -1 ≤ v) chunkIds →
  0 ≤ chunksSeen →
  let r := popChunk stack cubeId components chunkIds chunksSeen in
  Forall componentValue r.1.2 ∧ Forall (λ v, -1 ≤ v) r.2 ∧
  length r.1.2 = length components ∧ length r.2 = length chunkIds.
Proof.
  induction stack as [|cId stack IH]; intros cubeId components chunkIds
    chunksSeen Hc Hk Hs; [done|].
  destruct stack as [|c2 rest]; [done|].
  cbn [popChunk]. case_bool_decide; [|done].
  destruct (IH cubeId
              (<[cId := if bool_decide (getZ components cId ≠ -1)
                        then 3 else 2]> components)
              (<[cId := chunksSeen]> chunkIds) chunksSeen)
    as (H1 & H2 & H3 & H4).
  - apply componentValue_insert; [done|]. unfold componentValue.
    case_bool_decide; auto.
  - apply Forall_insert; [done|lia].
  - done.
  - rewrite !length_insert in H3, H4. done.
Qed.

Lemma componentStep_ok w n s cube s' :
  walkOk n s → componentStep w s cube = Ok s' → walkOk n s'.
Proof.
  intros (Hl1 & Hl2 & Hc & Hk & Hs). unfold componentStep.
  destruct (getCubeId w (p cube)) as [cubeId|]; [|done].
  destruct (negb (isSeen (wseen s) cubeId)).
  { intros [= <-]. done. }
  assert (Hchunk : ∀ s1,
    (let '(stack, components, chunkIds) :=
       popChunk (wstack s) cubeId (wcomponents s) (wchunkIds s)
         (wchunksSeen s) in
     match stack with
     | cId :: _ =>
         mkWalk
           (<[cId := if bool_decide (1 < length stack)%nat then 3 else 2]>
              components)
           (<[cId := wchunksSeen s]> chunkIds)
           (wseen s) stack (wchunksSeen s + 1)
     | [] => mkWalk components chunkIds (wseen s) stack (wchunksSeen s + 1)
     end) = s1 → walkOk n s1).
  { intros s1.
    pose proof (popChunk_ok (wstack s) cubeId (wcomponents s) (wchunkIds s)
                  (wchunksSeen s) Hc Hk Hs) as Hpop.
    destruct (popChunk _ _ _ _ _) as [[stack components] chunkIds].
    simpl in Hpop. destruct Hpop as (H1 & H2 & H3 & H4).
    destruct stack as [|cId stack]; intros <-; unfold walkOk; simpl.
    - split_and!; try done; try congruence. lia.
    - rewrite !length_insert. split_and!; try congruence.
      + apply componentValue_insert; [done|]. unfold componentValue.
        case_bool_decide; auto.
      + apply Forall_insert; [done|lia].
      + lia. }
  destruct (wstack s) as [|cId [|second rest]] eqn:Hst.
  - intros [= <-]. by apply Hchunk.
  - intros [= <-]. by apply Hchunk.
  - case_bool_decide.
    + intros [= <-]. unfold walkOk. simpl.
      destruct (setIfUnset_ok cId (wcomponents s) Hc) as [H1 H2].
      destruct (setIfUnset_ok cubeId _ H1) as [H3 H4].
      split_and!; try done. congruence.
    + intros [= <-]. by apply Hchunk.
Qed.

Lemma looseStep_ok w n acc i acc' :
  length acc.1 = n → length acc.2 = n →
  Forall (λ v, v = 1 ∨ v = 2 ∨ v = 3) acc.1 → Forall (λ v, -1 ≤ v) acc.2 →
  looseStep w acc i = Ok acc' →
  length acc'.1 = n ∧ length acc'.2 = n ∧
  Forall (λ v, v = 1 ∨ v = 2 ∨ v = 3) acc'.1 ∧ Forall (λ v, -1 ≤ v) acc'.2.
Proof.
  destruct acc as [components chunkIds]. simpl. intros Hl1 Hl2 Hc Hk.
  unfold looseStep. destruct (cubes w !! i) as [ci|]; [|done].
  destruct (bool_decide (getZ components i = 1) && _); [|by intros [= <-]].
  destruct (getOneNeighbor w ci) as [nb|]; [|done].
  destruct (getCubeId w (p nb)) as [k|]; [|done].
  case_bool_decide; [|by intros [= <-]].
  intros [= <-]. simpl.
  assert (H2 : Forall (λ v, v = 1 ∨ v = 2 ∨ v = 3) (<[i := 2]> components)).
  { apply Forall_insert; auto. }
  split_and!.
  - case_match; by rewrite ?length_insert.
  - by rewrite length_insert.
  - case_match; [|done]. apply Forall_insert; auto.
  - apply Forall_insert; [done|]. by apply getZ_ge.
Qed.

Lemma foldResult_ok {A B} (f : A → B → Result A) (Inv : A → Prop) l : ∀ a a',
  (∀ a x a', Inv a → f a x = Ok a' → Inv a') →
  Inv a → foldResult f l a = Ok a' → Inv a'.
Proof.
  induction l as [|x l IH]; intros a a' Hf Ha; simpl.
  - by intros [= <-].
  - destruct (f a x) as [a1| |] eqn:Hfa; simpl; [|done..].
    intros H. eapply IH; [done| |done]. by eapply Hf.
Qed.

Lemma findComponents_values w :
  consistent w →
  ∃ components chunkIds,
    findComponents w = Ok (components, chunkIds) ∧
    length components = length (cubes w) ∧
    length chunkIds = length (cubes w) ∧
    Forall (λ v, -1 ≤ v) chunkIds ∧
    (connected4 (occupiedExcept w None) →
     Forall (λ v, v = 1 ∨ v = 2 ∨ v = 3) components) ∧
    (¬ connected4 (occupiedExcept w None) →
     components = replicate (length (cubes w)) (-1) ∧
     chunkIds = replicate (length (cubes w)) (-1)).
Proof.
  intros Hw.
  destruct (findComponents_total w Hw) as ([components chunkIds] & Hf & _).
  exists components, chunkIds. split; [done|].
  assert (Hrep : Forall (λ v, -1 ≤ v) (replicate (length (cubes w)) (-1))).
  { apply Forall_replicate. lia. }
  unfold findComponents in Hf. case_bool_decide as Hn.
  { injection Hf as <- <-. rewrite !length_replicate.
    split_and!; try done. intros _. rewrite Hn. constructor. }
  destruct (isConnected_spec w None Hw) as (c & Hc & Hiff).
  rewrite Hc, bind_Ok in Hf. destruct c; cbn [negb] in Hf.
  2: { injection Hf as <- <-. rewrite !length_replicate.
       split_and!; try done. intros Hcon. apply Hiff in Hcon. done. }
  destruct (outsideCubes w) as [outside| |]; simpl in Hf; [|done..].
  destruct (foldResult (componentStep w) outside _) as [s| |] eqn:Hwalk;
    simpl in Hf; [|done..].
  assert (Hs : walkOk (length (cubes w)) s).
  { eapply (foldResult_ok (componentStep w) (walkOk (length (cubes w))));
      [| |exact Hwalk].
    - intros a x a' Ha Hstep. by eapply componentStep_ok.
    - unfold walkOk. simpl. rewrite !length_replicate. split_and!; try done.
      apply Forall_replicate. by left. }
  destruct Hs as (Hl1 & Hl2 & Hvals & Hk & _).
  destruct outside as [|first outside]; [done|].
  destruct (getCubeId w (p first)) as [originId|]; [|done].
  destruct (setIfUnset_ok originId (wcomponents s) Hvals) as [Hv1 Hlen1].
  assert (Hinit :
    length (map (λ v, if bool_decide (v = -1) then 2 else v)
              (setIfUnset originId 1 (wcomponents s))) = length (cubes w) ∧
    length (wchunkIds s) = length (cubes w) ∧
    Forall (λ v, v = 1 ∨ v = 2 ∨ v = 3)
      (map (λ v, if bool_decide (v = -1) then 2 else v)
         (setIfUnset originId 1 (wcomponents s))) ∧
    Forall (λ v, -1 ≤ v) (wchunkIds s)).
  { split_and!.
    - rewrite length_map. congruence.
    - done.
    - apply Forall_forall. intros v (v0 & -> & Hv0)%list_elem_of_fmap.
      rewrite Forall_forall in Hv1. specialize (Hv1 v0 Hv0).
      case_bool_decide; [auto|]. unfold componentValue in Hv1. naive_solver.
    - done. }
  apply (foldResult_ok (looseStep w)
           (λ acc, length acc.1 = length (cubes w) ∧
                   length acc.2 = length (cubes w) ∧
                   Forall (λ v, v = 1 ∨ v = 2 ∨ v = 3) acc.1 ∧
                   Forall (λ v, -1 ≤ v) acc.2)) in Hf
    as (H1 & H2 & H3 & H4);
    [| intros a x a' (?&?&?&?) Hstep; by eapply looseStep_ok | exact Hinit].
  simpl in H1, H2, H3, H4.
  split_and!; try done. intros Hnc. destruct Hnc. by apply Hiff.
Qed.

Lemma markBoundary_fields w cs c :
  map chunkId (markBoundary w cs c) = map chunkId cs ∧
  length (markBoundary w cs c) = length cs.
Proof.
  unfold markBoundary. destruct (getCubeId w (p c)) as [id|]; [|done].
  split; [|apply length_alter].
  apply list_eq. intros i. rewrite !list_lookup_fmap.
  destruct (decide (i = id)) as [->|Hne].
  - rewrite list_lookup_alter_eq. by destruct (cs !! id).
  - by rewrite list_lookup_alter_ne.
Qed.

Lemma foldl_markBoundary_fields w outside : ∀ cs,
  map chunkId (foldl (markBoundary w) cs outside) = map chunkId cs ∧
  length (foldl (markBoundary w) cs outside) = length cs.
Proof.
  induction outside as [|c outside IH]; intros cs; simpl; [done|].
  destruct (IH (markBoundary w cs c)) as [-> ->]. apply markBoundary_fields.
Qed.

Lemma markBoundary_flag_stays w c cs id :
  onBoundary <$> cs !! id = Some true →
  onBoundary <$> markBoundary w cs c !! id = Some true.
Proof.
  intros H. unfold markBoundary.
  destruct (getCubeId w (p c)) as [id'|]; [|done].
  destruct (decide (id = id')) as [<-|Hne].
  - rewrite list_lookup_alter_eq. by destruct (cs !! id).
  - by rewrite list_lookup_alter_ne.
Qed.

Lemma foldl_markBoundary_flag_stays w outside : ∀ cs id,
  onBoundary <$> cs !! id = Some true →
  onBoundary <$> foldl (markBoundary w) cs outside !! id = Some true.
Proof.
  induction outside as [|c outside IH]; intros cs id H; simpl; [done|].
  by apply IH, markBoundary_flag_stays.
Qed.

Lemma foldl_markBoundary_flag w outside : ∀ cs id c,
  c ∈ outside → getCubeId w (p c) = Some id → is_Some (cs !! id) →
  onBoundary <$> foldl (markBoundary w) cs outside !! id = Some true.
Proof.
  induction outside as [|c0 outside IH]; intros cs id c Hc Hid [x Hx];
    [by apply elem_of_nil in Hc|].
  simpl. apply elem_of_cons in Hc as [<-|Hc].
  - apply foldl_markBoundary_flag_stays. unfold markBoundary. rewrite Hid.
    by rewrite list_lookup_alter_eq, Hx.
  - eapply IH; [done..|]. apply lookup_lt_is_Some.
    rewrite (proj2 (markBoundary_fields w cs c0)).
    by eapply lookup_lt_Some.
Qed.

Lemma statusOf_NONE v s : statusOf v s = NONE ↔ ¬ (v = 1 ∨ v = 2 ∨ v = 3).
Proof.
  unfold statusOf. repeat case_bool_decide; destruct s; split; try done;
    try (intros []; lia); try (intros H'; exfalso; apply H'; lia); lia.
Qed.



(** ** Committed moves keep the configuration connected *)

Lemma valid_move_outcome w m :
  consistent w → isValid w m = Ok true →
  (hasCube w (position m) = false ∧
   executeUnmarked w m = Throw EmptyCell w) ∨
  (∃ w', executeUnmarked w m = Ok w' ∧ consistent w' ∧
         connected4 (occupiedExcept w' None) ∧
         length (cubes w') = length (cubes w)).
Proof.
  intros Hw Hvalid.
  destruct (hasCube w (position m)) eqn:Hsrc.
  2: { left. split; [done|]. unfold executeUnmarked, moveCubeUnmarked.
       by rewrite Hsrc. }
  right.
  destruct (isConnected_spec w (Some (position m)) Hw) as (c & Hc & Hiff).
  rewrite (isValid_eq w m c Hc) in Hvalid. injection Hvalid as Hvalid.
  apply andb_true_iff in Hvalid as [Hv ->].
  assert (Hconn : connected4 (occupiedExcept w (Some (position m))))
    by by apply Hiff.
  destruct (valid_support w m Hv) as (Ht & Hne & x & Hx & Hxne & Hadj).
  unfold executeUnmarked.
  destruct (moveCubeUnmarked_spec w _ _ Hw Hsrc Ht)
    as (w' & id & Hm & Hw' & _ & Hcs & _).
  exists w'. split_and!; [done..| |].
  - destruct (moveCubeUnmarked_hasCube w _ _ w' Hw Hsrc Ht Hm) as [_ Hocc].
    eapply connected4_ext;
      [|apply (connected4_add _ x (targetPosition m) Hconn); [|done]].
    + intros y. unfold occupiedExcept. rewrite Hocc. split.
      * intros [[? ?]| ->]; (split; [|done]); [left | by right].
        split; [done|congruence].
      * intros [[[? ?]|?] _]; [left|by right]. split; [done|congruence].
    + split; [done|congruence].
  - rewrite Hcs. apply length_alter.
Qed.

Lemma isValid_returns w m : consistent w → ∃ v, isValid w m = Ok v.
Proof.
  intros Hw.
  destruct (isConnected_spec w (Some (position m)) Hw) as (c & Hc & _).
  rewrite (isValid_eq w m c Hc). eauto.
Qed.

Lemma markComponents_sound n w :
  sound n w → ∃ w', markComponents w = Ok w' ∧ sound n w'.
Proof.
  intros (Hw & Hc & Hn).
  destruct (markComponents_spec w Hw) as (w' & Hm & Hw' & Hwd & Hcore & _).
  exists w'. split; [done|]. split_and!; [done| |].
  - eapply connected4_ext; [|exact Hc]. intros q. unfold occupiedExcept.
    rewrite (hasCube_iff w' q Hw'), (hasCube_iff w q Hw).
    by rewrite (map_core_p _ _ Hcore).
  - rewrite <- Hn. apply (f_equal length) in Hcore.
    by rewrite !length_map in Hcore.
Qed.

Lemma targetPosition_safe margin m :
  safeCell (margin + 1) (position m) → safeCell margin (targetPosition m).
Proof.
  destruct m as [[x y] d]. unfold safeCell, targetPosition. simpl.
  destruct d; simpl; lia.
Qed.

(** A move shifts one cube by one cell in each direction at most. *)
Lemma executeUnmarked_safe margin w m w' :
  consistent w → safeCoordinates (margin + 1) w →
  executeUnmarked w m = Ok w' → safeCoordinates margin w'.
Proof.
  intros Hw Hsafe. unfold executeUnmarked, moveCubeUnmarked.
  destruct (hasCube w (position m)); [|done]. simpl.
  destruct (hasCube w (targetPosition m)); [done|].
  destruct (getCubeId w (position m)) as [id|] eqn:Hid; [|done].
  intros [= <-]. unfold safeCoordinates in *. simpl.
  destruct (getCubeId_Some w Hw _ _ Hid) as (c & Hc & Hp).
  apply Forall_forall. intros c' [i Hi]%list_elem_of_lookup.
  rewrite Forall_forall in Hsafe.
  destruct (decide (i = id)) as [->|Hne].
  - rewrite list_lookup_alter_eq, Hc in Hi. injection Hi as <-. simpl.
    apply targetPosition_safe. rewrite <- Hp. apply Hsafe.
    by eapply list_elem_of_lookup_2.
  - rewrite list_lookup_alter_ne in Hi by done.
    apply (safeCell_mono (margin + 1)); [lia|]. apply Hsafe.
    by eapply list_elem_of_lookup_2.
Qed.

Lemma markComponents_safe margin w w' :
  markComponents w = Ok w' → safeCoordinates margin w →
  safeCoordinates margin w'.
Proof.
  intros Hm%markComponents_core_any%map_core_p.
  unfold safeCoordinates.
  rewrite <- (Forall_fmap p (safeCell margin) (cubes w)),
          <- (Forall_fmap p (safeCell margin) (cubes w')).
  change (p <$> cubes w') with (map p (cubes w')).
  change (p <$> cubes w) with (map p (cubes w)). by rewrite Hm.
Qed.

(** X27. A run of moves, each checked with [isValid] when it is pulled and
    then executed, keeps the grid store consistent, the number of cubes and
    the 4-connectivity of the configuration, whatever the moves are,
    provided the cubes start as many cells inside the safe integers as
    there are moves; they are then on safe-integer cells throughout. The
    run ends with all moves executed, or at the first move [isValid]
    refuses, or at the first accepted move that starts on a cell without a
    cube ([isValid] does not look at the source cell); in each case the
    world reached is consistent and 4-connected. This holds for moves
    committed with [executeUnmarked] and with [execute]. *)
Theorem runMoves_sound (n : nat) (w : World) (ms : list Move) :
  sound n w → safeCoordinates (Z.of_nat (length ms)) w →
  (∃ w', endsIn (runMoves w ms) w' ∧ sound n w' ∧ safeCoordinates 0 w') ∧
  (∃ w', endsIn (runMovesMarked w ms) w' ∧ sound n w' ∧
         safeCoordinates 0 w').
Proof.
  intros Hs Hsafe. split; revert w Hs Hsafe.
  - induction ms as [|m ms IH]; intros w Hs Hsafe.
    { exists w. split; [by left | done]. }
    assert (Hsafe0 : safeCoordinates 0 w).
    { eapply safeCoordinates_mono; [|exact Hsafe]. lia. }
    pose proof Hs as (Hw & Hc & Hn). cbn [runMoves].
    destruct (isValid_returns w m Hw) as [v Hv]. rewrite Hv, bind_Ok.
    destruct v; cbn [negb].
    2: { exists w. split; [right; by left | done]. }
    destruct (valid_move_outcome w m Hw Hv)
      as [[_ ->]|(w1 & Hex & Hw1 & Hc1 & Hn1)].
    { exists w. split; [right; by right | done]. }
    rewrite Hex, bind_Ok. apply IH.
    + split_and!; [done..|congruence].
    + apply (executeUnmarked_safe _ w m); [done| |done].
      cbn [length] in Hsafe. by rewrite Nat2Z.inj_succ in Hsafe.
  - induction ms as [|m ms IH]; intros w Hs Hsafe.
    { exists w. split; [by left | done]. }
    assert (Hsafe0 : safeCoordinates 0 w).
    { eapply safeCoordinates_mono; [|exact Hsafe]. lia. }
    pose proof Hs as (Hw & Hc & Hn). cbn [runMovesMarked].
    destruct (isValid_returns w m Hw) as [v Hv]. rewrite Hv, bind_Ok.
    destruct v; cbn [negb].
    2: { exists w. split; [right; by left | done]. }
    unfold moveCube.
    destruct (valid_move_outcome w m Hw Hv)
      as [[_ Hex]|(w1 & Hex & Hw1 & Hc1 & Hn1)].
    { unfold executeUnmarked in Hex. rewrite Hex.
      exists w. split; [right; by right | done]. }
    assert (Hsafe1 : safeCoordinates (Z.of_nat (length ms)) w1).
    { apply (executeUnmarked_safe _ w m); [done| |done].
      cbn [length] in Hsafe. by rewrite Nat2Z.inj_succ in Hsafe. }
    unfold executeUnmarked in Hex. rewrite Hex, bind_Ok.
    destruct (markComponents_sound n w1) as (w2 & Hm & Hs2).
    { split_and!; [done..|congruence]. }
    rewrite Hm, bind_Ok. apply IH; [done|].
    by eapply markComponents_safe.
Qed.

Lemma runMoves_sound_witness :
  (∃ w', endsIn (runMoves (worldOfCells [(0, 0); (1, 0); (0, 1)])
                   [mkMove (1, 0) N; mkMove (1, 1) N]) w' ∧
         sound 3 w' ∧ safeCoordinates 0 w') ∧
  (∃ w', endsIn (runMovesMarked (worldOfCells [(0, 0); (1, 0); (0, 1)])
                   [mkMove (1, 0) N; mkMove (1, 1) N]) w' ∧
         sound 3 w' ∧ safeCoordinates 0 w').
Proof.
  apply (runMoves_sound 3 (worldOfCells [(0, 0); (1, 0); (0, 1)])
           [mkMove (1, 0) N; mkMove (1, 1) N]).
  - split_and!.
    + apply consistentb_sound. vm_compute. reflexivity.
    + apply isConnected_true; vm_compute; reflexivity.
    + vm_compute. reflexivity.
  - apply safeCoordinatesb_sound. vm_compute. reflexivity.
Defined.

(** ** The planner under the marking stepper *)

Lemma same_isValid w w' m :
  sameCells w w' → agree eq (isValid w m) (isValid w' m).
Proof.
  intros Hsame. unfold isValid.
  assert (Hl : isValidIgnoreConnectivity w m = isValidIgnoreConnectivity w' m).
  { unfold isValidIgnoreConnectivity.
    rewrite (same_hasCube w w' Hsame).
    destruct (hasCube w' (targetPosition m)); [done|].
    destruct (direction m); simpl;
      by rewrite ?(same_hasNeighbors w w' Hsame). }
  rewrite Hl. destruct (negb (isValidIgnoreConnectivity w' m)); [done|].
  eapply agree_bind; [by apply same_isConnected|].
  intros c ? <-. by destruct c.
Qed.

Lemma same_reindex cs cs' : ∀ m i,
  map p cs = map p cs' → reindex m i cs = reindex m i cs'.
Proof.
  revert cs'. induction cs as [|c cs IH]; intros [|c' cs'] m i H;
    simplify_eq/=; [done|].
  rewrite H. by apply IH.
Qed.

Lemma same_scaffold w w' q :
  sameCells w w' → sameCells (scaffold w q) (scaffold w' q).
Proof.
  intros Hsame. pose proof Hsame as [Hwd Hp].
  unfold scaffold, removeCubeUnmarked.
  rewrite (same_hasCube w w' Hsame), (same_getCubeId w w' Hsame).
  destruct (negb (hasCube w' q)); [done|].
  destruct (getCubeId w' q) as [id|]; [|done].
  assert (Hd : map p (delete id (cubes w)) = map p (delete id (cubes w'))).
  { apply list_eq. intros i.
    change (map p (delete id (cubes w))) with (p <$> delete id (cubes w)).
    change (map p (delete id (cubes w'))) with (p <$> delete id (cubes w')).
    rewrite !list_lookup_fmap, !list_lookup_delete.
    apply (same_lookup w w' Hsame). }
  split; simpl; [|done]. rewrite Hwd. by apply same_reindex.
Qed.

Lemma same_movePath w w' ms : ∀ x y,
  sameCells w w' → movePath w ms x y → movePath w' ms x y.
Proof.
  induction ms as [|m ms IH]; intros x y Hsame; simpl; [done|].
  intros (Hp & Hv & Hrest). split_and!; [done| |by apply IH].
  pose proof (same_isValid w w' m Hsame) as Ha. rewrite Hv in Ha.
  destruct (isValid w' m); simpl in Ha; by subst.
Qed.



(** ** The search of [findCubeStability] finds the cut cubes *)

Lemma stabilityVisit_visitId w rec i acc c :
  stabilityVisit w rec i acc c =
  match getCubeId w c with
  | None => Ok acc
  | Some cid => visitId rec i acc cid
  end.
Proof. destruct acc as [[st cut] cnt]. done. Qed.

Lemma foldResult_visitId w rec i cells : ∀ acc,
  foldResult (stabilityVisit w rec i) cells acc
  = foldResult (visitId rec i) (omap (getCubeId w) cells) acc.
Proof.
  induction cells as [|c cells IH]; intros acc; [done|].
  cbn [foldResult]. rewrite stabilityVisit_visitId. csimpl.
  destruct (getCubeId w c) as [cid|]; csimpl.
  - destruct (visitId rec i acc cid); simpl; [apply IH | done..].
  - apply IH.
Qed.

Lemma findCubeStabilityRecursive_S fuel w i d st :
  findCubeStabilityRecursive (Datatypes.S fuel) w i d st =
  match cubes w !! i with
  | None => Throw TypeError w
  | Some _ =>
      '(st1, cutCube, childCount) ←
        foldResult (visitId (λ j, findCubeStabilityRecursive fuel w j (d + 1)) i)
          (succs w (λ o, o) i) (enter i d st, false, 0%nat);
      Ok (setStable i
            match parentOf st1 i with
            | None => bool_decide (childCount ≤ 1)%nat
            | Some _ => negb cutCube
            end st1)
  end.
Proof.
  cbn [findCubeStabilityRecursive]. unfold succs.
  destruct (cubes w !! i) as [cube|]; [|done].
  rewrite foldResult_visitId. done.
Qed.

(** *** The arrays *)

Lemma getZ_insert l i z j :
  (i < length l)%nat →
  getZ (<[i := z]> l) j = if decide (j = i) then z else getZ l j.
Proof.
  intros Hi. unfold getZ. destruct (decide (j = i)) as [->|Hne].
  - by rewrite list_lookup_insert_eq.
  - by rewrite list_lookup_insert_ne.
Qed.

Lemma parentOf_setParent st c i v :
  (c < length (dparent st))%nat →
  parentOf (setParent c i st) v
  = if decide (v = c) then Some i else parentOf st v.
Proof.
  intros Hc. unfold parentOf, setParent. simpl.
  destruct (decide (v = c)) as [->|Hne].
  - by rewrite list_lookup_insert_eq.
  - by rewrite list_lookup_insert_ne.
Qed.

Lemma seenIn_enter i d st v :
  (i < length (dseen st))%nat →
  seenIn (enter i d st) v ↔ v = i ∨ seenIn st v.
Proof.
  intros Hi. unfold seenIn, enter. simpl. rewrite isSeen_insert. naive_solver.
Qed.

Lemma isSeen_insert_stable l i s j :
  (i < length l)%nat →
  isSeen (<[i := s]> l) j = if decide (j = i) then s else isSeen l j.
Proof.
  intros Hi. unfold isSeen. destruct (decide (j = i)) as [->|Hne].
  - rewrite list_lookup_insert_eq by done. by destruct s.
  - by rewrite list_lookup_insert_ne.
Qed.

Lemma seenIn_dec st v : seenIn st v ∨ ¬ seenIn st v.
Proof. unfold seenIn. destruct (isSeen (dseen st) v); [by left | by right]. Qed.

(** *** The graph of the cubes *)

Section cube_graph.
Context (w : World) (Hw : consistent w).

Lemma edge_cells i j :
  edge w i j ↔
  ∃ ci cj, cubes w !! i = Some ci ∧ cubes w !! j = Some cj ∧
           adjacent (p ci) (p cj).
Proof.
  unfold edge. split.
  - intros (ci & q & Hci & Hq & Hj & _)%(succs_elem w (λ o, o));
      [|by intros ?? ->].
    apply (getCubeId_Some w Hw) in Hj as (cj & Hcj & <-). by exists ci, cj.
  - intros (ci & cj & Hci & Hcj & Hadj). unfold succs. rewrite Hci.
    apply list_elem_of_omap. exists (p cj). split; [done|].
    by apply (getCubeId_cube w Hw).
Qed.

Lemma edge_sym i j : edge w i j → edge w j i.
Proof.
  rewrite !edge_cells. intros (ci & cj & ? & ? & ?%adjacent_sym). eauto.
Qed.

Lemma edge_lt i j : edge w i j → (j < length (cubes w))%nat.
Proof.
  rewrite edge_cells. intros (ci & cj & _ & Hj & _). by eapply lookup_lt_Some.
Qed.

End cube_graph.

(** *** The search tree *)

Lemma anc_refl st x : anc st x x.
Proof. apply rtc_refl. Qed.

Lemma anc_trans st a b c : anc st a b → anc st b c → anc st a c.
Proof. unfold anc. intros Hab Hbc. by etrans. Qed.

Lemma anc_parent st x y a : parentOf st x = Some y → anc st a y → anc st a x.
Proof. intros Hp Ha. by eapply rtc_l. Qed.

Lemma anc_inv st a x :
  anc st a x → a = x ∨ ∃ y, parentOf st x = Some y ∧ anc st a y.
Proof. intros H. apply rtc_inv in H as [->|(y & ? & ?)]; eauto. Qed.

Lemma anc_linear st a b x : anc st a x → anc st b x → anc st a b ∨ anc st b a.
Proof.
  unfold anc. intros Ha. revert b.
  induction Ha as [x|x y a Hxy Hya IH]; intros b Hb.
  - by right.
  - apply rtc_inv in Hb as [<-|(y' & Hxy' & Hyb)].
    + left. by eapply rtc_l.
    + rewrite Hxy in Hxy'. injection Hxy' as <-. by apply IH.
Qed.

Lemma anc_mono st st' a x :
  (∀ y z, parentOf st y = Some z → parentOf st' y = Some z) →
  anc st a x → anc st' a x.
Proof.
  intros Hsub Ha. unfold anc in *.
  induction Ha as [x|x y a Hxy Hya IH]; [apply rtc_refl|].
  eapply rtc_l; [|exact IH]. by apply Hsub.
Qed.

(** A chain that starts in a set closed under [parent] stays in it. *)
Lemma anc_back st st' (P : nat → Prop) a x :
  (∀ y z, P y → parentOf st' y = Some z → parentOf st y = Some z ∧ P z) →
  P x → anc st' a x → anc st a x ∧ P a.
Proof.
  intros Hstep Hx Ha. unfold anc in *.
  induction Ha as [x|x y a Hxy Hya IH]; [split; [apply rtc_refl | done]|].
  destruct (Hstep x y Hx Hxy) as [Hxy' Hy].
  destruct (IH Hy) as [IH1 IH2]. split; [|done]. by eapply rtc_l.
Qed.

Lemma isChain_up st stack : ∀ s a,
  isChain st stack → s ∈ stack → anc st a s → a ∈ stack.
Proof.
  induction stack as [|x rest IH]; intros s a Hc Hs Ha.
  - by apply elem_of_nil in Hs.
  - destruct Hc as [Hx Hc]. apply elem_of_cons in Hs as [->|Hs].
    + apply anc_inv in Ha as [->|(y & Hy & Ha)]; [by left|].
      right. apply (IH y); [done| |done].
      rewrite Hx in Hy. destruct rest; simplify_eq/=. by left.
    + right. by apply (IH s).
Qed.

Lemma isChain_head st stack : ∀ t s,
  isChain st stack → head stack = Some t → s ∈ stack → anc st s t.
Proof.
  induction stack as [|x rest IH]; intros t s Hc Ht Hs; [done|].
  simpl in Ht. injection Ht as ->. destruct Hc as [Hx Hc].
  apply elem_of_cons in Hs as [->|Hs]; [apply anc_refl|].
  destruct rest as [|y rest']; [by apply elem_of_nil in Hs|].
  simpl in Hx. eapply anc_parent; [done|]. by apply IH.
Qed.

Lemma isChain_ext st st' stack :
  (∀ s, s ∈ stack → parentOf st' s = parentOf st s) →
  isChain st stack → isChain st' stack.
Proof.
  induction stack as [|x rest IH]; intros Heq Hc; [done|].
  destruct Hc as [Hx Hc]. split.
  - rewrite Heq; [done | by left].
  - apply IH; [|done]. intros s Hs. apply Heq. by right.
Qed.

Section tree.
Context (w : World) (st : Dfs) (stack : list nat).
Context (Hinv : dfsInv w st stack).

Lemma stack_up s a : s ∈ stack → anc st a s → a ∈ stack.
Proof.
  destruct (inv_stack _ _ _ Hinv) as (_ & _ & Hc). by apply isChain_up.
Qed.

Lemma stack_head t s : head stack = Some t → s ∈ stack → anc st s t.
Proof.
  destruct (inv_stack _ _ _ Hinv) as (_ & _ & Hc). by apply isChain_head.
Qed.

Lemma stack_seen s : s ∈ stack → seenIn st s.
Proof. destruct (inv_stack _ _ _ Hinv) as (_ & Hs & _). apply Hs. Qed.

Lemma parent_seen v u : parentOf st v = Some u → seenIn st v.
Proof.
  intros Hp. destruct (seenIn_dec st v) as [|Hn]; [done|].
  rewrite (inv_unseen _ _ _ Hinv v Hn) in Hp. done.
Qed.

Lemma anc_depth a x : anc st a x → a = x ∨ depthOf st a < depthOf st x.
Proof.
  unfold anc. induction 1 as [x|x y a Hxy Hya IH]; [by left|].
  right. destruct (inv_tree _ _ _ Hinv x y Hxy) as (_ & _ & Hd & _).
  destruct IH as [->|IH]; lia.
Qed.

Lemma anc_depth_le a x : anc st a x → depthOf st a ≤ depthOf st x.
Proof. intros [->|?]%anc_depth; lia. Qed.

Lemma anc_antisym a x : anc st a x → anc st x a → a = x.
Proof.
  intros [->|H1]%anc_depth [H2|H2]%anc_depth; try done. lia.
Qed.

Lemma anc_seen a x : anc st a x → seenIn st x → seenIn st a.
Proof.
  unfold anc. induction 1 as [x|x y a Hxy Hya IH]; [done|].
  intros _. apply IH. by destruct (inv_tree _ _ _ Hinv x y Hxy) as (? & _).
Qed.

Lemma anc_seen_below a x : anc st a x → a ≠ x → seenIn st x.
Proof.
  intros [->|(y & Hy & _)]%anc_inv Hne; [done|]. by eapply parent_seen.
Qed.

Lemma anc_root_eq a : anc st a 0 → a = 0%nat.
Proof.
  intros [->|(y & Hy & _)]%anc_inv; [done|].
  destruct (inv_root _ _ _ Hinv) as [H0 _]. congruence.
Qed.

Lemma depth_nonneg v : seenIn st v → 0 ≤ depthOf st v.
Proof.
  intros Hv. pose proof (inv_reach _ _ _ Hinv v Hv) as Ha.
  assert (H0 : seenIn st 0%nat) by by eapply anc_seen.
  apply anc_depth_le in Ha.
  destruct (inv_root _ _ _ Hinv) as [_ Hd]. rewrite (Hd H0) in Ha. done.
Qed.

(** A proper descendant of [i] lies below one of the children of [i]. *)
Lemma anc_child i x :
  anc st i x → i ≠ x → ∃ c, parentOf st c = Some i ∧ anc st c x.
Proof.
  unfold anc. induction 1 as [x|x y a Hxy Hya IH]; [done|]. intros Hne.
  destruct (decide (a = y)) as [->|Hay].
  - exists x. split; [done | apply rtc_refl].
  - destruct (IH Hay) as (c & Hc & Hcy). exists c. split; [done|].
    by eapply rtc_l.
Qed.

(** Between a cube and one of its descendants only descendants of the
    child on the way lie. *)
Lemma anc_between i c u x :
  parentOf st c = Some i → anc st c x → anc st u x → anc st i u → u ≠ i →
  anc st c u.
Proof.
  intros Hc Hcx Hux Hiu Hne.
  destruct (anc_linear st c u x Hcx Hux) as [|Huc]; [done|].
  apply anc_inv in Huc as [->|(y & Hy & Huy)]; [apply anc_refl|].
  rewrite Hc in Hy. injection Hy as <-.
  by rewrite (anc_antisym _ _ Hiu Huy) in Hne.
Qed.

(** A finished cube has finished descendants only. *)
Lemma anc_finished v x :
  seenIn st v → v ∉ stack → anc st v x → seenIn st x ∧ x ∉ stack.
Proof.
  intros Hv Hns Ha. destruct (decide (v = x)) as [<-|Hne]; [done|].
  split; [by eapply anc_seen_below|].
  intros Hx. apply Hns. by eapply stack_up.
Qed.

End tree.

(** *** The invariant is kept by every step of the search *)

Lemma lowOf_setLow_ne st i z v : v ≠ i → lowOf (setLow i z st) v = lowOf st v.
Proof.
  intros Hne. unfold lowOf, setLow, getZ. simpl.
  by rewrite list_lookup_insert_ne.
Qed.

(** Lowering [low] at a cube whose call is running. *)
Lemma inv_setLow w st stack i z :
  dfsInv w st stack → i ∈ stack → dfsInv w (setLow i z st) stack.
Proof.
  intros Hinv Hi.
  assert (Hne : ∀ v, v ∉ stack → v ≠ i) by (intros v Hv ->; done).
  destruct Hinv as [Hlen Hun Htree Hroot Hreach Hstack Hcl Hcross HA HB Hst].
  split; [|exact Hun|exact Htree|exact Hroot|exact Hreach|
         |exact Hcl|exact Hcross|..].
  - simpl. by rewrite length_insert.
  - destruct Hstack as (? & ? & Hchain). split_and!; [done..|].
    by apply (isChain_ext st).
  - intros v Hv Hns. rewrite (lowOf_setLow_ne _ _ _ _ (Hne v Hns)).
    by apply HA.
  - intros v Hv Hns. rewrite (lowOf_setLow_ne _ _ _ _ (Hne v Hns)).
    by apply HB.
  - intros v Hv Hns. rewrite (Hst v Hv Hns).
    assert (Hch : ∀ c, parentOf st c = Some v → c ≠ i).
    { intros c Hc ->. apply Hns.
      destruct Hstack as (_ & _ & Hchain).
      apply (isChain_up st stack i v Hchain Hi).
      eapply anc_parent; [done | apply anc_refl]. }
    unfold stableTest.
    change (parentOf (setLow i z st)) with (parentOf st).
    change (depthOf (setLow i z st)) with (depthOf st).
    destruct (parentOf st v); [|done].
    split; intros H c Hc; specialize (H c Hc);
      by rewrite (lowOf_setLow_ne _ _ _ _ (Hch c Hc)) in *.
Qed.

(** The end of the call for [i]. *)
Lemma inv_pop w st stack i s :
  dfsInv w st (i :: stack) →
  (∀ u, edge w i u → seenIn st u) →
  (lowOf st i ≤ depthOf st i ∧
   ∀ x u, anc st i x → edge w x u → parentOf st x ≠ Some u →
          lowOf st i ≤ depthOf st u) →
  (lowOf st i = depthOf st i ∨
   ∃ x u, anc st i x ∧ edge w x u ∧ parentOf st x ≠ Some u ∧
          lowOf st i = depthOf st u) →
  (s = true ↔ stableTest st i) →
  dfsInv w (setStable i s st) stack.
Proof.
  intros Hinv Hcli HAi HBi Hsi.
  pose proof (stack_seen _ _ _ Hinv i ltac:(by left)) as Hseen.
  destruct Hinv as [Hlen Hun Htree Hroot Hreach Hstack Hcl Hcross HA HB Hst].
  destruct Hstack as (Hnd & Hss & Hchain).
  apply NoDup_cons in Hnd as [Hni Hnd].
  assert (Hfin : ∀ v, v ∉ stack → v = i ∨ v ∉ i :: stack).
  { intros v Hv. destruct (decide (v = i)) as [->|Hne]; [by left|].
    right. intros [->|?]%elem_of_cons; done. }
  split; [|exact Hun|exact Htree|exact Hroot|exact Hreach| | |exact Hcross
         |..].
  - simpl. by rewrite length_insert.
  - split_and!; [done| |].
    + intros s0 Hs0. apply Hss. by right.
    + destruct Hchain as [_ Hchain]. by apply (isChain_ext st).
  - intros v u Hv Hns He. destruct (Hfin v Hns) as [->|Hns'].
    + by apply Hcli.
    + by eapply Hcl.
  - intros v Hv Hns. destruct (Hfin v Hns) as [->|Hns']; [done|].
    by apply HA.
  - intros v Hv Hns. destruct (Hfin v Hns) as [->|Hns']; [done|].
    by apply HB.
  - intros v Hv Hns.
    change (stableTest (setStable i s st) v) with (stableTest st v).
    pose proof (isSeen_lt _ _ Hseen) as Hlt.
    simpl. rewrite isSeen_insert_stable by lia.
    destruct (decide (v = i)) as [->|Hne]; [done|].
    apply Hst; [done|]. intros [->|?]%elem_of_cons; done.
Qed.

(** The start of the search. *)
Lemma inv_init w :
  length (cubes w) ≠ 0%nat →
  dfsInv w
    (enter 0 0
       (mkDfs (replicate (length (cubes w)) false)
              (replicate (length (cubes w)) None)
              (replicate (length (cubes w)) (-1))
              (replicate (length (cubes w)) (-1))
              (replicate (length (cubes w)) true)))
    [0%nat].
Proof.
  intros Hn. set (n := length (cubes w)) in *.
  set (st := mkDfs _ _ _ _ _).
  assert (Hp : ∀ v, parentOf (enter 0 0 st) v = None).
  { intros v. unfold parentOf. simpl.
    destruct (replicate n None !! v) eqn:Hv; [|done].
    by apply lookup_replicate in Hv as [-> _]. }
  assert (Hs : ∀ v, seenIn (enter 0 0 st) v → v = 0%nat).
  { intros v [?|Hv]%seenIn_enter; [done| |simpl; rewrite length_replicate; lia].
    unfold seenIn in Hv. simpl in Hv. by rewrite isSeen_replicate in Hv. }
  split.
  - simpl. rewrite !length_insert, !length_replicate. done.
  - intros v _. apply Hp.
  - intros v u Hv. by rewrite Hp in Hv.
  - split; [apply Hp|]. intros _. unfold depthOf. simpl.
    rewrite getZ_insert by (rewrite length_replicate; lia). done.
  - intros v ->%Hs. apply anc_refl.
  - split_and!.
    + apply NoDup_singleton.
    + intros s ->%list_elem_of_singleton. apply seenIn_enter; [|by left].
      simpl. rewrite length_replicate. lia.
    + simpl. by rewrite Hp.
  - intros v u ->%Hs Hns. exfalso. apply Hns. by left.
  - intros x u ->%Hs ->%Hs _. left. apply anc_refl.
  - intros v ->%Hs Hns. exfalso. apply Hns. by left.
  - intros v ->%Hs Hns. exfalso. apply Hns. by left.
  - intros v ->%Hs Hns. exfalso. apply Hns. by left.
Qed.

(** The start of the call for an unseen neighbour [u] of [i]. *)
Section push.
Context (w : World) (Hw : consistent w).
Context (st : Dfs) (stack : list nat) (i u : nat) (d : Z).
Context (Hinv : dfsInv w st (i :: stack)).
Context (He : edge w i u) (Hu : ¬ seenIn st u) (Hd : depthOf st i = d).

Local Abbreviation st' := (enter u (d + 1) (setParent u i st)).

Lemma push_lt :
  (u < length (dseen st))%nat ∧ (u < length (dparent st))%nat ∧
  (u < length (ddepth st))%nat ∧ (u < length (dlow st))%nat.
Proof.
  pose proof (edge_lt w Hw _ _ He). pose proof (inv_len _ _ _ Hinv). lia.
Qed.

Lemma push_seen v : seenIn st' v ↔ v = u ∨ seenIn st v.
Proof. exact (seenIn_enter u (d + 1) (setParent u i st) v (proj1 push_lt)). Qed.

Lemma push_parent v :
  parentOf st' v = if decide (v = u) then Some i else parentOf st v.
Proof.
  change (parentOf st' v) with (parentOf (setParent u i st) v).
  apply parentOf_setParent, push_lt.
Qed.

Lemma push_depth v :
  depthOf st' v = if decide (v = u) then d + 1 else depthOf st v.
Proof. unfold depthOf. simpl. apply getZ_insert, push_lt. Qed.

Lemma push_low v :
  lowOf st' v = if decide (v = u) then d + 1 else lowOf st v.
Proof. unfold lowOf. simpl. apply getZ_insert, push_lt. Qed.

Lemma push_i : seenIn st i ∧ i ≠ u.
Proof.
  assert (Hi : seenIn st i) by (apply (stack_seen _ _ _ Hinv); by left).
  split; [done|]. by intros ->.
Qed.

Lemma push_nochild c : parentOf st c ≠ Some u.
Proof.
  intros Hc. by destruct (inv_tree _ _ _ Hinv c u Hc) as (? & _).
Qed.

Lemma push_anc_mono a x : anc st a x → anc st' a x.
Proof.
  apply anc_mono. intros y z Hy. rewrite push_parent.
  destruct (decide (y = u)) as [->|]; [|done].
  by rewrite (inv_unseen _ _ _ Hinv u Hu) in Hy.
Qed.

Lemma push_anc_back a x : x ≠ u → anc st' a x → anc st a x ∧ a ≠ u.
Proof.
  intros Hx. apply (anc_back st st' (λ y, y ≠ u)); [|done].
  intros y z Hy. rewrite push_parent. rewrite decide_False by done.
  intros Hp. split; [done|]. intros ->. by eapply push_nochild.
Qed.

Lemma push_anc_u a : anc st' a u → a = u ∨ anc st a i.
Proof.
  intros [->|(y & Hy & Ha)]%anc_inv; [by left|]. right.
  rewrite push_parent, decide_True in Hy by done. injection Hy as <-.
  apply push_anc_back in Ha as [? _]; [done|]. apply push_i.
Qed.

Lemma push_stack_anc s : s ∈ i :: stack → anc st' s u.
Proof.
  intros Hs. eapply anc_parent.
  - rewrite push_parent, decide_True by done. done.
  - apply push_anc_mono. by apply (stack_head _ _ _ Hinv).
Qed.

Lemma push_finished v :
  seenIn st' v → v ∉ u :: i :: stack →
  v ≠ u ∧ seenIn st v ∧ v ∉ i :: stack.
Proof.
  intros Hv Hns. assert (v ≠ u) by (intros ->; apply Hns; by left).
  split_and!; [done| |].
  - apply push_seen in Hv as [?|?]; done.
  - intros ?. apply Hns. by right.
Qed.

Lemma push_finished_anc v x :
  seenIn st v → v ∉ i :: stack → anc st' v x →
  x ≠ u ∧ anc st v x ∧ seenIn st x ∧ x ∉ i :: stack.
Proof.
  intros Hv Hns Ha.
  assert (Hx : x ≠ u).
  { intros ->. apply push_anc_u in Ha as [->|Ha]; [done|].
    apply Hns. apply (stack_up _ _ _ Hinv i); [by left | done]. }
  apply push_anc_back in Ha as [Ha _]; [|done].
  split_and!; [done..| |]; by eapply (anc_finished _ _ _ Hinv v x).
Qed.

Lemma inv_push : dfsInv w st' (u :: i :: stack).
Proof.
  destruct push_lt as (Hl1 & Hl2 & Hl3 & Hl4).
  destruct push_i as [Hi Hiu].
  split.
  - simpl. rewrite !length_insert. apply (inv_len _ _ _ Hinv).
  - intros v Hv. rewrite push_seen in Hv. rewrite push_parent.
    destruct (decide (v = u)) as [->|Hne]; [by destruct Hv; left|].
    apply (inv_unseen _ _ _ Hinv). intros ?. apply Hv. by right.
  - intros v a. rewrite push_parent, !push_depth, push_seen.
    destruct (decide (v = u)) as [->|Hne].
    + intros [= <-]. rewrite decide_False by done.
      split_and!; [by right | done | lia |].
      intros ->. apply Hu.
      apply (anc_seen _ _ _ Hinv 0%nat i); [|done].
      by apply (inv_reach _ _ _ Hinv).
    + intros Hp.
      destruct (inv_tree _ _ _ Hinv v a Hp) as (Ha & Hed & Hdep & Hv0).
      rewrite decide_False by (by intros ->).
      split_and!; [by right | done..].
  - destruct (inv_root _ _ _ Hinv) as [Hp0 Hd0].
    assert (H0 : seenIn st 0%nat).
    { apply (anc_seen _ _ _ Hinv 0%nat i); [|done].
      by apply (inv_reach _ _ _ Hinv). }
    assert (H0u : 0%nat ≠ u) by by intros <-.
    rewrite push_parent, push_depth, !decide_False by done. auto.
  - intros v [->|Hv]%push_seen.
    + apply push_stack_anc. apply (stack_up _ _ _ Hinv i); [by left|].
      by apply (inv_reach _ _ _ Hinv).
    + by apply push_anc_mono, (inv_reach _ _ _ Hinv).
  - destruct (inv_stack _ _ _ Hinv) as (Hnd & Hss & Hchain). split_and!.
    + apply NoDup_cons. split; [|done]. intros Hin. by apply Hu, Hss.
    + intros s [->|Hs]%elem_of_cons; apply push_seen; [by left|].
      right. by apply Hss.
    + split; [by rewrite push_parent, decide_True|].
      apply (isChain_ext st); [|done].
      intros s Hs. rewrite push_parent, decide_False; [done|].
      intros ->. by apply Hu, Hss.
  - intros v x Hv Hns Hvx.
    destruct (push_finished v Hv Hns) as (_ & Hv' & Hns').
    apply push_seen. right. by apply (inv_closed _ _ _ Hinv v x).
  - assert (Hnew : ∀ y, seenIn st y → edge w y u → anc st' y u).
    { intros y Hy Hyu. apply push_stack_anc.
      destruct (decide (y ∈ i :: stack)) as [|Hns]; [done|].
      by destruct Hu; apply (inv_closed _ _ _ Hinv y u). }
    intros x y [->|Hx]%push_seen [->|Hy]%push_seen Hxy.
    + left. apply anc_refl.
    + right. by apply Hnew, (edge_sym w Hw).
    + left. by apply Hnew.
    + destruct (inv_cross _ _ _ Hinv x y Hx Hy Hxy) as [?|?];
        [left | right]; by apply push_anc_mono.
  - intros v Hv Hns.
    destruct (push_finished v Hv Hns) as (Hvu & Hv' & Hns').
    destruct (inv_lowA _ _ _ Hinv v Hv' Hns') as [HA1 HA2].
    rewrite push_low, push_depth, !decide_False by done.
    split; [done|]. intros x y Hvx Hxy Hpar.
    destruct (push_finished_anc v x Hv' Hns' Hvx) as (Hxu & Hvx' & Hx & Hxs).
    pose proof (inv_closed _ _ _ Hinv x y Hx Hxs Hxy) as Hy.
    rewrite push_parent, decide_False in Hpar by done.
    rewrite push_depth, decide_False by (by intros ->).
    by apply (HA2 x y).
  - intros v Hv Hns.
    destruct (push_finished v Hv Hns) as (Hvu & Hv' & Hns').
    rewrite push_low, push_depth, !decide_False by done.
    destruct (inv_lowB _ _ _ Hinv v Hv' Hns') as [?|(x & y & Hvx & Hxy & Hpar & Hl)];
      [by left|].
    right. exists x, y.
    destruct (anc_finished _ _ _ Hinv v x Hv' Hns' Hvx) as [Hx Hxs].
    pose proof (inv_closed _ _ _ Hinv x y Hx Hxs Hxy) as Hy.
    split_and!; [by apply push_anc_mono | done | |].
    + rewrite push_parent, decide_False; [done | by intros ->].
    + rewrite push_depth, decide_False; [done | by intros ->].
  - intros v Hv Hns.
    destruct (push_finished v Hv Hns) as (Hvu & Hv' & Hns').
    change (dstable st') with (dstable st).
    rewrite (inv_stable _ _ _ Hinv v Hv' Hns').
    assert (Hvi : v ≠ i) by (intros ->; apply Hns'; by left).
    assert (Hch : ∀ c, parentOf st' c = Some v ↔ parentOf st c = Some v).
    { intros c. rewrite push_parent.
      destruct (decide (c = u)) as [->|]; [|done].
      rewrite (inv_unseen _ _ _ Hinv u Hu). split; [|done].
      intros [= ->]. done. }
    assert (Hlow : ∀ c, parentOf st c = Some v → lowOf st' c = lowOf st c).
    { intros c Hc. rewrite push_low, decide_False; [done|].
      intros ->. by rewrite (inv_unseen _ _ _ Hinv u Hu) in Hc. }
    unfold stableTest.
    rewrite push_parent, push_depth, !decide_False by done.
    destruct (parentOf st v).
    + split; intros H c Hc.
      * apply Hch in Hc. rewrite Hlow by done. by apply H.
      * rewrite <- Hlow by done. by apply H, Hch.
    + split; intros H c1 c2 Hc1 Hc2; apply H; by apply Hch.
Qed.

End push.

(** *** The loop over the neighbours *)

Lemma lowOf_setLow_eq st i z :
  (i < length (dlow st))%nat → lowOf (setLow i z st) i = z.
Proof.
  intros Hi. unfold lowOf, setLow, getZ. simpl.
  by rewrite list_lookup_insert_eq.
Qed.

Section loop.
Context (w : World) (Hw : consistent w).
Context (st0 : Dfs) (i : nat) (d : Z) (stack : list nat).
Context (Hi0 : ¬ seenIn st0 i).

(** A running call's cube has no parent among its descendants. *)
Lemma child_ne st c : dfsInv w st (i :: stack) → parentOf st c = Some i → c ≠ i.
Proof.
  intros Hinv Hc ->.
  destruct (inv_tree _ _ _ Hinv i i Hc) as (_ & _ & Hd & _). lia.
Qed.

Lemma proper_descendant_finished st x :
  dfsInv w st (i :: stack) → anc st i x → x ≠ i →
  seenIn st x ∧ x ∉ i :: stack.
Proof.
  intros Hinv Ha Hne. split; [by eapply anc_seen_below|].
  intros Hx. apply Hne. symmetry. apply (anc_antisym _ _ _ Hinv); [done|].
  by apply (stack_head _ _ _ Hinv).
Qed.

Lemma loopInv_lower st done cut cnt z :
  dfsInv w st (i :: stack) → framed st0 st i d →
  (∀ u, u ∈ done → seenIn st u) →
  lowOf st i ≤ d →
  (∀ x u, anc st i x → (x = i → u ∈ done) → edge w x u →
          parentOf st x ≠ Some u →
          lowOf st i ≤ depthOf st u ∨ z ≤ depthOf st u) →
  (lowOf st i = d ∨
   ∃ x u, anc st i x ∧ edge w x u ∧ parentOf st x ≠ Some u ∧ seenIn st u ∧
          lowOf st i = depthOf st u) →
  (lowOf st i ≤ z ∨
   ∃ x u, anc st i x ∧ edge w x u ∧ parentOf st x ≠ Some u ∧ seenIn st u ∧
          z = depthOf st u) →
  (cut = true ↔ ∃ c, parentOf st c = Some i ∧ d ≤ lowOf st c) →
  (∃ ch, NoDup ch ∧ length ch = cnt ∧ ∀ c, parentOf st c = Some i ↔ c ∈ ch) →
  dfsInv w (setLow i (Z.min (lowOf st i) z) st) (i :: stack) ∧
  framed st0 (setLow i (Z.min (lowOf st i) z) st) i d ∧
  loopInv w i d done (setLow i (Z.min (lowOf st i) z) st, cut, cnt).
Proof.
  intros Hinv Hfr Hdone Hle HA HB Hz Hcut Hch.
  assert (Hlt : (i < length (dlow st))%nat).
  { pose proof (isSeen_lt _ _ (proj1 (fr_self _ _ _ _ Hfr))).
    pose proof (inv_len _ _ _ Hinv). lia. }
  split_and!.
  - apply inv_setLow; [done | by left].
  - destruct Hfr as [Fold Fpar Fself Fnew]. split; [|done..].
    intros v Hv. destruct (Fold v Hv) as (? & ? & ? & ?).
    split_and!; [done..| |done].
    rewrite lowOf_setLow_ne; [done | by intros ->].
  - split; simpl.
    + done.
    + rewrite lowOf_setLow_eq by done. split; [lia|].
      intros x u Hx Hxu He Hp.
      change (depthOf (setLow i (Z.min (lowOf st i) z) st) u)
        with (depthOf st u).
      destruct (HA x u Hx Hxu He Hp); lia.
    + rewrite lowOf_setLow_eq by done.
      destruct (Z.min_spec (lowOf st i) z) as [[Hlz ->]|[Hlz ->]].
      * done.
      * destruct Hz as [?|Hz]; [|by right].
        replace z with (lowOf st i) by lia. done.
    + rewrite Hcut. split; intros (c & Hc & Hl); exists c; (split; [done|]).
      * rewrite lowOf_setLow_ne; [done | by eapply child_ne].
      * rewrite lowOf_setLow_ne in Hl; [done | by eapply child_ne].
    + done.
Qed.

End loop.

Section visit.
Context (w : World) (Hw : consistent w).
Context (st0 : Dfs) (i : nat) (d : Z) (stack : list nat).
Context (Hi0 : ¬ seenIn st0 i).

(** A neighbour that has been seen before. *)
Lemma visit_seen st done cut cnt u acc' :
  dfsInv w st (i :: stack) → framed st0 st i d →
  loopInv w i d done (st, cut, cnt) →
  edge w i u → seenIn st u →
  (if negb (bool_decide (Some u = parentOf st i)) then
     Ok (setLow i (Z.min (lowOf st i) (depthOf st u)) st, cut, cnt)
   else Ok (st, cut, cnt)) = Ok acc' →
  dfsInv w acc'.1.1 (i :: stack) ∧ framed st0 acc'.1.1 i d ∧
  loopInv w i d (u :: done) acc'.
Proof.
  intros Hinv Hfr [Ldone [LA1 LA2] LB Lcut Lch] He Hu. simpl in *.
  case_bool_decide as Hpar; simpl; intros [= <-]; simpl.
  - split_and!; [done..|]. split; simpl; [|split; [done|]|done..].
    + intros u' [->|?]%elem_of_cons; auto.
    + intros x u' Hx Hxu He' Hp. apply (LA2 x u'); try done.
      intros ->. pose proof (Hxu eq_refl) as Hm.
      apply elem_of_cons in Hm as [->|?]; [|done].
      by destruct Hp.
  - apply loopInv_lower; try done.
    + intros u' [->|?]%elem_of_cons; auto.
    + intros x u' Hx Hxu He' Hp.
      destruct (decide (x = i ∧ u' = u)) as [[-> ->]|Hne]; [right; lia|].
      left. apply (LA2 x u'); try done.
      intros ->. pose proof (Hxu eq_refl) as Hm.
      apply elem_of_cons in Hm as [->|?]; [|done].
      by destruct Hne.
    + right. exists i, u. split_and!; [apply anc_refl | done | | done..].
      intros Hp. by rewrite Hp in Hpar.
Qed.

(** A neighbour seen for the first time: the nested call. *)
Lemma visit_unseen fuel st done cut cnt u st1 :
  callSpec w fuel →
  dfsInv w st (i :: stack) → framed st0 st i d →
  loopInv w i d done (st, cut, cnt) →
  edge w i u → ¬ seenIn st u →
  findCubeStabilityRecursive fuel w u (d + 1) (setParent u i st) = Ok st1 →
  dfsInv w (setLow i (Z.min (lowOf st1 i) (lowOf st1 u)) st1) (i :: stack) ∧
  framed st0 (setLow i (Z.min (lowOf st1 i) (lowOf st1 u)) st1) i d ∧
  loopInv w i d (u :: done)
    (setLow i (Z.min (lowOf st1 i) (lowOf st1 u)) st1,
     if bool_decide (depthOf st1 i ≤ lowOf st1 u) then true else cut,
     Datatypes.S cnt).
Proof.
  intros IH Hinv Hfr [Ldone [LA1 LA2] LB Lcut Lch] He Hu Hrec. simpl in *.
  assert (Hi : seenIn st i) by (apply (stack_seen _ _ _ Hinv); by left).
  assert (Hiu : i ≠ u) by (by intros ->).
  assert (Hlp : (u < length (dparent st))%nat).
  { pose proof (edge_lt w Hw _ _ He). pose proof (inv_len _ _ _ Hinv). lia. }
  destruct Hfr as [Fold Fpar [_ Fdepth] Fnew].
  destruct (IH u (d + 1) (setParent u i st) (i :: stack) st1) as [Hinv1 Hfr1];
    [done| |by apply inv_push|done|].
  { intros c. rewrite parentOf_setParent by done.
    destruct (decide (c = u)) as [->|_]; [congruence|].
    by apply (push_nochild w st stack i u Hinv Hu). }
  destruct Hfr1 as [Gold Gpar [Gseen Gdepth] Gnew].
  assert (F1 : ∀ v, seenIn st v →
            seenIn st1 v ∧ depthOf st1 v = depthOf st v ∧
            lowOf st1 v = lowOf st v ∧
            isSeen (dstable st1) v = isSeen (dstable st) v ∧
            parentOf st1 v = parentOf st v).
  { intros v Hv. destruct (Gold v Hv) as (? & ? & ? & ?).
    split_and!; [done..|].
    rewrite Gpar by (by left). rewrite parentOf_setParent by done.
    rewrite decide_False; [done | by intros ->]. }
  assert (F2 : parentOf st1 u = Some i).
  { rewrite Gpar by (by right). rewrite parentOf_setParent by done.
    by rewrite decide_True. }
  assert (F4 : ∀ a x, anc st a x → anc st1 a x).
  { intros a x. apply anc_mono. intros y z Hy.
    destruct (F1 y) as (_ & _ & _ & _ & ->); [|done].
    by eapply (parent_seen _ _ _ Hinv). }
  assert (F5 : ∀ a x, seenIn st x → anc st1 a x → anc st a x).
  { intros a x Hx Ha.
    apply (anc_back st st1 (seenIn st) a x); [|done..].
    intros y z Hy Hp. destruct (F1 y Hy) as (_ & _ & _ & _ & Hpy).
    rewrite Hpy in Hp. split; [done|].
    by destruct (inv_tree _ _ _ Hinv y z Hp) as (? & _). }
  assert (F6 : u ∉ i :: stack).
  { intros Hin. by apply Hu, (stack_seen _ _ _ Hinv). }
  assert (Hiu1 : anc st1 i u).
  { eapply anc_parent; [exact F2 | apply anc_refl]. }
  assert (F7 : ∀ c, parentOf st1 c = Some i ↔ c = u ∨ parentOf st c = Some i).
  { intros c. split.
    - intros Hc. destruct (seenIn_dec st c) as [Hsc|Hsc].
      + right. by destruct (F1 c Hsc) as (_ & _ & _ & _ & <-).
      + left. assert (Hc1 : seenIn st1 c) by by eapply (parent_seen _ _ _ Hinv1).
        pose proof (Gnew c Hc1 Hsc) as Huc.
        destruct (anc_depth _ _ _ Hinv1 _ _ Huc) as [->|Hlt]; [done|].
        destruct (inv_tree _ _ _ Hinv1 c i Hc) as (_ & _ & Hdc & _).
        destruct (F1 i Hi) as (_ & Hdi & _). lia.
    - intros [->|Hc]; [done|].
      destruct (F1 c) as (_ & _ & _ & _ & ->); [|done].
      by eapply (parent_seen _ _ _ Hinv). }
  destruct (F1 i Hi) as (Hi1 & Hdi & Hli & _ & Hpi).
  apply loopInv_lower; try done.
  - split.
    + intros v Hv. destruct (Fold v Hv) as (Hv' & <- & <- & <-).
      destruct (F1 v Hv') as (? & ? & ? & ? & _). done.
    + intros v Hv. rewrite <- Fpar by done.
      destruct (F1 v) as (_ & _ & _ & _ & ->); [|done].
      destruct Hv as [Hv| ->]; [|done]. by destruct (Fold v Hv).
    + split; [done | lia].
    + intros x Hx Hx0. destruct (seenIn_dec st x) as [Hsx|Hsx].
      * by apply F4, Fnew.
      * eapply anc_trans; [exact Hiu1|]. by apply Gnew.
  - intros u' [->|Hd]%elem_of_cons; [done|].
    by destruct (F1 u' (Ldone u' Hd)).
  - lia.
  - intros x y Hx Hxy Hexy Hp.
    destruct (decide (x = i)) as [->|Hxi].
    + left. pose proof (Hxy eq_refl) as Hy.
      apply elem_of_cons in Hy as [->|Hy]; [lia|].
      destruct (F1 y (Ldone y Hy)) as (_ & -> & _). rewrite Hli.
      apply (LA2 i y); [apply anc_refl | done..|]. by rewrite <- Hpi.
    + destruct (seenIn_dec st x) as [Hsx|Hsx].
      * left. pose proof (F5 i x Hsx Hx) as Hx'.
        destruct (proper_descendant_finished w i stack st x Hinv Hx' Hxi)
          as [_ Hxs].
        pose proof (inv_closed _ _ _ Hinv x y Hsx Hxs Hexy) as Hy.
        destruct (F1 y Hy) as (_ & -> & _). rewrite Hli.
        apply (LA2 x y); [done..|].
        by destruct (F1 x Hsx) as (_ & _ & _ & _ & <-).
      * right.
        assert (Hx1 : seenIn st1 x) by by eapply (anc_seen_below _ _ _ Hinv1).
        by apply (proj2 (inv_lowA _ _ _ Hinv1 u Gseen F6) x y
                    (Gnew x Hx1 Hsx)).
  - rewrite Hli. destruct LB as [?|(x & y & Hx & Hexy & Hp & Hy & Hl)];
      [by left|].
    right. exists x, y.
    assert (Hsx : seenIn st x).
    { destruct (decide (i = x)) as [<-|Hne]; [done|].
      by eapply (anc_seen_below _ _ _ Hinv). }
    destruct (F1 x Hsx) as (_ & _ & _ & _ & ->).
    destruct (F1 y Hy) as (? & -> & _).
    split_and!; [by apply F4 | done..].
  - destruct (inv_lowB _ _ _ Hinv1 u Gseen F6)
      as [Heq|(x & y & Hx & Hexy & Hp & Hl)].
    + left. lia.
    + right. exists x, y.
      destruct (anc_finished _ _ _ Hinv1 u x Gseen F6 Hx) as [Hsx Hxs].
      split_and!; [by eapply anc_trans | done..| | done].
      by apply (inv_closed _ _ _ Hinv1 x y).
  - rewrite Hdi, Fdepth. split.
    + case_bool_decide as Hb.
      * intros _. exists u. done.
      * intros (c & Hc & Hl)%Lcut. exists c. split; [by apply F7; right|].
        destruct (F1 c) as (_ & _ & -> & _); [|done].
        by eapply (parent_seen _ _ _ Hinv).
    + intros (c & [->|Hc]%F7 & Hl).
      * by rewrite bool_decide_eq_true_2.
      * case_bool_decide; [done|]. apply Lcut. exists c. split; [done|].
        destruct (F1 c) as (_ & _ & <- & _); [|done].
        by eapply (parent_seen _ _ _ Hinv).
  - destruct Lch as (ch & Hnd & Hlen & Hch). exists (u :: ch). split_and!.
    + apply NoDup_cons. split; [|done]. intros Hin%Hch.
      by rewrite (inv_unseen _ _ _ Hinv u Hu) in Hin.
    + simpl. by rewrite Hlen.
    + intros c. rewrite F7, elem_of_cons, Hch. done.
Qed.

Lemma visitId_step fuel done acc u acc' :
  callSpec w fuel →
  dfsInv w acc.1.1 (i :: stack) → framed st0 acc.1.1 i d →
  loopInv w i d done acc →
  edge w i u →
  visitId (λ j, findCubeStabilityRecursive fuel w j (d + 1)) i acc u
    = Ok acc' →
  dfsInv w acc'.1.1 (i :: stack) ∧ framed st0 acc'.1.1 i d ∧
  loopInv w i d (u :: done) acc'.
Proof.
  destruct acc as [[st cut] cnt]. simpl. intros IH Hinv Hfr Hli He.
  unfold visitId. destruct (isSeen (dseen st) u) eqn:Hsu; simpl.
  - by apply visit_seen.
  - destruct (findCubeStabilityRecursive fuel w u (d + 1) (setParent u i st))
      as [st1| |] eqn:Hrec; simpl; [|done..].
    intros [= <-]. simpl. eapply visit_unseen; try done.
    unfold seenIn. by rewrite Hsu.
Qed.

End visit.

(** *** A call *)

Lemma foldResult_done {A B} (f : A → B → Result A)
    (Inv : list B → A → Prop) l : ∀ done a a',
  Inv done a →
  (∀ done a x a', x ∈ l → Inv done a → f a x = Ok a' → Inv (x :: done) a') →
  foldResult f l a = Ok a' → Inv (reverse l ++ done) a'.
Proof.
  induction l as [|x l IH]; intros done a a' Ha Hf Hfold; simpl in Hfold.
  - by injection Hfold as <-.
  - destruct (f a x) as [a1| |] eqn:Hfx; simpl in Hfold; [|done..].
    rewrite reverse_cons, <- app_assoc. simpl.
    apply (IH (x :: done) a1); [| |done].
    + apply (Hf done a x a1); [by left | done..].
    + intros done' b y b' Hy. apply Hf. by right.
Qed.

Lemma framed_enter w st i d stack :
  ¬ seenIn st i → dfsInv w (enter i d st) (i :: stack) →
  framed st (enter i d st) i d.
Proof.
  intros Hi Hinv.
  pose proof (stack_seen _ _ _ Hinv i ltac:(by left)) as Hsi.
  pose proof (isSeen_lt _ _ Hsi) as Hlt.
  pose proof (inv_len _ _ _ Hinv) as Hlen. simpl in Hlt, Hlen.
  rewrite !length_insert in *.
  split.
  - intros v Hv. assert (v ≠ i) by (by intros ->).
    split_and!; [apply seenIn_enter; [lia | by right] | | |done].
    + unfold depthOf, getZ. simpl. by rewrite list_lookup_insert_ne.
    + unfold lowOf, getZ. simpl. by rewrite list_lookup_insert_ne.
  - done.
  - split; [done|]. unfold depthOf. simpl.
    rewrite getZ_insert, decide_True by (done || lia). done.
  - intros x [->|?]%seenIn_enter Hx; [apply anc_refl | done | lia].
Qed.

Lemma loopInv_enter w st i d stack :
  (∀ c, parentOf st c ≠ Some i) → dfsInv w (enter i d st) (i :: stack) →
  loopInv w i d [] (enter i d st, false, 0%nat).
Proof.
  intros Hnc Hinv.
  pose proof (stack_seen _ _ _ Hinv i ltac:(by left)) as Hsi.
  pose proof (isSeen_lt _ _ Hsi) as Hlt.
  pose proof (inv_len _ _ _ Hinv) as Hlen. simpl in Hlt, Hlen.
  rewrite !length_insert in *.
  assert (Hlow : lowOf (enter i d st) i = d).
  { unfold lowOf. simpl. rewrite getZ_insert, decide_True by (done || lia).
    done. }
  split; simpl.
  - by intros u ?%elem_of_nil.
  - rewrite Hlow. split; [lia|]. intros x u Hx Hxu _ _.
    destruct (decide (i = x)) as [<-|Hne].
    + by destruct (proj1 (elem_of_nil u) (Hxu eq_refl)).
    + apply anc_child in Hx as (c & Hc & _); [|done].
      by destruct (Hnc c).
  - by left.
  - split; [done|]. intros (c & Hc & _). by destruct (Hnc c).
  - exists []. split_and!; [apply NoDup_nil_2 | done |].
    intros c. split; [intros Hc; by destruct (Hnc c) | by intros ?%elem_of_nil].
Qed.

Lemma stable_children st i (ch : list nat) :
  NoDup ch → (∀ c, parentOf st c = Some i ↔ c ∈ ch) →
  (length ch ≤ 1)%nat ↔
  ∀ c1 c2, parentOf st c1 = Some i → parentOf st c2 = Some i → c1 = c2.
Proof.
  intros Hnd Hch. split.
  - intros Hlen c1 c2 H1%Hch H2%Hch.
    destruct ch as [|c [|c' ch]]; simpl in *; [|set_solver|lia].
    by apply elem_of_nil in H1.
  - intros Huniq. destruct ch as [|c [|c' ch]]; simpl; [lia..|].
    apply NoDup_cons in Hnd as [Hnd _]. destruct Hnd.
    rewrite (Huniq c c'); [by left|apply Hch..]; set_solver.
Qed.

Lemma callSpec_all w : consistent w → ∀ fuel, callSpec w fuel.
Proof.
  intros Hw fuel.
  induction fuel as [|fuel IH]; intros i d st stack st' Hi Hnc Hinv Hrun;
    [done|].
  rewrite findCubeStabilityRecursive_S in Hrun.
  destruct (cubes w !! i) as [cube|] eqn:Hcube; [|done].
  destruct (foldResult _ _ _) as [[[st1 cut] cnt]| |] eqn:Hfold;
    simpl in Hrun; [|done..].
  injection Hrun as <-.
  apply (foldResult_done _
           (λ done acc, dfsInv w acc.1.1 (i :: stack) ∧
                        framed st acc.1.1 i d ∧ loopInv w i d done acc)
           _ []) in Hfold as (Hinv1 & Hfr1 & Hli1).
  2:{ split_and!; [done | by eapply framed_enter | by eapply loopInv_enter]. }
  2:{ intros done acc x acc' Hx (Ha1 & Ha2 & Ha3) Hv.
      by apply (visitId_step w Hw st i d stack Hi fuel done acc x acc'). }
  simpl in *. rewrite app_nil_r in Hli1.
  destruct Hli1 as [Ldone [LA1 LA2] LB Lcut (ch & Hnd & Hlen & Hch)].
  simpl in *.
  destruct Hfr1 as [Fold Fpar [Fseen Fdepth] Fnew].
  assert (Hnb : ∀ u, edge w i u → seenIn st1 u).
  { intros u Hu. apply Ldone. by apply elem_of_reverse. }
  split.
  - apply inv_pop; try done.
    + rewrite Fdepth. split; [done|]. intros x u Hx He Hp.
      apply (LA2 x u); try done. intros ->. by apply elem_of_reverse.
    + rewrite Fdepth.
      destruct LB as [?|(x & u & ? & ? & ? & ? & ?)]; [by left|].
      right. by exists x, u.
    + unfold stableTest. destruct (parentOf st1 i) as [pi|].
      * rewrite negb_true_iff, <- not_true_iff_false, Lcut, Fdepth. split.
        -- intros Hno c Hc.
           destruct (decide (lowOf st1 c < d)) as [|Hge]; [done|].
           destruct Hno. exists c. split; [done | lia].
        -- intros Hall (c & Hc & Hl). specialize (Hall c Hc). lia.
      * rewrite bool_decide_eq_true, <- Hlen. by apply stable_children.
  - split.
    + intros v Hv. destruct (Fold v Hv) as (? & ? & ? & <-).
      split_and!; [done..|]. simpl.
      pose proof (isSeen_lt _ _ Fseen). pose proof (inv_len _ _ _ Hinv1).
      rewrite isSeen_insert_stable, decide_False; [done| |lia].
      by intros ->.
    + done.
    + done.
    + done.
Qed.

(** *** Walks over cubes and walks over cells *)

Section walks.
Context (w : World) (Hw : consistent w).

Lemma closed_path (S : Position → Prop) (D : nat → Prop) a b :
  (∀ q, S q → hasCube w q = true) →
  (∀ x y cy, D x → edge w x y → cubes w !! y = Some cy → S (p cy) → D y) →
  rtc (λ x y, adjacent x y ∧ S y) a b →
  ∀ ia ca, cubes w !! ia = Some ca → p ca = a → D ia →
  ∃ ib cb, cubes w !! ib = Some cb ∧ p cb = b ∧ D ib.
Proof.
  intros Hocc Hclosed.
  induction 1 as [a|a y b [Hadj HSy] Hyb IH]; intros ia ca Hca Hpa HD.
  - by exists ia, ca.
  - pose proof (Hocc y HSy) as Hy.
    apply (hasCube_true w Hw) in Hy as [iy Hiy].
    destruct (getCubeId_Some w Hw _ _ Hiy) as (cy & Hcy & Hpy).
    apply (IH iy cy); [done..|].
    apply (Hclosed ia iy cy); [done| |done|by rewrite Hpy].
    apply (edge_cells w Hw). exists ca, cy. by rewrite Hpa, Hpy.
Qed.

Lemma idpath_cells i ci ia ib :
  cubes w !! i = Some ci → idpath w i ia ib →
  ∀ ca cb, cubes w !! ia = Some ca → cubes w !! ib = Some cb →
  rtc (λ x y, adjacent x y ∧ occupiedExcept w (Some (p ci)) y) (p ca) (p cb).
Proof.
  intros Hci. induction 1 as [ia|ia iy ib [He Hne] Hyb IH]; intros ca cb Hca Hcb.
  - rewrite Hca in Hcb. injection Hcb as ->. apply rtc_refl.
  - apply (edge_cells w Hw) in He as (ca' & cy & Hca' & Hcy & Hadj).
    rewrite Hca in Hca'. injection Hca' as <-.
    eapply rtc_l; [|by apply IH]. split; [done|]. split.
    + by eapply hasCube_cube.
    + intros [= Hp]. apply Hne. symmetry. by eapply (cube_inj w Hw).
Qed.

Lemma idpath_sym i x y : x ≠ i → idpath w i x y → idpath w i y x.
Proof.
  intros Hx. induction 1 as [x|x z y [He Hz] Hzy IH]; [apply rtc_refl|].
  eapply rtc_r; [by apply IH|]. split; [by apply edge_sym | done].
Qed.

End walks.

(** *** What the finished search says about the cubes *)

Section finished.
Context (w : World) (Hw : consistent w).
Context (st : Dfs) (Hinv : dfsInv w st []).

Lemma finished_any v : v ∉ ([] : list nat).
Proof. apply not_elem_of_nil. Qed.

(** The way up the tree, when [i] is not on it. *)
Lemma chain_path i a x :
  anc st a x → (∀ y, anc st a y → anc st y x → y ≠ i) → idpath w i x a.
Proof.
  unfold anc at 1. induction 1 as [x|x y a Hxy Hya IH]; intros Hav;
    [apply rtc_refl|].
  destruct (inv_tree _ _ _ Hinv x y Hxy) as (_ & He & _).
  eapply rtc_l.
  - split; [by apply (edge_sym w Hw)|].
    apply Hav; [done|]. eapply anc_parent; [done | apply anc_refl].
  - apply IH. intros y' H1 H2. apply Hav; [done|]. by eapply anc_parent.
Qed.

(** Below a child [c] of [i], with no edge that climbs above [i], the
    cubes are closed under the edges that avoid [i]. *)
Lemma below_closed i c x u :
  parentOf st c = Some i →
  (∀ x u, anc st c x → edge w x u → parentOf st x ≠ Some u →
          depthOf st i ≤ depthOf st u) →
  anc st c x → edge w x u → u ≠ i → anc st c u.
Proof.
  intros Hc Hdeep Hx He Hui.
  assert (Hsc : seenIn st c) by by eapply (parent_seen _ _ _ Hinv).
  destruct (anc_finished _ _ _ Hinv c x Hsc (finished_any c) Hx) as [Hsx _].
  pose proof (inv_closed _ _ _ Hinv x u Hsx (finished_any x) He) as Hsu.
  destruct (inv_cross _ _ _ Hinv x u Hsx Hsu He) as [Hxu|Hux].
  { by eapply anc_trans. }
  destruct (decide (parentOf st x = Some u)) as [Hp|Hp].
  - apply anc_inv in Hx as [->|(y & Hy & Hcy)]; [congruence|].
    rewrite Hp in Hy. by injection Hy as <-.
  - pose proof (Hdeep x u Hx He Hp) as Hd.
    assert (Hix : anc st i x).
    { eapply anc_trans; [|exact Hx]. eapply anc_parent; [done|apply anc_refl]. }
    destruct (anc_linear st i u x Hix Hux) as [Hiu|Hui'].
    + by apply (anc_between _ _ _ Hinv i c u x).
    + destruct (anc_depth _ _ _ Hinv _ _ Hui') as [->|?]; [done | lia].
Qed.

(** A cube kept from the rest by [i]: no walk in the cells without that of
    [i] leaves the cubes below a child closed in this way. *)
Lemma below_cut i ci c o co :
  cubes w !! i = Some ci → cubes w !! o = Some co →
  parentOf st c = Some i →
  (∀ x u, anc st c x → edge w x u → parentOf st x ≠ Some u →
          depthOf st i ≤ depthOf st u) →
  o ≠ i → ¬ anc st c o →
  ¬ connected4 (occupiedExcept w (Some (p ci))).
Proof.
  intros Hci Hco Hc Hdeep Hoi Hno Hconn.
  assert (Hci' : c ≠ i).
  { intros ->. destruct (inv_tree _ _ _ Hinv i i Hc) as (_ & _ & ? & _). lia. }
  destruct (inv_tree _ _ _ Hinv c i Hc) as (_ & Hec & _).
  destruct (lookup_lt_is_Some_2 (cubes w) c (edge_lt w Hw _ _ Hec)) as [cc Hcc].
  assert (HS : ∀ j cj, cubes w !! j = Some cj → j ≠ i →
                       occupiedExcept w (Some (p ci)) (p cj)).
  { intros j cj Hcj Hji. split; [by eapply hasCube_cube|].
    intros [= Hp]. apply Hji. symmetry. by eapply (cube_inj w Hw). }
  destruct (closed_path w Hw (occupiedExcept w (Some (p ci))) (anc st c)
              (p cc) (p co)) with (ia := c) (ca := cc)
    as (ib & cb & Hcb & Hpb & HD); try done.
  - by intros q [? _].
  - intros x y cy Hx Hxy Hcy [_ Hne].
    apply (below_closed i c x y); try done.
    intros ->. rewrite Hci in Hcy. injection Hcy as <-. done.
  - apply Hconn; [by apply (HS c) | by apply (HS o)].
  - apply anc_refl.
  - by rewrite <- (cube_inj w Hw _ _ _ _ Hcb Hco Hpb) in Hno.
Qed.

End finished.

Section stable.
Context (w : World) (Hw : consistent w).
Context (st : Dfs) (Hinv : dfsInv w st []).
Context (Hall : ∀ v, (v < length (cubes w))%nat → seenIn st v).

Lemma child_facts c i :
  parentOf st c = Some i →
  seenIn st c ∧ seenIn st i ∧ edge w i c ∧ anc st i c ∧
  depthOf st c = depthOf st i + 1 ∧ c ≠ i ∧ c ≠ 0%nat.
Proof.
  intros Hc. destruct (inv_tree _ _ _ Hinv c i Hc) as (Hi & He & Hd & H0).
  split_and!; try done.
  - by eapply (parent_seen _ _ _ Hinv).
  - eapply anc_parent; [done | apply anc_refl].
  - intros ->. lia.
Qed.

(** From below a child [c] of [i] the way up to [c] avoids [i]. *)
Lemma chain_below i c x :
  parentOf st c = Some i → anc st c x → idpath w i x c.
Proof.
  intros Hc Hx. apply (chain_path w Hw st Hinv); [done|].
  intros y Hy _ ->.
  destruct (child_facts c i Hc) as (_ & _ & _ & Hic & _ & Hne & _).
  by destruct Hne; apply (anc_antisym _ _ _ Hinv).
Qed.

(** When every child of [i] reaches above [i], every other cube is joined
    to cube 0 without [i]. *)
Lemma stable_to_root i pi v :
  parentOf st i = Some pi →
  (∀ c, parentOf st c = Some i → lowOf st c < depthOf st i) →
  seenIn st v → v ≠ i → idpath w i v 0.
Proof.
  intros Hpi Hlow Hv. pose proof (inv_reach _ _ _ Hinv v Hv) as Ha.
  unfold anc in Ha. clear Hv. remember 0%nat as r eqn:Hr.
  induction Ha as [v|v y r Hvy Hyr IH]; intros Hvi; [apply rtc_refl|].
  specialize (IH Hr). subst r.
  destruct (decide (y = i)) as [->|Hyi].
  - destruct (child_facts v i Hvy) as (Hsv & Hsi & _ & Hiv & Hdv & _).
    specialize (Hlow v Hvy).
    destruct (inv_lowB _ _ _ Hinv v Hsv (finished_any v))
      as [?|(x & u & Hx & He & Hp & Hl)]; [lia|].
    destruct (anc_finished _ _ _ Hinv v x Hsv (finished_any v) Hx) as [Hsx _].
    pose proof (inv_closed _ _ _ Hinv x u Hsx (finished_any x) He) as Hsu.
    pose proof (anc_depth_le _ _ _ Hinv _ _ Hx) as Hdx.
    assert (Hui : u ≠ i) by (intros ->; lia).
    assert (Hxi : x ≠ i) by (intros ->; lia).
    etrans; [apply (idpath_sym w Hw i x v Hxi), (chain_below i v x); done|].
    eapply rtc_l; [split; [exact He | done]|].
    apply (chain_path w Hw st Hinv); [by apply (inv_reach _ _ _ Hinv)|].
    intros y' _ Hy' ->.
    pose proof (anc_depth_le _ _ _ Hinv _ _ Hy'). lia.
  - destruct (inv_tree _ _ _ Hinv v y Hvy) as (_ & He & _).
    eapply rtc_l; [split; [by apply (edge_sym w Hw) | done]|].
    by apply IH.
Qed.

Lemma stable_connected i ci :
  cubes w !! i = Some ci → stableTest st i →
  connected4 (occupiedExcept w (Some (p ci))).
Proof.
  intros Hci Hst.
  assert (Hjoin : ∀ va vb, (va < length (cubes w))%nat →
            (vb < length (cubes w))%nat → va ≠ i → vb ≠ i →
            idpath w i va vb).
  { intros va vb Hva Hvb Hai Hbi. unfold stableTest in Hst.
    destruct (parentOf st i) as [pi|] eqn:Hpi.
    - etrans; [by apply (stable_to_root i pi); auto|].
      apply (idpath_sym w Hw); [done|]. by apply (stable_to_root i pi); auto.
    - assert (Hchild : ∀ v, (v < length (cubes w))%nat → v ≠ i →
                ∃ c, parentOf st c = Some i ∧ idpath w i v c).
      { intros v Hv Hvi. pose proof (inv_reach _ _ _ Hinv v (Hall v Hv)) as H0v.
        pose proof (inv_reach _ _ _ Hinv i
                      (Hall i (lookup_lt_Some _ _ _ Hci))) as H0i.
        apply anc_inv in H0i as [<-|(y & Hy & _)]; [|congruence].
        apply anc_child in H0v as (c & Hc & Hcv); [|done].
        exists c. split; [done|]. by apply chain_below. }
      destruct (Hchild va Hva Hai) as (ca & Hca & Hpa).
      destruct (Hchild vb Hvb Hbi) as (cb & Hcb & Hpb).
      rewrite (Hst ca cb Hca Hcb) in Hpa.
      etrans; [exact Hpa|]. by apply (idpath_sym w Hw). }
  intros a b [Ha Hna] [Hb Hnb].
  apply (hasCube_true w Hw) in Ha as [va Hva], Hb as [vb Hvb].
  pose proof (getCubeId_lt w Hw _ _ Hva) as Hla.
  pose proof (getCubeId_lt w Hw _ _ Hvb) as Hlb.
  apply (getCubeId_Some w Hw) in Hva as (ca & Hca & <-).
  apply (getCubeId_Some w Hw) in Hvb as (cb & Hcb & <-).
  apply (idpath_cells w Hw i ci va vb); [done| |done..].
  apply Hjoin; [done..| |]; intros ->; congruence.
Qed.

Lemma connected_stable i ci :
  cubes w !! i = Some ci →
  connected4 (occupiedExcept w (Some (p ci))) → stableTest st i.
Proof.
  intros Hci Hconn. unfold stableTest.
  destruct (parentOf st i) as [pi|] eqn:Hpi.
  - intros c Hc. destruct (decide (lowOf st c < depthOf st i)) as [|Hge];
      [done|].
    exfalso.
    destruct (child_facts c i Hc) as (Hsc & _ & _ & _ & Hdc & _).
    destruct (child_facts i pi Hpi) as (_ & Hspi & _ & _ & Hdi & Hne & _).
    destruct (lookup_lt_is_Some_2 (cubes w) pi) as [cpi Hcpi].
    { pose proof (isSeen_lt _ _ Hspi). pose proof (inv_len _ _ _ Hinv). lia. }
    apply (below_cut w Hw st Hinv i ci c pi cpi); try done.
    + intros x u Hx He Hp.
      pose proof (proj2 (inv_lowA _ _ _ Hinv c Hsc (finished_any c)) x u
                    Hx He Hp). lia.
    + intros Ha. pose proof (anc_depth_le _ _ _ Hinv _ _ Ha). lia.
  - intros c1 c2 Hc1 Hc2. destruct (decide (c1 = c2)) as [|Hne]; [done|].
    exfalso.
    destruct (child_facts c1 i Hc1) as (_ & Hsi & _ & Hic1 & _ & Hne1 & _).
    destruct (child_facts c2 i Hc2) as (Hsc2 & _ & _ & _ & _ & Hne2 & _).
    destruct (lookup_lt_is_Some_2 (cubes w) c2) as [cc2 Hcc2].
    { pose proof (isSeen_lt _ _ Hsc2). pose proof (inv_len _ _ _ Hinv). lia. }
    assert (Hi0 : i = 0%nat).
    { pose proof (inv_reach _ _ _ Hinv i Hsi) as H0i.
      apply anc_inv in H0i as [<-|(y & Hy & _)]; [done | congruence]. }
    apply (below_cut w Hw st Hinv i ci c1 c2 cc2); try done.
    + intros x u Hx He Hp. subst i.
      rewrite (proj2 (inv_root _ _ _ Hinv) Hsi).
      apply (depth_nonneg _ _ _ Hinv), Hall. by eapply edge_lt.
    + intros [->|(y & Hy & Hay)]%anc_inv; [done|].
      rewrite Hc2 in Hy. injection Hy as <-.
      by destruct Hne1; apply (anc_antisym _ _ _ Hinv).
Qed.

End stable.

Lemma findCubeStability_articulation (w : World) :
  consistent w → connected4 (occupiedExcept w None) →
  ∃ stable,
    findCubeStability w = Ok stable ∧
    length stable = length (cubes w) ∧
    ∀ i c, cubes w !! i = Some c →
      (stable !! i = Some true ↔
       connected4 (occupiedExcept w (Some (p c)))).
Proof.
  intros Hw Hconn. unfold findCubeStability.
  case_bool_decide as Hn.
  { exists []. split_and!; [done..|]. intros i c Hc.
    apply lookup_lt_Some in Hc. lia. }
  set (n := length (cubes w)) in *.
  set (st0 := mkDfs (replicate n false) (replicate n None) (replicate n (-1))
                (replicate n (-1)) (replicate n true)).
  destruct (findCubeStabilityRecursive_total w Hw (Datatypes.S n) 0 0 st0)
    as (st & Hrun & _);
    [lia | by simpl; rewrite length_replicate | simpl; lia
    | apply isSeen_replicate |].
  rewrite Hrun. simpl. exists (dstable st). split; [done|].
  assert (Hp0 : ∀ v, parentOf st0 v = None).
  { intros v. unfold parentOf. simpl.
    destruct (replicate n None !! v) eqn:Hv; [|done].
    by apply lookup_replicate in Hv as [-> _]. }
  destruct (callSpec_all w Hw (Datatypes.S n) 0%nat 0 st0 [] st)
    as [Hinv Hfr];
    [| |by apply inv_init|done|].
  { unfold seenIn. simpl. by rewrite isSeen_replicate. }
  { intros c. by rewrite Hp0. }
  split; [apply (inv_len _ _ _ Hinv)|].
  destruct (lookup_lt_is_Some_2 (cubes w) 0) as [c0 Hc0]; [lia|].
  assert (Hall : ∀ v, (v < length (cubes w))%nat → seenIn st v).
  { intros v Hv. destruct (lookup_lt_is_Some_2 (cubes w) v Hv) as [cv Hcv].
    destruct (closed_path w Hw (occupiedExcept w None) (seenIn st)
                (p c0) (p cv)) with (ia := 0%nat) (ca := c0)
      as (ib & cb & Hcb & Hpb & HD); try done.
    - by intros q [? _].
    - intros x y cy Hx Hxy _ _.
      by apply (inv_closed _ _ _ Hinv x y Hx (finished_any x)).
    - apply Hconn; (split; [by eapply hasCube_cube | done]).
    - apply (fr_self _ _ _ _ Hfr).
    - by rewrite <- (cube_inj w Hw _ _ _ _ Hcb Hcv Hpb). }
  intros i c Hc.
  assert (Hst : dstable st !! i = Some true ↔ stableTest st i).
  { rewrite <- (inv_stable _ _ _ Hinv i); [|by eapply Hall, lookup_lt_Some
                                             |apply finished_any].
    unfold isSeen. destruct (dstable st !! i) as [[]|]; naive_solver. }
  rewrite Hst. split.
  - by apply stable_connected.
  - by apply connected_stable.
Qed.

(** X29. For a consistent world whose cubes are 4-connected,
    [findCubeStability] returns an array with one entry for each cube, and
    the entry of a cube is [true] exactly when the other cubes stay
    4-connected after that cube is taken away: the cubes marked [false] are
    the cut cubes. *)
Theorem findCubeStability_cut_cubes (w : World) :
  consistent w → connected4 (occupiedExcept w None) →
  ∃ stable,
    findCubeStability w = Ok stable ∧
    length stable = length (cubes w) ∧
    ∀ i c, cubes w !! i = Some c →
      (stable !! i = Some true ↔
       connected4 (occupiedExcept w (Some (p c)))).
Proof. exact (findCubeStability_articulation w). Qed.

(** The theorem at the L-shaped world of three cubes: only the corner cube
    is a cut cube. *)
Lemma findCubeStability_cut_cubes_witness :
  ∃ stable,
    findCubeStability (worldOfCells [(0, 0); (1, 0); (1, 1)]) = Ok stable ∧
    length stable = length (cubes (worldOfCells [(0, 0); (1, 0); (1, 1)])) ∧
    ∀ i c, cubes (worldOfCells [(0, 0); (1, 0); (1, 1)]) !! i = Some c →
      (stable !! i = Some true ↔
       connected4
         (occupiedExcept (worldOfCells [(0, 0); (1, 0); (1, 1)])
            (Some (p c)))).
Proof.
  apply (findCubeStability_cut_cubes (worldOfCells [(0, 0); (1, 0); (1, 1)])).
  - apply consistentb_sound. vm_compute. reflexivity.
  - apply isConnected_true; vm_compute; reflexivity.
Defined.

(** ** The statuses of [markComponents] tell the cut cubes *)

Lemma statusOf_stable v s :
  (statusOf v s = CHUNK_STABLE ∨ statusOf v s = LINK_STABLE → s = true) ∧
  (statusOf v s = CHUNK_CUT ∨ statusOf v s = LINK_CUT → s = false).
Proof.
  unfold statusOf. repeat case_bool_decide; destruct s; naive_solver.
Qed.

(** X30. In a consistent, 4-connected world [markComponents] gives every
    cube a status that tells whether it is a cut cube: without a cube marked
    [CHUNK_STABLE] or [LINK_STABLE] the other cubes are still 4-connected,
    without a cube marked [CHUNK_CUT] or [LINK_CUT] they are not. (A
    [CONNECTOR] can be either.) *)
Theorem markComponents_cut_status (w : World) :
  consistent w → connected4 (occupiedExcept w None) →
  ∃ w', markComponents w = Ok w' ∧
    ∀ c, c ∈ cubes w' →
      (componentStatus c = CHUNK_STABLE ∨ componentStatus c = LINK_STABLE →
       connected4 (occupiedExcept w' (Some (p c)))) ∧
      (componentStatus c = CHUNK_CUT ∨ componentStatus c = LINK_CUT →
       ¬ connected4 (occupiedExcept w' (Some (p c)))).
Proof.
  intros Hw Hconn.
  destruct (markComponents_spec w Hw) as (w' & Hm & Hw' & Hwd & Hcore & _).
  exists w'. split; [done|].
  assert (Hocc : ∀ skip q, occupiedExcept w' skip q ↔ occupiedExcept w skip q).
  { intros skip q. unfold occupiedExcept.
    rewrite (hasCube_iff w' q Hw'), (hasCube_iff w q Hw).
    by rewrite (map_core_p _ _ Hcore). }
  destruct (findCubeStability_articulation w Hw Hconn)
    as (stable & Hst & Hlen & Hiff).
  unfold markComponents in Hm.
  destruct (findComponents w) as [[components chunkIds]| |]; [|done..].
  rewrite bind_Ok, Hst, bind_Ok in Hm.
  destruct (outsideCubes _) as [outside| |]; [|done..].
  rewrite bind_Ok in Hm. injection Hm as <-. simpl in *.
  match goal with
  | |- context [foldl (markBoundary w) ?l outside] => set (cs := l) in *
  end.
  destruct (foldl_markBoundary_core w outside cs) as [Hc1 Hc2].
  intros c [i Hi]%list_elem_of_lookup.
  pose proof (map_eq_lookup componentStatus _ _ i Hc2) as H2.
  pose proof (map_eq_lookup p _ _ i (map_core_p _ _ Hc1)) as H3.
  rewrite Hi in H2, H3. unfold cs in H2, H3.
  rewrite list_lookup_imap in H2, H3.
  destruct (cubes w !! i) as [c0|] eqn:Hc0; [|done].
  simpl in H2, H3. injection H2 as H2. injection H3 as H3.
  specialize (Hiff i c0 Hc0). rewrite <- H3 in Hiff.
  destruct (statusOf_stable (getZ components i) (isSeen stable i))
    as [Hs Hn].
  rewrite <- H2 in Hs, Hn.
  assert (Hseen : isSeen stable i = true ↔ stable !! i = Some true).
  { unfold isSeen. destruct (stable !! i) as [[]|]; naive_solver. }
  split.
  - intros Hstat. eapply connected4_ext; [|apply Hiff, Hseen, Hs, Hstat].
    intros q. symmetry. apply Hocc.
  - intros Hstat Hc. specialize (Hn Hstat).
    assert (Hc' : connected4 (occupiedExcept w (Some (p c)))).
    { eapply connected4_ext; [|exact Hc]. intros q. apply Hocc. }
    apply Hiff, Hseen in Hc'. congruence.
Qed.

(** The theorem at the L-shaped world of three cubes. *)
Lemma markComponents_cut_status_witness :
  ∃ w', markComponents (worldOfCells [(0, 0); (1, 0); (1, 1)]) = Ok w' ∧
    ∀ c, c ∈ cubes w' →
      (componentStatus c = CHUNK_STABLE ∨ componentStatus c = LINK_STABLE →
       connected4 (occupiedExcept w' (Some (p c)))) ∧
      (componentStatus c = CHUNK_CUT ∨ componentStatus c = LINK_CUT →
       ¬ connected4 (occupiedExcept w' (Some (p c)))).
Proof.
  apply (markComponents_cut_status (worldOfCells [(0, 0); (1, 0); (1, 1)])).
  - apply consistentb_sound. vm_compute. reflexivity.
  - apply isConnected_true; vm_compute; reflexivity.
Defined.
